(** * NSE-TradeHub-Pro: the client-side price-series transformers

    A shallow embedding of the chart transformers and the indicator
    engine of the frontend (Renko, Point-and-Figure, Volume Profile,
    VWAP, SMA/RSI/MACD/Bollinger), with the properties the design
    document states about them.

    Numbers.  The TypeScript code computes on IEEE doubles.  The
    embedding keeps the shape of JavaScript arithmetic (the special
    values [Infinity], [-Infinity] and [NaN], with the results the
    language gives to division by zero and to comparisons with [NaN])
    on one carrier, [JS.num], whose finite values are rationals, and
    has two arithmetics on it.

    - Module [JS] has the exact operations.  They serve the properties
      that rounding does not touch: what a call returns or throws, the
      order, number and shape of its results, and arithmetic on inputs
      where every operation is exact.
    - Module [Double] rounds the result of every operation to the
      nearest double (53-bit significand, ties to even).  The modules
      [RenkoD], [VWAPD] and [IndicatorsD] are the transformers on this
      arithmetic, and the properties that depend on the values
      computed are stated there, with the rounding they allow.

    The exponent of a double is not bounded here: there is no overflow
    to [Infinity] and there are no subnormal numbers; and there is a
    single zero, which behaves as [+0]. *)

From Stdlib Require Import ZArith QArith Qround Qabs Qminmax Qpower Qreduction.
From Stdlib Require Import List Bool Lia Lra Psatz Permutation Sorted.
Import ListNotations.

Local Open Scope Q_scope.

(** ** JavaScript numbers *)

Module JS.

(** A number: a finite value, an infinity or [NaN].  The operations
    of this module are exact on the finite values; module [Double] has
    the rounded ones on the same numbers. *)
Inductive num : Type :=
  | Fin (q : Q)
  | PInf
  | NInf
  | NaN.

Definition of_Z (z : Z) : num := Fin (inject_Z z).
Definition of_nat (n : nat) : num := Fin (inject_Z (Z.of_nat n)).

Definition Qltb (x y : Q) : bool := negb (Qle_bool y x).

Definition neg (x : num) : num :=
  match x with
  | Fin q => Fin (- q)
  | PInf => NInf
  | NInf => PInf
  | NaN => NaN
  end.

Definition add (x y : num) : num :=
  match x, y with
  | NaN, _ | _, NaN => NaN
  | Fin a, Fin b => Fin (a + b)
  | PInf, NInf | NInf, PInf => NaN
  | PInf, _ | _, PInf => PInf
  | NInf, _ | _, NInf => NInf
  end.

Definition sub (x y : num) : num := add x (neg y).

(** The sign of an infinite product; a zero factor gives [NaN]. *)
Definition inf_of_sign (q : Q) (pos : bool) : num :=
  if Qeq_bool q 0 then NaN
  else if Bool.eqb (Qltb 0 q) pos then PInf else NInf.

Definition mul (x y : num) : num :=
  match x, y with
  | NaN, _ | _, NaN => NaN
  | Fin a, Fin b => Fin (a * b)
  | Fin a, PInf | PInf, Fin a => inf_of_sign a true
  | Fin a, NInf | NInf, Fin a => inf_of_sign a false
  | PInf, PInf | NInf, NInf => PInf
  | PInf, NInf | NInf, PInf => NInf
  end.

(** [1 / y]; the zero of the model is [+0], so [1 / 0] is [Infinity]. *)
Definition inv (y : num) : num :=
  match y with
  | Fin b => if Qeq_bool b 0 then PInf else Fin (/ b)
  | PInf | NInf => Fin 0
  | NaN => NaN
  end.

(** [x / y]: a finite quotient when [y] is finite and not zero,
    [0 / 0 = NaN], [x / 0 = +-Infinity] by the sign of [x]. *)
Definition div (x y : num) : num := mul x (inv y).

(** Comparisons: every comparison with [NaN] is [false]. *)
Definition lt (x y : num) : bool :=
  match x, y with
  | NaN, _ | _, NaN => false
  | Fin a, Fin b => Qltb a b
  | NInf, NInf => false
  | NInf, _ => true
  | _, PInf => match x with PInf => false | _ => true end
  | _, _ => false
  end.

Definition le (x y : num) : bool :=
  match x, y with
  | NaN, _ | _, NaN => false
  | Fin a, Fin b => Qle_bool a b
  | NInf, _ => true
  | _, PInf => true
  | _, _ => false
  end.

Definition gt (x y : num) : bool := lt y x.
Definition ge (x y : num) : bool := le y x.

(** [Math.floor], [Math.abs], [Math.min], [Math.max] (two arguments). *)
Definition floor (x : num) : num :=
  match x with
  | Fin q => Fin (inject_Z (Qfloor q))
  | _ => x
  end.

Definition abs (x : num) : num :=
  match x with
  | Fin q => Fin (Qabs q)
  | PInf | NInf => PInf
  | NaN => NaN
  end.

Definition min (x y : num) : num :=
  match x, y with
  | NaN, _ | _, NaN => NaN
  | _, _ => if le x y then x else y
  end.

Definition max (x y : num) : num :=
  match x, y with
  | NaN, _ | _, NaN => NaN
  | _, _ => if le x y then y else x
  end.

(** [Math.min(...xs)] and [Math.max(...xs)]: the empty spread gives
    [Infinity] and [-Infinity]. *)
Definition min_list (xs : list num) : num := fold_left min xs PInf.
Definition max_list (xs : list num) : num := fold_left max xs NInf.

(** [Math.pow(x, 2)]. *)
Definition square (x : num) : num := mul x x.

(** Truthiness of a number: [0] and [NaN] are falsy. *)
Definition truthy (x : num) : bool :=
  match x with
  | Fin q => negb (Qeq_bool q 0)
  | PInf | NInf => true
  | NaN => false
  end.

(** [x || d] on numbers. *)
Definition or_else (x d : num) : num := if truthy x then x else d.

(** How a call ends: with a value, with an exception, or not at all.
    [TypeError] and [RangeError] are raised by the language itself,
    [ThrownError] stands for an explicit [throw]. *)
Inductive exn : Type := TypeError | RangeError | ThrownError.

Inductive outcome (A : Type) : Type :=
  | Returns (a : A)
  | Throws (e : exn)
  | Diverges.
Arguments Returns {A} a.
Arguments Throws {A} e.
Arguments Diverges {A}.

Definition bind {A B} (m : outcome A) (k : A -> outcome B) : outcome B :=
  match m with
  | Returns a => k a
  | Throws e => Throws e
  | Diverges => Diverges
  end.

(** A value is rejected by an explicit [throw]; [TypeError] is what
    the language itself raises, on reading a property of [undefined]
    or reducing an empty array without a start value, and
    [RangeError] on an array that grows past the greatest length. *)
Definition configuration_error {A} (o : outcome A) : Prop :=
  o = Throws ThrownError.

(** The call returns or ends with [RangeError]. *)
Definition returns_or_RangeError {A} (o : outcome A) : Prop :=
  (exists a, o = Returns a) \/ o = Throws RangeError.

(** The values pushed by [for (v = a; v <= b; v++)].  The loop stops at
    once on [NaN] (the test is false).  When the counter or the bound
    is infinite and the test holds, the test holds for ever: the loop
    pushes until the array cannot grow, and the call ends with
    [RangeError: Invalid array length]. *)
Fixpoint count_up (n : nat) (a : Q) : list num :=
  match n with
  | O => []
  | S k => Fin a :: count_up k (a + 1)
  end.

Definition range_up (a b : num) : outcome (list num) :=
  match a, b with
  | Fin x, Fin y =>
      if Qle_bool x y then Returns (count_up (Z.to_nat (Qfloor (y - x) + 1)) x)
      else Returns []
  | Fin _, PInf => Throws RangeError
  | NInf, (Fin _ | PInf | NInf) => Throws RangeError
  | PInf, PInf => Throws RangeError
  | _, _ => Returns []
  end.

(** The values pushed by [for (v = a; v >= b; v--)]. *)
Fixpoint count_down (n : nat) (a : Q) : list num :=
  match n with
  | O => []
  | S k => Fin a :: count_down k (a - 1)
  end.

Definition range_down (a b : num) : outcome (list num) :=
  match a, b with
  | Fin x, Fin y =>
      if Qle_bool y x then Returns (count_down (Z.to_nat (Qfloor (x - y) + 1)) x)
      else Returns []
  | Fin _, NInf => Throws RangeError
  | PInf, (Fin _ | PInf | NInf) => Throws RangeError
  | NInf, NInf => Throws RangeError
  | _, _ => Returns []
  end.

(** The number of turns of [for (j = 0; j < n; j++)], a loop that
    pushes on an array at every turn: without a bound it ends with
    [RangeError]. *)
Definition turns (n : num) : outcome nat :=
  match n with
  | Fin q => Returns (Z.to_nat (Qceiling q))
  | PInf => Throws RangeError
  | NInf | NaN => Returns O
  end.

End JS.

Import JS.

Declare Scope js_scope.
Delimit Scope js_scope with js.
Notation "x <- m ;; k" := (bind m (fun x => k))
  (at level 61, m at next level, right associativity) : js_scope.

(** ** Double precision

    The finite numbers of the program are IEEE-754 doubles: every
    arithmetic operation returns the double nearest to the exact
    result, ties going to the even significand.  [round64] is that
    rounding on rationals, for the 53-bit significand of the format
    and an exponent without bounds: there is no overflow to
    [Infinity] and there are no subnormal numbers.  The functions
    whose results depend on the rounding are embedded a second time
    with the rounded operations below. *)

Module Double.

(** [2^e]. *)
Definition pow2 (e : Z) : Q := Qpower 2 e.

(** The integer nearest to [t]; halfway between two, the even one. *)
Definition round_even (t : Q) : Z :=
  let f := Qfloor t in
  match Qcompare (t - inject_Z f) (1 # 2) with
  | Lt => f
  | Gt => (f + 1)%Z
  | Eq => if Z.even f then f else (f + 1)%Z
  end.

(** For [x > 0], the exponent [e] with [2^52 <= x / 2^e < 2^53]. *)
Definition exponent (x : Q) : Z :=
  let e1 := (Z.log2 (Qnum x) - Z.log2 (Zpos (Qden x)) - 52)%Z in
  if Qle_bool (pow2 52) (x / pow2 e1) then e1 else (e1 - 1)%Z.

Definition round_pos (x : Q) : Q :=
  let e := exponent x in inject_Z (round_even (x / pow2 e)) * pow2 e.

Definition round64 (x : Q) : Q :=
  let y := Qred x in
  match Qcompare y 0 with
  | Eq => 0
  | Gt => Qred (round_pos y)
  | Lt => Qred (- round_pos (- y))
  end.

(** The unit roundoff [2^-53], and the two factors a rounding keeps a
    positive number between. *)
Definition u : Q := pow2 (-53).

(** A number of the payload, or a literal of the program, as the
    double it is read as. *)
Definition dbl (q : Q) : num := Fin (round64 q).

Definition rnd (x : num) : num :=
  match x with
  | Fin q => Fin (round64 q)
  | _ => x
  end.

(** [x + y], [x - y], [x * y] and [x / y] on doubles. *)
Definition fadd (x y : num) : num := rnd (add x y).
Definition fsub (x y : num) : num := rnd (sub x y).
Definition fmul (x y : num) : num := rnd (mul x y).
Definition fdiv (x y : num) : num := rnd (div x y).

(** [a^n], and the factor by which [n] roundings can move a positive
    number up, or its inverse down. *)
Fixpoint qpow (a : Q) (n : nat) : Q :=
  match n with
  | O => 1
  | S k => a * qpow a k
  end.

Definition slack (n : nat) : Q := qpow ((1 + u) / (1 - u)) n.

(** A whole number small enough for sums, differences and products
    of two such numbers to be doubles. *)
Definition whole (q : Q) : Prop :=
  exists z : Z, q == inject_Z z /\ (Z.abs z <= 2 ^ 51)%Z.

(** The same number, up to the representation of a rational. *)
Definition same_num (x y : num) : Prop :=
  match x, y with
  | Fin a, Fin b => a == b
  | PInf, PInf | NInf, NInf | NaN, NaN => True
  | _, _ => False
  end.

End Double.

(** ** Data model *)

(** One OHLCV bar of the price history.  [date] is the instant that
    [new Date(d.date).getTime()] gives, in milliseconds. *)
Module Bar.
Record PriceBar : Type := mkBar {
  date : Z;
  open : Q;
  high : Q;
  low : Q;
  close : Q;
  volume : Q
}.
End Bar.
Import Bar.

(** ** Series normalizer ([sortAndDeduplicateData]) *)

(** [[...priceData].sort((a, b) => t(a) - t(b))]: the sort of the
    language is stable, so bars of one timestamp keep their order. *)
Fixpoint insert_by_date (x : PriceBar) (l : list PriceBar) : list PriceBar :=
  match l with
  | [] => [x]
  | y :: l' =>
      if (date x <=? date y)%Z then x :: y :: l'
      else y :: insert_by_date x l'
  end.

Fixpoint sort_by_date (l : list PriceBar) : list PriceBar :=
  match l with
  | [] => []
  | x :: l' => insert_by_date x (sort_by_date l')
  end.

(** A [Map] keyed by timestamp: [set] overwrites the value of a key
    that is present and keeps its position, and appends a new key;
    [values()] lists the values in the order the keys were first set. *)
Definition TsMap := list (Z * PriceBar).

Fixpoint map_set (k : Z) (v : PriceBar) (m : TsMap) : TsMap :=
  match m with
  | [] => [(k, v)]
  | (k', v') :: m' =>
      if (k =? k')%Z then (k, v) :: m' else (k', v') :: map_set k v m'
  end.

Definition map_values (m : TsMap) : list PriceBar := map snd m.

Definition sortAndDeduplicateData (priceData : list PriceBar) : list PriceBar :=
  let sorted := sort_by_date priceData in
  let uniqueMap :=
    fold_left (fun m item => map_set (date item) item m) sorted [] in
  map_values uniqueMap.

(** Ascending dates, and maps whose keys are the dates of their bars. *)
Definition date_le (a b : PriceBar) : Prop := (date a <= date b)%Z.

Definition well_keyed (m : TsMap) : Prop :=
  forall k v, In (k, v) m -> k = date v.

(** ** Renko brick builder ([RenkoChart.tsx]) *)

Module Candle.
(** [CandlestickData] of the charting library. *)
Record t : Type := mk {
  time : num;
  open : num;
  high : num;
  low : num;
  close : num
}.
End Candle.

Module Renko.

(** The running variables of [calculateRenkoBricks]. *)
Record state : Type := mkState {
  currentBrickPrice : num;
  brickTime : num;
  bricks : list Candle.t
}.

(** The inner loop [for (let j = 0; j < numBricks; j++)], [n] turns left. *)
Fixpoint emit (n : nat) (j : nat) (direction brickSize : num) (bt : num)
    (cur : num) (acc : list Candle.t) : num * list Candle.t :=
  match n with
  | O => (cur, acc)
  | S n' =>
      let brickOpen := cur in
      let brickClose := add cur (mul direction brickSize) in
      let brick := Candle.mk (add bt (of_nat j)) brickOpen
                     (max brickOpen brickClose) (min brickOpen brickClose)
                     brickClose in
      emit n' (S j) direction brickSize bt brickClose (acc ++ [brick])
  end.

(** One turn of the outer loop, for the bar with close [price]. *)
Definition step (brickSize : num) (st : state) (price : num) : outcome state :=
  let priceDiff := sub price (currentBrickPrice st) in
  let numBricks := floor (div (abs priceDiff) brickSize) in
  if gt numBricks (Fin 0) then
    let direction := if gt priceDiff (Fin 0) then Fin 1 else Fin (-1) in
    (n <- turns numBricks ;;
     let '(cur, bs) := emit n O direction brickSize (brickTime st)
                         (currentBrickPrice st) (bricks st) in
     Returns (mkState cur (add (brickTime st) numBricks) bs))%js
  else Returns st.

Fixpoint loop (brickSize : num) (st : state) (cleanData : list PriceBar)
    : outcome state :=
  match cleanData with
  | [] => Returns st
  | d :: rest =>
      (st' <- step brickSize st (Fin (close d)) ;; loop brickSize st' rest)%js
  end.

(** The state before the loop; [cleanData[0]] of an empty array is
    [undefined], and reading its [close] throws. *)
Definition init (brickSize : num) (cleanData : list PriceBar) : outcome state :=
  match cleanData with
  | [] => Throws TypeError
  | first :: _ =>
      Returns (mkState
                 (mul (floor (div (Fin (close first)) brickSize)) brickSize)
                 (div (of_Z (date first)) (Fin 1000))
                 [])
  end.

(** The part of [calculateRenkoBricks] that follows the cleaning. *)
Definition run (brickSize : num) (cleanData : list PriceBar)
    : outcome (list Candle.t) :=
  (st0 <- init brickSize cleanData ;;
   st <- loop brickSize st0 cleanData ;;
   Returns (bricks st))%js.

Definition calculateRenkoBricks (priceData : list PriceBar) (brickSize : Q)
    : outcome (list Candle.t) :=
  match priceData with
  | [] => Returns []
  | _ => run (Fin brickSize) (sortAndDeduplicateData priceData)
  end.

(** *** Notions used to state the properties of the bricks *)

(** The bricks of one bar and the price they end at, on rationals:
    [n] bricks from price [c] in direction [dir], the first with
    sequence number [j]. *)
Fixpoint bricks_from (n : nat) (j : nat) (dir bs bt c : Q) : list Candle.t :=
  match n with
  | O => []
  | S n' =>
      let cl := c + dir * bs in
      Candle.mk (Fin (bt + inject_Z (Z.of_nat j))) (Fin c)
        (max (Fin c) (Fin cl)) (min (Fin c) (Fin cl)) (Fin cl)
      :: bricks_from n' (S j) dir bs bt cl
  end.

Fixpoint price_after (n : nat) (dir bs c : Q) : Q :=
  match n with
  | O => c
  | S n' => price_after n' dir bs (c + dir * bs)
  end.

(** Each brick opens where the one before it closed, starting at [prev]. *)
Fixpoint linked (prev : num) (l : list Candle.t) : Prop :=
  match l with
  | [] => True
  | b :: rest => Candle.open b = prev /\ linked (Candle.close b) rest
  end.

(** The close of the last brick, [start] when there is none. *)
Fixpoint end_price (start : num) (l : list Candle.t) : num :=
  match l with
  | [] => start
  | b :: rest => end_price (Candle.close b) rest
  end.

(** A brick of height [bs] whose high and low are its two ends. *)
Definition unit_brick (bs : Q) (b : Candle.t) : Prop :=
  exists o c h l,
    Candle.open b = Fin o /\ Candle.close b = Fin c /\
    Candle.high b = Fin h /\ Candle.low b = Fin l /\
    Qabs (c - o) == bs /\ h == Qmax o c /\ l == Qmin o c.


(** The invariant of the loop for a positive brick size. *)
Definition chain_inv (bs : Q) (start : num) (st : state) : Prop :=
  (exists c, currentBrickPrice st = Fin c) /\
  (exists t, brickTime st = Fin t) /\
  Forall (unit_brick bs) (bricks st) /\
  linked start (bricks st) /\
  end_price start (bricks st) = currentBrickPrice st.


End Renko.

(** ** Point-and-Figure column builder ([PointFigureChart]) *)

Module PF.

Inductive PFType : Type := X | O.

Record PFColumn : Type := mkColumn {
  type : PFType;
  boxes : list num;
  startIndex : nat
}.

(** [boxes[boxes.length - 1]]: the last box pushed.  Of an empty array
    it is [undefined]; [lastBox] is only compared and computed with,
    where [undefined] counts as [NaN]. *)
Definition lastBoxOf (c : PFColumn) : num := last (boxes c) NaN.

(** [currentColumn] is always the object pushed last on [columns], and
    [currentColumn.boxes.push] changes that object: the current column
    is the last entry of the list. *)
Definition push_boxes (columns : list PFColumn) (bs : list num) : list PFColumn :=
  match rev columns with
  | [] => []
  | c :: before =>
      rev before ++ [mkColumn (type c) (boxes c ++ bs) (startIndex c)]
  end.

(** One turn of the loop, for bar [i] with the given [high] and [low]. *)
Definition step (currentPrice boxSize reversalAmount : num)
    (columns : list PFColumn) (i : nat) (hi lo : num)
    : outcome (list PFColumn) :=
  match rev columns with
  | [] =>
      let startBox := floor (div currentPrice boxSize) in
      Returns (columns ++ [mkColumn X [startBox] i])
  | currentColumn :: _ =>
      let lastBox := lastBoxOf currentColumn in
      match type currentColumn with
      | X =>
          let newHighBox := floor (div hi boxSize) in
          if gt newHighBox lastBox then
            (bs <- range_up (add lastBox (Fin 1)) newHighBox ;;
             Returns (push_boxes columns bs))%js
          else if ge (sub (mul lastBox boxSize) lo) (mul boxSize reversalAmount) then
            let newLowBox := floor (div lo boxSize) in
            (bs <- range_down (sub lastBox (Fin 1)) newLowBox ;;
             Returns (columns ++ [mkColumn O bs i]))%js
          else Returns columns
      | O =>
          let newLowBox := floor (div lo boxSize) in
          if lt newLowBox lastBox then
            (bs <- range_down (sub lastBox (Fin 1)) newLowBox ;;
             Returns (push_boxes columns bs))%js
          else if ge (sub hi (mul lastBox boxSize)) (mul boxSize reversalAmount) then
            let newHighBox := floor (div hi boxSize) in
            (bs <- range_up (add lastBox (Fin 1)) newHighBox ;;
             Returns (columns ++ [mkColumn X bs i]))%js
          else Returns columns
      end
  end.

(** The loop from bar [i] on. *)
Fixpoint loop (currentPrice boxSize reversalAmount : num)
    (columns : list PFColumn) (i : nat) (rest : list PriceBar)
    : outcome (list PFColumn) :=
  match rest with
  | [] => Returns columns
  | d :: rest' =>
      (columns' <- step currentPrice boxSize reversalAmount columns i
                     (Fin (high d)) (Fin (low d)) ;;
       loop currentPrice boxSize reversalAmount columns' (S i) rest')%js
  end.

Definition calculatePointFigure (priceData : list PriceBar)
    (boxSize reversalAmount : Q) : outcome (list PFColumn) :=
  match priceData with
  | [] => Returns []
  | first :: _ =>
      let currentPrice := Fin (close first) in
      loop currentPrice (Fin boxSize) (Fin reversalAmount) [] 0%nat priceData
  end.

(** *** Notions used to state the properties of the columns *)

(** The rationals that [count_up] and [count_down] wrap. *)
Fixpoint q_up (n : nat) (a : Q) : list Q :=
  match n with
  | 0%nat => []
  | S k => a :: q_up k (a + 1)
  end.

Fixpoint q_down (n : nat) (a : Q) : list Q :=
  match n with
  | 0%nat => []
  | S k => a :: q_down k (a - 1)
  end.

(** The boxes of an X column ascend and those of an O column descend,
    in the order they were pushed. *)
Definition col_ok (c : PFColumn) : Prop :=
  exists qs,
    boxes c = map Fin qs /\
    match type c with
    | X => StronglySorted Qlt qs
    | O => StronglySorted (fun a b => b < a) qs
    end.

(** Neighbouring entries differ. *)
Fixpoint alternating (ts : list PFType) : Prop :=
  match ts with
  | [] => True
  | t :: rest =>
      match rest with
      | [] => True
      | t' :: _ => t <> t' /\ alternating rest
      end
  end.

(** [e] is the topmost box of an X column, the bottommost of an O
    column. *)
Definition extreme_box (c : PFColumn) (e : Q) : Prop :=
  In (Fin e) (boxes c) /\
  forall q, In (Fin q) (boxes c) ->
    match type c with
    | X => q <= e
    | O => e <= q
    end.

(** The bar [d] moves against column [c] by [reversalAmount] boxes or
    more, counted from the extreme box of [c]. *)
Definition reversal_from (c : PFColumn) (d : PriceBar)
    (boxSize reversalAmount : Q) : Prop :=
  exists e,
    extreme_box c e /\
    match type c with
    | X => reversalAmount * boxSize <= e * boxSize - low d
    | O => reversalAmount * boxSize <= high d - e * boxSize
    end.

(** What holds of the column list all along the loop. *)
Definition cols_inv (columns : list PFColumn) : Prop :=
  Forall col_ok columns /\ alternating (map type columns).

End PF.

(** ** Arrays *)

(** [arr[z]] of an array of numbers, for use in arithmetic: outside
    the array it is [undefined], which counts as [NaN] there. *)
Definition get_num (arr : list num) (z : Z) : num :=
  if (z <? 0)%Z then NaN else nth (Z.to_nat z) arr NaN.

(** [arr.slice(s, e)]: a negative bound counts from the end. *)
Definition slice_bound (len z : Z) : Z :=
  if (z <? 0)%Z then Z.max (len + z) 0 else Z.min z len.

Definition slice {A} (arr : list A) (s e : Z) : list A :=
  let len := Z.of_nat (length arr) in
  let s' := slice_bound len s in
  let e' := slice_bound len e in
  firstn (Z.to_nat (e' - s')) (skipn (Z.to_nat s') arr).

(** [arr.slice(s)]. *)
Definition slice_from {A} (arr : list A) (s : Z) : list A :=
  skipn (Z.to_nat (slice_bound (Z.of_nat (length arr)) s)) arr.

(** [arr.map((x, idx) => f x idx)]. *)
Fixpoint mapi_from {A B} (i : nat) (f : A -> nat -> B) (arr : list A) : list B :=
  match arr with
  | [] => []
  | x :: rest => f x i :: mapi_from (S i) f rest
  end.

Definition mapi {A B} (f : A -> nat -> B) (arr : list A) : list B :=
  mapi_from 0 f arr.

(** The integers [from, from + 1, ...], [n] of them. *)
Fixpoint z_seq (from : Z) (n : nat) : list Z :=
  match n with
  | O => []
  | S k => from :: z_seq (from + 1) k
  end.

(** ** Volume profile ([VolumeProfileChart.drawVolumeProfile]) *)

Module VolumeProfile.

Record Bin : Type := mkBin {
  price : num;
  volume : num
}.

(** What the drawing code computes from the bars, once it has its
    canvas (200 by 400) and drawing context: the bins after the
    accumulation, the scaling maximum, the width of each drawn bar and
    the height of the point-of-control line. *)
Record Profile : Type := mkProfile {
  volumeBins : list Bin;
  maxVolume : num;
  barWidths : list num;
  pocY : num
}.

Definition canvas_width : num := Fin 200.
Definition canvas_height : num := Fin 400.

(** [for (let i = 0; i < bins; i++) volumeBins.push(...)]. *)
Definition createBins (minPrice binSize : num) (bins : Z) : list Bin :=
  map (fun i => mkBin (add (add minPrice (mul (of_Z i) binSize))
                           (div binSize (Fin 2)))
                      (Fin 0))
      (z_seq 0 (Z.to_nat bins)).

(** The array position a number selects, if it is one. *)
Definition as_index (x : num) : option nat :=
  match x with
  | Fin q =>
      if Qeq_bool q (inject_Z (Qfloor q)) && (0 <=? Qfloor q)%Z
      then Some (Z.to_nat (Qfloor q)) else None
  | _ => None
  end.

Fixpoint add_volume (vbins : list Bin) (k : nat) (v : num) : option (list Bin) :=
  match vbins, k with
  | [], _ => None
  | b :: rest, O => Some (mkBin (price b) (add (volume b) v) :: rest)
  | b :: rest, S k' =>
      match add_volume rest k' v with
      | Some rest' => Some (b :: rest')
      | None => None
      end
  end.

(** The body of [priceData.forEach(d => ...)]; [volumeBins[binIndex]]
    outside the array is [undefined], and reading its [volume] throws. *)
Definition accumulate (minPrice binSize : num) (bins : Z)
    (vbins : list Bin) (d : PriceBar) : outcome (list Bin) :=
  let binIndex :=
    min (floor (div (sub (Fin (close d)) minPrice) binSize))
        (sub (of_Z bins) (Fin 1)) in
  if ge binIndex (Fin 0) && lt binIndex (of_Z bins) then
    match as_index binIndex with
    | Some k =>
        match add_volume vbins k (Fin (Bar.volume d)) with
        | Some vbins' => Returns vbins'
        | None => Throws TypeError
        end
    | None => Throws TypeError
    end
  else Returns vbins.

Fixpoint accumulate_all (minPrice binSize : num) (bins : Z)
    (vbins : list Bin) (priceData : list PriceBar) : outcome (list Bin) :=
  match priceData with
  | [] => Returns vbins
  | d :: rest =>
      (vbins' <- accumulate minPrice binSize bins vbins d ;;
       accumulate_all minPrice binSize bins vbins' rest)%js
  end.

(** The bins as they stand after the accumulation. *)
Definition binVolumes (priceData : list PriceBar) (bins : Z)
    : outcome (list Bin) :=
  let prices := map (fun d => Fin (close d)) priceData in
  let minPrice := min_list prices in
  let maxPrice := max_list prices in
  let priceRange := sub maxPrice minPrice in
  let binSize := div priceRange (of_Z bins) in
  accumulate_all minPrice binSize bins (createBins minPrice binSize bins)
    priceData.

(** [volumeBins.reduce((max, bin) => bin.volume > max.volume ? bin : max)]
    followed by [volumeBins.indexOf(pocBin)]: the position of the first
    bin of greatest volume.  Without a first element [reduce] throws. *)
Fixpoint poc_from (best : nat) (bestVolume : num) (i : nat) (rest : list Bin)
    : nat :=
  match rest with
  | [] => best
  | b :: rest' =>
      if gt (volume b) bestVolume then poc_from i (volume b) (S i) rest'
      else poc_from best bestVolume (S i) rest'
  end.

Definition pocIndex (vbins : list Bin) : outcome nat :=
  match vbins with
  | [] => Throws TypeError
  | b :: rest => Returns (poc_from 0 (volume b) 1 rest)
  end.

Definition drawVolumeProfile (priceData : list PriceBar) (bins : Z)
    : outcome Profile :=
  (vbins <- binVolumes priceData bins ;;
   let maxVol := max_list (map volume vbins) in
   let barHeight := div canvas_height (of_Z bins) in
   let widths :=
     map (fun b => mul (div (volume b) maxVol) (sub canvas_width (Fin 60)))
         vbins in
   poc <- pocIndex vbins ;;
   let y := add (sub canvas_height (mul (add (of_nat poc) (Fin 1)) barHeight))
                (div barHeight (Fin 2)) in
   Returns (mkProfile vbins maxVol widths y))%js.

End VolumeProfile.

(** The sum of a list of rationals. *)
Definition Qsum (l : list Q) : Q := fold_right Qplus 0 l.

(** Least and greatest element of a list of rationals ([0] when empty). *)
Definition Qmin_list (l : list Q) : Q :=
  match l with
  | [] => 0
  | x :: rest => fold_left Qmin rest x
  end.

Definition Qmax_list (l : list Q) : Q :=
  match l with
  | [] => 0
  | x :: rest => fold_left Qmax rest x
  end.

(** ** VWAP and its bands ([VWAPChart.calculateVWAP]) *)

Module VWAP.

(** [LineData] of the charting library. *)
Record LineData : Type := mkLine {
  time : num;
  value : num
}.

Record Result : Type := mkResult {
  vwap : list LineData;
  upperBand : list LineData;
  lowerBand : list LineData
}.

(** The accumulators of the pass. *)
Record acc : Type := mkAcc {
  cumulativePV : num;
  cumulativeVolume : num;
  cumulativeSquaredDiff : num;
  out : Result
}.

Section WithSqrt.

(** [Math.sqrt], which has no exact rational counterpart. *)
Variable Math_sqrt : num -> num.

(** The body of [priceData.forEach((d, index) => ...)]. *)
Definition step (a : acc) (d : PriceBar) : acc :=
  let typicalPrice :=
    div (add (add (Fin (high d)) (Fin (low d))) (Fin (close d))) (Fin 3) in
  let pv := mul typicalPrice (Fin (volume d)) in
  let cumPV := add (cumulativePV a) pv in
  let cumVol := add (cumulativeVolume a) (Fin (volume d)) in
  let vwapValue := div cumPV cumVol in
  let t := div (of_Z (date d)) (Fin 1000) in
  let squaredDiff :=
    mul (square (sub typicalPrice vwapValue)) (Fin (volume d)) in
  let cumSq := add (cumulativeSquaredDiff a) squaredDiff in
  let variance := div cumSq cumVol in
  let stdDev := Math_sqrt variance in
  mkAcc cumPV cumVol cumSq
    (mkResult
       (vwap (out a) ++ [mkLine t vwapValue])
       (upperBand (out a) ++ [mkLine t (add vwapValue (mul (Fin 2) stdDev))])
       (lowerBand (out a) ++ [mkLine t (sub vwapValue (mul (Fin 2) stdDev))])).

Definition calculateVWAP (priceData : list PriceBar) : Result :=
  out (fold_left step priceData
         (mkAcc (Fin 0) (Fin 0) (Fin 0) (mkResult [] [] []))).

End WithSqrt.

(** [(d.high + d.low + d.close) / 3]. *)
Definition typicalPrice (d : PriceBar) : Q := (high d + low d + close d) / 3.

(** The VWAP values of the pass, computed on rationals: the running
    sums start from [pv] and [cv]. *)
Fixpoint vwap_values (pv cv : Q) (bars : list PriceBar) : list Q :=
  match bars with
  | [] => []
  | d :: rest =>
      let pv' := pv + typicalPrice d * volume d in
      let cv' := cv + volume d in
      pv' / cv' :: vwap_values pv' cv' rest
  end.

End VWAP.

(** ** Indicator engine ([TechnicalIndicators.tsx]) *)

Module Indicators.

(** One row of [chartData]; [None] is [null].  [date] stands for the
    display string made from the bar's date. *)
Record Row : Type := mkRow {
  date : Z;
  price : num;
  sma20 : option num;
  sma50 : option num;
  rsi : option num;
  macd : num;
  signal : num;
  upperBand : option num;
  lowerBand : option num
}.

(** [arr.reduce((a, b) => a + b, 0)]. *)
Definition sum (arr : list num) : num := fold_left add arr (Fin 0).

(** [arr[idx]] of an array with [null] entries, used as a number or
    as a condition: [null] and [undefined] are falsy. *)
Definition get_opt (arr : list (option num)) (idx : nat) : option num :=
  nth idx arr None.

Section Engine.

Variable Math_sqrt : num -> num.

(** [prices], the closes of the bars the engine works on. *)
Variable prices : list num.

Definition calculateSMA (period : Z) : list (option num) :=
  mapi (fun _ idx =>
          if (Z.of_nat idx <? period - 1)%Z then None
          else
            let s := sum (slice prices (Z.of_nat idx - period + 1)
                                       (Z.of_nat idx + 1)) in
            Some (div s (of_Z period)))
       prices.

(** The inner loop of [calculateRSI]: one turn for index [j]. *)
Definition rsi_turn (gl : num * num) (j : Z) : num * num :=
  let '(gains, losses) := gl in
  let change := sub (get_num prices j) (get_num prices (j - 1)) in
  if gt change (Fin 0) then (add gains change, losses)
  else (gains, sub losses change).

Definition rsi_at (period : Z) (i : nat) : option num :=
  if (Z.of_nat i <? period)%Z then None
  else
    let '(gains, losses) :=
      fold_left rsi_turn
        (z_seq (Z.of_nat i - period + 1) (Z.to_nat period))
        (Fin 0, Fin 0) in
    let avgGain := div gains (of_Z period) in
    let avgLoss := div losses (of_Z period) in
    let rs := div avgGain (or_else avgLoss (Fin 1)) in
    Some (sub (Fin 100) (div (Fin 100) (add (Fin 1) rs))).

Definition calculateRSI (period : Z) : list (option num) :=
  map (rsi_at period) (seq 0 (length prices)).

(** [calculateEMA]: [ema] starts as [[data[0]]] and gets one entry for
    each later element of [data]. *)
Fixpoint ema_from (k : num) (prev : num) (rest : list num) : list num :=
  match rest with
  | [] => []
  | x :: rest' =>
      let e := add (mul x k) (mul prev (sub (Fin 1) k)) in
      e :: ema_from k e rest'
  end.

Definition calculateEMA (data : list num) (period : Z) : list num :=
  let k := div (Fin 2) (add (of_Z period) (Fin 1)) in
  let first := nth 0 data NaN in
  first :: ema_from k first (tl data).

Definition ema12 : list num := calculateEMA prices 12.
Definition ema26 : list num := calculateEMA prices 26.
Definition macdLine : list num :=
  mapi (fun val idx => sub val (get_num ema26 (Z.of_nat idx))) ema12.
Definition signalLine : list num := calculateEMA macdLine 9.

Definition calculateStdDev (idx : nat) (period : Z) : num :=
  if (Z.of_nat idx <? period - 1)%Z then Fin 0
  else
    let sl := slice prices (Z.of_nat idx - period + 1) (Z.of_nat idx + 1) in
    let mean :=
      match get_opt (calculateSMA 20) idx with
      | Some m => or_else m (Fin 0)
      | None => Fin 0
      end in
    let variance :=
      div (fold_left (fun s val => add s (square (sub val mean))) sl (Fin 0))
          (of_Z period) in
    Math_sqrt variance.

Definition row (d : PriceBar) (idx : nat) : Row :=
  let s20 := get_opt (calculateSMA 20) idx in
  mkRow (Bar.date d)
        (Fin (close d))
        s20
        (get_opt (calculateSMA 50) idx)
        (get_opt (calculateRSI 14) idx)
        (get_num macdLine (Z.of_nat idx))
        (get_num signalLine (Z.of_nat idx))
        (match s20 with
         | Some m =>
             if truthy m
             then Some (add m (mul (Fin 2) (calculateStdDev idx 20)))
             else None
         | None => None
         end)
        (match s20 with
         | Some m =>
             if truthy m
             then Some (sub m (mul (Fin 2) (calculateStdDev idx 20)))
             else None
         | None => None
         end).

End Engine.

(** The memoised computation of the component: [null] without data,
    else the rows of [chartData]. *)
Definition indicators (Math_sqrt : num -> num) (data : list PriceBar)
    : option (list Row) :=
  match data with
  | [] => None
  | _ =>
      let limitedData := slice_from data (-100) in
      let prices := map (fun d => Fin (close d)) limitedData in
      Some (mapi (row Math_sqrt prices) limitedData)
  end.

(** The bars the engine works on: the last [min n 100] of the input. *)
Definition window (data : list PriceBar) : list PriceBar :=
  skipn (length data - Nat.min (length data) 100) data.

End Indicators.

(** ** Further code of the chart files *)

(** [Map.get] on the timestamp map. *)
Fixpoint map_get (k : Z) (m : TsMap) : option PriceBar :=
  match m with
  | [] => None
  | (k', v) :: m' => if (k =? k')%Z then Some v else map_get k m'
  end.

(** The bars of a list that carry timestamp [t], in the order of the list. *)
Definition with_date (t : Z) (l : list PriceBar) : list PriceBar :=
  filter (fun b => (date b =? t)%Z) l.

(** *** Heikin-Ashi candles ([HeikinAshiChart.calculateHeikinAshi]) *)

Module HeikinAshi.

(** [prevHA], the open and close of the candle before. *)
Record PrevHA : Type := mkPrev {
  open : num;
  close : num
}.

(** [(candle.open + candle.high + candle.low + candle.close) / 4]. *)
Definition average (candle : PriceBar) : num :=
  div (add (add (add (Fin (Bar.open candle)) (Fin (Bar.high candle)))
                (Fin (Bar.low candle)))
           (Fin (Bar.close candle)))
      (Fin 4).

(** One turn of the loop over [cleanData]. *)
Definition step (st : PrevHA * list Candle.t) (candle : PriceBar)
    : PrevHA * list Candle.t :=
  let '(prevHA, haData) := st in
  let haClose := average candle in
  let haOpen := div (add (open prevHA) (close prevHA)) (Fin 2) in
  let haHigh := max_list [Fin (Bar.high candle); haOpen; haClose] in
  let haLow := min_list [Fin (Bar.low candle); haOpen; haClose] in
  (mkPrev haOpen haClose,
   haData ++ [Candle.mk (div (of_Z (date candle)) (Fin 1000))
                        haOpen haHigh haLow haClose]).

Definition calculateHeikinAshi (priceData : list PriceBar)
    : outcome (list Candle.t) :=
  match priceData with
  | [] => Returns []
  | _ =>
      let cleanData := sortAndDeduplicateData priceData in
      match cleanData with
      | [] => Throws TypeError
      | first :: _ =>
          let prevHA := mkPrev (Fin (Bar.open first)) (average first) in
          Returns (snd (fold_left step cleanData (prevHA, [])))
      end
  end.

(** *** Notions used to state the properties of the candles *)

(** [(open + high + low + close) / 4] on rationals. *)
Definition averageQ (d : PriceBar) : Q :=
  (Bar.open d + Bar.high d + Bar.low d + Bar.close d) / 4.

(** The candles that the bars give when the candle before them had
    open [po] and close [pc]: each candle opens at the middle of the
    candle before, closes at the average of its bar, and its high and
    low are the greatest and the least of the bar's high (low), its
    open and its close. *)
Fixpoint follows (po pc : Q) (bars : list PriceBar) (cs : list Candle.t)
    : Prop :=
  match bars, cs with
  | [], [] => True
  | d :: bars', c :: cs' =>
      let o := (po + pc) / 2 in
      let cl := averageQ d in
      exists h l,
        c = Candle.mk (Fin (inject_Z (date d) / 1000)) (Fin o) (Fin h) (Fin l)
                      (Fin cl) /\
        In h [Bar.high d; o; cl] /\ Forall (fun x => x <= h) [Bar.high d; o; cl] /\
        In l [Bar.low d; o; cl] /\ Forall (fun x => l <= x) [Bar.low d; o; cl] /\
        follows o cl bars' cs'
  | _, _ => False
  end.

End HeikinAshi.

(** *** The effects of [VWAPChart] and [VolumeProfileChart] *)

Module ChartEffect.

(** The keys of the map are seconds, [getTime() / 1000]; a [Map]
    compares number keys by value, and [NaN] with itself as equal. *)
Definition same_key (x y : num) : bool :=
  match x, y with
  | Fin a, Fin b => Qeq_bool a b
  | PInf, PInf | NInf, NInf | NaN, NaN => true
  | _, _ => false
  end.

Definition SecMap := list (num * PriceBar).

Fixpoint map_set (k : num) (v : PriceBar) (m : SecMap) : SecMap :=
  match m with
  | [] => [(k, v)]
  | (k', v') :: m' =>
      if same_key k k' then (k, v) :: m' else (k', v') :: map_set k v m'
  end.

Definition seconds (item : PriceBar) : num :=
  div (of_Z (date item)) (Fin 1000).

(** The sorting and the removal of duplicates written out in the two
    effects. *)
Definition cleanData (data : list PriceBar) : list PriceBar :=
  let sortedData := sort_by_date data in
  let uniqueMap :=
    fold_left (fun m item => map_set (seconds item) item m) sortedData [] in
  map snd uniqueMap.

Definition candleData (clean : list PriceBar) : list Candle.t :=
  map (fun d => Candle.mk (seconds d) (Fin (open d)) (Fin (high d))
                          (Fin (low d)) (Fin (close d)))
      clean.

(** What the effect of [VWAPChart] hands to the candle series and to
    the three line series; nothing without data. *)
Definition vwapChart (Math_sqrt : num -> num) (data : list PriceBar)
    : option (list Candle.t * VWAP.Result) :=
  match data with
  | [] => None
  | _ =>
      let clean := cleanData data in
      Some (candleData clean, VWAP.calculateVWAP Math_sqrt clean)
  end.

(** What the effect of [VolumeProfileChart] hands to the candle series
    and draws on the canvas. *)
Definition volumeProfileChart (data : list PriceBar) (numBins : Z)
    : option (list Candle.t * outcome VolumeProfile.Profile) :=
  match data with
  | [] => None
  | _ =>
      let clean := cleanData data in
      Some (candleData clean, VolumeProfile.drawVolumeProfile clean numBins)
  end.

End ChartEffect.

(** *** The chart grid ([AdvancedChartsGrid.toggleChart]) *)

Module Grid.

Inductive ChartType : Type :=
  | renko | heikinashi | pointfigure | volumeprofile | vwap.

Definition ChartType_eqb (a b : ChartType) : bool :=
  match a, b with
  | renko, renko | heikinashi, heikinashi | pointfigure, pointfigure
  | volumeprofile, volumeprofile | vwap, vwap => true
  | _, _ => false
  end.

(** The initial state of [activeCharts]. *)
Definition initialCharts : list ChartType := [renko; heikinashi].

(** The list that [toggleChart] sets as the new [activeCharts]. *)
Definition toggleChart (activeCharts : list ChartType) (type : ChartType)
    : list ChartType :=
  if existsb (ChartType_eqb type) activeCharts
  then filter (fun c => negb (ChartType_eqb c type)) activeCharts
  else activeCharts ++ [type].

(** [activeCharts.includes(type)]. *)
Definition isActive (activeCharts : list ChartType) (type : ChartType) : bool :=
  existsb (ChartType_eqb type) activeCharts.

(** [activeCharts] after the buttons [presses] were clicked in turn. *)
Definition afterPresses (presses : list ChartType) : list ChartType :=
  fold_left toggleChart presses initialCharts.

(** How often [type] was clicked. *)
Definition pressCount (type : ChartType) (presses : list ChartType) : nat :=
  length (filter (ChartType_eqb type) presses).

(** The settings [renderChart] passes to the charts. *)
Definition brickSize : Q := 10.
Definition boxSize : Q := 10.
Definition reversalAmount : Q := 3.
Definition numBins : Z := 30.

End Grid.

(** *** Further notions for the Renko bricks *)

Module RenkoNotions.
Import Renko.

(** The down-brick number [i] of a falling series: it opens [i] bricks
    below [c0] and carries sequence number [t0 + i]. *)
Definition down_brick_at (c0 bs t0 : Q) (i : nat) (b : Candle.t) : Prop :=
  exists o c t,
    Candle.open b = Fin o /\ Candle.close b = Fin c /\
    Candle.time b = Fin t /\
    o == c0 - inject_Z (Z.of_nat i) * bs /\
    c == o - bs /\
    t == t0 + inject_Z (Z.of_nat i).

(** What holds of the loop on any series: [p] is the close seen last
    and [t0] the sequence number the loop started with. *)
Definition track_inv (bs t0 p : Q) (st : state) : Prop :=
  exists c t,
    currentBrickPrice st = Fin c /\ brickTime st = Fin t /\
    t == t0 + inject_Z (Z.of_nat (length (bricks st))) /\
    Qabs (p - c) < bs /\
    forall i b, nth_error (bricks st) i = Some b ->
      exists tm, Candle.time b = Fin tm /\ tm == t0 + inject_Z (Z.of_nat i).

(** What holds of the loop on a falling series. *)
Definition fall_inv (c0 bs t0 p : Q) (st : state) : Prop :=
  exists c t,
    currentBrickPrice st = Fin c /\ brickTime st = Fin t /\
    c == c0 - inject_Z (Z.of_nat (length (bricks st))) * bs /\
    t == t0 + inject_Z (Z.of_nat (length (bricks st))) /\
    c - bs < p /\ p < c + bs /\
    (bricks st <> [] -> p <= c) /\
    forall i b, nth_error (bricks st) i = Some b -> down_brick_at c0 bs t0 i b.

End RenkoNotions.

(** *** Further notions for the Point-and-Figure columns *)

Module PFNotions.
Import PF.

(** [n] rationals from [a] on, each [d] after the one before. *)
Fixpoint q_run (d : Q) (n : nat) (a : Q) : list Q :=
  match n with
  | 0%nat => []
  | S k => a :: q_run d k (a + d)
  end.

(** Each entry is the one before it plus [d]. *)
Fixpoint unit_steps (d : Q) (qs : list Q) : Prop :=
  match qs with
  | [] => True
  | a :: rest =>
      match rest with
      | [] => True
      | b :: _ => b == a + d /\ unit_steps d rest
      end
  end.

Definition integral (q : Q) : Prop := exists z : Z, q == inject_Z z.

(** The step of a column: up for X, down for O. *)
Definition direction (t : PFType) : Q :=
  match t with X => 1 | O => -1 end.

(** The boxes of the column are whole numbers, each one step after the
    one before in the direction of the column. *)
Definition col_steps (c : PFColumn) : Prop :=
  exists qs,
    boxes c = map Fin qs /\ Forall integral qs /\
    unit_steps (direction (type c)) qs.

(** Column [c2] starts one box back from the last box of [c1]. *)
Definition joined (c1 c2 : PFColumn) : Prop :=
  forall b, hd_error (boxes c2) = Some b ->
    exists q1 q2,
      lastBoxOf c1 = Fin q1 /\ b = Fin q2 /\
      q2 == q1 - direction (type c1).

Fixpoint cols_steps (cols : list PFColumn) : Prop :=
  match cols with
  | [] => True
  | c :: rest =>
      col_steps c /\
      match rest with
      | [] => True
      | c2 :: _ => joined c c2
      end /\
      cols_steps rest
  end.

End PFNotions.

(** *** Further notions for the indicator engine *)

Module IndicatorNotions.

(** The values [calculateEMA] appends after the first, on rationals. *)
Fixpoint ema_q (k prev : Q) (rest : list Q) : list Q :=
  match rest with
  | [] => []
  | x :: rest' =>
      let e := x * k + prev * (1 - k) in
      e :: ema_q k e rest'
  end.

(** The closes [idx - period + 1 .. idx], the window of the averages. *)
Definition trailing (period : Z) (idx : nat) (closes : list Q) : list Q :=
  firstn (Z.to_nat period) (skipn (idx + 1 - Z.to_nat period) closes).

(** The day-to-day changes [closes[j] - closes[j-1]] for the [n]
    indexes from [from] on, and the sums of the rises and of the falls
    among them. *)
Definition changes (closes : list Q) (from n : nat) : list Q :=
  map (fun j => nth j closes 0 - nth (j - 1) closes 0) (seq from n).

Definition gain_sum (ds : list Q) : Q := Qsum (map (fun d => Qmax d 0) ds).
Definition loss_sum (ds : list Q) : Q := Qsum (map (fun d => Qmax (- d) 0) ds).

(** The sum of the squared deviations of [w] from [m]. *)
Definition sq_dev (m : Q) (w : list Q) : Q :=
  Qsum (map (fun c => (c - m) * (c - m)) w).

End IndicatorNotions.

(** *** Further notions for the VWAP pass *)

Module VWAPNotions.
Import VWAP.

(** The three points the pass pushes for bar [d]: one time, and bands
    at two deviations on either side of the average. *)
Definition band_point (d : PriceBar) (v u l : LineData) : Prop :=
  let t := Fin (inject_Z (date d) / 1000) in
  time v = t /\ time u = t /\ time l = t /\
  exists q sd,
    value v = Fin q /\ 0 <= sd /\
    value u = Fin (q + 2 * sd) /\ value l = Fin (q - 2 * sd).

Definition no_bar : PriceBar := mkBar 0 0 0 0 0 0.
Definition no_line : LineData := mkLine NaN NaN.

(** The state of the pass after the bars [done], all of positive
    volume. *)
Definition banded (done : list PriceBar) (a : acc) : Prop :=
  (exists pv cv sq,
     cumulativePV a = Fin pv /\ cumulativeVolume a = Fin cv /\
     cumulativeSquaredDiff a = Fin sq /\ 0 <= cv /\ 0 <= sq) /\
  length (vwap (out a)) = length done /\
  length (upperBand (out a)) = length done /\
  length (lowerBand (out a)) = length done /\
  forall i, (i < length done)%nat ->
    band_point (nth i done no_bar)
               (nth i (vwap (out a)) no_line)
               (nth i (upperBand (out a)) no_line)
               (nth i (lowerBand (out a)) no_line).

(** The state of the pass once the squared-difference sum is [NaN]. *)
Definition poisoned (n : nat) (a : acc) : Prop :=
  cumulativeSquaredDiff a = NaN /\
  length (upperBand (out a)) = n /\
  length (lowerBand (out a)) = n /\
  Forall (fun p => value p = NaN) (upperBand (out a)) /\
  Forall (fun p => value p = NaN) (lowerBand (out a)) /\
  exists p ps, vwap (out a) = p :: ps /\ value p = NaN.

End VWAPNotions.

(** ** Renko brick builder, in doubles

    [calculateRenkoBricks] again, with every sum, difference, product
    and quotient rounded to a double; [Math.floor], [Math.abs],
    [Math.max], [Math.min] and the comparisons are exact. *)

Module RenkoD.
Import Double.

(** The inner loop [for (let j = 0; j < numBricks; j++)], [n] turns left. *)
Fixpoint emit (n : nat) (j : nat) (direction brickSize : num) (bt : num)
    (cur : num) (acc : list Candle.t) : num * list Candle.t :=
  match n with
  | O => (cur, acc)
  | S n' =>
      let brickOpen := cur in
      let brickClose := fadd cur (fmul direction brickSize) in
      let brick := Candle.mk (fadd bt (of_nat j)) brickOpen
                     (max brickOpen brickClose) (min brickOpen brickClose)
                     brickClose in
      emit n' (S j) direction brickSize bt brickClose (acc ++ [brick])
  end.

(** One turn of the outer loop, for the bar with close [price]. *)
Definition step (brickSize : num) (st : Renko.state) (price : num)
    : outcome Renko.state :=
  let priceDiff := fsub price (Renko.currentBrickPrice st) in
  let numBricks := floor (fdiv (abs priceDiff) brickSize) in
  if gt numBricks (Fin 0) then
    let direction := if gt priceDiff (Fin 0) then Fin 1 else Fin (-1) in
    (n <- turns numBricks ;;
     let '(cur, bs) := emit n O direction brickSize (Renko.brickTime st)
                         (Renko.currentBrickPrice st) (Renko.bricks st) in
     Returns (Renko.mkState cur (fadd (Renko.brickTime st) numBricks) bs))%js
  else Returns st.

Fixpoint loop (brickSize : num) (st : Renko.state) (cleanData : list PriceBar)
    : outcome Renko.state :=
  match cleanData with
  | [] => Returns st
  | d :: rest =>
      (st' <- step brickSize st (dbl (close d)) ;; loop brickSize st' rest)%js
  end.

Definition init (brickSize : num) (cleanData : list PriceBar)
    : outcome Renko.state :=
  match cleanData with
  | [] => Throws TypeError
  | first :: _ =>
      Returns (Renko.mkState
                 (fmul (floor (fdiv (dbl (close first)) brickSize)) brickSize)
                 (fdiv (dbl (inject_Z (date first))) (Fin 1000))
                 [])
  end.

Definition run (brickSize : num) (cleanData : list PriceBar)
    : outcome (list Candle.t) :=
  (st0 <- init brickSize cleanData ;;
   st <- loop brickSize st0 cleanData ;;
   Returns (Renko.bricks st))%js.

Definition calculateRenkoBricks (priceData : list PriceBar) (brickSize : Q)
    : outcome (list Candle.t) :=
  match priceData with
  | [] => Returns []
  | _ => run (dbl brickSize) (sortAndDeduplicateData priceData)
  end.

(** *** Notions used to state the properties of the bricks *)

(** A brick whose close is the double nearest to its open plus or
    minus the brick size [bs], and whose high and low are its two
    ends. *)
Definition rounded_brick (bs : Q) (b : Candle.t) : Prop :=
  exists o c h l,
    Candle.open b = Fin o /\ Candle.close b = Fin c /\
    Candle.high b = Fin h /\ Candle.low b = Fin l /\
    (c == round64 (o + bs) \/ c == round64 (o - bs)) /\
    h == Qmax o c /\ l == Qmin o c.

(** The height of a brick is the brick size up to one rounding. *)
Definition nearly_unit_brick (bs : Q) (b : Candle.t) : Prop :=
  exists o c,
    Candle.open b = Fin o /\ Candle.close b = Fin c /\
    Qabs (Qabs (c - o) - bs) <= (Qabs o + bs) * u.

(** The invariant of the loop for a positive brick size. *)
Definition chain_inv (bs : Q) (start : num) (st : Renko.state) : Prop :=
  (exists c, Renko.currentBrickPrice st = Fin c) /\
  Forall (rounded_brick bs) (Renko.bricks st) /\
  Renko.linked start (Renko.bricks st) /\
  Renko.end_price start (Renko.bricks st) = Renko.currentBrickPrice st.

(** Two bricks with the same four prices. *)
Definition same_prices (b1 b2 : Candle.t) : Prop :=
  same_num (Candle.open b1) (Candle.open b2) /\
  same_num (Candle.high b1) (Candle.high b2) /\
  same_num (Candle.low b1) (Candle.low b2) /\
  same_num (Candle.close b1) (Candle.close b2).

(** Two states of the loop, one in doubles and one in exact
    arithmetic, that stand at the same whole price [k] with the same
    bricks. *)
Definition same_state (k : Z) (sd se : Renko.state) : Prop :=
  (exists cd, Renko.currentBrickPrice sd = Fin cd /\ cd == inject_Z k) /\
  (exists ce, Renko.currentBrickPrice se = Fin ce /\ ce == inject_Z k) /\
  (exists td, Renko.brickTime sd = Fin td) /\
  (exists te, Renko.brickTime se = Fin te) /\
  Forall2 same_prices (Renko.bricks sd) (Renko.bricks se).


Definition down_brick (c0 bs : Q) (i : nat) (b : Candle.t) : Prop :=
  exists o c,
    Candle.open b = Fin o /\ Candle.close b = Fin c /\
    o == c0 - inject_Z (Z.of_nat i) * bs /\ c == o - bs.

End RenkoD.

(** ** Indicator engine, in doubles

    The averages of [TechnicalIndicators.tsx] with every operation
    rounded to a double.  The periods are the whole numbers of the
    calls (20, 50, 14, 12, 26, 9), doubles as they stand. *)

Module IndicatorsD.
Import Double.

(** [arr.reduce((a, b) => a + b, 0)]. *)
Definition sum (arr : list num) : num := fold_left fadd arr (Fin 0).

Section Engine.

Variable prices : list num.

Definition calculateSMA (period : Z) : list (option num) :=
  mapi (fun _ idx =>
          if (Z.of_nat idx <? period - 1)%Z then None
          else
            let s := sum (slice prices (Z.of_nat idx - period + 1)
                                       (Z.of_nat idx + 1)) in
            Some (fdiv s (of_Z period)))
       prices.

Definition rsi_turn (gl : num * num) (j : Z) : num * num :=
  let '(gains, losses) := gl in
  let change := fsub (get_num prices j) (get_num prices (j - 1)) in
  if gt change (Fin 0) then (fadd gains change, losses)
  else (gains, fsub losses change).

Definition rsi_at (period : Z) (i : nat) : option num :=
  if (Z.of_nat i <? period)%Z then None
  else
    let '(gains, losses) :=
      fold_left rsi_turn
        (z_seq (Z.of_nat i - period + 1) (Z.to_nat period))
        (Fin 0, Fin 0) in
    let avgGain := fdiv gains (of_Z period) in
    let avgLoss := fdiv losses (of_Z period) in
    let rs := fdiv avgGain (or_else avgLoss (Fin 1)) in
    Some (fsub (Fin 100) (fdiv (Fin 100) (fadd (Fin 1) rs))).

Definition calculateRSI (period : Z) : list (option num) :=
  map (rsi_at period) (seq 0 (length prices)).

Fixpoint ema_from (k : num) (prev : num) (rest : list num) : list num :=
  match rest with
  | [] => []
  | x :: rest' =>
      let e := fadd (fmul x k) (fmul prev (fsub (Fin 1) k)) in
      e :: ema_from k e rest'
  end.

Definition calculateEMA (data : list num) (period : Z) : list num :=
  let k := fdiv (Fin 2) (fadd (of_Z period) (Fin 1)) in
  let first := nth 0 data NaN in
  first :: ema_from k first (tl data).

Definition ema12 : list num := calculateEMA prices 12.
Definition ema26 : list num := calculateEMA prices 26.
Definition macdLine : list num :=
  mapi (fun val idx => fsub val (get_num ema26 (Z.of_nat idx))) ema12.
Definition signalLine : list num := calculateEMA macdLine 9.

End Engine.

(** The sum of [w] as [reduce] computes it: from [0], left to right,
    every addition rounded. *)
Definition rounded_sum (w : list Q) : Q :=
  fold_left (fun a b => round64 (a + b)) w 0.

(** The smoothing factor [2 / (period + 1)]. *)
Definition smoothing (period : Z) : Q :=
  round64 (2 / round64 (inject_Z period + 1)).

(** The values [calculateEMA] appends after the first. *)
Fixpoint ema_values (k prev : Q) (rest : list Q) : list Q :=
  match rest with
  | [] => []
  | x :: rest' =>
      let e := round64 (round64 (x * k) + round64 (prev * round64 (1 - k))) in
      e :: ema_values k e rest'
  end.

End IndicatorsD.

(** ** VWAP, in doubles

    The pass of [calculateVWAP] with every operation rounded to a
    double; [Math.pow(x, 2)] is the rounded square. *)

Module VWAPD.
Import Double VWAP.

Section WithSqrt.

Variable Math_sqrt : num -> num.

Definition step (a : acc) (d : PriceBar) : acc :=
  let typicalPrice :=
    fdiv (fadd (fadd (dbl (high d)) (dbl (low d))) (dbl (close d))) (Fin 3) in
  let pv := fmul typicalPrice (dbl (volume d)) in
  let cumPV := fadd (cumulativePV a) pv in
  let cumVol := fadd (cumulativeVolume a) (dbl (volume d)) in
  let vwapValue := fdiv cumPV cumVol in
  let t := fdiv (dbl (inject_Z (date d))) (Fin 1000) in
  let diff := fsub typicalPrice vwapValue in
  let squaredDiff := fmul (fmul diff diff) (dbl (volume d)) in
  let cumSq := fadd (cumulativeSquaredDiff a) squaredDiff in
  let variance := fdiv cumSq cumVol in
  let stdDev := Math_sqrt variance in
  mkAcc cumPV cumVol cumSq
    (mkResult
       (vwap (out a) ++ [mkLine t vwapValue])
       (upperBand (out a) ++ [mkLine t (fadd vwapValue (fmul (Fin 2) stdDev))])
       (lowerBand (out a) ++ [mkLine t (fsub vwapValue (fmul (Fin 2) stdDev))])).

Definition calculateVWAP (priceData : list PriceBar) : Result :=
  out (fold_left step priceData
         (mkAcc (Fin 0) (Fin 0) (Fin 0) (mkResult [] [] []))).

End WithSqrt.

(** [(d.high + d.low + d.close) / 3] as the pass computes it. *)
Definition typicalPrice (d : PriceBar) : Q :=
  round64 (round64 (round64 (round64 (high d) + round64 (low d))
                    + round64 (close d)) / 3).

(** The VWAP values of the pass: the running sums start from [pv] and
    [cv]. *)
Fixpoint vwap_values (pv cv : Q) (bars : list PriceBar) : list Q :=
  match bars with
  | [] => []
  | d :: rest =>
      let v := round64 (volume d) in
      let pv' := round64 (pv + round64 (typicalPrice d * v)) in
      let cv' := round64 (cv + v) in
      round64 (pv' / cv') :: vwap_values pv' cv' rest
  end.

End VWAPD.

(** * Properties *)

(** ** Arithmetic of the number model *)

Lemma Qeq_bool_false (a b : Q) : ~ a == b -> Qeq_bool a b = false.
Proof.
  intro H. destruct (Qeq_bool a b) eqn:E; [|reflexivity].
  apply Qeq_bool_iff in E. contradiction.
Qed.

Lemma Qltb_true (a b : Q) : Qltb a b = true <-> a < b.
Proof.
  unfold Qltb. rewrite negb_true_iff. split.
  - intro H. apply Qnot_le_lt. intro L.
    apply Qle_bool_iff in L. congruence.
  - intro H. destruct (Qle_bool b a) eqn:E; [|reflexivity].
    apply Qle_bool_iff in E. lra.
Qed.

Lemma Qltb_false (a b : Q) : Qltb a b = false <-> b <= a.
Proof.
  unfold Qltb. rewrite negb_false_iff. apply Qle_bool_iff.
Qed.

Lemma Qle_bool_false (a b : Q) : Qle_bool a b = false <-> b < a.
Proof.
  split.
  - intro H. apply Qnot_le_lt. intro L. apply Qle_bool_iff in L. congruence.
  - intro H. destruct (Qle_bool a b) eqn:E; [|reflexivity].
    apply Qle_bool_iff in E. lra.
Qed.

Lemma div_fin (a b : Q) : ~ b == 0 -> div (Fin a) (Fin b) = Fin (a / b).
Proof.
  intro H. unfold div, inv. rewrite (Qeq_bool_false _ _ H). reflexivity.
Qed.

Lemma div_fin_zero (a b : Q) : b == 0 ->
  div (Fin a) (Fin b) = inf_of_sign a true.
Proof.
  intro H. unfold div, inv.
  apply Qeq_bool_iff in H. rewrite H. reflexivity.
Qed.

Lemma of_Z_div (a : Q) (z : Z) : z <> 0%Z ->
  div (Fin a) (of_Z z) = Fin (a / inject_Z z).
Proof.
  intro H. apply div_fin. intro E.
  apply H. unfold Qeq in E. simpl in E. lia.
Qed.

(** The floor of a quotient by a positive number, by its two bounds. *)
Lemma floor_div_bounds (x d : Q) : 0 < d ->
  inject_Z (Qfloor (x / d)) * d <= x /\
  x < (inject_Z (Qfloor (x / d)) + 1) * d.
Proof.
  intro Hd.
  pose proof (Qfloor_le (x / d)) as Hlo.
  pose proof (Qlt_floor (x / d)) as Hhi.
  rewrite inject_Z_plus in Hhi. change (inject_Z 1) with 1 in Hhi.
  assert (Hx : x == x / d * d) by (field; lra).
  split.
  - rewrite Hx at 2. apply Qmult_le_compat_r; lra.
  - rewrite Hx at 1. apply Qmult_lt_compat_r; lra.
Qed.

Lemma floor_unique (x : Q) (z : Z) :
  inject_Z z <= x -> x < inject_Z z + 1 -> Qfloor x = z.
Proof.
  intros Hlo Hhi.
  pose proof (Qfloor_le x) as Flo.
  pose proof (Qlt_floor x) as Fhi.
  rewrite inject_Z_plus in Fhi. change (inject_Z 1) with 1 in Fhi.
  assert (A : inject_Z z < inject_Z (Qfloor x) + 1) by lra.
  assert (B : inject_Z (Qfloor x) < inject_Z z + 1) by lra.
  change 1 with (inject_Z 1) in A, B.
  rewrite <- inject_Z_plus in A, B.
  rewrite <- Zlt_Qlt in A, B. lia.
Qed.

Lemma floor_div_unique (x d : Q) (z : Z) : 0 < d ->
  inject_Z z * d <= x -> x < (inject_Z z + 1) * d -> Qfloor (x / d) = z.
Proof.
  intros Hd Hlo Hhi. apply floor_unique.
  - apply Qle_shift_div_l; assumption.
  - apply Qlt_shift_div_r; assumption.
Qed.

(** ** Arrays *)

Lemma list_eq_dec_nil {A} (l : list A) : l = [] \/ l <> [].
Proof. destruct l; [now left | right; discriminate]. Qed.

Lemma length_mapi_from {A B} (f : A -> nat -> B) (arr : list A) (i : nat) :
  length (mapi_from i f arr) = length arr.
Proof.
  revert i. induction arr as [|x rest IH]; intro i; simpl; [reflexivity|].
  now rewrite IH.
Qed.

Lemma length_mapi {A B} (f : A -> nat -> B) (arr : list A) :
  length (mapi f arr) = length arr.
Proof. apply length_mapi_from. Qed.

Lemma nth_mapi_from {A B} (f : A -> nat -> B) (arr : list A) (i k : nat)
    (da : A) (db : B) :
  (k < length arr)%nat ->
  nth k (mapi_from i f arr) db = f (nth k arr da) (i + k)%nat.
Proof.
  revert i k. induction arr as [|x rest IH]; intros i k Hk; simpl in *.
  - lia.
  - destruct k as [|k].
    + now rewrite Nat.add_0_r.
    + rewrite (IH (S i) k) by lia. f_equal. lia.
Qed.

Lemma nth_mapi {A B} (f : A -> nat -> B) (arr : list A) (k : nat)
    (da : A) (db : B) :
  (k < length arr)%nat -> nth k (mapi f arr) db = f (nth k arr da) k.
Proof. intro H. unfold mapi. now rewrite (nth_mapi_from f arr 0 k da db H). Qed.

Lemma length_z_seq (from : Z) (n : nat) : length (z_seq from n) = n.
Proof. revert from. induction n; intro from; simpl; [reflexivity|]. now rewrite IHn. Qed.

Lemma length_slice_from_neg {A} (arr : list A) (k : Z) : (0 < k)%Z ->
  slice_from arr (- k) =
  skipn (length arr - Z.to_nat k) arr.
Proof.
  intro Hk. unfold slice_from, slice_bound.
  destruct (- k <? 0)%Z eqn:E; [|apply Z.ltb_ge in E; lia].
  f_equal. lia.
Qed.

(** ** Double precision: the rounding *)

Module DoubleFacts.
Import Double.

(** *** Powers of two *)
Lemma pow2_pos (e : Z) : 0 < pow2 e.
Proof. apply Qpower_0_lt. reflexivity. Qed.

Lemma pow2_plus (a b : Z) : pow2 (a + b) == pow2 a * pow2 b.
Proof. apply Qpower_plus. intro H; discriminate H. Qed.

Lemma pow2_opp (a : Z) : pow2 (- a) == / pow2 a.
Proof. apply Qpower_opp. Qed.

Lemma pow2_minus (a b : Z) : pow2 (a - b) == pow2 a / pow2 b.
Proof.
  unfold Z.sub. rewrite pow2_plus, pow2_opp. reflexivity.
Qed.

Lemma pow2_lt (a b : Z) : (a < b)%Z -> pow2 a < pow2 b.
Proof. intro H. apply Qpower_lt_compat_l; [assumption | reflexivity]. Qed.

Lemma pow2_le (a b : Z) : (a <= b)%Z -> pow2 a <= pow2 b.
Proof. intro H. apply Qpower_le_compat_l; [assumption | discriminate]. Qed.

Lemma pow2_lt_inv (a b : Z) : pow2 a < pow2 b -> (a < b)%Z.
Proof.
  intro H. destruct (Z_lt_le_dec a b) as [|L]; [assumption|].
  apply pow2_le in L. lra.
Qed.

Lemma pow2_Z (n : Z) : (0 <= n)%Z -> pow2 n == inject_Z (2 ^ n).
Proof. intro H. unfold pow2. now rewrite Zpower_Qpower. Qed.

Lemma pow2_S (a : Z) : pow2 (a + 1) == 2 * pow2 a.
Proof. rewrite pow2_plus. change (pow2 1) with 2. ring. Qed.

(** *** Rounding to the nearest integer *)
Lemma round_even_proper (t t' : Q) : t == t' -> round_even t = round_even t'.
Proof.
  intro H. unfold round_even.
  rewrite (Qfloor_comp _ _ H).
  assert (E : t - inject_Z (Qfloor t') == t' - inject_Z (Qfloor t'))
    by (rewrite H; reflexivity).
  now rewrite (Qcompare_comp _ _ E _ _ (Qeq_refl (1 # 2))).
Qed.

Lemma round_even_cases (t : Q) :
  let f := Qfloor t in
  (round_even t = f /\ t - inject_Z f <= 1 # 2) \/
  (round_even t = (f + 1)%Z /\ 1 # 2 <= t - inject_Z f).
Proof.
  intro f. unfold round_even. fold f.
  destruct (Qcompare (t - inject_Z f) (1 # 2)) eqn:E.
  - apply Qeq_alt in E. destruct (Z.even f).
    + left. split; [reflexivity | lra].
    + right. split; [reflexivity | lra].
  - apply Qlt_alt in E. left. split; [reflexivity | lra].
  - apply Qgt_alt in E. right. split; [reflexivity | lra].
Qed.

Lemma round_even_error (t : Q) :
  Qabs (inject_Z (round_even t) - t) <= 1 # 2.
Proof.
  pose proof (Qfloor_le t) as L. pose proof (Qlt_floor t) as U.
  rewrite inject_Z_plus in U. change (inject_Z 1) with 1 in U.
  apply Qabs_Qle_condition.
  destruct (round_even_cases t) as [[-> H] | [-> H]].
  - split; lra.
  - rewrite inject_Z_plus. change (inject_Z 1) with 1. split; lra.
Qed.

Lemma round_even_Z (t : Q) (z : Z) : t == inject_Z z -> round_even t = z.
Proof.
  intro H. rewrite (round_even_proper _ _ H). unfold round_even.
  rewrite Qfloor_Z.
  assert (E : inject_Z z - inject_Z z == 0) by ring.
  rewrite (Qcompare_comp _ _ E _ _ (Qeq_refl (1 # 2))). reflexivity.
Qed.

Lemma round_even_mono (t t' : Q) : t <= t' -> (round_even t <= round_even t')%Z.
Proof.
  intro H.
  pose proof (Qfloor_resp_le _ _ H) as F.
  pose proof (Qfloor_le t) as L. pose proof (Qlt_floor t) as U.
  pose proof (Qfloor_le t') as L'. pose proof (Qlt_floor t') as U'.
  rewrite inject_Z_plus in U, U'. change (inject_Z 1) with 1 in U, U'.
  destruct (Z.eq_dec (Qfloor t) (Qfloor t')) as [E | NE].
  - unfold round_even. rewrite <- E.
    destruct (Qcompare (t - inject_Z (Qfloor t)) (1 # 2)) eqn:C;
      destruct (Qcompare (t' - inject_Z (Qfloor t)) (1 # 2)) eqn:C';
      [apply Qeq_alt in C | apply Qeq_alt in C | apply Qeq_alt in C
      | apply Qlt_alt in C | apply Qlt_alt in C | apply Qlt_alt in C
      | apply Qgt_alt in C | apply Qgt_alt in C | apply Qgt_alt in C];
      [apply Qeq_alt in C' | apply Qlt_alt in C' | apply Qgt_alt in C'
      | apply Qeq_alt in C' | apply Qlt_alt in C' | apply Qgt_alt in C'
      | apply Qeq_alt in C' | apply Qlt_alt in C' | apply Qgt_alt in C'];
      destruct (Z.even (Qfloor t)); first [lia | exfalso; lra].
  - assert (Qfloor t + 1 <= Qfloor t')%Z by lia.
    destruct (round_even_cases t) as [[-> _] | [-> _]];
      destruct (round_even_cases t') as [[-> _] | [-> _]]; lia.
Qed.

(** *** The exponent *)
Lemma Z_bracket (n : Z) : (0 < n)%Z ->
  pow2 (Z.log2 n) <= inject_Z n /\ inject_Z n < pow2 (Z.log2 n + 1).
Proof.
  intro H. destruct (Z.log2_spec n H) as [L U].
  pose proof (Z.log2_nonneg n) as N.
  rewrite !pow2_Z by lia. rewrite <- Zle_Qle, <- Zlt_Qlt.
  unfold Z.succ in U. split; assumption.
Qed.

Lemma exponent_spec (x : Q) : 0 < x ->
  pow2 52 <= x / pow2 (exponent x) /\ x / pow2 (exponent x) < pow2 53.
Proof.
  intro Hx.
  assert (Hn : (0 < Qnum x)%Z).
  { unfold Qlt in Hx. simpl in Hx. lia. }
  assert (Ex : x == inject_Z (Qnum x) / inject_Z (Zpos (Qden x))).
  { clear. destruct x as [xn xd]. cbn [Qnum Qden]. apply Qmake_Qdiv. }
  destruct (Z_bracket (Qnum x) Hn) as [Ln Un].
  destruct (Z_bracket (Zpos (Qden x)) (Pos2Z.is_pos _)) as [Ld Ud].
  set (a := Z.log2 (Qnum x)) in *. set (b := Z.log2 (Zpos (Qden x))) in *.
  assert (Dpos : 0 < inject_Z (Zpos (Qden x))).
  { change 0 with (inject_Z 0). rewrite <- Zlt_Qlt. apply Pos2Z.is_pos. }
  set (n := inject_Z (Qnum x)) in *. set (d := inject_Z (Zpos (Qden x))) in *.
  pose proof (pow2_pos a) as Pa. pose proof (pow2_pos b) as Pb.
  pose proof (pow2_pos (a - b - 52)) as Pe.
  assert (Xd : x * d == n) by (rewrite Ex; field; lra).
  assert (U1 : x * pow2 b < pow2 (a + 1)).
  { assert (x * pow2 b <= x * d) by nra. lra. }
  assert (L1 : pow2 a < x * pow2 (b + 1)).
  { assert (x * d < x * pow2 (b + 1)) by nra. lra. }
  assert (E53 : pow2 (a + 1) == pow2 53 * pow2 (a - b - 52) * pow2 b).
  { rewrite <- !pow2_plus. replace (53 + (a - b - 52) + b)%Z with (a + 1)%Z by lia.
    reflexivity. }
  assert (E51 : pow2 a == pow2 52 * pow2 (a - b - 52 - 1) * pow2 (b + 1)).
  { rewrite <- !pow2_plus. replace (52 + (a - b - 52 - 1) + (b + 1))%Z with a by lia.
    reflexivity. }
  assert (E1 : pow2 (a - b - 52) == 2 * pow2 (a - b - 52 - 1)).
  { rewrite <- pow2_S. replace (a - b - 52 - 1 + 1)%Z with (a - b - 52)%Z by lia.
    reflexivity. }
  pose proof (pow2_pos (a - b - 52 - 1)) as Pe'.
  pose proof (pow2_pos (b + 1)) as Pb1.
  unfold exponent. fold a b.
  destruct (Qle_bool (pow2 52) (x / pow2 (a - b - 52))) eqn:C.
  - apply Qle_bool_iff in C. split; [assumption|].
    apply Qlt_shift_div_r; [assumption|].
    rewrite E53 in U1. nra.
  - assert (C' : x / pow2 (a - b - 52) < pow2 52).
    { apply Qnot_le_lt. intro F. apply Qle_bool_iff in F. congruence. }
    assert (C2 : x < pow2 52 * pow2 (a - b - 52)).
    { apply (Qmult_lt_r _ _ _ Pe) in C'.
      assert (X : x / pow2 (a - b - 52) * pow2 (a - b - 52) == x) by (field; lra).
      now rewrite X in C'. }
    split.
    + apply Qle_shift_div_l; [assumption|].
      rewrite E51 in L1. nra.
    + apply Qlt_shift_div_r; [assumption|].
      change (pow2 53) with (2 * pow2 52). rewrite E1 in C2. nra.
Qed.

Lemma bracket_mul (x : Q) (e : Z) :
  pow2 52 <= x / pow2 e /\ x / pow2 e < pow2 53 <->
  pow2 (52 + e) <= x /\ x < pow2 (53 + e).
Proof.
  pose proof (pow2_pos e) as P. rewrite !pow2_plus.
  assert (X : x / pow2 e * pow2 e == x) by (field; lra).
  split; intros [L U]; split.
  - rewrite <- X. nra.
  - rewrite <- X. nra.
  - apply Qle_shift_div_l; assumption.
  - apply Qlt_shift_div_r; assumption.
Qed.

Lemma exponent_unique (x : Q) (e : Z) : 0 < x ->
  pow2 52 <= x / pow2 e /\ x / pow2 e < pow2 53 -> exponent x = e.
Proof.
  intros Hx H. pose proof (exponent_spec x Hx) as H'.
  apply bracket_mul in H. apply bracket_mul in H'.
  destruct H as [L U]. destruct H' as [L' U'].
  assert (A : pow2 (52 + e) < pow2 (53 + exponent x)) by lra.
  assert (B : pow2 (52 + exponent x) < pow2 (53 + e)) by lra.
  apply pow2_lt_inv in A. apply pow2_lt_inv in B. lia.
Qed.

Lemma exponent_proper (x y : Q) : 0 < x -> x == y -> exponent x = exponent y.
Proof.
  intros Hx E. apply exponent_unique; [assumption|].
  rewrite E. apply exponent_spec. now rewrite <- E.
Qed.

Lemma exponent_mono (x y : Q) : 0 < x -> x <= y -> (exponent x <= exponent y)%Z.
Proof.
  intros Hx H. assert (Hy : 0 < y) by lra.
  pose proof (exponent_spec x Hx) as Sx. pose proof (exponent_spec y Hy) as Sy.
  apply bracket_mul in Sx. apply bracket_mul in Sy.
  assert (A : pow2 (52 + exponent x) < pow2 (53 + exponent y)) by lra.
  apply pow2_lt_inv in A. lia.
Qed.

(** *** Rounding a positive number *)
Lemma round_pos_proper (x y : Q) : 0 < x -> x == y -> round_pos x == round_pos y.
Proof.
  intros Hx E. unfold round_pos. rewrite (exponent_proper x y Hx E).
  assert (T : x / pow2 (exponent y) == y / pow2 (exponent y)) by (now rewrite E).
  now rewrite (round_even_proper _ _ T).
Qed.

Lemma round_pos_mantissa (x : Q) : 0 < x ->
  (2 ^ 52 <= round_even (x / pow2 (exponent x)) <= 2 ^ 53)%Z.
Proof.
  intro Hx. destruct (exponent_spec x Hx) as [L U].
  rewrite (pow2_Z 52) in L by lia. rewrite (pow2_Z 53) in U by lia.
  split.
  - rewrite <- (round_even_Z (inject_Z (2 ^ 52)) (2 ^ 52)) at 1 by reflexivity.
    now apply round_even_mono.
  - rewrite <- (round_even_Z (inject_Z (2 ^ 53)) (2 ^ 53)) by reflexivity.
    apply round_even_mono. lra.
Qed.

Lemma round_pos_pos (x : Q) : 0 < x -> 0 < round_pos x.
Proof.
  intro Hx. unfold round_pos.
  pose proof (round_pos_mantissa x Hx) as [L _].
  pose proof (pow2_pos (exponent x)).
  assert (0 < inject_Z (round_even (x / pow2 (exponent x)))).
  { change 0 with (inject_Z 0). rewrite <- Zlt_Qlt. lia. }
  nra.
Qed.

Lemma round_pos_error (x : Q) : 0 < x ->
  Qabs (round_pos x - x) <= x * pow2 (-53).
Proof.
  intro Hx. unfold round_pos.
  set (e := exponent x). set (t := x / pow2 e).
  pose proof (pow2_pos e) as P.
  destruct (exponent_spec x Hx) as [L _]. fold e t in L.
  assert (X : x == t * pow2 e) by (unfold t; field; lra).
  clearbody t.
  pose proof (round_even_error t) as Er.
  apply Qabs_Qle_condition in Er. destruct Er as [E1 E2].
  set (m := inject_Z (round_even t)) in *.
  assert (H53 : pow2 52 * pow2 (-53) == 1 # 2) by reflexivity.
  pose proof (pow2_pos (-53)) as P53.
  assert (Hb : (1 # 2) * pow2 e <= x * pow2 (-53)).
  { assert (K : (1 # 2) * pow2 e == pow2 52 * pow2 e * pow2 (-53))
      by (rewrite <- H53; ring).
    assert (K2 : x * pow2 (-53) == t * pow2 e * pow2 (-53))
      by (rewrite X; ring).
    rewrite K, K2.
    apply Qmult_le_compat_r; [|lra]. apply Qmult_le_compat_r; lra. }
  assert (D : m * pow2 e - x == (m - t) * pow2 e) by (rewrite X; ring).
  apply Qabs_Qle_condition. rewrite D. split; nra.
Qed.

Lemma round_pos_integral (x : Q) (z : Z) : 0 < x ->
  x / pow2 (exponent x) == inject_Z z -> round_pos x == x.
Proof.
  intros Hx H. unfold round_pos. rewrite (round_even_Z _ _ H), <- H.
  pose proof (pow2_pos (exponent x)). field. lra.
Qed.

Lemma round_pos_exact (x : Q) (M k : Z) :
  (0 < M <= 2 ^ 53)%Z -> x == inject_Z M * pow2 k -> round_pos x == x.
Proof.
  intros HM E.
  assert (HMq : 0 < inject_Z M).
  { change 0 with (inject_Z 0). rewrite <- Zlt_Qlt. lia. }
  pose proof (pow2_pos k) as Pk.
  assert (Hx : 0 < x) by (rewrite E; nra).
  set (e := exponent x).
  pose proof (pow2_pos e) as Pe.
  destruct (proj1 (bracket_mul x e) (exponent_spec x Hx)) as [L U].
  destruct (Z_le_gt_dec e k) as [Hek | Hek].
  - apply (round_pos_integral x (M * 2 ^ (k - e)) Hx). fold e.
    rewrite inject_Z_mult, <- pow2_Z by lia. rewrite pow2_minus, E.
    field. lra.
  - assert (HM53 : inject_Z M <= pow2 53).
    { rewrite pow2_Z by lia. rewrite <- Zle_Qle. lia. }
    assert (Hle : pow2 (52 + (k + 1)) <= pow2 (52 + e)) by (apply pow2_le; lia).
    assert (E53 : pow2 (52 + (k + 1)) == pow2 53 * pow2 k).
    { rewrite <- pow2_plus. replace (52 + (k + 1))%Z with (53 + k)%Z by lia.
      reflexivity. }
    assert (Hx53 : x == pow2 53 * pow2 k).
    { apply Qle_antisym; [rewrite E; nra | lra]. }
    assert (He : e = (k + 1)%Z).
    { assert (A : pow2 (52 + e) < pow2 (52 + (k + 2))).
      { assert (B : pow2 (52 + (k + 2)) == 2 * (pow2 53 * pow2 k)).
        { rewrite <- pow2_plus, <- pow2_S.
          replace (52 + (k + 2))%Z with (53 + k + 1)%Z by lia. reflexivity. }
        rewrite B. nra. }
      apply pow2_lt_inv in A. lia. }
    apply (round_pos_integral x (2 ^ 52) Hx). fold e.
    rewrite <- pow2_Z by lia. rewrite Hx53, He, pow2_S.
    change (pow2 53) with (2 * pow2 52). field. lra.
Qed.

Lemma round_pos_mono (x y : Q) : 0 < x -> x <= y -> round_pos x <= round_pos y.
Proof.
  intros Hx H. assert (Hy : 0 < y) by lra.
  pose proof (exponent_mono x y Hx H) as He.
  pose proof (round_pos_mantissa x Hx) as [_ Mx].
  pose proof (round_pos_mantissa y Hy) as [My _].
  unfold round_pos.
  set (ex := exponent x) in *. set (ey := exponent y) in *.
  pose proof (pow2_pos ex) as Px. pose proof (pow2_pos ey) as Py.
  destruct (Z.eq_dec ex ey) as [E | NE].
  - rewrite <- E.
    assert (T : x / pow2 ex <= y / pow2 ex).
    { apply Qle_shift_div_l; [assumption|].
      assert (X : x / pow2 ex * pow2 ex == x) by (field; lra). lra. }
    apply round_even_mono in T. rewrite E in T at 2. fold ey in T.
    rewrite Zle_Qle in T. rewrite E at 2. rewrite <- E. 
    apply Qmult_le_compat_r; [|lra]. rewrite E at 2. exact T.
  - set (mx := round_even (x / pow2 ex)) in *.
    set (my := round_even (y / pow2 ey)) in *.
    assert (A : inject_Z mx <= pow2 53).
    { rewrite pow2_Z by lia. now rewrite <- Zle_Qle. }
    assert (B : pow2 52 <= inject_Z my).
    { rewrite pow2_Z by lia. now rewrite <- Zle_Qle. }
    assert (C : pow2 53 * pow2 ex <= pow2 52 * pow2 ey).
    { rewrite <- !pow2_plus. apply pow2_le. lia. }
    assert (pow2 52 > 0) by apply pow2_pos.
    apply Qle_trans with (pow2 53 * pow2 ex).
    + apply Qmult_le_compat_r; lra.
    + apply Qle_trans with (pow2 52 * pow2 ey); [assumption|].
      apply Qmult_le_compat_r; lra.
Qed.

(** *** Rounding to the nearest double *)
Lemma round64_proper (x y : Q) : x == y -> round64 x = round64 y.
Proof. intro H. unfold round64. now rewrite (Qred_complete _ _ H). Qed.

Lemma round64_compat (x y : Q) : x == y -> round64 x == round64 y.
Proof. intro H. now rewrite (round64_proper x y H). Qed.

Lemma round64_pos_eq (x : Q) : 0 < x -> round64 x == round_pos x.
Proof.
  intro Hx. unfold round64.
  assert (H : 0 < Qred x) by (now rewrite Qred_correct).
  rewrite (proj1 (Qgt_alt _ _) H). rewrite Qred_correct.
  apply round_pos_proper; [assumption | apply Qred_correct].
Qed.

Lemma round64_neg_eq (x : Q) : x < 0 -> round64 x == - round_pos (- x).
Proof.
  intro Hx. unfold round64.
  assert (H : Qred x < 0) by (now rewrite Qred_correct).
  rewrite (proj1 (Qlt_alt _ _) H). rewrite Qred_correct.
  apply Qopp_comp. apply round_pos_proper.
  - rewrite Qred_correct. lra.
  - now rewrite Qred_correct.
Qed.

Lemma round64_zero (x : Q) : x == 0 -> round64 x == 0.
Proof.
  intro Hx. unfold round64.
  assert (H : Qred x == 0) by (now rewrite Qred_correct).
  now rewrite (proj1 (Qeq_alt _ _) H).
Qed.

Lemma round64_opp (x : Q) : round64 (- x) == - round64 x.
Proof.
  destruct (Q_dec x 0) as [[L | G] | E].
  - rewrite (round64_neg_eq x L), round64_pos_eq by lra. ring.
  - rewrite (round64_pos_eq x G), round64_neg_eq by lra.
    apply Qopp_comp. apply round_pos_proper; [lra | ring].
  - rewrite (round64_zero x E), round64_zero by lra. reflexivity.
Qed.

Lemma round64_error (x : Q) : Qabs (round64 x - x) <= Qabs x * pow2 (-53).
Proof.
  destruct (Q_dec x 0) as [[L | G] | E].
  - rewrite (round64_neg_eq x L).
    pose proof (round_pos_error (- x) ltac:(lra)) as H.
    rewrite (Qabs_neg x) by lra.
    assert (D : - round_pos (- x) - x == - (round_pos (- x) - - x)) by ring.
    rewrite D, Qabs_opp. exact H.
  - rewrite (round64_pos_eq x G), (Qabs_pos x) by lra.
    now apply round_pos_error.
  - rewrite (round64_zero x E), E. cbn. discriminate.
Qed.

Lemma round64_mono (x y : Q) : x <= y -> round64 x <= round64 y.
Proof.
  intro H.
  destruct (Q_dec x 0) as [[Lx | Gx] | Ex];
    destruct (Q_dec y 0) as [[Ly | Gy] | Ey]; try (exfalso; lra).
  - rewrite (round64_neg_eq x Lx), (round64_neg_eq y Ly).
    pose proof (round_pos_mono (- y) (- x) ltac:(lra) ltac:(lra)). lra.
  - rewrite (round64_neg_eq x Lx), (round64_pos_eq y Gy).
    pose proof (round_pos_pos (- x) ltac:(lra)).
    pose proof (round_pos_pos y Gy). lra.
  - rewrite (round64_neg_eq x Lx), (round64_zero y Ey).
    pose proof (round_pos_pos (- x) ltac:(lra)). lra.
  - rewrite (round64_pos_eq x Gx), (round64_pos_eq y Gy).
    now apply round_pos_mono.
  - rewrite (round64_zero x Ex), (round64_pos_eq y Gy).
    pose proof (round_pos_pos y Gy). lra.
  - rewrite (round64_zero x Ex), (round64_zero y Ey). lra.
Qed.

Lemma round64_exact (x : Q) (M k : Z) :
  (Z.abs M <= 2 ^ 53)%Z -> x == inject_Z M * pow2 k -> round64 x == x.
Proof.
  intros HM E. pose proof (pow2_pos k) as Pk.
  destruct (Z.lt_trichotomy M 0) as [L | [Z0 | G]].
  - assert (Hq : inject_Z M < 0).
    { change 0 with (inject_Z 0). now rewrite <- Zlt_Qlt. }
    assert (Hx : x < 0) by (rewrite E; nra).
    rewrite (round64_neg_eq x Hx).
    rewrite (round_pos_exact (- x) (- M) k); [ring | lia |].
    rewrite inject_Z_opp, E. ring.
  - subst M. assert (Hx : x == 0) by (rewrite E; ring).
    rewrite (round64_zero x Hx). now symmetry.
  - assert (Hq : 0 < inject_Z M).
    { change 0 with (inject_Z 0). now rewrite <- Zlt_Qlt. }
    assert (Hx : 0 < x) by (rewrite E; nra).
    rewrite (round64_pos_eq x Hx).
    apply (round_pos_exact x M k); [lia | assumption].
Qed.

Lemma round64_Z (z : Z) : (Z.abs z <= 2 ^ 53)%Z ->
  round64 (inject_Z z) == inject_Z z.
Proof.
  intro H. apply (round64_exact _ z 0 H). change (pow2 0) with 1. ring.
Qed.

(** Every result of the rounding is a number of the format. *)
Lemma round64_format (x : Q) :
  exists M k, (Z.abs M <= 2 ^ 53)%Z /\ round64 x == inject_Z M * pow2 k.
Proof.
  destruct (Q_dec x 0) as [[L | G] | E].
  - pose proof (round_pos_mantissa (- x) ltac:(lra)) as HM.
    exists (- round_even (- x / pow2 (exponent (- x))))%Z, (exponent (- x)).
    split; [lia|]. rewrite (round64_neg_eq x L). unfold round_pos.
    rewrite inject_Z_opp. ring.
  - pose proof (round_pos_mantissa x G) as HM.
    exists (round_even (x / pow2 (exponent x))), (exponent x).
    split; [lia|]. now rewrite (round64_pos_eq x G).
  - exists 0%Z, 0%Z. split; [cbn; lia|]. rewrite (round64_zero x E). reflexivity.
Qed.

Lemma round64_idem (x : Q) : round64 (round64 x) == round64 x.
Proof.
  destruct (round64_format x) as (M & k & HM & E).
  now apply (round64_exact _ M k).
Qed.

Lemma round64_nonneg (x : Q) : 0 <= x -> 0 <= round64 x.
Proof.
  intro H. rewrite <- (round64_zero 0) by reflexivity. now apply round64_mono.
Qed.

Lemma round64_nonpos (x : Q) : x <= 0 -> round64 x <= 0.
Proof.
  intro H. apply Qle_trans with (round64 0); [now apply round64_mono|].
  rewrite (round64_zero 0) by reflexivity. lra.
Qed.

Lemma round64_pos (x : Q) : 0 < x -> 0 < round64 x.
Proof. intro H. rewrite (round64_pos_eq x H). now apply round_pos_pos. Qed.

Lemma round64_neg (x : Q) : x < 0 -> round64 x < 0.
Proof.
  intro H. rewrite (round64_neg_eq x H).
  pose proof (round_pos_pos (- x) ltac:(lra)). lra.
Qed.

(** A rounding keeps a number within the unit roundoff of itself. *)
Lemma round64_between (x : Q) : 0 <= x ->
  x * (1 - u) <= round64 x /\ round64 x <= x * (1 + u).
Proof.
  intro Hx. pose proof (round64_error x) as H.
  rewrite (Qabs_pos x) in H by assumption.
  apply Qabs_Qle_condition in H. fold u in H. split; lra.
Qed.

Lemma u_small : 0 < u /\ u < 1.
Proof. split; reflexivity. Qed.

(** The floor of a rounded quotient of two whole numbers is the floor
    of the quotient. *)
Lemma floor_round_div (x : Q) (a b : Z) :
  (Z.abs a < 2 ^ 53)%Z -> (0 < b)%Z ->
  x == inject_Z a / inject_Z b ->
  Qfloor (round64 x) = Qfloor x.
Proof.
  intros Ha Hb E.
  assert (Hbq : 0 < inject_Z b).
  { change 0 with (inject_Z 0). now rewrite <- Zlt_Qlt. }
  assert (Hb1 : 1 <= inject_Z b).
  { change 1 with (inject_Z 1). rewrite <- Zle_Qle. lia. }
  set (n := Qfloor x).
  pose proof (Qfloor_le x) as L. pose proof (Qlt_floor x) as U.
  fold n in L, U. rewrite inject_Z_plus in U. change (inject_Z 1) with 1 in U.
  assert (Xb : x * inject_Z b == inject_Z a) by (rewrite E; field; lra).
  assert (Hn : (Z.abs n <= Z.abs a)%Z).
  { assert (A1 : inject_Z n * inject_Z b <= inject_Z a) by nra.
    assert (A2 : inject_Z a < (inject_Z n + 1) * inject_Z b) by nra.
    rewrite <- inject_Z_mult in A1. rewrite <- Zle_Qle in A1.
    change 1 with (inject_Z 1) in A2.
    rewrite <- inject_Z_plus, <- inject_Z_mult, <- Zlt_Qlt in A2. nia. }
  apply floor_unique.
  - rewrite <- (round64_Z n) by lia. now apply round64_mono.
  - destruct (Qeq_dec x (inject_Z n)) as [Eq | Ne].
    + rewrite (round64_proper _ _ Eq), round64_Z by lia. lra.
    + assert (Hgap : inject_Z n * inject_Z b + 1 <= inject_Z a).
      { assert (A : inject_Z n * inject_Z b < inject_Z a).
        { assert (inject_Z n < x) by (destruct (Qlt_le_dec (inject_Z n) x); [assumption | exfalso; apply Ne; lra]).
          nra. }
        rewrite <- inject_Z_mult, <- Zlt_Qlt in A.
        change 1 with (inject_Z 1).
        rewrite <- inject_Z_mult, <- inject_Z_plus, <- Zle_Qle. lia. }
      assert (Hgap2 : inject_Z a + 1 <= (inject_Z n + 1) * inject_Z b).
      { assert (A : inject_Z a < (inject_Z n + 1) * inject_Z b) by nra.
        change 1 with (inject_Z 1) in A |- *.
        rewrite <- inject_Z_plus, <- inject_Z_mult, <- Zlt_Qlt in A.
        rewrite <- !inject_Z_plus, <- inject_Z_mult, <- Zle_Qle. lia. }
      pose proof (round64_error x) as Er.
      apply Qabs_Qle_condition in Er. destruct Er as [_ Er].
      assert (Hax : Qabs x * inject_Z b == Qabs (inject_Z a)).
      { rewrite <- Xb, Qabs_Qmult, (Qabs_pos (inject_Z b)) by lra. reflexivity. }
      assert (Ha' : Qabs (inject_Z a) * pow2 (-53) < 1).
      { assert (A : Qabs (inject_Z a) < pow2 53).
        { rewrite pow2_Z by lia.
          assert (Qabs (inject_Z a) == inject_Z (Z.abs a)) by
            (unfold Qabs, inject_Z; reflexivity).
          rewrite H. now rewrite <- Zlt_Qlt. }
        assert (B : pow2 53 * pow2 (-53) == 1) by reflexivity.
        pose proof (pow2_pos (-53)). nra. }
      pose proof (Qabs_nonneg x) as Hx0. pose proof (pow2_pos (-53)) as P.
      assert (Hd : Qabs x * pow2 (-53) * inject_Z b < 1).
      { setoid_replace (Qabs x * pow2 (-53) * inject_Z b)
          with (Qabs x * inject_Z b * pow2 (-53)) by ring.
        now rewrite Hax. }
      assert (Hx1 : x * inject_Z b + 1 <= (inject_Z n + 1) * inject_Z b)
        by (rewrite Xb; exact Hgap2).
      assert (Hr : (round64 x - x) * inject_Z b < 1).
      { assert ((round64 x - x) * inject_Z b
                <= Qabs x * pow2 (-53) * inject_Z b) by nra.
        lra. }
      nra.
Qed.

End DoubleFacts.

(** ** Indicator engine: the window of 100 bars *)

Module IndicatorsFacts.
Import Indicators.

Lemma length_calculateSMA (prices : list num) (period : Z) :
  length (calculateSMA prices period) = length prices.
Proof. unfold calculateSMA. apply length_mapi. Qed.

Lemma length_calculateRSI (prices : list num) (period : Z) :
  length (calculateRSI prices period) = length prices.
Proof. unfold calculateRSI. now rewrite length_map, length_seq. Qed.

Lemma length_ema_from (k prev : num) (rest : list num) :
  length (ema_from k prev rest) = length rest.
Proof.
  revert prev. induction rest as [|x rest IH]; intro prev; simpl; [reflexivity|].
  now rewrite IH.
Qed.

Lemma length_calculateEMA (data : list num) (period : Z) :
  data <> [] -> length (calculateEMA data period) = length data.
Proof.
  intro H. unfold calculateEMA. simpl. rewrite length_ema_from.
  destruct data; [contradiction | reflexivity].
Qed.

Lemma length_macdLine (prices : list num) :
  prices <> [] -> length (macdLine prices) = length prices.
Proof.
  intro H. unfold macdLine, ema12. rewrite length_mapi.
  now apply length_calculateEMA.
Qed.

Lemma length_signalLine (prices : list num) :
  prices <> [] -> length (signalLine prices) = length prices.
Proof.
  intro H. unfold signalLine.
  rewrite length_calculateEMA; [now apply length_macdLine|].
  intro E. apply (f_equal (@length num)) in E.
  rewrite length_macdLine in E by assumption.
  destruct prices; [contradiction | discriminate].
Qed.

Lemma length_window (data : list PriceBar) :
  length (window data) = Nat.min (length data) 100.
Proof. unfold window. rewrite length_skipn. lia. Qed.

Lemma limitedData_window (data : list PriceBar) :
  slice_from data (-100) = window data.
Proof.
  change (-100)%Z with (- (100))%Z.
  rewrite length_slice_from_neg by lia. unfold window. f_equal.
  change (Z.to_nat 100) with 100%nat. lia.
Qed.

Lemma indicators_nonempty (Math_sqrt : num -> num) (data : list PriceBar) :
  data <> [] ->
  indicators Math_sqrt data =
  Some (mapi (row Math_sqrt (map (fun d => Fin (close d)) (window data)))
             (window data)).
Proof.
  intro H. unfold indicators. rewrite limitedData_window.
  destruct data; [contradiction | reflexivity].
Qed.

(** C10.  The indicator engine works on the trailing 100 bars: without
    data it yields [null]; with [n >= 1] bars it yields [min n 100]
    rows, row [idx] carries the close and the date of source bar
    [n - min n 100 + idx] and entry [idx] of the SMA, RSI, MACD and
    signal arrays computed from the closes of that window, and each of
    these arrays has [min n 100] entries. *)
Theorem C10_indicators_use_last_100_bars :
  forall (Math_sqrt : num -> num) (data : list PriceBar),
    match indicators Math_sqrt data with
    | None => data = []
    | Some rows =>
        let n := length data in
        let m := Nat.min n 100 in
        let prices := map (fun d => Fin (close d)) (window data) in
        length rows = m /\
        length prices = m /\
        length (calculateSMA prices 20) = m /\
        length (calculateSMA prices 50) = m /\
        length (calculateRSI prices 14) = m /\
        length (macdLine prices) = m /\
        length (signalLine prices) = m /\
        forall (idx : nat) (r0 : Row) (d0 : PriceBar),
          (idx < m)%nat ->
          let r := nth idx rows r0 in
          let src := nth (n - m + idx) data d0 in
          price r = Fin (close src) /\
          date r = Bar.date src /\
          sma20 r = nth idx (calculateSMA prices 20) None /\
          sma50 r = nth idx (calculateSMA prices 50) None /\
          rsi r = nth idx (calculateRSI prices 14) None /\
          macd r = nth idx (macdLine prices) NaN /\
          signal r = nth idx (signalLine prices) NaN
    end.
Proof.
  intros Math_sqrt data.
  destruct (list_eq_dec_nil data) as [Hd | Hne].
  { rewrite Hd. reflexivity. }
  rewrite (indicators_nonempty Math_sqrt data Hne). cbv zeta.
  set (prices := map (fun d1 => Fin (close d1)) (window data)).
  assert (Hlen : length prices = Nat.min (length data) 100).
  { unfold prices. now rewrite length_map, length_window. }
  assert (Hp : prices <> []).
  { intro E. rewrite E in Hlen. simpl in Hlen.
    destruct data; [contradiction | simpl in Hlen; lia]. }
  repeat split.
  - now rewrite length_mapi, length_window.
  - assumption.
  - now rewrite length_calculateSMA.
  - now rewrite length_calculateSMA.
  - now rewrite length_calculateRSI.
  - now rewrite length_macdLine.
  - now rewrite length_signalLine.
  - rewrite (nth_mapi _ _ _ d0) by (now rewrite length_window).
    simpl. unfold window. now rewrite nth_skipn.
  - rewrite (nth_mapi _ _ _ d0) by (now rewrite length_window).
    simpl. unfold window. now rewrite nth_skipn.
  - rewrite (nth_mapi _ _ _ d0) by (now rewrite length_window). reflexivity.
  - rewrite (nth_mapi _ _ _ d0) by (now rewrite length_window). reflexivity.
  - rewrite (nth_mapi _ _ _ d0) by (now rewrite length_window). reflexivity.
  - rewrite (nth_mapi _ _ _ d0) by (now rewrite length_window). simpl.
    unfold get_num.
    destruct (Z.of_nat idx <? 0)%Z eqn:E; [apply Z.ltb_lt in E; lia|].
    now rewrite Nat2Z.id.
  - rewrite (nth_mapi _ _ _ d0) by (now rewrite length_window). simpl.
    unfold get_num.
    destruct (Z.of_nat idx <? 0)%Z eqn:E; [apply Z.ltb_lt in E; lia|].
    now rewrite Nat2Z.id.
Qed.

(** C10 at a series of two bars. *)
Lemma C10_witness :
  exists rows,
    indicators (fun x => x)
      [mkBar 1000 100 102 98 100 5; mkBar 2000 100 111 100 110 7]
    = Some rows /\ length rows = 2%nat.
Proof.
  pose proof (C10_indicators_use_last_100_bars (fun x => x)
                [mkBar 1000 100 102 98 100 5; mkBar 2000 100 111 100 110 7])
    as H.
  destruct (indicators (fun x => x)
              [mkBar 1000 100 102 98 100 5; mkBar 2000 100 111 100 110 7])
    as [rows|].
  - exists rows. split; [reflexivity|]. exact (proj1 H).
  - discriminate H.
Defined.

End IndicatorsFacts.

(** ** Indicator engine: the range of the RSI *)

Module RSIFacts.
Import Indicators.

Section Closes.

Variable closes : list Q.
Lemma get_num_prices (j : Z) :
  (0 <= j < Z.of_nat (length closes))%Z ->
  get_num (map Fin closes) j = Fin (nth (Z.to_nat j) closes 0).
Proof.
  intro H. unfold get_num.
  destruct (j <? 0)%Z eqn:E; [apply Z.ltb_lt in E; lia|].
  rewrite (nth_indep _ NaN (Fin 0)) by (rewrite length_map; lia).
  apply map_nth.
Qed.

(** Gains and losses stay finite and non-negative through the window. *)
Lemma rsi_turns_nonneg (n : nat) :
  forall (from : Z) (g l : Q),
    0 <= g -> 0 <= l -> (1 <= from)%Z ->
    (from + Z.of_nat n <= Z.of_nat (length closes))%Z ->
    exists g' l',
      fold_left (rsi_turn (map Fin closes)) (z_seq from n) (Fin g, Fin l)
      = (Fin g', Fin l') /\ 0 <= g' /\ 0 <= l'.
Proof.
  induction n as [|n IH]; intros from g l Hg Hl Hfrom Hend.
  - exists g, l. simpl. auto.
  - change (fold_left (rsi_turn (map Fin closes)) (z_seq from (S n))
              (Fin g, Fin l))
      with (fold_left (rsi_turn (map Fin closes)) (z_seq (from + 1) n)
              (rsi_turn (map Fin closes) (Fin g, Fin l) from)).
    assert (Hstep : exists g1 l1,
               rsi_turn (map Fin closes) (Fin g, Fin l) from = (Fin g1, Fin l1)
               /\ 0 <= g1 /\ 0 <= l1).
    { unfold rsi_turn. rewrite !get_num_prices by lia.
      set (a := nth (Z.to_nat from) closes 0).
      set (b := nth (Z.to_nat (from - 1)) closes 0).
      simpl sub. unfold gt, lt.
      destruct (Qltb 0 (a + - b)) eqn:E.
      - apply Qltb_true in E. eexists _, _. simpl.
        split; [reflexivity|]. split; lra.
      - apply Qltb_false in E. eexists _, _. simpl.
        split; [reflexivity|]. split; lra. }
    destruct Hstep as (g1 & l1 & -> & Hg1 & Hl1).
    apply IH; try assumption; lia.
Qed.

Lemma rsi_at_defined (period : Z) (i : nat) :
  (1 <= period)%Z -> (period <= Z.of_nat i)%Z -> (i < length closes)%nat ->
  exists r, rsi_at (map Fin closes) period i = Some (Fin r) /\ 0 <= r <= 100.
Proof.
  intros Hp Hi Hlen. unfold rsi_at.
  destruct (Z.of_nat i <? period)%Z eqn:E; [apply Z.ltb_lt in E; lia|].
  destruct (rsi_turns_nonneg (Z.to_nat period)
              (Z.of_nat i - period + 1) 0 0) as (g & l & Hfold & Hg & Hl);
    try lra; try lia.
  rewrite Hfold.
  assert (Hpq : 0 < inject_Z period).
  { change 0 with (inject_Z 0). rewrite <- Zlt_Qlt. lia. }
  rewrite !of_Z_div by lia.
  set (avgGain := g / inject_Z period).
  set (avgLoss := l / inject_Z period).
  assert (HaG : 0 <= avgGain).
  { unfold avgGain. apply Qle_shift_div_l; lra. }
  assert (HaL : 0 <= avgLoss).
  { unfold avgLoss. apply Qle_shift_div_l; lra. }
  assert (Hd : exists d, or_else (Fin avgLoss) (Fin 1) = Fin d /\ 0 < d).
  { unfold or_else, truthy.
    destruct (Qeq_bool avgLoss 0) eqn:Ez; simpl.
    - exists 1. split; [reflexivity | lra].
    - exists avgLoss. split; [reflexivity|].
      assert (~ avgLoss == 0).
      { intro F. apply Qeq_bool_iff in F. congruence. }
      lra. }
  destruct Hd as (d & -> & Hdpos).
  rewrite div_fin by lra.
  set (rs := avgGain / d).
  assert (Hrs : 0 <= rs).
  { unfold rs. apply Qle_shift_div_l; lra. }
  simpl add. rewrite div_fin by lra. simpl sub.
  eexists. split; [reflexivity|].
  assert (H1 : 0 < 100 / (1 + rs)).
  { apply Qlt_shift_div_l; lra. }
  assert (H2 : 100 / (1 + rs) <= 100).
  { apply Qle_shift_div_r; lra. }
  lra.
Qed.

Lemma rsi_at_undefined (period : Z) (i : nat) :
  (Z.of_nat i < period)%Z -> rsi_at (map Fin closes) period i = None.
Proof.
  intro H. unfold rsi_at.
  destruct (Z.of_nat i <? period)%Z eqn:E; [reflexivity|].
  apply Z.ltb_ge in E. lia.
Qed.

Lemma nth_calculateRSI (period : Z) (i : nat) (d : option num) :
  (i < length closes)%nat ->
  nth i (calculateRSI (map Fin closes) period) d =
  rsi_at (map Fin closes) period i.
Proof.
  intro H. unfold calculateRSI.
  assert (Hl : length (map Fin closes) = length closes) by apply length_map.
  rewrite (nth_indep _ d (rsi_at (map Fin closes) period 0))
    by (rewrite length_map, length_seq; lia).
  rewrite map_nth. rewrite seq_nth by lia. reflexivity.
Qed.

End Closes.

(** C5.  For closes that are numbers and a period of at least one bar
    (the engine uses 14), every entry of the RSI array at an index
    [i >= period] is a number between 0 and 100, and every entry at an
    index [i < period] is [null].  Windows without losses are included:
    there [avgLoss || 1] makes the divisor 1. *)
Theorem C5_rsi_between_0_and_100 :
  forall (closes : list Q) (period : Z) (i : nat),
    (1 <= period)%Z ->
    (i < length closes)%nat ->
    let rsi := calculateRSI (map Fin closes) period in
    length rsi = length closes /\
    ((Z.of_nat i < period)%Z -> nth i rsi (Some NaN) = None) /\
    ((period <= Z.of_nat i)%Z ->
       exists r, nth i rsi None = Some (Fin r) /\ 0 <= r <= 100).
Proof.
  intros closes period i Hp Hi rsi. unfold rsi. repeat split.
  - rewrite IndicatorsFacts.length_calculateRSI. apply length_map.
  - intro H. rewrite nth_calculateRSI by assumption.
    now apply rsi_at_undefined.
  - intro H. rewrite nth_calculateRSI by assumption.
    now apply rsi_at_defined.
Qed.

(** C5 at fifteen rising closes, index 14: a window without losses. *)
Lemma C5_witness :
  let closes := map inject_Z
    [100; 101; 102; 103; 104; 105; 106; 107; 108; 109; 110; 111; 112; 113;
     114]%Z in
  let rsi := calculateRSI (map Fin closes) 14 in
  length rsi = length closes /\
  ((Z.of_nat 14 < 14)%Z -> nth 14 rsi (Some NaN) = None) /\
  ((14 <= Z.of_nat 14)%Z ->
     exists r, nth 14 rsi None = Some (Fin r) /\ 0 <= r <= 100).
Proof.
  intro closes.
  apply (C5_rsi_between_0_and_100 closes 14 14).
  - lia.
  - simpl. lia.
Defined.

End RSIFacts.

(** ** VWAP: the running average stays between the typical prices *)

Module VWAPFacts.
Import VWAP.

Lemma fold_Qmin_le (l : list Q) :
  forall x, fold_left Qmin l x <= x /\
            forall y, In y l -> fold_left Qmin l x <= y.
Proof.
  induction l as [|z l IH]; intro x; simpl.
  - split; [lra | tauto].
  - destruct (IH (Qmin x z)) as [H1 H2].
    pose proof (Q.le_min_l x z). pose proof (Q.le_min_r x z).
    split; [lra|]. intros y [<- | Hy]; [lra | auto].
Qed.

Lemma fold_Qmax_ge (l : list Q) :
  forall x, x <= fold_left Qmax l x /\
            forall y, In y l -> y <= fold_left Qmax l x.
Proof.
  induction l as [|z l IH]; intro x; simpl.
  - split; [lra | tauto].
  - destruct (IH (Qmax x z)) as [H1 H2].
    pose proof (Q.le_max_l x z). pose proof (Q.le_max_r x z).
    split; [lra|]. intros y [<- | Hy]; [lra | auto].
Qed.

Lemma Qmin_list_le (l : list Q) (y : Q) : In y l -> Qmin_list l <= y.
Proof.
  destruct l as [|x rest]; simpl; [tauto|].
  destruct (fold_Qmin_le rest x) as [H1 H2].
  intros [<- | H]; auto.
Qed.

Lemma Qmax_list_ge (l : list Q) (y : Q) : In y l -> y <= Qmax_list l.
Proof.
  destruct l as [|x rest]; simpl; [tauto|].
  destruct (fold_Qmax_ge rest x) as [H1 H2].
  intros [<- | H]; auto.
Qed.

Section WithSqrt.

Variable Math_sqrt : num -> num.

Lemma step_values (a : acc) (d : PriceBar) (pv cv : Q) :
  cumulativePV a = Fin pv -> cumulativeVolume a = Fin cv ->
  0 <= cv -> 0 < volume d ->
  let a' := step Math_sqrt a d in
  cumulativePV a' = Fin (pv + typicalPrice d * volume d) /\
  cumulativeVolume a' = Fin (cv + volume d) /\
  map value (vwap (out a')) =
  map value (vwap (out a)) ++
    [Fin ((pv + typicalPrice d * volume d) / (cv + volume d))].
Proof.
  intros Hpv Hcv Hc Hv a'. unfold a', step. cbn [cumulativePV cumulativeVolume
    out vwap]. rewrite Hpv, Hcv.
  assert (H3 : ~ 3 == 0) by (intro F; discriminate F).
  cbn [add]. rewrite (div_fin _ 3 H3). cbn [mul add].
  fold (typicalPrice d).
  repeat split.
  rewrite map_app. cbn [map value]. rewrite div_fin by lra. reflexivity.
Qed.

Lemma fold_values (bars : list PriceBar) :
  forall (a : acc) (pv cv : Q),
    cumulativePV a = Fin pv -> cumulativeVolume a = Fin cv ->
    0 <= cv -> (forall d, In d bars -> 0 < volume d) ->
    map value (vwap (out (fold_left (step Math_sqrt) bars a))) =
    map value (vwap (out a)) ++ map Fin (vwap_values pv cv bars).
Proof.
  induction bars as [|d rest IH]; intros a pv cv Hpv Hcv Hc Hvol.
  - simpl. now rewrite app_nil_r.
  - assert (Hd : 0 < volume d) by (apply Hvol; now left).
    destruct (step_values a d pv cv Hpv Hcv Hc Hd) as (E1 & E2 & E3).
    cbn [fold_left].
    rewrite (IH _ _ _ E1 E2); [| lra | intros; apply Hvol; now right].
    rewrite E3, <- app_assoc. reflexivity.
Qed.

Lemma calculateVWAP_values (bars : list PriceBar) :
  (forall d, In d bars -> 0 < volume d) ->
  map value (vwap (calculateVWAP Math_sqrt bars)) =
  map Fin (vwap_values 0 0 bars).
Proof.
  intro H. unfold calculateVWAP.
  rewrite (fold_values bars _ 0 0); try reflexivity; try lra; assumption.
Qed.

End WithSqrt.

Lemma length_vwap_values (bars : list PriceBar) (pv cv : Q) :
  length (vwap_values pv cv bars) = length bars.
Proof.
  revert pv cv. induction bars as [|d rest IH]; intros; simpl; [reflexivity|].
  now rewrite IH.
Qed.

(** A weighted average of prices between [lo] and [hi] stays there. *)
Lemma vwap_values_bounded (lo hi : Q) (bars : list PriceBar) :
  forall (i : nat) (pv cv : Q),
    0 <= cv -> lo * cv <= pv -> pv <= hi * cv ->
    (forall d, In d bars -> 0 < volume d) ->
    (i < length bars)%nat ->
    (forall d, In d (firstn (S i) bars) ->
       lo <= typicalPrice d /\ typicalPrice d <= hi) ->
    lo <= nth i (vwap_values pv cv bars) 0 /\
    nth i (vwap_values pv cv bars) 0 <= hi.
Proof.
  induction bars as [|d rest IH]; intros i pv cv Hc Hlo Hhi Hvol Hi Htp.
  - simpl in Hi. lia.
  - assert (Hd : 0 < volume d) by (apply Hvol; now left).
    assert (Ht : lo <= typicalPrice d /\ typicalPrice d <= hi)
      by (apply Htp; now left).
    set (t := typicalPrice d) in *. set (v := volume d) in *.
    assert (Hlo' : lo * (cv + v) <= pv + t * v) by nra.
    assert (Hhi' : pv + t * v <= hi * (cv + v)) by nra.
    destruct i as [|i]; cbn [vwap_values nth]; fold t; fold v.
    + split.
      * apply Qle_shift_div_l; lra.
      * apply Qle_shift_div_r; lra.
    + apply IH; try lra.
      * intros; apply Hvol; now right.
      * simpl in Hi. lia.
      * intros d' Hd'. apply Htp. now right.
Qed.

(** In exact arithmetic, for a series whose volumes are all strictly
    positive, every VWAP value is a number that lies between the least
    and the greatest typical price [(high + low + close) / 3] of the
    bars up to and including its own. *)
Lemma exact_vwap_within_typical_prices :
  forall (Math_sqrt : num -> num) (priceData : list PriceBar) (i : nat),
    (forall d, In d priceData -> 0 < volume d) ->
    (i < length priceData)%nat ->
    let tps := map typicalPrice (firstn (S i) priceData) in
    let result := calculateVWAP Math_sqrt priceData in
    length (vwap result) = length priceData /\
    exists v,
      value (nth i (vwap result) (mkLine NaN NaN)) = Fin v /\
      Qmin_list tps <= v /\ v <= Qmax_list tps.
Proof.
  intros Math_sqrt priceData i Hvol Hi tps result.
  pose proof (calculateVWAP_values Math_sqrt priceData Hvol) as E.
  fold result in E.
  split.
  - rewrite <- (length_map value), E, length_map. apply length_vwap_values.
  - exists (nth i (vwap_values 0 0 priceData) 0). split.
    + change (value (nth i (vwap result) (mkLine NaN NaN)))
        with (value (nth i (vwap result) (mkLine NaN NaN))).
      rewrite <- (map_nth value), E.
      change (value (mkLine NaN NaN)) with NaN.
      rewrite (nth_indep _ NaN (Fin 0))
        by (rewrite length_map, length_vwap_values; lia).
      apply map_nth.
    + apply vwap_values_bounded; try assumption; try lra.
      intros d Hd. split.
      * apply Qmin_list_le. unfold tps. now apply in_map.
      * apply Qmax_list_ge. unfold tps. now apply in_map.
Qed.

End VWAPFacts.

(** ** Series normalizer *)

Module NormalizerFacts.


Lemma insert_by_date_perm (x : PriceBar) (l : list PriceBar) :
  Permutation (x :: l) (insert_by_date x l).
Proof.
  induction l as [|y l IH]; simpl; [apply Permutation_refl|].
  destruct (date x <=? date y)%Z; [apply Permutation_refl|].
  apply perm_trans with (y :: x :: l); [apply perm_swap|].
  now apply perm_skip.
Qed.

Lemma sort_by_date_perm (l : list PriceBar) : Permutation l (sort_by_date l).
Proof.
  induction l as [|x l IH]; simpl; [apply perm_nil|].
  apply perm_trans with (x :: sort_by_date l); [now apply perm_skip|].
  apply insert_by_date_perm.
Qed.

Lemma insert_by_date_sorted (x : PriceBar) (l : list PriceBar) :
  StronglySorted date_le l -> StronglySorted date_le (insert_by_date x l).
Proof.
  induction l as [|y l IH]; intro Hs; simpl.
  - constructor; constructor.
  - destruct (date x <=? date y)%Z eqn:E.
    + apply Z.leb_le in E. constructor; [assumption|].
      constructor; [exact E|].
      inversion Hs as [|? ? _ Hall]; subst.
      eapply Forall_impl; [|exact Hall].
      intros a Ha. unfold date_le in *. lia.
    + apply Z.leb_gt in E.
      inversion Hs as [|? ? Hs' Hall]; subst.
      constructor; [now apply IH|].
      apply Forall_forall. intros a Ha.
      apply (Permutation_in _ (Permutation_sym (insert_by_date_perm x l))) in Ha.
      destruct Ha as [<- | Ha].
      * unfold date_le. lia.
      * rewrite Forall_forall in Hall. now apply Hall.
Qed.

Lemma sort_by_date_sorted (l : list PriceBar) :
  StronglySorted date_le (sort_by_date l).
Proof.
  induction l as [|x l IH]; simpl; [constructor|].
  now apply insert_by_date_sorted.
Qed.

(** [set] keeps the keys and their order, and appends a new key. *)
Lemma map_set_keys (k : Z) (v : PriceBar) (m : TsMap) :
  map fst (map_set k v m) =
  if in_dec Z.eq_dec k (map fst m) then map fst m else map fst m ++ [k].
Proof.
  induction m as [|[k' v'] m IH]; simpl; [reflexivity|].
  destruct (k =? k')%Z eqn:E.
  - apply Z.eqb_eq in E. subst k'. simpl.
    destruct (Z.eq_dec k k) as [e|F]; [reflexivity | contradiction].
  - apply Z.eqb_neq in E. simpl. rewrite IH.
    destruct (Z.eq_dec k' k) as [F|ne]; [congruence|].
    destruct (in_dec Z.eq_dec k (map fst m)); reflexivity.
Qed.

Lemma map_set_In (k : Z) (v : PriceBar) (m : TsMap) :
  In (k, v) (map_set k v m).
Proof.
  induction m as [|[k' v'] m IH]; simpl; [now left|].
  destruct (k =? k')%Z; [now left | now right].
Qed.

Lemma map_set_entries (k : Z) (v : PriceBar) (m : TsMap) (e : Z * PriceBar) :
  In e (map_set k v m) -> e = (k, v) \/ In e m.
Proof.
  induction m as [|[k' v'] m IH]; simpl.
  - intros [<- | []]. now left.
  - destruct (k =? k')%Z; simpl.
    + intros [<- | H]; [now left | right; now right].
    + intros [<- | H]; [right; now left|].
      destruct (IH H) as [-> | H']; [now left | right; now right].
Qed.

Lemma sorted_lt_app_last (ks : list Z) (k : Z) :
  StronglySorted Z.lt ks -> (forall k', In k' ks -> (k' < k)%Z) ->
  StronglySorted Z.lt (ks ++ [k]).
Proof.
  induction ks as [|a ks IH]; intros Hs Hlt; simpl.
  - constructor; constructor.
  - inversion Hs as [|? ? Hs' Hall]; subst.
    constructor.
    + apply IH; [assumption|]. intros; apply Hlt; now right.
    + apply Forall_app. split; [assumption|].
      constructor; [|constructor]. apply Hlt. now left.
Qed.

Lemma fold_set_sorted (s : list PriceBar) :
  forall m : TsMap,
    StronglySorted date_le s ->
    StronglySorted Z.lt (map fst m) ->
    well_keyed m ->
    (forall k x, In k (map fst m) -> In x s -> (k <= date x)%Z) ->
    let r := fold_left (fun m item => map_set (date item) item m) s m in
    StronglySorted Z.lt (map fst r) /\
    well_keyed r /\
    (forall k v, In (k, v) r -> In (k, v) m \/ In v s) /\
    (forall k, In k (map fst m) -> In k (map fst r)) /\
    (forall x, In x s -> In (date x) (map fst r)).
Proof.
  induction s as [|x s IH]; intros m Hs Hm Hwk Hle; cbn [fold_left].
  - repeat split; try assumption; try tauto. intros x [].
  - inversion Hs as [|? ? Hs' Hall]; subst.
    rewrite Forall_forall in Hall.
    set (m' := map_set (date x) x m).
    assert (Hkeys : map fst m' =
              if in_dec Z.eq_dec (date x) (map fst m) then map fst m
              else map fst m ++ [date x]) by apply map_set_keys.
    assert (Hm' : StronglySorted Z.lt (map fst m')).
    { rewrite Hkeys. destruct (in_dec Z.eq_dec (date x) (map fst m)) as [i|n];
        [assumption|].
      apply sorted_lt_app_last; [assumption|].
      intros k' Hk'. assert ((k' <= date x)%Z) by (apply Hle; [assumption | now left]).
      assert (k' <> date x) by (intro F; subst; contradiction). lia. }
    assert (Hwk' : well_keyed m').
    { intros k v Hin. destruct (map_set_entries _ _ _ _ Hin) as [E | Hin'].
      - now inversion E.
      - now apply Hwk. }
    assert (Hle' : forall k y, In k (map fst m') -> In y s -> (k <= date y)%Z).
    { intros k y Hk Hy. rewrite Hkeys in Hk.
      assert (Hxy : (date x <= date y)%Z) by (now apply Hall).
      destruct (in_dec Z.eq_dec (date x) (map fst m)).
      - apply Hle; [assumption | now right].
      - apply in_app_or in Hk. destruct Hk as [Hk | [<- | []]].
        + apply Hle; [assumption | now right].
        + assumption. }
    destruct (IH m' Hs' Hm' Hwk' Hle') as (R1 & R2 & R3 & R4 & R5).
    repeat split; try assumption.
    + intros k v Hin. destruct (R3 k v Hin) as [Hin' | Hin'].
      * destruct (map_set_entries _ _ _ _ Hin') as [E | Hin''].
        -- inversion E; subst. right. now left.
        -- now left.
      * right. now right.
    + intros k Hk. apply R4. rewrite Hkeys.
      destruct (in_dec Z.eq_dec (date x) (map fst m)); [assumption|].
      apply in_or_app. now left.
    + intros y [E | Hy].
      * subst y. apply R4.
        change (date x) with (fst (date x, x)). apply in_map.
        apply map_set_In.
      * now apply R5.
Qed.

(** The dates of the output ascend strictly; every output bar is an
    input bar; every input date is the date of an output bar. *)
Lemma sortAndDeduplicateData_spec (l : list PriceBar) :
  let out := sortAndDeduplicateData l in
  StronglySorted Z.lt (map date out) /\
  (forall y, In y out -> In y l) /\
  (forall x, In x l -> exists y, In y out /\ date y = date x).
Proof.
  intros out. unfold out, sortAndDeduplicateData, map_values.
  destruct (fold_set_sorted (sort_by_date l) [])
    as (R1 & R2 & R3 & _ & R5).
  - apply sort_by_date_sorted.
  - constructor.
  - intros k v [].
  - intros k x [].
  - set (r := fold_left _ _ _) in *.
    assert (Hdates : map date (map snd r) = map fst r).
    { rewrite map_map. apply map_ext_in. intros [k v] Hin. simpl.
      symmetry. now apply R2. }
    repeat split.
    + now rewrite Hdates.
    + intros y Hy. apply in_map_iff in Hy. destruct Hy as ([k v] & <- & Hin).
      destruct (R3 k v Hin) as [[] | Hs]. simpl.
      apply (Permutation_in _ (Permutation_sym (sort_by_date_perm l))). exact Hs.
    + intros x Hx.
      assert (Hk : In (date x) (map fst r)).
      { apply R5. apply (Permutation_in _ (sort_by_date_perm l)). exact Hx. }
      apply in_map_iff in Hk. destruct Hk as ([k v] & Ek & Hin). simpl in Ek.
      exists v. split.
      * apply in_map_iff. exists (k, v). now split.
      * rewrite <- (R2 k v Hin). exact Ek.
Qed.

Lemma sortAndDeduplicateData_nonempty (l : list PriceBar) :
  l <> [] -> sortAndDeduplicateData l <> [].
Proof.
  intros H E. destruct l as [|x l]; [contradiction|].
  destruct (sortAndDeduplicateData_spec (x :: l)) as (_ & _ & H3).
  destruct (H3 x (or_introl eq_refl)) as (y & Hy & _).
  rewrite E in Hy. destruct Hy.
Qed.

(** Two lists with strictly ascending dates and the same bars are equal. *)
Lemma sorted_same_members_eq (l1 : list PriceBar) :
  forall l2,
    StronglySorted Z.lt (map date l1) -> StronglySorted Z.lt (map date l2) ->
    (forall x, In x l1 <-> In x l2) -> l1 = l2.
Proof.
  induction l1 as [|a l1 IH]; intros l2 S1 S2 Hmem.
  - destruct l2 as [|b l2]; [reflexivity|].
    exfalso. apply (proj2 (Hmem b)). now left.
  - destruct l2 as [|b l2].
    + exfalso. apply (proj1 (Hmem a)). now left.
    + simpl in S1, S2.
      inversion S1 as [|? ? S1' A1]; subst.
      inversion S2 as [|? ? S2' A2]; subst.
      rewrite Forall_forall in A1, A2.
      assert (Hab : a = b).
      { destruct (proj1 (Hmem a) (or_introl eq_refl)) as [E | Ha]; [now symmetry|].
        destruct (proj2 (Hmem b) (or_introl eq_refl)) as [E | Hb]; [assumption|].
        assert ((date b < date a)%Z) by (apply A2; now apply in_map).
        assert ((date a < date b)%Z) by (apply A1; now apply in_map).
        lia. }
      subst b. f_equal. apply IH; try assumption.
      intro x. split; intro Hx.
      * destruct (proj1 (Hmem x) (or_intror Hx)) as [E | H]; [|assumption].
        subst x. assert ((date a < date a)%Z) by (apply A1; now apply in_map). lia.
      * destruct (proj2 (Hmem x) (or_intror Hx)) as [E | H]; [|assumption].
        subst x. assert ((date a < date a)%Z) by (apply A2; now apply in_map). lia.
Qed.

(** A series whose dates ascend strictly is left as it is; so cleaning
    twice is cleaning once. *)
Lemma sortAndDeduplicateData_sorted (l : list PriceBar) :
  StronglySorted Z.lt (map date l) -> sortAndDeduplicateData l = l.
Proof.
  intro Hs.
  destruct (sortAndDeduplicateData_spec l) as (S1 & Sub & Cov).
  assert (Hinj : forall a b, In a l -> In b l -> date a = date b -> a = b).
  { clear S1 Sub Cov. induction l as [|x l IH]; intros a b Ha Hb E;
      [destruct Ha|].
    cbn [map] in Hs. inversion Hs as [|? ? Hs' Hall]; subst.
    rewrite Forall_forall in Hall.
    destruct Ha as [<- | Ha], Hb as [<- | Hb].
    - reflexivity.
    - assert ((date x < date b)%Z) by (apply Hall; now apply in_map). lia.
    - assert ((date x < date a)%Z) by (apply Hall; now apply in_map). lia.
    - now apply IH. }
  apply sorted_same_members_eq; try assumption.
  intro x. split; [apply Sub|].
  intro Hx. destruct (Cov x Hx) as (y & Hy & E).
  now rewrite <- (Hinj y x (Sub y Hy) Hx E).
Qed.

Lemma sortAndDeduplicateData_idempotent (l : list PriceBar) :
  sortAndDeduplicateData (sortAndDeduplicateData l) = sortAndDeduplicateData l.
Proof.
  apply sortAndDeduplicateData_sorted.
  now destruct (sortAndDeduplicateData_spec l) as (S1 & _).
Qed.

(** C4, as amended.  For two inputs that are permutations of each
    other and in which bars of one timestamp are one and the same bar
    (in particular when all timestamps differ), the normalizer gives
    the same output. *)
Theorem C4_normalizer_order_independent_without_conflicts :
  forall l1 l2 : list PriceBar,
    Permutation l1 l2 ->
    (forall a b, In a l1 -> In b l1 -> date a = date b -> a = b) ->
    sortAndDeduplicateData l1 = sortAndDeduplicateData l2.
Proof.
  intros l1 l2 Hperm Hinj.
  destruct (sortAndDeduplicateData_spec l1) as (S1 & Sub1 & Cov1).
  destruct (sortAndDeduplicateData_spec l2) as (S2 & Sub2 & Cov2).
  assert (Hmem1 : forall x, In x l1 -> In x (sortAndDeduplicateData l1)).
  { intros x Hx. destruct (Cov1 x Hx) as (y & Hy & E).
    rewrite <- (Hinj y x (Sub1 y Hy) Hx E). exact Hy. }
  assert (Hmem2 : forall x, In x l2 -> In x (sortAndDeduplicateData l2)).
  { intros x Hx. destruct (Cov2 x Hx) as (y & Hy & E).
    assert (Hy1 : In y l1)
      by (apply (Permutation_in _ (Permutation_sym Hperm)); now apply Sub2).
    assert (Hx1 : In x l1)
      by (now apply (Permutation_in _ (Permutation_sym Hperm))).
    rewrite <- (Hinj y x Hy1 Hx1 E). exact Hy. }
  apply sorted_same_members_eq; try assumption.
  intro x. split; intro Hx.
  - apply Hmem2. apply (Permutation_in _ Hperm). now apply Sub1.
  - apply Hmem1. apply (Permutation_in _ (Permutation_sym Hperm)). now apply Sub2.
Qed.

(** C4 as stated fails: two bars of one timestamp and different
    closes, given in the two possible orders, are permutations of each
    other, and each order keeps the bar given last. *)
Lemma C4_counterexample_duplicate_timestamp :
  let a := mkBar 1000 100 100 100 100 5 in
  let b := mkBar 1000 200 200 200 200 5 in
  Permutation [a; b] [b; a] /\
  sortAndDeduplicateData [a; b] = [b] /\
  sortAndDeduplicateData [b; a] = [a] /\
  sortAndDeduplicateData [a; b] <> sortAndDeduplicateData [b; a].
Proof.
  intros a b. repeat split.
  - apply perm_swap.
  - vm_compute. intro H. discriminate H.
Qed.

(** The amended statement at two distinct timestamps. *)
Lemma C4_witness :
  sortAndDeduplicateData [mkBar 2000 1 1 1 1 1; mkBar 1000 2 2 2 2 2] =
  sortAndDeduplicateData [mkBar 1000 2 2 2 2 2; mkBar 2000 1 1 1 1 1].
Proof.
  apply C4_normalizer_order_independent_without_conflicts.
  - apply perm_swap.
  - intros a b [<- | [<- | []]] [<- | [<- | []]] E;
      first [reflexivity | discriminate E].
Defined.

End NormalizerFacts.

(** ** Renko bricks *)

Module RenkoFacts.
Import Renko.

Lemma max_fin (a b : Q) :
  exists h, max (Fin a) (Fin b) = Fin h /\ h == Qmax a b.
Proof.
  unfold max, le. destruct (Qle_bool a b) eqn:E.
  - apply Qle_bool_iff in E. exists b. split; [reflexivity|].
    symmetry. now apply Q.max_r.
  - apply Qle_bool_false in E. exists a. split; [reflexivity|].
    symmetry. apply Q.max_l. lra.
Qed.

Lemma min_fin (a b : Q) :
  exists l, min (Fin a) (Fin b) = Fin l /\ l == Qmin a b.
Proof.
  unfold min, le. destruct (Qle_bool a b) eqn:E.
  - apply Qle_bool_iff in E. exists a. split; [reflexivity|].
    symmetry. now apply Q.min_l.
  - apply Qle_bool_false in E. exists b. split; [reflexivity|].
    symmetry. apply Q.min_r. lra.
Qed.

(** The inner loop, on finite values. *)
Lemma emit_eq (n : nat) :
  forall (j : nat) (dir bs bt c : Q) (acc : list Candle.t),
    emit n j (Fin dir) (Fin bs) (Fin bt) (Fin c) acc =
    (Fin (price_after n dir bs c), acc ++ bricks_from n j dir bs bt c).
Proof.
  induction n as [|n IH]; intros j dir bs bt c acc.
  - simpl. now rewrite app_nil_r.
  - cbn [emit bricks_from price_after]. cbn [mul add of_nat].
    rewrite IH, <- app_assoc. reflexivity.
Qed.

Lemma price_after_eq (n : nat) :
  forall dir bs c,
    price_after n dir bs c == c + inject_Z (Z.of_nat n) * (dir * bs).
Proof.
  induction n as [|n IH]; intros dir bs c.
  - simpl. change (inject_Z 0) with 0. ring.
  - cbn [price_after]. rewrite IH, Nat2Z.inj_succ. unfold Z.succ.
    rewrite !inject_Z_plus. change (inject_Z 1) with 1. ring.
Qed.

Lemma length_bricks_from (n : nat) :
  forall j dir bs bt c, length (bricks_from n j dir bs bt c) = n.
Proof.
  induction n as [|n IH]; intros; simpl; [reflexivity|]. now rewrite IH.
Qed.

Lemma linked_bricks_from (n : nat) :
  forall j dir bs bt c,
    linked (Fin c) (bricks_from n j dir bs bt c) /\
    end_price (Fin c) (bricks_from n j dir bs bt c)
    = Fin (price_after n dir bs c).
Proof.
  induction n as [|n IH]; intros j dir bs bt c; cbn; [auto|].
  destruct (IH (S j) dir bs bt (c + dir * bs)) as [H1 H2]. auto.
Qed.

Lemma linked_app (l1 : list Candle.t) :
  forall start l2,
    linked start l1 -> linked (end_price start l1) l2 ->
    linked start (l1 ++ l2) /\
    end_price start (l1 ++ l2) = end_price (end_price start l1) l2.
Proof.
  induction l1 as [|b l1 IH]; intros start l2 H1 H2; cbn in *; [auto|].
  destruct H1 as [Ho Hl]. destruct (IH _ _ Hl H2). auto.
Qed.

Lemma linked_nth (l : list Candle.t) :
  forall start i b1 b2,
    linked start l ->
    nth_error l i = Some b1 -> nth_error l (S i) = Some b2 ->
    Candle.open b2 = Candle.close b1.
Proof.
  induction l as [|b l IH]; intros start i b1 b2 Hl H1 H2.
  - destruct i; discriminate.
  - destruct Hl as [_ Hl]. destruct i as [|i].
    + cbn in H1, H2. inversion H1; subst b1.
      destruct l as [|b' l]; [discriminate|].
      cbn in H2. inversion H2; subst b2. now destruct Hl.
    + cbn in H1. eapply IH; eauto.
Qed.

Lemma unit_bricks_from (n : nat) :
  forall j dir bs bt c,
    0 < bs -> dir = 1 \/ dir = -1 ->
    Forall (unit_brick bs) (bricks_from n j dir bs bt c).
Proof.
  induction n as [|n IH]; intros j dir bs bt c Hbs Hdir; cbn [bricks_from].
  - constructor.
  - constructor; [|now apply IH].
    destruct (max_fin c (c + dir * bs)) as (h & Eh & Hh).
    destruct (min_fin c (c + dir * bs)) as (l & El & Hl).
    exists c, (c + dir * bs), h, l. cbn [Candle.open Candle.close
      Candle.high Candle.low].
    repeat split; try assumption.
    destruct Hdir as [-> | ->].
    + setoid_replace (c + 1 * bs - c) with bs by ring.
      apply Qabs_pos. lra.
    + setoid_replace (c + -1 * bs - c) with (- bs) by ring.
      rewrite Qabs_opp. apply Qabs_pos. lra.
Qed.

(** One turn of the outer loop, on finite values. *)
Lemma step_fin (bs c t p : Q) (l : list Candle.t) :
  0 < bs ->
  let n := Qfloor (Qabs (p - c) / bs) in
  let dir := if Qltb 0 (p - c) then 1 else -1 in
  step (Fin bs) (mkState (Fin c) (Fin t) l) (Fin p) =
  Returns
    (if Qltb 0 (inject_Z n)
     then mkState (Fin (price_after (Z.to_nat n) dir bs c))
                  (Fin (t + inject_Z n))
                  (l ++ bricks_from (Z.to_nat n) 0 dir bs t c)
     else mkState (Fin c) (Fin t) l).
Proof.
  intros Hbs n dir. unfold step.
  cbn [currentBrickPrice brickTime bricks sub neg add abs].
  rewrite div_fin by lra. cbn [floor gt lt].
  change (p + - c) with (p - c). fold n.
  destruct (Qltb 0 (inject_Z n)) eqn:E; [|reflexivity].
  cbn [turns bind]. rewrite Qceiling_Z.
  assert (Hdir : (if Qltb 0 (p - c) then Fin 1 else Fin (-1)) = Fin dir).
  { unfold dir. now destruct (Qltb 0 (p - c)). }
  rewrite Hdir, emit_eq. reflexivity.
Qed.

Lemma step_dir (p c : Q) :
  let dir := if Qltb 0 (p - c) then 1 else -1 in dir = 1 \/ dir = -1.
Proof. cbv zeta. destruct (Qltb 0 (p - c)); auto. Qed.

Lemma step_chain_inv (bs : Q) (start : num) (st : state) (p : Q) :
  0 < bs -> chain_inv bs start st ->
  exists st',
    step (Fin bs) st (Fin p) = Returns st' /\ chain_inv bs start st' /\
    exists more, bricks st' = bricks st ++ more.
Proof.
  intros Hbs ((c & Hc) & (t & Ht) & Hunit & Hlink & Hend).
  destruct st as [cur bt l]. cbn in *. subst cur bt.
  rewrite step_fin by assumption.
  destruct (Qltb 0 (inject_Z (Qfloor (Qabs (p - c) / bs)))).
  - eexists. split; [reflexivity|]. split; [|eexists; reflexivity].
    set (n := Z.to_nat _). set (dir := if Qltb 0 (p - c) then 1 else -1).
    destruct (linked_bricks_from n 0 dir bs t c) as [L1 L2].
    rewrite <- Hend in L1.
    destruct (linked_app l start _ Hlink L1) as [A1 A2].
    unfold chain_inv. cbn. repeat split; eauto.
    + apply Forall_app. split; [assumption|].
      apply unit_bricks_from; [assumption | apply step_dir].
    + rewrite A2, Hend. exact L2.
  - eexists. split; [reflexivity|]. split; [|exists []; now rewrite app_nil_r].
    unfold chain_inv. cbn. repeat split; eauto.
Qed.

Lemma loop_chain_inv (bs : Q) (start : num) (data : list PriceBar) :
  0 < bs ->
  forall st, chain_inv bs start st ->
  exists st',
    loop (Fin bs) st data = Returns st' /\ chain_inv bs start st' /\
    exists more, bricks st' = bricks st ++ more.
Proof.
  intro Hbs. induction data as [|d rest IH]; intros st Hinv; cbn [loop].
  - exists st. split; [reflexivity|]. split; [assumption|].
    exists []. now rewrite app_nil_r.
  - destruct (step_chain_inv bs start st (close d) Hbs Hinv)
      as (st1 & -> & Hinv1 & (m1 & E1)).
    cbn [bind]. destruct (IH st1 Hinv1) as (st' & E & Hinv' & (m2 & E2)).
    exists st'. split; [assumption|]. split; [assumption|].
    exists (m1 ++ m2). now rewrite E2, E1, app_assoc.
Qed.


(** In exact arithmetic, for every series and every positive brick
    size, the builder returns a brick list in which every brick has
    [|close - open| = brickSize], [high = max(open, close)] and
    [low = min(open, close)], and in which each brick opens at the
    close of the brick before it. *)
Lemma exact_bricks_uniform_and_chained :
  forall (priceData : list PriceBar) (brickSize : Q),
    0 < brickSize ->
    exists bricks,
      calculateRenkoBricks priceData brickSize = Returns bricks /\
      Forall (unit_brick brickSize) bricks /\
      forall i b1 b2,
        nth_error bricks i = Some b1 ->
        nth_error bricks (S i) = Some b2 ->
        Candle.open b2 = Candle.close b1.
Proof.
  intros priceData bs Hbs. unfold calculateRenkoBricks.
  destruct priceData as [|d0 rest].
  - exists []. repeat split; [constructor|].
    intros [|i] b1 b2 H; discriminate H.
  - set (priceData := d0 :: rest).
    assert (Hne : sortAndDeduplicateData priceData <> [])
      by (apply NormalizerFacts.sortAndDeduplicateData_nonempty; discriminate).
    unfold run.
    destruct (sortAndDeduplicateData priceData) as [|first cleanRest] eqn:Hclean;
      [contradiction|].
    cbn [init]. rewrite div_fin by lra. cbn [floor mul bind].
    set (c0 := inject_Z (Qfloor (close first / bs)) * bs).
    destruct (loop_chain_inv bs (Fin c0) (first :: cleanRest) Hbs
                (mkState (Fin c0) (div (of_Z (date first)) (Fin 1000)) []))
      as (st & -> & (_ & _ & Hunit & Hlink & _) & _).
    { unfold chain_inv, of_Z.
      cbn [currentBrickPrice brickTime bricks linked end_price].
      rewrite div_fin by (intro F; discriminate F).
      repeat split; eauto. }
    cbn [bind]. exists (bricks st). repeat split; [assumption|].
    intros i b1 b2. now apply linked_nth with (start := Fin c0).
Qed.

(** *** A rising series *)

Lemma inject_Z_of_nat_S (n : nat) :
  inject_Z (Z.of_nat (S n)) == inject_Z (Z.of_nat n) + 1.
Proof.
  rewrite Nat2Z.inj_succ. unfold Z.succ. rewrite inject_Z_plus. reflexivity.
Qed.




Lemma last_cons_default {A} (l : list A) (a d : A) :
  last (a :: l) d = last l a.
Proof.
  revert a d. induction l as [|b l IH]; intros a d; [reflexivity|].
  change (last (a :: b :: l) d) with (last (b :: l) d).
  now rewrite !IH.
Qed.


Lemma init_fin (bs : Q) (first : PriceBar) (rest : list PriceBar) :
  0 < bs ->
  init (Fin bs) (first :: rest) =
  Returns (mkState (Fin (inject_Z (Qfloor (close first / bs)) * bs))
                   (Fin (inject_Z (date first) / 1000)) []).
Proof.
  intro Hbs. unfold init, of_Z.
  rewrite div_fin by lra. rewrite div_fin by (intro F; discriminate F).
  reflexivity.
Qed.


(** *** A brick size that is not positive *)

Lemma inf_of_sign_not_fin (a : Q) (pos : bool) :
  inf_of_sign a pos = NaN \/ inf_of_sign a pos = PInf \/
  inf_of_sign a pos = NInf.
Proof.
  unfold inf_of_sign. destruct (Qeq_bool a 0); [now left|].
  destruct (Bool.eqb (Qltb 0 a) pos); auto.
Qed.

(** With [brickSize = 0] the seed [floor(close / 0) * 0] is [NaN]. *)
Lemma seed_zero (c bs : Q) :
  bs == 0 -> mul (floor (div (Fin c) (Fin bs))) (Fin bs) = NaN.
Proof.
  intro Hz. rewrite div_fin_zero by assumption.
  assert (E : Qeq_bool bs 0 = true) by now apply Qeq_bool_iff.
  destruct (inf_of_sign_not_fin c true) as [-> | [-> | ->]];
    cbn [floor mul]; unfold inf_of_sign; now rewrite ?E.
Qed.

Lemma step_NaN (bs : num) (st : state) (p : Q) :
  currentBrickPrice st = NaN -> step bs st (Fin p) = Returns st.
Proof.
  intro H. unfold step. rewrite H. reflexivity.
Qed.

Lemma step_negative (bs c p : Q) (st : state) :
  bs < 0 -> currentBrickPrice st = Fin c ->
  step (Fin bs) st (Fin p) = Returns st.
Proof.
  intros Hbs H. unfold step. rewrite H.
  cbn [sub neg add abs]. rewrite div_fin by lra. cbn [floor gt lt].
  assert (E : Qltb 0 (inject_Z (Qfloor (Qabs (p + - c) / bs))) = false).
  { apply Qltb_false.
    pose proof (Qfloor_le (Qabs (p + - c) / bs)) as F.
    pose proof (Qabs_nonneg (p + - c)) as A.
    assert (Qabs (p + - c) / bs <= 0).
    { setoid_replace (Qabs (p + - c) / bs)
        with (- (Qabs (p + - c) / - bs)) by (field; lra).
      assert (0 <= Qabs (p + - c) / - bs)
        by (apply Qle_shift_div_l; lra).
      lra. }
    lra. }
  now rewrite E.
Qed.

Lemma loop_stays (bs : Q) (data : list PriceBar) (st : state) :
  bs <= 0 ->
  currentBrickPrice st = NaN \/
    (bs < 0 /\ exists c, currentBrickPrice st = Fin c) ->
  loop (Fin bs) st data = Returns st.
Proof.
  intros Hbs Hst. induction data as [|d rest IH]; cbn [loop]; [reflexivity|].
  destruct Hst as [Hn | (Hneg & c & Hc)].
  - rewrite step_NaN by assumption. cbn [bind]. exact IH.
  - rewrite (step_negative bs c) by assumption. cbn [bind]. exact IH.
Qed.

(** The builder does not check the brick size: for one that is zero
    or negative it runs and returns no brick. *)
Lemma calculateRenkoBricks_nonpositive (priceData : list PriceBar) (bs : Q) :
  bs <= 0 -> calculateRenkoBricks priceData bs = Returns [].
Proof.
  intro Hbs. unfold calculateRenkoBricks.
  destruct priceData as [|d0 ds]; [reflexivity|].
  assert (Hne : sortAndDeduplicateData (d0 :: ds) <> [])
    by (apply NormalizerFacts.sortAndDeduplicateData_nonempty; discriminate).
  destruct (sortAndDeduplicateData (d0 :: ds)) as [|first rest];
    [contradiction|].
  unfold run. cbn [init bind].
  rewrite loop_stays; [reflexivity | assumption |].
  cbn [currentBrickPrice].
  destruct (Qeq_dec bs 0) as [Hz | Hnz].
  - left. now apply seed_zero.
  - right. split; [lra|]. rewrite div_fin by assumption.
    cbn [floor mul]. eauto.
Qed.

End RenkoFacts.

(** ** Point-and-Figure columns *)

Module PFFacts.
Import PF.

Lemma count_up_map (n : nat) : forall a, count_up n a = map Fin (q_up n a).
Proof. induction n as [|n IH]; intro a; cbn; [reflexivity | now rewrite IH]. Qed.

Lemma count_down_map (n : nat) : forall a, count_down n a = map Fin (q_down n a).
Proof. induction n as [|n IH]; intro a; cbn; [reflexivity | now rewrite IH]. Qed.

Lemma q_up_sorted (n : nat) :
  forall a, StronglySorted Qlt (q_up n a) /\ Forall (fun q => a <= q) (q_up n a).
Proof.
  induction n as [|n IH]; intro a; cbn [q_up].
  - split; constructor.
  - destruct (IH (a + 1)) as [S1 F1]. split.
    + constructor; [assumption|].
      eapply Forall_impl; [|exact F1]. cbv beta. intros; lra.
    + constructor; [lra|].
      eapply Forall_impl; [|exact F1]. cbv beta. intros; lra.
Qed.

Lemma q_down_sorted (n : nat) :
  forall a, StronglySorted (fun x y => y < x) (q_down n a) /\
            Forall (fun q => q <= a) (q_down n a).
Proof.
  induction n as [|n IH]; intro a; cbn [q_down].
  - split; constructor.
  - destruct (IH (a - 1)) as [S1 F1]. split.
    + constructor; [assumption|].
      eapply Forall_impl; [|exact F1]. cbv beta. intros; lra.
    + constructor; [lra|].
      eapply Forall_impl; [|exact F1]. cbv beta. intros; lra.
Qed.

Lemma range_up_fin (x y : Q) :
  exists qs, range_up (Fin x) (Fin y) = Returns (map Fin qs) /\
             StronglySorted Qlt qs /\ Forall (fun q => x <= q) qs.
Proof.
  unfold range_up. destruct (Qle_bool x y).
  - eexists. rewrite count_up_map. split; [reflexivity|]. apply q_up_sorted.
  - exists []. repeat split; constructor.
Qed.

Lemma range_down_fin (x y : Q) :
  exists qs, range_down (Fin x) (Fin y) = Returns (map Fin qs) /\
             StronglySorted (fun a b => b < a) qs /\
             Forall (fun q => q <= x) qs.
Proof.
  unfold range_down. destruct (Qle_bool y x).
  - eexists. rewrite count_down_map. split; [reflexivity|]. apply q_down_sorted.
  - exists []. repeat split; constructor.
Qed.

Lemma sorted_app {A} (R : A -> A -> Prop) (l1 l2 : list A) :
  StronglySorted R l1 -> StronglySorted R l2 ->
  (forall a b, In a l1 -> In b l2 -> R a b) ->
  StronglySorted R (l1 ++ l2).
Proof.
  induction l1 as [|x l1 IH]; intros S1 S2 H; cbn; [assumption|].
  inversion S1 as [|? ? S1' F1]; subst. constructor.
  - apply IH; [assumption | assumption |].
    intros a b Ha Hb. apply H; [now right | assumption].
  - apply Forall_app. split; [assumption|].
    apply Forall_forall. intros b Hb. apply H; [now left | assumption].
Qed.

Lemma last_in {A} (l : list A) (d : A) : l <> [] -> In (last l d) l.
Proof.
  induction l as [|x l IH]; intro H; [contradiction|].
  destruct l as [|y l]; [now left|].
  right. apply IH. discriminate.
Qed.

Lemma sorted_last {A} (R : A -> A -> Prop) (l : list A) (d : A) :
  StronglySorted R l ->
  forall a, In a l -> a = last l d \/ R a (last l d).
Proof.
  induction l as [|x l IH]; intros Hs a Ha; [destruct Ha|].
  inversion Hs as [|? ? Hs' Hall]; subst. rewrite Forall_forall in Hall.
  destruct l as [|y l].
  - destruct Ha as [<- | []]. now left.
  - change (last (x :: y :: l) d) with (last (y :: l) d).
    destruct Ha as [<- | Ha].
    + right. apply Hall. apply last_in. discriminate.
    + now apply IH.
Qed.

Lemma last_map {A B} (f : A -> B) (l : list A) (d : A) (d' : B) :
  l <> [] -> last (map f l) d' = f (last l d).
Proof.
  induction l as [|x l IH]; intro H; [contradiction|].
  destruct l as [|y l]; [reflexivity|].
  change (last (map f (x :: y :: l)) d') with (last (map f (y :: l)) d').
  change (last (x :: y :: l) d) with (last (y :: l) d).
  apply IH. discriminate.
Qed.

Lemma Fin_in_map (q : Q) (qs : list Q) : In (Fin q) (map Fin qs) -> In q qs.
Proof.
  intro H. apply in_map_iff in H. destruct H as (q' & E & Hq).
  now inversion E; subst.
Qed.

Lemma push_boxes_snoc (before : list PFColumn) (cur : PFColumn) (bs : list num) :
  push_boxes (before ++ [cur]) bs =
  before ++ [mkColumn (type cur) (boxes cur ++ bs) (startIndex cur)].
Proof.
  unfold push_boxes. rewrite rev_app_distr. cbn [rev app].
  now rewrite rev_involutive.
Qed.

Lemma alternating_snoc (ts : list PFType) (t t' : PFType) :
  alternating (ts ++ [t]) -> t <> t' -> alternating (ts ++ [t; t']).
Proof.
  induction ts as [|a ts IH]; intros H Hne.
  - cbn. auto.
  - destruct ts as [|b ts].
    + cbn in *. tauto.
    + cbn [app alternating] in *. destruct H as [Hab H]. split; [assumption|].
      now apply IH.
Qed.

(** The extreme box of a well-formed column is the box pushed last. *)
Lemma lastBox_extreme (c : PFColumn) (q : Q) :
  col_ok c -> lastBoxOf c = Fin q -> extreme_box c q.
Proof.
  intros (qs & Eb & Hs) Hl. unfold lastBoxOf in Hl. rewrite Eb in Hl.
  assert (Hne : qs <> []) by (intro E; rewrite E in Hl; discriminate Hl).
  rewrite (last_map Fin _ 0) in Hl by assumption.
  assert (Eq : last qs 0 = q) by congruence.
  rewrite <- Eq. unfold extreme_box. rewrite Eb. split.
  - apply in_map. now apply last_in.
  - intros a Ha. apply Fin_in_map in Ha.
    destruct (type c).
    + destruct (sorted_last _ _ 0 Hs a Ha) as [-> | Hlt]; lra.
    + destruct (sorted_last _ _ 0 Hs a Ha) as [-> | Hlt]; lra.
Qed.

Lemma lastBox_cases (c : PFColumn) :
  col_ok c -> lastBoxOf c = NaN \/ exists q, lastBoxOf c = Fin q.
Proof.
  intros (qs & Eb & _). unfold lastBoxOf. rewrite Eb.
  destruct qs as [|q0 qs']; [now left|].
  right. rewrite (last_map Fin _ 0) by discriminate. eauto.
Qed.

(** Extending a column by boxes beyond its last box keeps it well formed. *)
Lemma col_ok_extend_X (c : PFColumn) (q : Q) (qs' : list Q) :
  col_ok c -> type c = X -> lastBoxOf c = Fin q ->
  StronglySorted Qlt qs' -> Forall (fun a => q + 1 <= a) qs' ->
  col_ok (mkColumn X (boxes c ++ map Fin qs') (startIndex c)).
Proof.
  intros Hok Ht Hl Hs' Hall.
  pose proof (lastBox_extreme c q Hok Hl) as [_ Hmax].
  destruct Hok as (qs & Eb & Hs). rewrite Ht in Hs, Hmax.
  exists (qs ++ qs'). cbn [boxes type]. rewrite Eb, map_app. split; [reflexivity|].
  apply sorted_app; try assumption.
  intros a b Ha Hb. rewrite Forall_forall in Hall.
  assert (a <= q) by (apply Hmax; rewrite Eb; now apply in_map).
  assert (q + 1 <= b) by now apply Hall. lra.
Qed.

Lemma col_ok_extend_O (c : PFColumn) (q : Q) (qs' : list Q) :
  col_ok c -> type c = O -> lastBoxOf c = Fin q ->
  StronglySorted (fun a b => b < a) qs' -> Forall (fun a => a <= q - 1) qs' ->
  col_ok (mkColumn O (boxes c ++ map Fin qs') (startIndex c)).
Proof.
  intros Hok Ht Hl Hs' Hall.
  pose proof (lastBox_extreme c q Hok Hl) as [_ Hmin].
  destruct Hok as (qs & Eb & Hs). rewrite Ht in Hs, Hmin.
  exists (qs ++ qs'). cbn [boxes type]. rewrite Eb, map_app. split; [reflexivity|].
  apply sorted_app; try assumption.
  intros a b Ha Hb. rewrite Forall_forall in Hall.
  assert (q <= a) by (apply Hmin; rewrite Eb; now apply in_map).
  assert (b <= q - 1) by now apply Hall. lra.
Qed.

Lemma cols_inv_replace_last (before : list PFColumn) (cur cur' : PFColumn) :
  cols_inv (before ++ [cur]) -> col_ok cur' -> type cur' = type cur ->
  cols_inv (before ++ [cur']).
Proof.
  intros [Hall Halt] Hok Ht. apply Forall_app in Hall. destruct Hall as [Hb _].
  split.
  - apply Forall_app. split; [assumption | now constructor].
  - rewrite map_app in *. cbn [map] in *. now rewrite Ht.
Qed.

Lemma cols_inv_open (before : list PFColumn) (cur new : PFColumn) :
  cols_inv (before ++ [cur]) -> col_ok new -> type cur <> type new ->
  cols_inv (before ++ [cur; new]).
Proof.
  intros [Hall Halt] Hok Ht. apply Forall_app in Hall. destruct Hall as [Hb Hc].
  split.
  - apply Forall_app. split; [assumption|].
    inversion Hc; subst. repeat constructor; assumption.
  - rewrite map_app in *. cbn [map] in *. now apply alternating_snoc.
Qed.

(** One turn of the loop when a column is open. *)
Lemma step_snoc_inv (cp bs rv : Q) (before : list PFColumn) (cur : PFColumn)
    (i : nat) (d : PriceBar) :
  0 < bs -> 0 < rv -> cols_inv (before ++ [cur]) ->
  exists cols',
    step (Fin cp) (Fin bs) (Fin rv) (before ++ [cur]) i
         (Fin (high d)) (Fin (low d)) = Returns cols' /\
    cols_inv cols' /\
    ((exists cur', cols' = before ++ [cur'] /\ type cur' = type cur) \/
     (exists new, cols' = before ++ [cur; new] /\ type new <> type cur /\
                  reversal_from cur d bs rv)).
Proof.
  intros Hbs Hrv Hinv.
  assert (Hok : col_ok cur).
  { destruct Hinv as [Hall _]. apply Forall_app in Hall.
    destruct Hall as [_ Hc]. now inversion Hc. }
  assert (Hsame : exists cols',
             Returns (before ++ [cur]) = Returns cols' /\ cols_inv cols' /\
             ((exists cur', cols' = before ++ [cur'] /\ type cur' = type cur) \/
              (exists new, cols' = before ++ [cur; new] /\
                           type new <> type cur /\ reversal_from cur d bs rv))).
  { exists (before ++ [cur]). split; [reflexivity|]. split; [assumption|].
    left. exists cur. auto. }
  unfold step. rewrite rev_app_distr. cbn [rev app].
  rewrite !div_fin by lra. cbn [floor].
  set (h := Qfloor (high d / bs)). set (l := Qfloor (low d / bs)).
  destruct (lastBox_cases cur Hok) as [Hn | (q & Hq)].
  - rewrite Hn. destruct (type cur); cbn; exact Hsame.
  - rewrite Hq. destruct (type cur) eqn:Ht.
    + cbn [gt lt add sub neg mul ge le].
      destruct (Qltb q (inject_Z h)) eqn:E1.
      * destruct (range_up_fin (q + 1) (inject_Z h)) as (qs' & -> & Hs' & Hall').
        cbn [bind]. rewrite push_boxes_snoc, Ht.
        eexists. split; [reflexivity|]. split.
        -- apply (cols_inv_replace_last before cur); [assumption| |cbn [type]; congruence].
           now apply (col_ok_extend_X cur q).
        -- left. eexists. split; [reflexivity | reflexivity].
      * destruct (Qle_bool (bs * rv) (q * bs + - low d)) eqn:E2; [|exact Hsame].
        apply Qle_bool_iff in E2.
        destruct (range_down_fin (q + - (1)) (inject_Z l)) as (qs' & -> & Hs' & _).
        cbn [bind]. rewrite <- app_assoc. cbn [app].
        eexists. split; [reflexivity|]. split.
        -- apply cols_inv_open; [assumption| |rewrite Ht; discriminate].
           exists qs'. cbn [boxes type]. auto.
        -- right. eexists. split; [reflexivity|]. split; [discriminate|].
           exists q. split; [now apply lastBox_extreme|]. rewrite Ht. nra.
    + cbn [gt lt add sub neg mul ge le].
      destruct (Qltb (inject_Z l) q) eqn:E1.
      * destruct (range_down_fin (q + - (1)) (inject_Z l)) as (qs' & -> & Hs' & Hall').
        cbn [bind]. rewrite push_boxes_snoc, Ht.
        eexists. split; [reflexivity|]. split.
        -- apply (cols_inv_replace_last before cur); [assumption| |cbn [type]; congruence].
           now apply (col_ok_extend_O cur q).
        -- left. eexists. split; [reflexivity | reflexivity].
      * destruct (Qle_bool (bs * rv) (high d + - (q * bs))) eqn:E2; [|exact Hsame].
        apply Qle_bool_iff in E2.
        destruct (range_up_fin (q + 1) (inject_Z h)) as (qs' & -> & Hs' & _).
        cbn [bind]. rewrite <- app_assoc. cbn [app].
        eexists. split; [reflexivity|]. split.
        -- apply cols_inv_open; [assumption| |rewrite Ht; discriminate].
           exists qs'. cbn [boxes type]. auto.
        -- right. eexists. split; [reflexivity|]. split; [discriminate|].
           exists q. split; [now apply lastBox_extreme|]. rewrite Ht. nra.
Qed.

Lemma step_first (cp bs rv : Q) (i : nat) (hi lo : num) :
  0 < bs ->
  exists cols',
    step (Fin cp) (Fin bs) (Fin rv) [] i hi lo = Returns cols' /\
    cols_inv cols' /\ cols' <> [].
Proof.
  intro Hbs. unfold step. cbn [rev app]. rewrite div_fin by lra. cbn [floor].
  eexists. split; [reflexivity|]. split; [|discriminate].
  split.
  - constructor; [|constructor].
    exists [inject_Z (Qfloor (cp / bs))]. cbn [boxes type map].
    split; [reflexivity|]. repeat constructor.
  - exact I.
Qed.

Lemma loop_inv (cp bs rv : Q) (rest : list PriceBar) :
  0 < bs -> 0 < rv ->
  forall (cols : list PFColumn) (i : nat),
    cols_inv cols -> cols <> [] ->
    exists cols',
      loop (Fin cp) (Fin bs) (Fin rv) cols i rest = Returns cols' /\
      cols_inv cols' /\ cols' <> [].
Proof.
  intros Hbs Hrv. induction rest as [|d rest IH]; intros cols i Hinv Hne;
    cbn [loop].
  - eauto.
  - destruct (exists_last Hne) as (before & cur & ->).
    destruct (step_snoc_inv cp bs rv before cur i d Hbs Hrv Hinv)
      as (cols1 & -> & Hinv1 & Hshape).
    cbn [bind]. apply IH; [assumption|].
    destruct Hshape as [(c' & -> & _) | (new & -> & _)];
      intro F; apply app_eq_nil in F; destruct F as [_ F]; discriminate F.
Qed.

Lemma pf_loop_app (cp bs rv : num) (pre post : list PriceBar) :
  forall (cols : list PFColumn) (i : nat),
    loop cp bs rv cols i (pre ++ post) =
    (cols' <- loop cp bs rv cols i pre ;;
     loop cp bs rv cols' (i + length pre) post)%js.
Proof.
  induction pre as [|d pre IH]; intros cols i; cbn [loop app bind length].
  - now rewrite Nat.add_0_r.
  - destruct (step cp bs rv cols i (Fin (high d)) (Fin (low d)))
      as [cols1| |]; cbn [bind]; [|reflexivity|reflexivity].
    rewrite IH. now replace (S i + length pre)%nat with (i + S (length pre))%nat by lia.
Qed.

(** The run on a series that is not empty ends with a column list. *)
Lemma calculatePointFigure_inv (first : PriceBar) (rest : list PriceBar)
    (bs rv : Q) :
  0 < bs -> 0 < rv ->
  exists cols,
    calculatePointFigure (first :: rest) bs rv = Returns cols /\
    cols_inv cols /\ cols <> [].
Proof.
  intros Hbs Hrv. unfold calculatePointFigure. cbn [loop].
  destruct (step_first (close first) bs rv 0 (Fin (high first))
              (Fin (low first)) Hbs) as (cols0 & -> & Hinv0 & Hne0).
  cbn [bind]. now apply loop_inv.
Qed.

Lemma alternating_nth (cols : list PFColumn) :
  alternating (map type cols) ->
  forall i c1 c2,
    nth_error cols i = Some c1 -> nth_error cols (S i) = Some c2 ->
    type c1 <> type c2.
Proof.
  induction cols as [|a cols IH]; intros Halt i c1 c2 H1 H2.
  - destruct i; discriminate H1.
  - destruct cols as [|b cols].
    + destruct i; cbn in H2; [discriminate H2 | destruct i; discriminate H2].
    + cbn [map alternating] in Halt. destruct Halt as [Hab Halt].
      destruct i as [|i].
      * cbn in H1, H2. inversion H1; inversion H2; subst. exact Hab.
      * cbn [nth_error] in H1. apply (IH Halt i); assumption.
Qed.

(** C7.  For every bar series and every positive box size and reversal
    amount the builder returns a column list whose neighbouring columns
    differ in direction; and whenever the bar that follows a leading
    part of the series adds a column, the column is of the other
    direction and the bar's low (for an X column) or high (for an O
    column) is at least [reversalAmount * boxSize] away from the
    topmost (X) or bottommost (O) box of the column that was current. *)
Theorem C7_point_figure_alternates_and_reverses_by_threshold :
  forall (priceData : list PriceBar) (boxSize reversalAmount : Q),
    0 < boxSize -> 0 < reversalAmount ->
    exists columns,
      calculatePointFigure priceData boxSize reversalAmount = Returns columns /\
      (forall i c1 c2,
         nth_error columns i = Some c1 -> nth_error columns (S i) = Some c2 ->
         type c1 <> type c2) /\
      (forall pre d post,
         pre <> [] -> priceData = pre ++ d :: post ->
         exists before after,
           calculatePointFigure pre boxSize reversalAmount = Returns before /\
           calculatePointFigure (pre ++ [d]) boxSize reversalAmount
             = Returns after /\
           (length after = length before \/
            exists earlier cur new,
              before = earlier ++ [cur] /\ after = before ++ [new] /\
              type new <> type cur /\
              reversal_from cur d boxSize reversalAmount)).
Proof.
  intros priceData bs rv Hbs Hrv.
  destruct priceData as [|first rest].
  - exists []. split; [reflexivity|]. split.
    + intros [|i] c1 c2 H; discriminate H.
    + intros pre d post _ F. destruct pre; discriminate F.
  - destruct (calculatePointFigure_inv first rest bs rv Hbs Hrv)
      as (cols & Hrun & [_ Halt] & _).
    exists cols. split; [assumption|]. split; [now apply alternating_nth|].
    intros pre d post Hpre Hsplit.
    destruct pre as [|f pre']; [contradiction|].
    cbn [app] in Hsplit. inversion Hsplit; subst f.
    destruct (calculatePointFigure_inv first pre' bs rv Hbs Hrv)
      as (before & Hb & Hinvb & Hneb).
    exists before. rewrite Hb.
    unfold calculatePointFigure in *. cbn [app].
    change (first :: pre' ++ [d]) with ((first :: pre') ++ [d]).
    rewrite pf_loop_app, Hb. cbn [bind loop].
    destruct (exists_last Hneb) as (earlier & cur & ->).
    destruct (step_snoc_inv (close first) bs rv earlier cur
                (0 + length (first :: pre')) d Hbs Hrv Hinvb)
      as (after & -> & _ & Hshape).
    cbn [bind]. exists after. split; [reflexivity|]. split; [reflexivity|].
    destruct Hshape as [(c' & -> & _) | (new & -> & Hty & Hrev)].
    + left. now rewrite !length_app.
    + right. exists earlier, cur, new. rewrite <- app_assoc. auto.
Qed.

(** The builder has one failing path: whatever the configuration, it
    returns, or a push loop without a bound ends it with
    [RangeError]. *)
Lemma range_up_ends (a b : num) : returns_or_RangeError (range_up a b).
Proof.
  unfold returns_or_RangeError.
  destruct a, b; cbn; try (now right); try (left; eexists; reflexivity).
  destruct (Qle_bool _ _); left; eexists; reflexivity.
Qed.

Lemma range_down_ends (a b : num) : returns_or_RangeError (range_down a b).
Proof.
  unfold returns_or_RangeError.
  destruct a, b; cbn; try (now right); try (left; eexists; reflexivity).
  destruct (Qle_bool _ _); left; eexists; reflexivity.
Qed.

Lemma bind_ends {A B} (m : outcome A) (k : A -> outcome B) :
  returns_or_RangeError m -> (forall a, returns_or_RangeError (k a)) ->
  returns_or_RangeError (bind m k).
Proof.
  intros [(a & ->) | ->] Hk; cbn; [apply Hk | now right].
Qed.

Lemma Returns_ends {A} (a : A) : returns_or_RangeError (Returns a).
Proof. left. now exists a. Qed.

Lemma step_ends (cp bs rv : num) (cols : list PFColumn) (i : nat)
    (hi lo : num) :
  returns_or_RangeError (step cp bs rv cols i hi lo).
Proof.
  unfold step. destruct (rev cols) as [|cur _]; [apply Returns_ends|].
  destruct (type cur).
  - destruct (gt _ _).
    + apply bind_ends; [apply range_up_ends | intro; apply Returns_ends].
    + destruct (ge _ _); [|apply Returns_ends].
      apply bind_ends; [apply range_down_ends | intro; apply Returns_ends].
  - destruct (lt _ _).
    + apply bind_ends; [apply range_down_ends | intro; apply Returns_ends].
    + destruct (ge _ _); [|apply Returns_ends].
      apply bind_ends; [apply range_up_ends | intro; apply Returns_ends].
Qed.

Lemma loop_ends (cp bs rv : num) (rest : list PriceBar) :
  forall (cols : list PFColumn) (i : nat),
    returns_or_RangeError (loop cp bs rv cols i rest).
Proof.
  induction rest as [|d rest IH]; intros cols i; cbn [loop];
    [apply Returns_ends|].
  apply bind_ends; [apply step_ends | intro; apply IH].
Qed.

Lemma calculatePointFigure_ends (priceData : list PriceBar)
    (boxSize reversalAmount : Q) :
  returns_or_RangeError (calculatePointFigure priceData boxSize reversalAmount).
Proof.
  unfold calculatePointFigure. destruct priceData; [apply Returns_ends|].
  apply loop_ends.
Qed.

(** C7 at five bars, box size 10 and reversal amount 3. *)
Lemma C7_witness :
  let priceData :=
    [mkBar 1000 100 100 100 100 1; mkBar 2000 101 125 101 120 1;
     mkBar 3000 120 120 95 96 1; mkBar 4000 96 96 70 75 1;
     mkBar 5000 80 105 80 100 1] in
  exists columns,
    calculatePointFigure priceData 10 3 = Returns columns /\
    (forall i c1 c2,
       nth_error columns i = Some c1 -> nth_error columns (S i) = Some c2 ->
       type c1 <> type c2) /\
    (forall pre d post,
       pre <> [] -> priceData = pre ++ d :: post ->
       exists before after,
         calculatePointFigure pre 10 3 = Returns before /\
         calculatePointFigure (pre ++ [d]) 10 3 = Returns after /\
         (length after = length before \/
          exists earlier cur new,
            before = earlier ++ [cur] /\ after = before ++ [new] /\
            type new <> type cur /\
            reversal_from cur d 10 3)).
Proof.
  intro priceData.
  apply (C7_point_figure_alternates_and_reverses_by_threshold priceData 10 3);
    reflexivity.
Defined.

End PFFacts.

(** ** Volume profile *)

Module VolumeProfileFacts.
Import VolumeProfile.

Lemma fold_min_fin (qs : list Q) :
  forall a, exists m,
    fold_left min (map Fin qs) (Fin a) = Fin m /\
    m <= a /\ Forall (Qle m) qs /\ (m = a \/ In m qs).
Proof.
  induction qs as [|q qs IH]; intro a; cbn [map fold_left].
  - exists a. repeat split; [lra | constructor | now left].
  - unfold min at 2, le. destruct (Qle_bool a q) eqn:E.
    + apply Qle_bool_iff in E.
      destruct (IH a) as (m & -> & Hle & Hall & Hin).
      exists m. repeat split; try assumption.
      * constructor; [lra | assumption].
      * destruct Hin; [now left | right; now right].
    + apply Qle_bool_false in E.
      destruct (IH q) as (m & -> & Hle & Hall & Hin).
      exists m. repeat split; try lra.
      * constructor; assumption.
      * right. destruct Hin as [-> | Hin]; [now left | now right].
Qed.

Lemma fold_max_fin (qs : list Q) :
  forall a, exists m,
    fold_left max (map Fin qs) (Fin a) = Fin m /\
    a <= m /\ Forall (fun q => q <= m) qs /\ (m = a \/ In m qs).
Proof.
  induction qs as [|q qs IH]; intro a; cbn [map fold_left].
  - exists a. repeat split; [lra | constructor | now left].
  - unfold max at 2, le. destruct (Qle_bool a q) eqn:E.
    + apply Qle_bool_iff in E.
      destruct (IH q) as (m & -> & Hle & Hall & Hin).
      exists m. repeat split; try lra.
      * constructor; assumption.
      * right. destruct Hin as [-> | Hin]; [now left | now right].
    + apply Qle_bool_false in E.
      destruct (IH a) as (m & -> & Hle & Hall & Hin).
      exists m. repeat split; try assumption.
      * constructor; [lra | assumption].
      * destruct Hin; [now left | right; now right].
Qed.

Lemma min_list_fin (q : Q) (qs : list Q) :
  exists m, min_list (Fin q :: map Fin qs) = Fin m /\
            Forall (Qle m) (q :: qs) /\ In m (q :: qs).
Proof.
  unfold min_list. cbn [fold_left]. cbn [min le].
  destruct (fold_min_fin qs q) as (m & -> & Hle & Hall & Hin).
  exists m. repeat split.
  - constructor; assumption.
  - destruct Hin as [-> | Hin]; [now left | now right].
Qed.

Lemma max_list_fin (q : Q) (qs : list Q) :
  exists m, max_list (Fin q :: map Fin qs) = Fin m /\
            Forall (fun x => x <= m) (q :: qs) /\ In m (q :: qs).
Proof.
  unfold max_list. cbn [fold_left]. cbn [max le].
  destruct (fold_max_fin qs q) as (m & -> & Hle & Hall & Hin).
  exists m. repeat split.
  - constructor; assumption.
  - destruct Hin as [-> | Hin]; [now left | now right].
Qed.

Lemma length_createBins (minPrice binSize : num) (bins : Z) :
  length (createBins minPrice binSize bins) = Z.to_nat bins.
Proof. unfold createBins. now rewrite length_map, length_z_seq. Qed.

Lemma map_const_z_seq {B} (b : B) (n : nat) :
  forall z, map (fun _ : Z => b) (z_seq z n) = repeat b n.
Proof.
  induction n as [|n IH]; intro z; cbn; [reflexivity | now rewrite IH].
Qed.

Lemma createBins_volumes (minPrice binSize : num) (bins : Z) :
  map volume (createBins minPrice binSize bins) =
  map Fin (repeat 0 (Z.to_nat bins)).
Proof.
  unfold createBins. rewrite map_map. cbn [volume].
  rewrite map_const_z_seq. now rewrite map_repeat.
Qed.

Lemma Qsum_repeat_0 (n : nat) : Qsum (repeat 0 n) == 0.
Proof. induction n as [|n IH]; cbn; [reflexivity | rewrite IH; ring]. Qed.

(** Adding to the bin at a position inside the array. *)
Lemma add_volume_inside (vbins : list Bin) :
  forall (k : nat) (v : Q) (vs : list Q),
    map volume vbins = map Fin vs -> (k < length vbins)%nat ->
    exists vbins' vs',
      add_volume vbins k (Fin v) = Some vbins' /\
      map volume vbins' = map Fin vs' /\
      length vbins' = length vbins /\
      Qsum vs' == Qsum vs + v.
Proof.
  induction vbins as [|b rest IH]; intros k v vs Hv Hk; [cbn in Hk; lia|].
  destruct vs as [|x vs]; [discriminate Hv|].
  cbn [map] in Hv. inversion Hv as [[Hb Hrest]].
  destruct k as [|k]; cbn [add_volume].
  - exists (mkBin (price b) (add (volume b) (Fin v)) :: rest), (x + v :: vs).
    split; [reflexivity|]. split; [|split; [reflexivity|]].
    + cbn [map volume]. rewrite Hb, Hrest. reflexivity.
    + unfold Qsum. cbn [fold_right]. ring.
  - destruct (IH k v vs Hrest) as (rest' & vs' & -> & Hm & Hl & Hs);
      [cbn in Hk; lia|].
    exists (b :: rest'), (x :: vs').
    split; [reflexivity|]. split; [|split].
    + cbn [map]. now rewrite Hb, Hm.
    + cbn [length]. now rewrite Hl.
    + unfold Qsum in *. cbn [fold_right]. rewrite Hs. ring.
Qed.

Lemma as_index_Z (q : Q) (z : Z) :
  q == inject_Z z -> (0 <= z)%Z -> as_index (Fin q) = Some (Z.to_nat z).
Proof.
  intros Hq Hz. unfold as_index.
  assert (Hf : Qfloor q = z) by (rewrite Hq; apply Qfloor_Z).
  rewrite Hf.
  assert (E : Qeq_bool q (inject_Z z) = true) by now apply Qeq_bool_iff.
  rewrite E. cbn [andb].
  destruct (0 <=? z)%Z eqn:E0; [reflexivity | apply Z.leb_gt in E0; lia].
Qed.

(** A bar of a series that is not flat lands in one bin. *)
Lemma accumulate_inside (m w : Q) (bins : Z) (vbins : list Bin) (vs : list Q)
    (d : PriceBar) :
  0 < w -> (1 <= bins)%Z -> m <= close d ->
  length vbins = Z.to_nat bins -> map volume vbins = map Fin vs ->
  exists vbins' vs',
    accumulate (Fin m) (Fin w) bins vbins d = Returns vbins' /\
    map volume vbins' = map Fin vs' /\
    length vbins' = length vbins /\
    Qsum vs' == Qsum vs + Bar.volume d.
Proof.
  intros Hw Hbins Hm Hlen Hvs. unfold accumulate, of_Z.
  cbn [sub neg add]. rewrite div_fin by lra. cbn [floor].
  set (f := Qfloor ((close d + - m) / w)).
  assert (Hf : (0 <= f)%Z).
  { unfold f. rewrite <- (Qfloor_Z 0). apply Qfloor_resp_le.
    change (inject_Z 0) with 0. apply Qle_shift_div_l; lra. }
  assert (Hb : inject_Z bins + - (1) == inject_Z (bins - 1)).
  { unfold Z.sub. rewrite inject_Z_plus, inject_Z_opp. reflexivity. }
  assert (Hcase : exists z : Z, exists q : Q,
            min (Fin (inject_Z f)) (Fin (inject_Z bins + - (1))) = Fin q /\
            q == inject_Z z /\ (0 <= z < bins)%Z).
  { unfold min, le. destruct (Qle_bool (inject_Z f) (inject_Z bins + - (1))) eqn:E.
    - apply Qle_bool_iff in E. rewrite Hb in E. rewrite <- Zle_Qle in E.
      exists f, (inject_Z f). repeat split; try reflexivity; lia.
    - exists (bins - 1)%Z, (inject_Z bins + - (1)).
      repeat split; try assumption; lia. }
  destruct Hcase as (z & q & -> & Hq & Hz).
  assert (G1 : ge (Fin q) (Fin 0) = true).
  { cbn [ge le]. apply Qle_bool_iff. rewrite Hq.
    change 0 with (inject_Z 0). rewrite <- Zle_Qle. lia. }
  assert (G2 : lt (Fin q) (Fin (inject_Z bins)) = true).
  { cbn [lt]. apply Qltb_true. rewrite Hq. rewrite <- Zlt_Qlt. lia. }
  rewrite G1, G2. cbn [andb].
  rewrite (as_index_Z q z Hq) by lia.
  destruct (add_volume_inside vbins (Z.to_nat z) (Bar.volume d) vs Hvs)
    as (vbins' & vs' & -> & R1 & R2 & R3); [lia|].
  exists vbins', vs'. auto.
Qed.

Lemma accumulate_all_inside (m w : Q) (bins : Z) (priceData : list PriceBar) :
  0 < w -> (1 <= bins)%Z ->
  Forall (fun d => m <= close d) priceData ->
  forall (vbins : list Bin) (vs : list Q),
    length vbins = Z.to_nat bins -> map volume vbins = map Fin vs ->
    exists vbins' vs',
      accumulate_all (Fin m) (Fin w) bins vbins priceData = Returns vbins' /\
      map volume vbins' = map Fin vs' /\
      length vbins' = Z.to_nat bins /\
      Qsum vs' == Qsum vs + Qsum (map Bar.volume priceData).
Proof.
  intros Hw Hbins Hall.
  induction priceData as [|d rest IH]; intros vbins vs Hlen Hvs;
    cbn [accumulate_all].
  - exists vbins, vs. repeat split; try assumption.
    unfold Qsum. cbn [map fold_right]. ring.
  - inversion Hall as [|? ? Hd Hrest]; subst.
    destruct (accumulate_inside m w bins vbins vs d Hw Hbins Hd Hlen Hvs)
      as (vb1 & vs1 & -> & R1 & R2 & R3).
    cbn [bind].
    destruct (IH Hrest vb1 vs1) as (vb2 & vs2 & E & S1 & S2 & S3);
      [congruence | assumption |].
    exists vb2, vs2. split; [assumption|]. split; [assumption|].
    split; [assumption|].
    rewrite S3, R3. unfold Qsum. cbn [map fold_right]. ring.
Qed.

(** Conservation where the bin width is positive: with at least one
    bin and two different closes in the series, every bar's volume is
    added to one bin, and the bins sum to the volumes of the bars. *)
Lemma volume_conserved_when_closes_differ (priceData : list PriceBar)
    (bins : Z) (d1 d2 : PriceBar) :
  (1 <= bins)%Z -> In d1 priceData -> In d2 priceData ->
  close d1 < close d2 ->
  exists vbins vs,
    binVolumes priceData bins = Returns vbins /\
    length vbins = Z.to_nat bins /\
    map volume vbins = map Fin vs /\
    Qsum vs == Qsum (map Bar.volume priceData).
Proof.
  intros Hbins H1 H2 Hlt. unfold binVolumes.
  assert (Hmap : map (fun d => Fin (close d)) priceData
                 = map Fin (map close priceData)) by now rewrite map_map.
  rewrite Hmap. destruct priceData as [|d0 rest]; [destruct H1|].
  cbn [map] in *.
  destruct (min_list_fin (close d0) (map close rest)) as (m & -> & Hmin & _).
  destruct (max_list_fin (close d0) (map close rest)) as (M & -> & Hmax & _).
  rewrite Forall_forall in Hmin, Hmax.
  assert (Hm1 : m <= close d1).
  { apply Hmin. change (In (close d1) (map close (d0 :: rest))). now apply in_map. }
  assert (HM2 : close d2 <= M).
  { apply Hmax. change (In (close d2) (map close (d0 :: rest))). now apply in_map. }
  cbn [sub neg add]. unfold of_Z.
  assert (Hbq : 0 < inject_Z bins).
  { change 0 with (inject_Z 0). rewrite <- Zlt_Qlt. lia. }
  rewrite div_fin by lra.
  set (w := (M + - m) / inject_Z bins).
  assert (Hw : 0 < w) by (apply Qlt_shift_div_l; lra).
  fold (of_Z bins).
  destruct (accumulate_all_inside m w bins (d0 :: rest) Hw Hbins)
    with (vbins := createBins (Fin m) (Fin w) bins)
         (vs := repeat 0 (Z.to_nat bins))
    as (vbins & vs & E & R1 & R2 & R3).
  - apply Forall_forall. intros d Hd. apply Hmin.
    change (In (close d) (map close (d0 :: rest))). now apply in_map.
  - apply length_createBins.
  - apply createBins_volumes.
  - exists vbins, vs. split; [exact E|]. split; [assumption|].
    split; [assumption|]. rewrite R3, Qsum_repeat_0. cbn [map]. ring.
Qed.

(** On a flat series the bin width is zero and no bar is counted. *)
Lemma accumulate_flat (m w : Q) (bins : Z) (vbins : list Bin) (d : PriceBar) :
  w == 0 -> close d == m ->
  accumulate (Fin m) (Fin w) bins vbins d = Returns vbins.
Proof.
  intros Hw Hc. unfold accumulate. cbn [sub neg add].
  rewrite div_fin_zero by assumption. unfold inf_of_sign.
  assert (E : Qeq_bool (close d + - m) 0 = true)
    by (apply Qeq_bool_iff; lra).
  rewrite E. reflexivity.
Qed.

Lemma flat_series_counts_nothing (priceData : list PriceBar) (bins : Z) (c : Q) :
  priceData <> [] -> Forall (fun d => close d == c) priceData ->
  (1 <= bins)%Z ->
  exists vbins,
    binVolumes priceData bins = Returns vbins /\
    length vbins = Z.to_nat bins /\
    Forall (fun b => volume b = Fin 0) vbins.
Proof.
  intros Hne Hflat Hbins. unfold binVolumes.
  assert (Hmap : map (fun d => Fin (close d)) priceData
                 = map Fin (map close priceData)) by now rewrite map_map.
  rewrite Hmap. destruct priceData as [|d0 rest]; [contradiction|].
  cbn [map].
  destruct (min_list_fin (close d0) (map close rest)) as (m & -> & _ & Hm).
  destruct (max_list_fin (close d0) (map close rest)) as (M & -> & _ & HM).
  rewrite Forall_forall in Hflat.
  assert (Hin : forall x, In x (close d0 :: map close rest) -> x == c).
  { intros x Hx. change (In x (map close (d0 :: rest))) in Hx.
    apply in_map_iff in Hx. destruct Hx as (d & <- & Hd). now apply Hflat. }
  assert (Hmc : m == c) by now apply Hin.
  assert (HMc : M == c) by now apply Hin.
  cbn [sub neg add]. unfold of_Z.
  assert (Hbq : 0 < inject_Z bins).
  { change 0 with (inject_Z 0). rewrite <- Zlt_Qlt. lia. }
  rewrite div_fin by lra.
  set (w := (M + - m) / inject_Z bins).
  assert (Hw : w == 0) by (unfold w; rewrite Hmc, HMc; field; lra).
  fold (of_Z bins).
  assert (Hacc : forall l vb,
            (forall d, In d l -> close d == m) ->
            accumulate_all (Fin m) (Fin w) bins vb l = Returns vb).
  { induction l as [|d l IH]; intros vb Hl; cbn [accumulate_all]; [reflexivity|].
    rewrite accumulate_flat; [|assumption|apply Hl; now left].
    cbn [bind]. apply IH. intros; apply Hl; now right. }
  rewrite Hacc.
  - eexists. split; [reflexivity|]. split; [apply length_createBins|].
    unfold createBins. apply Forall_forall. intros b Hb.
    apply in_map_iff in Hb. destruct Hb as (i & <- & _). reflexivity.
  - intros d Hd. rewrite Hmc. now apply Hflat.
Qed.

(** Without a bin the guard lets no bar through. *)
Lemma min_fin_cases (x : num) (b : Q) :
  min x (Fin b) = NaN \/ min x (Fin b) = NInf \/
  exists k, min x (Fin b) = Fin k /\ k <= b.
Proof.
  destruct x as [a| | |]; cbn [min le].
  - destruct (Qle_bool a b) eqn:E.
    + apply Qle_bool_iff in E. right. right. eauto.
    + right. right. exists b. split; [reflexivity | lra].
  - right. right. exists b. split; [reflexivity | lra].
  - right. now left.
  - now left.
Qed.

Lemma accumulate_no_bins (minPrice binSize : num) (bins : Z)
    (vbins : list Bin) (d : PriceBar) :
  (bins <= 0)%Z -> accumulate minPrice binSize bins vbins d = Returns vbins.
Proof.
  intro Hb. unfold accumulate.
  change (sub (of_Z bins) (Fin 1)) with (Fin (inject_Z bins + - (1))).
  generalize (floor (div (sub (Fin (close d)) minPrice) binSize)). intro x.
  assert (Hq : inject_Z bins + - (1) < 0).
  { assert (inject_Z bins <= 0)
      by (change 0 with (inject_Z 0); rewrite <- Zle_Qle; lia). lra. }
  destruct (min_fin_cases x (inject_Z bins + - (1)))
    as [-> | [-> | (k & -> & Hk)]]; try reflexivity.
  cbn [ge le]. assert (E : Qle_bool 0 k = false) by (apply Qle_bool_false; lra).
  now rewrite E.
Qed.

Lemma binVolumes_no_bins (priceData : list PriceBar) (bins : Z) :
  (bins <= 0)%Z -> binVolumes priceData bins = Returns [].
Proof.
  intro Hb. unfold binVolumes, createBins.
  replace (Z.to_nat bins) with 0%nat by lia. cbn [z_seq map].
  generalize (min_list (map (fun d => Fin (close d)) priceData)).
  generalize (max_list (map (fun d => Fin (close d)) priceData)).
  intros M m. generalize (div (sub M m) (of_Z bins)). intro w.
  induction priceData as [|d rest IH]; cbn [accumulate_all]; [reflexivity|].
  rewrite accumulate_no_bins by assumption. exact IH.
Qed.

Lemma drawVolumeProfile_no_bins (priceData : list PriceBar) (bins : Z) :
  (bins <= 0)%Z -> drawVolumeProfile priceData bins = Throws TypeError.
Proof.
  intro Hb. unfold drawVolumeProfile.
  now rewrite binVolumes_no_bins.
Qed.

End VolumeProfileFacts.

(** ** Configuration values that are not positive *)

Module ConfigurationFacts.

Lemma Forall_mapi_from {A B} (P : B -> Prop) (f : A -> nat -> B) (arr : list A) :
  (forall x k, P (f x k)) -> forall i, Forall P (mapi_from i f arr).
Proof.
  intro H. induction arr as [|x rest IH]; intro i; cbn; constructor; auto.
Qed.

Lemma calculateSMA_nonpositive (prices : list num) (period : Z) :
  (period <= 0)%Z ->
  Forall (fun x => x <> None) (Indicators.calculateSMA prices period).
Proof.
  intro Hp. unfold Indicators.calculateSMA, mapi.
  apply Forall_mapi_from. intros _ k.
  destruct (Z.of_nat k <? period - 1)%Z eqn:E; [|discriminate].
  apply Z.ltb_lt in E. lia.
Qed.

Lemma calculateRSI_nonpositive (prices : list num) (period : Z) :
  (period <= 0)%Z ->
  Forall (fun x => x <> None) (Indicators.calculateRSI prices period).
Proof.
  intro Hp. unfold Indicators.calculateRSI. apply Forall_forall.
  intros x Hx. apply in_map_iff in Hx. destruct Hx as (i & <- & _).
  unfold Indicators.rsi_at.
  destruct (Z.of_nat i <? period)%Z eqn:E; [apply Z.ltb_lt in E; lia|].
  destruct (fold_left _ _ _). discriminate.
Qed.

(** C1, as amended.  No transformer checks its configuration value,
    and none rejects one that is zero or negative before computing:
    the Renko builder runs and returns no brick; the Point-and-Figure
    builder runs its loop and raises no configuration error: it
    returns, or a push loop without a bound ends it with
    [RangeError]; the SMA and the RSI of the indicator engine give an
    array of the length of the input without a [null] entry; the
    Volume Profile builds no bin, counts no volume, and stops only
    afterwards, with the [TypeError] of reducing an empty array. *)
Theorem C1_nonpositive_configuration_is_computed_with :
  forall (priceData : list PriceBar)
         (brickSize boxSize reversalAmount : Q) (period numBins : Z),
    brickSize <= 0 -> boxSize <= 0 -> (period <= 0)%Z -> (numBins <= 0)%Z ->
    let prices := map (fun d => Fin (close d)) priceData in
    Renko.calculateRenkoBricks priceData brickSize = Returns [] /\
    (returns_or_RangeError
       (PF.calculatePointFigure priceData boxSize reversalAmount) /\
     ~ configuration_error
         (PF.calculatePointFigure priceData boxSize reversalAmount)) /\
    (length (Indicators.calculateSMA prices period) = length priceData /\
     Forall (fun x => x <> None) (Indicators.calculateSMA prices period)) /\
    (length (Indicators.calculateRSI prices period) = length priceData /\
     Forall (fun x => x <> None) (Indicators.calculateRSI prices period)) /\
    VolumeProfile.binVolumes priceData numBins = Returns [] /\
    VolumeProfile.drawVolumeProfile priceData numBins = Throws TypeError.
Proof.
  intros priceData brickSize boxSize reversalAmount period numBins
         Hbrick Hbox Hperiod Hbins prices.
  split; [now apply RenkoFacts.calculateRenkoBricks_nonpositive|].
  split.
  { pose proof (PFFacts.calculatePointFigure_ends priceData boxSize
                  reversalAmount) as H.
    split; [exact H|]. unfold configuration_error.
    destruct H as [(cols & ->) | ->]; discriminate. }
  split.
  { split; [|now apply calculateSMA_nonpositive].
    rewrite IndicatorsFacts.length_calculateSMA. apply length_map. }
  split.
  { split; [|now apply calculateRSI_nonpositive].
    rewrite IndicatorsFacts.length_calculateRSI. apply length_map. }
  split; [now apply VolumeProfileFacts.binVolumes_no_bins|].
  now apply VolumeProfileFacts.drawVolumeProfile_no_bins.
Qed.

(** C1 as stated fails: with [brickSize = 0], [boxSize = 0] and
    [numBins = 0] on two bars the builders compute and return, and no
    call ends with a configuration error.  Where the Point-and-Figure
    builder does fail with [boxSize = 0], on a negative close followed
    by a positive high, it has computed the boxes [-Infinity] and
    [Infinity] and fails in the loop between them. *)
Lemma C1_counterexample_zero_configuration :
  let data := [mkBar 1000 100 101 99 100 5; mkBar 2000 100 113 100 112 7] in
  Renko.calculateRenkoBricks data 0 = Returns [] /\
  PF.calculatePointFigure data 0 3 = Returns [PF.mkColumn PF.X [PInf] 0] /\
  VolumeProfile.binVolumes data 0 = Returns [] /\
  ~ configuration_error (Renko.calculateRenkoBricks data 0) /\
  ~ configuration_error (PF.calculatePointFigure data 0 3) /\
  ~ configuration_error (VolumeProfile.binVolumes data 0) /\
  ~ configuration_error (VolumeProfile.drawVolumeProfile data 0) /\
  PF.calculatePointFigure
    [mkBar 1000 (-5) (-5) (-5) (-5) 5; mkBar 2000 (-5) 1 (-5) 1 7] 0 3
  = Throws RangeError.
Proof.
  intro data. unfold configuration_error.
  split; [reflexivity|]. split; [reflexivity|]. split; [reflexivity|].
  split; [vm_compute; intro H; discriminate H|].
  split; [vm_compute; intro H; discriminate H|].
  split; [vm_compute; intro H; discriminate H|].
  split; [vm_compute; intro H; discriminate H|].
  reflexivity.
Qed.

(** The amended statement at one bar and the values [0], [-10], [0], [0]. *)
Lemma C1_witness :
  let priceData := [mkBar 1000 100 101 99 100 5] in
  let prices := map (fun d => Fin (close d)) priceData in
  Renko.calculateRenkoBricks priceData 0 = Returns [] /\
  (returns_or_RangeError (PF.calculatePointFigure priceData (-10) 3) /\
   ~ configuration_error (PF.calculatePointFigure priceData (-10) 3)) /\
  (length (Indicators.calculateSMA prices 0) = length priceData /\
   Forall (fun x => x <> None) (Indicators.calculateSMA prices 0)) /\
  (length (Indicators.calculateRSI prices 0) = length priceData /\
   Forall (fun x => x <> None) (Indicators.calculateRSI prices 0)) /\
  VolumeProfile.binVolumes priceData 0 = Returns [] /\
  VolumeProfile.drawVolumeProfile priceData 0 = Throws TypeError.
Proof.
  apply (C1_nonpositive_configuration_is_computed_with
           [mkBar 1000 100 101 99 100 5] 0 (-10) 3 0 0).
  - unfold Qle; simpl; lia.
  - unfold Qle; simpl; lia.
  - lia.
  - lia.
Defined.

End ConfigurationFacts.

(** ** The flat series in the Volume Profile *)

Module FlatSeries.
Import VolumeProfile.

(** C2.  On the flat series of two bars with close 100 and volumes 5
    and 7, with three bins, the code divides by the zero bin width:
    every bin keeps volume 0, no bin receives the total volume 12, and
    the width of every drawn bar is [NaN]. *)
Theorem C2_flat_series_is_not_special_cased :
  let data := [mkBar 1000 100 100 100 100 5; mkBar 2000 100 100 100 100 7] in
  exists p,
    drawVolumeProfile data 3 = Returns p /\
    map volume (volumeBins p) = [Fin 0; Fin 0; Fin 0] /\
    maxVolume p = Fin 0 /\
    barWidths p = [NaN; NaN; NaN].
Proof.
  intro data. vm_compute. eexists. split; [reflexivity|].
  repeat split.
Qed.

(** C3.  On the series of one bar with close 100 and volume 5, with
    twenty bins, the bins sum to 0 while the bars sum to 5: the volume
    of the bar is counted in no bin. *)
Theorem C3_single_bar_volume_is_lost :
  let data := [mkBar 1000 100 100 100 100 5] in
  exists vbins,
    binVolumes data 20 = Returns vbins /\
    length vbins = 20%nat /\
    fold_left add (map volume vbins) (Fin 0) = Fin 0 /\
    Qsum (map Bar.volume data) == 5 /\
    ~ 0 == 5.
Proof.
  intro data. vm_compute. eexists. split; [reflexivity|].
  repeat split. intro H. discriminate H.
Qed.

End FlatSeries.

(** ** More on the series normalizer *)

Module NormalizerMore.
Import NormalizerFacts.

Lemma sorted_lt_NoDup (ks : list Z) : StronglySorted Z.lt ks -> NoDup ks.
Proof.
  induction 1 as [|k ks Hs IH Hall]; constructor; [|assumption].
  intro Hin. rewrite Forall_forall in Hall. specialize (Hall k Hin). lia.
Qed.

(** X1.  The cleaned series has strictly ascending timestamps, holds
    only bars of the input, holds a bar for every timestamp of the
    input, and is no longer than the input. *)
Theorem X1_normalizer_output_contract :
  forall l : list PriceBar,
    let out := sortAndDeduplicateData l in
    StronglySorted Z.lt (map date out) /\
    (forall y, In y out -> In y l) /\
    (forall x, In x l -> exists y, In y out /\ date y = date x) /\
    (length out <= length l)%nat.
Proof.
  intros l out.
  destruct (sortAndDeduplicateData_spec l) as (S1 & Sub & Cov).
  fold out in S1, Sub, Cov.
  repeat split; try assumption.
  apply NoDup_incl_length; [|exact Sub].
  apply (NoDup_map_inv date). now apply sorted_lt_NoDup.
Qed.

(** The sort is stable: bars of one timestamp keep their order. *)
Lemma with_date_insert (t : Z) (x : PriceBar) (l : list PriceBar) :
  with_date t (insert_by_date x l) = with_date t (x :: l).
Proof.
  unfold with_date. induction l as [|y l IH]; [reflexivity|].
  cbn [insert_by_date]. destruct (date x <=? date y)%Z eqn:E; [reflexivity|].
  apply Z.leb_gt in E. cbn [filter] in *. rewrite IH.
  destruct (date x =? t)%Z eqn:Ex, (date y =? t)%Z eqn:Ey; try reflexivity.
  apply Z.eqb_eq in Ex, Ey. lia.
Qed.

Lemma with_date_sort (t : Z) (l : list PriceBar) :
  with_date t (sort_by_date l) = with_date t l.
Proof.
  induction l as [|x l IH]; [reflexivity|].
  cbn [sort_by_date]. rewrite with_date_insert.
  unfold with_date in *. cbn [filter]. now rewrite IH.
Qed.

Lemma map_get_set_same (k : Z) (v : PriceBar) (m : TsMap) :
  map_get k (map_set k v m) = Some v.
Proof.
  induction m as [|[k' v'] m IH]; cbn.
  - now rewrite Z.eqb_refl.
  - destruct (k =? k')%Z eqn:E; cbn; rewrite ?Z.eqb_refl, ?E; auto.
Qed.

Lemma map_get_set_other (k k' : Z) (v : PriceBar) (m : TsMap) :
  k' <> k -> map_get k' (map_set k v m) = map_get k' m.
Proof.
  intro Hne. induction m as [|[k0 v0] m IH]; cbn.
  - destruct (k' =? k)%Z eqn:E; [apply Z.eqb_eq in E; contradiction | reflexivity].
  - destruct (k =? k0)%Z eqn:E; cbn.
    + apply Z.eqb_eq in E. subst k0.
      destruct (k' =? k)%Z eqn:E'; [apply Z.eqb_eq in E'; contradiction | reflexivity].
    + now rewrite IH.
Qed.

(** After the pass the value of key [t] is the last bar of the pass
    with timestamp [t]. *)
Lemma fold_set_get (t : Z) (s : list PriceBar) :
  forall m : TsMap,
    map_get t (fold_left (fun m item => map_set (date item) item m) s m) =
    match rev (with_date t s) with
    | v :: _ => Some v
    | [] => map_get t m
    end.
Proof.
  induction s as [|a s IH]; intro m; cbn [fold_left]; [reflexivity|].
  rewrite IH. unfold with_date. cbn [filter].
  destruct (date a =? t)%Z eqn:E.
  - apply Z.eqb_eq in E. subst t. cbn [rev].
    destruct (rev (filter _ s)) as [|v r]; cbn [app]; [|reflexivity].
    apply map_get_set_same.
  - apply Z.eqb_neq in E.
    destruct (rev (filter _ s)) as [|v r]; [|reflexivity].
    apply map_get_set_other. congruence.
Qed.

Lemma map_get_In (m : TsMap) (k : Z) (v : PriceBar) :
  NoDup (map fst m) -> (map_get k m = Some v <-> In (k, v) m).
Proof.
  induction m as [|[k' v'] m IH]; intro Hnd; cbn.
  - split; [discriminate | tauto].
  - inversion Hnd as [|? ? Hnot Hnd']; subst.
    destruct (k =? k')%Z eqn:E.
    + apply Z.eqb_eq in E. subst k'. split.
      * intro H. inversion H. now left.
      * intros [H | H]; [now inversion H|].
        exfalso. apply Hnot. change k with (fst (k, v)). now apply in_map.
    + apply Z.eqb_neq in E. rewrite (IH Hnd'). split; [now right|].
      intros [H | H]; [inversion H; congruence | assumption].
Qed.

(** The last element that passes a filter splits the list. *)
Lemma rev_filter_head {A} (p : A -> bool) (l : list A) (x : A) (r : list A) :
  rev (filter p l) = x :: r ->
  exists pre post, l = pre ++ x :: post /\ p x = true /\
                   forall y, In y post -> p y = false.
Proof.
  revert x r. induction l as [|a l IH]; intros x r H; [discriminate H|].
  cbn [filter] in H. destruct (p a) eqn:Ea.
  - cbn [rev] in H. destruct (rev (filter p l)) as [|x' r'] eqn:Er.
    + cbn in H. inversion H; subst. exists [], l. repeat split; try assumption.
      intros y Hy. destruct (p y) eqn:Ey; [|reflexivity].
      assert (Hin : In y (filter p l)) by (apply filter_In; auto).
      apply in_rev in Hin. rewrite Er in Hin. destruct Hin.
    + cbn in H. inversion H; subst.
      destruct (IH x r' eq_refl) as (pre & post & -> & Hx & Hpost).
      exists (a :: pre), post. auto.
  - destruct (IH x r H) as (pre & post & -> & Hx & Hpost).
    exists (a :: pre), post. auto.
Qed.

Lemma rev_filter_last {A} (p : A -> bool) (pre post : list A) (x : A) :
  p x = true -> (forall y, In y post -> p y = false) ->
  exists r, rev (filter p (pre ++ x :: post)) = x :: r.
Proof.
  intros Hx Hpost.
  assert (E : filter p post = []).
  { induction post as [|y post IH]; [reflexivity|].
    cbn. rewrite (Hpost y (or_introl eq_refl)). apply IH.
    intros; apply Hpost; now right. }
  rewrite filter_app. cbn [filter]. rewrite Hx, E, rev_app_distr.
  cbn. eauto.
Qed.

(** X2.  Of the bars that share a timestamp the one given last in the
    input is kept: a bar is in the cleaned series exactly when it
    stands in the input with no bar of its timestamp after it. *)
Theorem X2_normalizer_keeps_last_of_each_timestamp :
  forall (l : list PriceBar) (x : PriceBar),
    In x (sortAndDeduplicateData l) <->
    exists pre post,
      l = pre ++ x :: post /\ forall y, In y post -> date y <> date x.
Proof.
  intros l x. unfold sortAndDeduplicateData, map_values.
  destruct (fold_set_sorted (sort_by_date l) [])
    as (R1 & R2 & _ & _ & _);
    [apply sort_by_date_sorted | constructor | intros k v [] | intros k y [] |].
  set (r := fold_left _ _ _) in *.
  pose proof (sorted_lt_NoDup _ R1) as Hnd.
  pose proof (fold_set_get (date x) (sort_by_date l) []) as Hget.
  fold r in Hget. rewrite with_date_sort in Hget. cbn [map_get] in Hget.
  split.
  - intro Hin. apply in_map_iff in Hin. destruct Hin as ([k v] & E & Hin).
    cbn in E. subst v. assert (k = date x) by now apply R2. subst k.
    apply (map_get_In r _ _ Hnd) in Hin. rewrite Hin in Hget.
    destruct (rev (with_date (date x) l)) as [|v rest] eqn:Er; [discriminate|].
    inversion Hget; subst v.
    destruct (rev_filter_head _ _ _ _ Er) as (pre & post & -> & _ & Hpost).
    exists pre, post. split; [reflexivity|].
    intros y Hy E. specialize (Hpost y Hy). cbv beta in Hpost.
    apply Z.eqb_neq in Hpost. contradiction.
  - intros (pre & post & -> & Hpost).
    destruct (rev_filter_last (fun b => (date b =? date x)%Z) pre post x)
      as (rest & Er).
    + apply Z.eqb_refl.
    + intros y Hy. apply Z.eqb_neq. now apply Hpost.
    + unfold with_date in Hget. rewrite Er in Hget.
      apply (map_get_In r _ _ Hnd) in Hget.
      apply in_map_iff. exists (date x, x). auto.
Qed.

(** X3.  A series whose timestamps ascend strictly is returned as it
    is, and cleaning a cleaned series changes nothing. *)
Theorem X3_normalizer_fixed_point_and_idempotent :
  forall l : list PriceBar,
    (StronglySorted Z.lt (map date l) -> sortAndDeduplicateData l = l) /\
    sortAndDeduplicateData (sortAndDeduplicateData l)
    = sortAndDeduplicateData l.
Proof.
  intro l. split.
  - apply sortAndDeduplicateData_sorted.
  - apply sortAndDeduplicateData_idempotent.
Qed.

Lemma X3_witness :
  let l := [mkBar 1000 1 1 1 1 1; mkBar 2000 2 2 2 2 2] in
  sortAndDeduplicateData l = l.
Proof.
  intro l.
  apply (proj1 (X3_normalizer_fixed_point_and_idempotent l)).
  repeat constructor.
Defined.

(** The inline cleaning of the two effects. *)
Lemma seconds_fin (item : PriceBar) :
  ChartEffect.seconds item = Fin (inject_Z (date item) / 1000).
Proof.
  unfold ChartEffect.seconds, of_Z. apply div_fin. intro F. discriminate F.
Qed.

Lemma same_key_seconds (a b : Z) :
  ChartEffect.same_key (Fin (inject_Z a / 1000)) (Fin (inject_Z b / 1000))
  = (a =? b)%Z.
Proof.
  cbn [ChartEffect.same_key].
  destruct (a =? b)%Z eqn:E.
  - apply Z.eqb_eq in E. subst. apply Qeq_bool_iff. reflexivity.
  - apply Z.eqb_neq in E. apply Qeq_bool_false. intro F. apply E.
    assert (G : inject_Z a == inject_Z b).
    { setoid_replace (inject_Z a) with (inject_Z a / 1000 * 1000) by (field).
      setoid_replace (inject_Z b) with (inject_Z b / 1000 * 1000) by (field).
      now rewrite F. }
    unfold Qeq in G. cbn in G. lia.
Qed.

Lemma sec_map_set_lift (k : Z) (v : PriceBar) (m : TsMap) :
  ChartEffect.map_set (Fin (inject_Z k / 1000)) v
    (map (fun e => (Fin (inject_Z (fst e) / 1000), snd e)) m) =
  map (fun e => (Fin (inject_Z (fst e) / 1000), snd e)) (map_set k v m).
Proof.
  induction m as [|[k' v'] m IH]; [reflexivity|].
  cbn [map ChartEffect.map_set map_set fst snd].
  rewrite same_key_seconds. destruct (k =? k')%Z; [reflexivity|].
  cbn [map fst snd]. now rewrite IH.
Qed.

Lemma cleanData_sortAndDeduplicateData (data : list PriceBar) :
  ChartEffect.cleanData data = sortAndDeduplicateData data.
Proof.
  unfold ChartEffect.cleanData, sortAndDeduplicateData, map_values.
  assert (H : forall s (m : TsMap),
             fold_left (fun M item =>
                          ChartEffect.map_set (ChartEffect.seconds item) item M)
                       s (map (fun e => (Fin (inject_Z (fst e) / 1000), snd e)) m)
             = map (fun e => (Fin (inject_Z (fst e) / 1000), snd e))
                   (fold_left (fun m item => map_set (date item) item m) s m)).
  { induction s as [|a s IH]; intro m; cbn [fold_left]; [reflexivity|].
    rewrite seconds_fin, sec_map_set_lift. apply IH. }
  specialize (H (sort_by_date data) []). cbn [map] in H. rewrite H.
  rewrite map_map. reflexivity.
Qed.

(** X4.  The sorting and removal of duplicates written out in the
    effects of [VWAPChart] and [VolumeProfileChart], keyed by seconds,
    gives the same series as [sortAndDeduplicateData]. *)
Theorem X4_inline_cleaning_agrees_with_sortAndDeduplicateData :
  forall data : list PriceBar,
    ChartEffect.cleanData data = sortAndDeduplicateData data.
Proof. exact cleanData_sortAndDeduplicateData. Qed.

End NormalizerMore.

(** ** Heikin-Ashi candles *)

Module HeikinAshiFacts.
Import HeikinAshi.

Lemma average_fin (d : PriceBar) : average d = Fin (averageQ d).
Proof.
  unfold average, averageQ. cbn [add]. apply div_fin. intro F. discriminate F.
Qed.

Lemma step_follows (po pc : Q) (acc : list Candle.t) (d : PriceBar) :
  exists h l,
    step (mkPrev (Fin po) (Fin pc), acc) d =
    (mkPrev (Fin ((po + pc) / 2)) (Fin (averageQ d)),
     acc ++ [Candle.mk (Fin (inject_Z (date d) / 1000)) (Fin ((po + pc) / 2))
                       (Fin h) (Fin l) (Fin (averageQ d))]) /\
    In h [high d; (po + pc) / 2; averageQ d] /\
    Forall (fun x => x <= h) [high d; (po + pc) / 2; averageQ d] /\
    In l [low d; (po + pc) / 2; averageQ d] /\
    Forall (fun x => l <= x) [low d; (po + pc) / 2; averageQ d].
Proof.
  unfold step. cbn [open close add]. rewrite average_fin.
  rewrite (div_fin (po + pc) 2) by (intro F; discriminate F).
  unfold of_Z. rewrite (div_fin _ 1000) by (intro F; discriminate F).
  destruct (VolumeProfileFacts.max_list_fin (high d) [(po + pc) / 2; averageQ d])
    as (h & Eh & Hh & Hhin).
  destruct (VolumeProfileFacts.min_list_fin (low d) [(po + pc) / 2; averageQ d])
    as (l & El & Hl & Hlin).
  cbn [map] in Eh, El. rewrite Eh, El.
  exists h, l. split; [reflexivity|].
  repeat (split; [assumption|]). assumption.
Qed.

Lemma fold_follows (bars : list PriceBar) :
  forall (po pc : Q) (acc : list Candle.t),
    exists new,
      snd (fold_left step bars (mkPrev (Fin po) (Fin pc), acc)) = acc ++ new /\
      follows po pc bars new.
Proof.
  induction bars as [|d bars IH]; intros po pc acc; cbn [fold_left].
  - exists []. cbn. now rewrite app_nil_r.
  - destruct (step_follows po pc acc d) as (h & l & -> & H1 & H2 & H3 & H4).
    destruct (IH ((po + pc) / 2) (averageQ d)
                 (acc ++ [Candle.mk (Fin (inject_Z (date d) / 1000))
                            (Fin ((po + pc) / 2)) (Fin h) (Fin l)
                            (Fin (averageQ d))]))
      as (new & -> & Hf).
    eexists. rewrite <- app_assoc. split; [reflexivity|].
    cbn [follows app]. exists h, l.
    split; [reflexivity|]. repeat (split; [assumption|]). assumption.
Qed.

(** The builder returns the candles that follow from its first bar. *)
Lemma calculateHeikinAshi_follows (priceData : list PriceBar) :
  priceData <> [] ->
  exists first rest cs,
    sortAndDeduplicateData priceData = first :: rest /\
    calculateHeikinAshi priceData = Returns cs /\
    follows (Bar.open first) (averageQ first) (first :: rest) cs.
Proof.
  intro Hne. unfold calculateHeikinAshi.
  pose proof (NormalizerFacts.sortAndDeduplicateData_nonempty _ Hne) as Hc.
  destruct priceData as [|d0 ds]; [contradiction|].
  destruct (sortAndDeduplicateData (d0 :: ds)) as [|first rest]; [contradiction|].
  rewrite average_fin.
  destruct (fold_follows (first :: rest) (Bar.open first) (averageQ first) [])
    as (cs & E & Hf).
  exists first, rest, cs. rewrite E. auto.
Qed.

Lemma follows_length (bars : list PriceBar) :
  forall po pc cs, follows po pc bars cs -> length cs = length bars.
Proof.
  induction bars as [|d bars IH]; intros po pc cs H; destruct cs as [|c cs];
    cbn in H; try contradiction; [reflexivity|].
  destruct H as (h & l & _ & _ & _ & _ & _ & Hf). cbn. f_equal. eauto.
Qed.

Lemma follows_bounded (bars : list PriceBar) :
  forall po pc cs,
    follows po pc bars cs ->
    Forall (fun c => exists o h l cl,
              Candle.open c = Fin o /\ Candle.high c = Fin h /\
              Candle.low c = Fin l /\ Candle.close c = Fin cl /\
              l <= o /\ l <= cl /\ o <= h /\ cl <= h) cs.
Proof.
  induction bars as [|d bars IH]; intros po pc cs H; destruct cs as [|c cs];
    cbn in H; try contradiction; [constructor|].
  destruct H as (h & l & -> & _ & Hh & _ & Hl & Hf).
  constructor; [|eauto].
  exists ((po + pc) / 2), h, l, (averageQ d). cbn.
  rewrite Forall_forall in Hh, Hl.
  repeat split; try reflexivity.
  - apply Hl. cbn. auto.
  - apply Hl. cbn. auto.
  - apply Hh. cbn. auto.
  - apply Hh. cbn. auto.
Qed.

(** X5.  Every Heikin-Ashi candle is well formed: its values are
    numbers, its low is at most its open and its close, and its high is
    at least both. *)
Theorem X5_heikin_ashi_candles_are_well_formed :
  forall priceData : list PriceBar,
    exists cs,
      calculateHeikinAshi priceData = Returns cs /\
      Forall (fun c => exists o h l cl,
                Candle.open c = Fin o /\ Candle.high c = Fin h /\
                Candle.low c = Fin l /\ Candle.close c = Fin cl /\
                l <= o /\ l <= cl /\ o <= h /\ cl <= h) cs.
Proof.
  intro priceData. destruct (list_eq_dec_nil priceData) as [-> | Hne].
  - exists []. split; [reflexivity | constructor].
  - destruct (calculateHeikinAshi_follows priceData Hne)
      as (first & rest & cs & _ & E & Hf).
    exists cs. split; [assumption|]. eapply follows_bounded; eauto.
Qed.

Lemma follows_aligned (bars : list PriceBar) :
  forall po pc cs,
    follows po pc bars cs ->
    forall i d c,
      nth_error bars i = Some d -> nth_error cs i = Some c ->
      Candle.time c = Fin (inject_Z (date d) / 1000) /\
      Candle.close c = Fin (averageQ d) /\
      exists h l, Candle.high c = Fin h /\ Candle.low c = Fin l /\
                  high d <= h /\ l <= low d.
Proof.
  induction bars as [|d0 bars IH]; intros po pc cs H i d c Hd Hc;
    destruct cs as [|c0 cs]; cbn in H; try contradiction.
  - destruct i; discriminate Hd.
  - destruct H as (h & l & -> & _ & Hh & _ & Hl & Hf).
    destruct i as [|i]; cbn in Hd, Hc.
    + inversion Hd; inversion Hc; subst. cbn.
      rewrite Forall_forall in Hh, Hl.
      repeat split. exists h, l. repeat split.
      * apply Hh. cbn. auto.
      * apply Hl. cbn. auto.
    + eapply IH; eauto.
Qed.

(** X6.  There is one candle for each bar of the cleaned series, in
    its order: the candle carries the bar's time in seconds, closes at
    the average of the bar's open, high, low and close, and its high
    and low enclose the bar's high and low.  Without bars there is no
    candle. *)
Theorem X6_heikin_ashi_one_candle_per_cleaned_bar :
  forall priceData : list PriceBar,
    exists cs,
      calculateHeikinAshi priceData = Returns cs /\
      length cs = length (sortAndDeduplicateData priceData) /\
      forall i d c,
        nth_error (sortAndDeduplicateData priceData) i = Some d ->
        nth_error cs i = Some c ->
        Candle.time c = Fin (inject_Z (date d) / 1000) /\
        Candle.close c = Fin (averageQ d) /\
        exists h l, Candle.high c = Fin h /\ Candle.low c = Fin l /\
                    high d <= h /\ l <= low d.
Proof.
  intro priceData. destruct (list_eq_dec_nil priceData) as [-> | Hne].
  - exists []. split; [reflexivity|]. split; [reflexivity|].
    intros [|i] d c H; discriminate H.
  - destruct (calculateHeikinAshi_follows priceData Hne)
      as (first & rest & cs & Ec & E & Hf).
    exists cs. rewrite Ec. split; [assumption|].
    split; [eapply follows_length; eauto|].
    eapply follows_aligned; eauto.
Qed.

Lemma follows_recurrence (bars : list PriceBar) :
  forall po pc cs,
    follows po pc bars cs ->
    (forall c, nth_error cs 0 = Some c -> Candle.open c = Fin ((po + pc) / 2)) /\
    (forall i c1 c2,
       nth_error cs i = Some c1 -> nth_error cs (S i) = Some c2 ->
       exists o1 cl1,
         Candle.open c1 = Fin o1 /\ Candle.close c1 = Fin cl1 /\
         Candle.open c2 = Fin ((o1 + cl1) / 2)).
Proof.
  induction bars as [|d0 bars IH]; intros po pc cs H;
    destruct cs as [|c0 cs]; cbn in H; try contradiction.
  - split; [intros c F; discriminate F | intros [|i] c1 c2 F; discriminate F].
  - destruct H as (h & l & -> & _ & _ & _ & _ & Hf).
    destruct (IH _ _ _ Hf) as [Hfirst Hrec]. split.
    + intros c Hc. cbn in Hc. inversion Hc; subst. reflexivity.
    + intros [|i] c1 c2 H1 H2; cbn in H1, H2.
      * inversion H1; subst. cbn.
        exists ((po + pc) / 2), (averageQ d0).
        repeat split. now apply Hfirst.
      * eapply Hrec; eauto.
Qed.

(** X7.  The first candle opens halfway between the open of the first
    cleaned bar and the average of its four prices, and every later
    candle opens halfway between the open and the close of the candle
    before it. *)
Theorem X7_heikin_ashi_open_recurrence :
  forall (priceData : list PriceBar) (first : PriceBar) (rest : list PriceBar),
    sortAndDeduplicateData priceData = first :: rest ->
    exists cs,
      calculateHeikinAshi priceData = Returns cs /\
      (forall c, nth_error cs 0 = Some c ->
         Candle.open c = Fin ((Bar.open first + averageQ first) / 2)) /\
      (forall i c1 c2,
         nth_error cs i = Some c1 -> nth_error cs (S i) = Some c2 ->
         exists o1 cl1,
           Candle.open c1 = Fin o1 /\ Candle.close c1 = Fin cl1 /\
           Candle.open c2 = Fin ((o1 + cl1) / 2)).
Proof.
  intros priceData first rest Ec.
  assert (Hne : priceData <> []) by (intro F; subst; discriminate Ec).
  destruct (calculateHeikinAshi_follows priceData Hne)
    as (first' & rest' & cs & Ec' & E & Hf).
  rewrite Ec in Ec'. inversion Ec'; subst first' rest'.
  exists cs. split; [assumption|]. eapply follows_recurrence; eauto.
Qed.

Lemma X7_witness :
  let priceData :=
    [mkBar 1000 100 104 98 102 5; mkBar 2000 102 110 101 108 7] in
  exists cs,
    calculateHeikinAshi priceData = Returns cs /\
    (forall c, nth_error cs 0 = Some c ->
       Candle.open c
       = Fin ((100 + averageQ (mkBar 1000 100 104 98 102 5)) / 2)) /\
    (forall i c1 c2,
       nth_error cs i = Some c1 -> nth_error cs (S i) = Some c2 ->
       exists o1 cl1,
         Candle.open c1 = Fin o1 /\ Candle.close c1 = Fin cl1 /\
         Candle.open c2 = Fin ((o1 + cl1) / 2)).
Proof.
  intro priceData.
  apply (X7_heikin_ashi_open_recurrence priceData
           (mkBar 1000 100 104 98 102 5) [mkBar 2000 102 110 101 108 7]).
  reflexivity.
Defined.

Lemma follows_flat (p : Q) (bars : list PriceBar) :
  forall po pc cs,
    po == p -> pc == p ->
    Forall (fun d => Bar.open d == p /\ high d == p /\ low d == p /\
                     Bar.close d == p) bars ->
    follows po pc bars cs ->
    Forall (fun c => exists o h l cl,
              Candle.open c = Fin o /\ Candle.high c = Fin h /\
              Candle.low c = Fin l /\ Candle.close c = Fin cl /\
              o == p /\ h == p /\ l == p /\ cl == p) cs.
Proof.
  induction bars as [|d bars IH]; intros po pc cs Hpo Hpc Hflat H;
    destruct cs as [|c cs]; cbn in H; try contradiction; [constructor|].
  destruct H as (h & l & -> & Hhin & _ & Hlin & _ & Hf).
  inversion Hflat as [|? ? (Ho & Hh & Hl & Hc) Hflat']; subst.
  assert (Eo : (po + pc) / 2 == p) by (rewrite Hpo, Hpc; field).
  assert (Ea : averageQ d == p)
    by (unfold averageQ; rewrite Ho, Hh, Hl, Hc; field).
  constructor; [|now apply (IH _ _ _ Eo Ea)].
  exists ((po + pc) / 2), h, l, (averageQ d). cbn.
  repeat split; try assumption.
  - destruct Hhin as [<- | [<- | [<- | []]]]; assumption.
  - destruct Hlin as [<- | [<- | [<- | []]]]; assumption.
Qed.

(** X8.  On a series whose bars all have open, high, low and close
    equal to one price, every Heikin-Ashi candle has that price as its
    open, high, low and close. *)
Theorem X8_heikin_ashi_flat_series :
  forall (priceData : list PriceBar) (p : Q),
    Forall (fun d => Bar.open d == p /\ high d == p /\ low d == p /\
                     Bar.close d == p) priceData ->
    exists cs,
      calculateHeikinAshi priceData = Returns cs /\
      Forall (fun c => exists o h l cl,
                Candle.open c = Fin o /\ Candle.high c = Fin h /\
                Candle.low c = Fin l /\ Candle.close c = Fin cl /\
                o == p /\ h == p /\ l == p /\ cl == p) cs.
Proof.
  intros priceData p Hflat.
  destruct (list_eq_dec_nil priceData) as [-> | Hne].
  - exists []. split; [reflexivity | constructor].
  - destruct (calculateHeikinAshi_follows priceData Hne)
      as (first & rest & cs & Ec & E & Hf).
    exists cs. split; [assumption|].
    assert (Hclean : Forall (fun d => Bar.open d == p /\ high d == p /\
                                      low d == p /\ Bar.close d == p)
                            (first :: rest)).
    { rewrite <- Ec. apply Forall_forall. intros d Hd.
      rewrite Forall_forall in Hflat. apply Hflat.
      now apply (NormalizerFacts.sortAndDeduplicateData_spec priceData). }
    inversion Hclean as [|? ? (Ho & Hh & Hl & Hc) _]; subst.
    apply (follows_flat p (first :: rest) (Bar.open first) (averageQ first));
      try assumption.
    unfold averageQ. rewrite Ho, Hh, Hl, Hc. field.
Qed.

Lemma X8_witness :
  exists cs,
    calculateHeikinAshi
      [mkBar 1000 50 50 50 50 3; mkBar 2000 50 50 50 50 4] = Returns cs /\
    Forall (fun c => exists o h l cl,
              Candle.open c = Fin o /\ Candle.high c = Fin h /\
              Candle.low c = Fin l /\ Candle.close c = Fin cl /\
              o == 50 /\ h == 50 /\ l == 50 /\ cl == 50) cs.
Proof.
  apply (X8_heikin_ashi_flat_series
           [mkBar 1000 50 50 50 50 3; mkBar 2000 50 50 50 50 4] 50).
  repeat constructor; reflexivity.
Defined.

End HeikinAshiFacts.

(** ** More on the Renko bricks *)

Module RenkoMore.
Import Renko RenkoNotions RenkoFacts.

(** The bricks of one bar, in either direction. *)
Lemma dir_bricks_from (n : nat) :
  forall (j : nat) (dir bs t c : Q) (i : nat) (b : Candle.t),
    nth_error (bricks_from n j dir bs t c) i = Some b ->
    exists o cl tm,
      Candle.open b = Fin o /\ Candle.close b = Fin cl /\
      Candle.time b = Fin tm /\
      o == c + inject_Z (Z.of_nat i) * (dir * bs) /\
      cl == o + dir * bs /\
      tm == t + inject_Z (Z.of_nat (j + i)).
Proof.
  induction n as [|n IH]; intros j dir bs t c i b H.
  - destruct i; discriminate H.
  - destruct i as [|i]; cbn [bricks_from nth_error] in H.
    + inversion H; subst b. cbn [Candle.open Candle.close Candle.time].
      exists c, (c + dir * bs), (t + inject_Z (Z.of_nat j)).
      rewrite Nat.add_0_r. change (inject_Z (Z.of_nat 0)) with 0.
      repeat split; ring.
    + destruct (IH _ _ _ _ _ _ _ H) as (o & cl & tm & E1 & E2 & E3 & Ho & Hc & Ht).
      exists o, cl, tm. repeat split; try assumption.
      * rewrite Ho, inject_Z_of_nat_S. ring.
      * rewrite Ht. replace (S j + i)%nat with (j + S i)%nat by lia.
        reflexivity.
Qed.

Lemma floor_quotient_nonneg (x bs : Q) :
  0 < bs -> 0 <= x -> (0 <= Qfloor (x / bs))%Z.
Proof.
  intros Hbs Hx. rewrite <- (Qfloor_Z 0). apply Qfloor_resp_le.
  change (inject_Z 0) with 0. apply Qle_shift_div_l; lra.
Qed.

Lemma Qabs_cases (x : Q) :
  (0 <= x /\ Qabs x == x) \/ (x < 0 /\ Qabs x == - x).
Proof.
  destruct (Qlt_le_dec x 0) as [H | H].
  - right. split; [assumption|]. apply Qabs_neg. lra.
  - left. split; [assumption|]. now apply Qabs_pos.
Qed.

(** After a turn the brick price is less than one brick away from the
    close of the bar, whatever it was before. *)
Lemma step_track_inv (bs t0 p p' : Q) (st : state) :
  0 < bs -> track_inv bs t0 p st ->
  exists st',
    step (Fin bs) st (Fin p') = Returns st' /\ track_inv bs t0 p' st'.
Proof.
  intros Hbs (c & t & Hc & Ht & Et & _ & Htimes).
  destruct st as [cur bt l]. cbn [currentBrickPrice brickTime bricks] in *.
  subst cur bt. rewrite step_fin by assumption.
  set (x := Qabs (p' - c)).
  assert (Hx : 0 <= x) by apply Qabs_nonneg.
  set (n := Qfloor (x / bs)).
  destruct (floor_div_bounds x bs Hbs) as [Flo Fhi]. fold n in Flo, Fhi.
  assert (Hn0 : (0 <= n)%Z) by now apply floor_quotient_nonneg.
  destruct (Qltb 0 (inject_Z n)) eqn:E.
  - eexists. split; [reflexivity|].
    set (dir := if Qltb 0 (p' - c) then 1 else -1).
    exists (price_after (Z.to_nat n) dir bs c), (t + inject_Z n).
    cbn [currentBrickPrice brickTime bricks].
    assert (Hnn : inject_Z (Z.of_nat (Z.to_nat n)) == inject_Z n)
      by (rewrite Z2Nat.id by assumption; reflexivity).
    split; [reflexivity|]. split; [reflexivity|]. split; [|split].
    + rewrite length_app, length_bricks_from, Nat2Z.inj_add, inject_Z_plus.
      rewrite Hnn, Et. ring.
    + rewrite price_after_eq, Hnn.
      unfold dir, x in *. destruct (Qltb 0 (p' - c)) eqn:Ed.
      * apply Qltb_true in Ed.
        assert (Ea : Qabs (p' - c) == p' - c) by (apply Qabs_pos; lra).
        rewrite Ea in Flo, Fhi.
        setoid_replace (p' - (c + inject_Z n * (1 * bs)))
          with (p' - c - inject_Z n * bs) by ring.
        rewrite Qabs_pos; lra.
      * apply Qltb_false in Ed.
        assert (Ea : Qabs (p' - c) == - (p' - c)) by (apply Qabs_neg; lra).
        rewrite Ea in Flo, Fhi.
        setoid_replace (p' - (c + inject_Z n * (-1 * bs)))
          with (- (c - p' - inject_Z n * bs)) by ring.
        rewrite Qabs_opp. rewrite Qabs_pos; lra.
    + intros i b Hi.
      destruct (Nat.lt_ge_cases i (length l)) as [Hlt | Hge].
      * rewrite nth_error_app1 in Hi by assumption. now apply Htimes.
      * rewrite nth_error_app2 in Hi by assumption.
        destruct (dir_bricks_from _ _ _ _ _ _ _ _ Hi)
          as (o & cl & tm & _ & _ & E3 & _ & _ & Htm).
        exists tm. split; [assumption|].
        rewrite Htm, Et. cbn [Nat.add].
        replace i with (length l + (i - length l))%nat at 2 by lia.
        rewrite Nat2Z.inj_add, inject_Z_plus. ring.
  - apply Qltb_false in E.
    assert (Hn : n = 0%Z).
    { change 0 with (inject_Z 0) in E. rewrite <- Zle_Qle in E. lia. }
    rewrite Hn in Fhi. change (inject_Z 0) with 0 in Fhi.
    eexists. split; [reflexivity|].
    exists c, t. cbn [currentBrickPrice brickTime bricks].
    repeat split; try assumption. unfold x in Fhi. lra.
Qed.

Lemma loop_track_inv (bs t0 : Q) (data : list PriceBar) :
  0 < bs ->
  forall (p : Q) (st : state),
    track_inv bs t0 p st ->
    exists st',
      loop (Fin bs) st data = Returns st' /\
      track_inv bs t0 (last (map close data) p) st'.
Proof.
  intro Hbs. induction data as [|d rest IH]; intros p st Hinv; cbn [loop].
  - exists st. split; [reflexivity | exact Hinv].
  - destruct (step_track_inv bs t0 p (close d) st Hbs Hinv)
      as (st1 & -> & Hinv1).
    cbn [bind]. destruct (IH (close d) st1 Hinv1) as (st' & E & Hinv').
    exists st'. split; [assumption|].
    cbn [map]. now rewrite last_cons_default.
Qed.

(** The run on a cleaned series with a positive brick size: it
    returns, and its final state keeps both invariants. *)
Lemma run_tracks (bs : Q) (first : PriceBar) (rest : list PriceBar) :
  0 < bs ->
  let c0 := inject_Z (Qfloor (close first / bs)) * bs in
  let t0 := inject_Z (date first) / 1000 in
  exists st,
    loop (Fin bs) (mkState (Fin c0) (Fin t0) []) (first :: rest) = Returns st /\
    run (Fin bs) (first :: rest) = Returns (bricks st) /\
    track_inv bs t0 (last (map close rest) (close first)) st /\
    chain_inv bs (Fin c0) st.
Proof.
  intros Hbs c0 t0.
  destruct (floor_div_bounds (close first) bs Hbs) as [Flo Fhi]. fold c0 in Flo.
  assert (Hinv0 : track_inv bs t0 (close first) (mkState (Fin c0) (Fin t0) [])).
  { exists c0, t0. cbn [currentBrickPrice brickTime bricks length].
    change (inject_Z (Z.of_nat 0)) with 0.
    split; [reflexivity|]. split; [reflexivity|]. split; [ring|]. split.
    - rewrite Qabs_pos by lra. unfold c0. nra.
    - intros [|i] b H; discriminate H. }
  destruct (loop_track_inv bs t0 (first :: rest) Hbs _ _ Hinv0)
    as (st & Hloop & Hinv).
  cbn [map] in Hinv. rewrite last_cons_default in Hinv.
  assert (Hch0 : chain_inv bs (Fin c0) (mkState (Fin c0) (Fin t0) [])).
  { unfold chain_inv. cbn [currentBrickPrice brickTime bricks linked end_price].
    repeat split; eauto. }
  destruct (loop_chain_inv bs (Fin c0) (first :: rest) Hbs _ Hch0)
    as (st2 & Hloop2 & Hch & _).
  rewrite Hloop in Hloop2. inversion Hloop2; subst st2.
  exists st. split; [assumption|]. split; [|split; assumption].
  unfold run. rewrite init_fin by assumption. fold c0 t0. cbn [bind].
  rewrite Hloop. reflexivity.
Qed.

Lemma calculateRenkoBricks_run (priceData : list PriceBar) (bs : Q)
    (first : PriceBar) (rest : list PriceBar) :
  sortAndDeduplicateData priceData = first :: rest ->
  calculateRenkoBricks priceData bs = run (Fin bs) (first :: rest).
Proof.
  intro Hclean. unfold calculateRenkoBricks.
  destruct priceData as [|d0 ds]; [discriminate Hclean|].
  now rewrite Hclean.
Qed.

(** X9.  The bricks carry consecutive sequence numbers: with a
    positive brick size, brick number [i] has the time of the first
    cleaned bar in seconds plus [i], so the times ascend strictly
    whatever the closes do. *)
Theorem X9_renko_brick_times_are_consecutive :
  forall (priceData : list PriceBar) (brickSize : Q)
         (first : PriceBar) (rest : list PriceBar),
    0 < brickSize ->
    sortAndDeduplicateData priceData = first :: rest ->
    exists bricks,
      calculateRenkoBricks priceData brickSize = Returns bricks /\
      forall i b, nth_error bricks i = Some b ->
        exists tm, Candle.time b = Fin tm /\
                   tm == inject_Z (date first) / 1000 + inject_Z (Z.of_nat i).
Proof.
  intros priceData bs first rest Hbs Hclean.
  rewrite (calculateRenkoBricks_run _ _ _ _ Hclean).
  destruct (run_tracks bs first rest Hbs) as (st & _ & -> & Hinv & _).
  exists (bricks st). split; [reflexivity|].
  destruct Hinv as (c & t & _ & _ & _ & _ & Htimes). exact Htimes.
Qed.

Lemma X9_witness :
  let priceData :=
    [mkBar 1000 100 100 100 100 1; mkBar 2000 131 131 131 131 1;
     mkBar 3000 96 96 96 96 1] in
  exists bricks,
    calculateRenkoBricks priceData 10 = Returns bricks /\
    forall i b, nth_error bricks i = Some b ->
      exists tm, Candle.time b = Fin tm /\
                 tm == inject_Z 1000 / 1000 + inject_Z (Z.of_nat i).
Proof.
  intro priceData.
  apply (X9_renko_brick_times_are_consecutive priceData 10
           (mkBar 1000 100 100 100 100 1)
           [mkBar 2000 131 131 131 131 1; mkBar 3000 96 96 96 96 1]);
    reflexivity.
Defined.

(** In exact arithmetic the bricks follow the price to within one
    brick: with a positive brick size, the close of the last brick (the
    floored first close when there is no brick) differs from the last
    close of the cleaned series by less than the brick size. *)
Lemma exact_ends_within_one_brick :
  forall (priceData : list PriceBar) (brickSize : Q)
         (first : PriceBar) (rest : list PriceBar),
    0 < brickSize ->
    sortAndDeduplicateData priceData = first :: rest ->
    let flooredStart :=
      inject_Z (Qfloor (close first / brickSize)) * brickSize in
    let lastClose := last (map close rest) (close first) in
    exists bricks e,
      calculateRenkoBricks priceData brickSize = Returns bricks /\
      end_price (Fin flooredStart) bricks = Fin e /\
      Qabs (lastClose - e) < brickSize.
Proof.
  intros priceData bs first rest Hbs Hclean c0 P1.
  rewrite (calculateRenkoBricks_run _ _ _ _ Hclean).
  destruct (run_tracks bs first rest Hbs) as (st & _ & -> & Hinv & Hch).
  destruct Hinv as (c & t & Hc & _ & _ & Habs & _).
  destruct Hch as (_ & _ & _ & _ & Hend).
  exists (bricks st), c. split; [reflexivity|]. split; [|exact Habs].
  fold c0 in Hend. now rewrite Hend.
Qed.

(** *** Series that give no brick *)

Lemma step_quiet (bs c t p : Q) (l : list Candle.t) :
  0 < bs -> Qabs (p - c) < bs ->
  step (Fin bs) (mkState (Fin c) (Fin t) l) (Fin p)
  = Returns (mkState (Fin c) (Fin t) l).
Proof.
  intros Hbs Hq. rewrite step_fin by assumption.
  assert (Hn : Qfloor (Qabs (p - c) / bs) = 0%Z).
  { pose proof (Qabs_nonneg (p - c)) as Hx. apply floor_unique.
    - change (inject_Z 0) with 0. apply Qle_shift_div_l; lra.
    - change (inject_Z 0) with 0. apply Qlt_shift_div_r; lra. }
  rewrite Hn. reflexivity.
Qed.

Lemma step_loud (bs c t p : Q) (l : list Candle.t) :
  0 < bs -> bs <= Qabs (p - c) ->
  exists st',
    step (Fin bs) (mkState (Fin c) (Fin t) l) (Fin p) = Returns st' /\
    bricks st' <> [].
Proof.
  intros Hbs Hq. rewrite step_fin by assumption.
  set (n := Qfloor (Qabs (p - c) / bs)).
  assert (Hn : (1 <= n)%Z).
  { unfold n. rewrite <- (Qfloor_Z 1). apply Qfloor_resp_le.
    change (inject_Z 1) with 1. apply Qle_shift_div_l; lra. }
  assert (E : Qltb 0 (inject_Z n) = true).
  { apply Qltb_true. change 0 with (inject_Z 0). rewrite <- Zlt_Qlt. lia. }
  rewrite E. eexists. split; [reflexivity|].
  cbn [bricks]. intro F. apply (f_equal (@length Candle.t)) in F.
  rewrite length_app, length_bricks_from in F. cbn [length] in F. lia.
Qed.

Lemma loop_quiet (bs c t : Q) (data : list PriceBar) :
  0 < bs ->
  Forall (fun d => Qabs (close d - c) < bs) data ->
  loop (Fin bs) (mkState (Fin c) (Fin t) []) data
  = Returns (mkState (Fin c) (Fin t) []).
Proof.
  intros Hbs Hq. induction Hq as [|d data Hd _ IH]; cbn [loop]; [reflexivity|].
  rewrite step_quiet by assumption. cbn [bind]. exact IH.
Qed.

Lemma loop_without_bricks (bs c t : Q) (data : list PriceBar) :
  0 < bs ->
  forall st',
    loop (Fin bs) (mkState (Fin c) (Fin t) []) data = Returns st' ->
    bricks st' = [] ->
    Forall (fun d => Qabs (close d - c) < bs) data.
Proof.
  intro Hbs. induction data as [|d data IH]; intros st' Hloop Hnil;
    [constructor|].
  cbn [loop] in Hloop.
  destruct (Qlt_le_dec (Qabs (close d - c)) bs) as [Hq | Hq].
  - rewrite step_quiet in Hloop by assumption. cbn [bind] in Hloop.
    constructor; [assumption | eauto].
  - exfalso.
    destruct (step_loud bs c t (close d) [] Hbs Hq) as (st1 & E1 & Hne).
    assert (Hch0 : chain_inv bs (Fin c) (mkState (Fin c) (Fin t) [])).
    { unfold chain_inv. cbn [currentBrickPrice brickTime bricks linked end_price].
      repeat split; eauto. }
    destruct (step_chain_inv bs (Fin c) _ (close d) Hbs Hch0)
      as (st1' & E1' & Hch1 & _).
    rewrite E1 in E1'. inversion E1'; subst st1'.
    rewrite E1 in Hloop. cbn [bind] in Hloop.
    destruct (loop_chain_inv bs (Fin c) data Hbs st1 Hch1)
      as (st2 & E2 & _ & (more & Emore)).
    rewrite Hloop in E2. inversion E2; subst st2.
    rewrite Hnil in Emore. symmetry in Emore.
    apply app_eq_nil in Emore. destruct Emore as [F _]. contradiction.
Qed.

(** In exact arithmetic, with a positive brick size the builder
    returns no brick exactly when every close of the cleaned series is
    less than one brick away from the floored first close; a series of
    one bar is such a series. *)
Lemma exact_no_brick_iff :
  forall (priceData : list PriceBar) (brickSize : Q)
         (first : PriceBar) (rest : list PriceBar),
    0 < brickSize ->
    sortAndDeduplicateData priceData = first :: rest ->
    let flooredStart :=
      inject_Z (Qfloor (close first / brickSize)) * brickSize in
    (calculateRenkoBricks priceData brickSize = Returns [] <->
     Forall (fun d => Qabs (close d - flooredStart) < brickSize)
            (first :: rest)) /\
    (rest = [] -> calculateRenkoBricks priceData brickSize = Returns []).
Proof.
  intros priceData bs first rest Hbs Hclean c0.
  rewrite (calculateRenkoBricks_run _ _ _ _ Hclean).
  unfold run. rewrite init_fin by assumption. fold c0. cbn [bind].
  set (t0 := inject_Z (date first) / 1000).
  assert (Hiff : (st <- loop (Fin bs) (mkState (Fin c0) (Fin t0) [])
                          (first :: rest) ;; Returns (bricks st))%js
                 = Returns [] <->
                 Forall (fun d => Qabs (close d - c0) < bs) (first :: rest)).
  { split.
    - intro H.
      destruct (loop (Fin bs) (mkState (Fin c0) (Fin t0) []) (first :: rest))
        as [st| |] eqn:El; cbn [bind] in H; try discriminate H.
      inversion H as [Hnil].
      now apply (loop_without_bricks bs c0 t0 (first :: rest) Hbs st).
    - intro H. now rewrite loop_quiet. }
  split; [exact Hiff|].
  intros ->. apply Hiff. constructor; [|constructor].
  destruct (floor_div_bounds (close first) bs Hbs) as [Flo Fhi]. fold c0 in Flo.
  rewrite Qabs_pos by lra. unfold c0. nra.
Qed.

(** *** A falling series *)

Lemma down_bricks_from (n : nat) :
  forall (j : nat) (bs t c : Q) (i : nat) (b : Candle.t),
    nth_error (bricks_from n j (-1) bs t c) i = Some b ->
    exists o cl tm,
      Candle.open b = Fin o /\ Candle.close b = Fin cl /\
      Candle.time b = Fin tm /\
      o == c - inject_Z (Z.of_nat i) * bs /\
      cl == o - bs /\
      tm == t + inject_Z (Z.of_nat (j + i)).
Proof.
  intros j bs t c i b H.
  destruct (dir_bricks_from n j (-1) bs t c i b H)
    as (o & cl & tm & E1 & E2 & E3 & Ho & Hc & Ht).
  exists o, cl, tm.
  split; [assumption|]. split; [assumption|]. split; [assumption|].
  split; [rewrite Ho; ring|]. split; [rewrite Hc; ring | assumption].
Qed.

Lemma step_fall_inv (c0 bs t0 p p' : Q) (st : state) :
  0 < bs -> fall_inv c0 bs t0 p st -> p' <= p ->
  exists st',
    step (Fin bs) st (Fin p') = Returns st' /\ fall_inv c0 bs t0 p' st'.
Proof.
  intros Hbs (c & t & Hc & Ht & Ec & Et & Hlo & Hhi & Hle & Hbr) Hp.
  destruct st as [cur bt l]. cbn [currentBrickPrice brickTime bricks] in *.
  subst cur bt. rewrite step_fin by assumption.
  set (x := Qabs (p' - c)).
  assert (Hx : 0 <= x) by apply Qabs_nonneg.
  set (n := Qfloor (x / bs)).
  destruct (floor_div_bounds x bs Hbs) as [Flo Fhi]. fold n in Flo, Fhi.
  assert (Hn0 : (0 <= n)%Z) by now apply floor_quotient_nonneg.
  destruct (Qltb 0 (inject_Z n)) eqn:E.
  - apply Qltb_true in E.
    assert (Hn1 : 1 <= inject_Z n).
    { change 0 with (inject_Z 0) in E. rewrite <- Zlt_Qlt in E.
      change 1 with (inject_Z 1). rewrite <- Zle_Qle. lia. }
    assert (Hbig : bs <= x) by nra.
    assert (Hneg : p' - c < 0).
    { unfold x in Hbig. destruct (Qabs_cases (p' - c)) as [[H0 Ea] | [H0 Ea]];
        [rewrite Ea in Hbig; lra | assumption]. }
    assert (Ea : x == c - p').
    { unfold x. rewrite Qabs_neg by lra. ring. }
    rewrite Ea in Flo, Fhi.
    assert (Ed : Qltb 0 (p' - c) = false) by (apply Qltb_false; lra).
    rewrite Ed.
    eexists. split; [reflexivity|].
    exists (price_after (Z.to_nat n) (-1) bs c), (t + inject_Z n).
    cbn [currentBrickPrice brickTime bricks].
    assert (Hnn : inject_Z (Z.of_nat (Z.to_nat n)) == inject_Z n)
      by (rewrite Z2Nat.id by assumption; reflexivity).
    assert (Hlen : inject_Z (Z.of_nat (length
                     (l ++ bricks_from (Z.to_nat n) 0 (-1) bs t c)))
                   == inject_Z (Z.of_nat (length l)) + inject_Z n).
    { rewrite length_app, length_bricks_from, Nat2Z.inj_add, inject_Z_plus.
      now rewrite Hnn. }
    assert (Hc' : price_after (Z.to_nat n) (-1) bs c == c - inject_Z n * bs).
    { rewrite price_after_eq, Hnn. ring. }
    split; [reflexivity|]. split; [reflexivity|].
    split; [rewrite Hc', Hlen, Ec; ring|].
    split; [rewrite Hlen, Et; ring|].
    split; [rewrite Hc'; lra|].
    split; [rewrite Hc'; lra|].
    split; [intros _; rewrite Hc'; lra|].
    intros i b Hi.
    destruct (Nat.lt_ge_cases i (length l)) as [Hlt | Hge].
    + rewrite nth_error_app1 in Hi by assumption. now apply Hbr.
    + rewrite nth_error_app2 in Hi by assumption.
      destruct (down_bricks_from _ _ _ _ _ _ _ Hi)
        as (o & cl & tm & E1 & E2 & E3 & Ho & Hcl & Htm).
      exists o, cl, tm. repeat split; try assumption.
      * rewrite Ho, Ec.
        replace i with (length l + (i - length l))%nat at 2 by lia.
        rewrite Nat2Z.inj_add, inject_Z_plus. ring.
      * rewrite Htm, Et. cbn [Nat.add].
        replace i with (length l + (i - length l))%nat at 2 by lia.
        rewrite Nat2Z.inj_add, inject_Z_plus. ring.
  - apply Qltb_false in E.
    assert (Hn : n = 0%Z).
    { change 0 with (inject_Z 0) in E. rewrite <- Zle_Qle in E. lia. }
    rewrite Hn in Fhi. change (inject_Z 0) with 0 in Fhi.
    eexists. split; [reflexivity|].
    exists c, t. cbn [currentBrickPrice brickTime bricks].
    split; [reflexivity|]. split; [reflexivity|].
    split; [assumption|]. split; [assumption|].
    unfold x in Fhi.
    destruct (Qabs_cases (p' - c)) as [[H0 Ea] | [H0 Ea]]; rewrite Ea in Fhi.
    + split; [lra|]. split; [lra|]. split; [|assumption].
      intro Hne. specialize (Hle Hne). lra.
    + split; [lra|]. split; [lra|]. split; [|assumption].
      intros _. lra.
Qed.

Lemma loop_fall_inv (c0 bs t0 : Q) (data : list PriceBar) :
  0 < bs ->
  forall (p : Q) (st : state),
    fall_inv c0 bs t0 p st ->
    Sorted (fun a b => b <= a) (p :: map close data) ->
    exists st',
      loop (Fin bs) st data = Returns st' /\
      fall_inv c0 bs t0 (last (map close data) p) st'.
Proof.
  intro Hbs. induction data as [|d rest IH]; intros p st Hinv Hs; cbn [loop].
  - exists st. split; [reflexivity | exact Hinv].
  - cbn [map] in Hs. inversion Hs as [|? ? Hs' Hhd]; subst.
    inversion Hhd as [|? ? Hle]; subst.
    destruct (step_fall_inv c0 bs t0 p (close d) st Hbs Hinv Hle)
      as (st1 & -> & Hinv1).
    cbn [bind]. destruct (IH (close d) st1 Hinv1 Hs') as (st' & E & Hinv').
    exists st'. split; [assumption|].
    cbn [map]. now rewrite last_cons_default.
Qed.

(** In exact arithmetic: let the cleaned series have non-increasing
    closes, from [P0] to [P1], and let the brick size be positive.
    Then every brick is a
    down-brick, brick number [i] opens [i] bricks below the floored
    first close, and there are
    [floor((floor(P0/brickSize)*brickSize - P1)/brickSize)] bricks, none
    when that is negative: the fall is counted from the floored first
    close, not from [P0]. *)
Lemma exact_falling_series :
  forall (priceData : list PriceBar) (brickSize : Q)
         (first : PriceBar) (rest : list PriceBar),
    0 < brickSize ->
    sortAndDeduplicateData priceData = first :: rest ->
    Sorted (fun a b => b <= a) (map close (first :: rest)) ->
    let P0 := close first in
    let P1 := last (map close rest) P0 in
    let flooredStart := inject_Z (Qfloor (P0 / brickSize)) * brickSize in
    let t0 := inject_Z (date first) / 1000 in
    exists bricks,
      calculateRenkoBricks priceData brickSize = Returns bricks /\
      length bricks =
        Z.to_nat (Qfloor ((flooredStart - P1) / brickSize)) /\
      forall i b, nth_error bricks i = Some b ->
        down_brick_at flooredStart brickSize t0 i b.
Proof.
  intros priceData bs first rest Hbs Hclean Hs P0 P1 c0 t0.
  rewrite (calculateRenkoBricks_run _ _ _ _ Hclean).
  unfold run. rewrite init_fin by assumption. fold P0 c0 t0. cbn [bind].
  set (st0 := mkState (Fin c0) (Fin t0) []).
  destruct (floor_div_bounds P0 bs Hbs) as [Flo Fhi]. fold c0 in Flo.
  assert (Hinv0 : fall_inv c0 bs t0 P0 st0).
  { exists c0, t0. cbn [st0 currentBrickPrice brickTime bricks length].
    change (inject_Z (Z.of_nat 0)) with 0.
    split; [reflexivity|]. split; [reflexivity|].
    split; [ring|]. split; [ring|]. split; [lra|]. split; [unfold c0; nra|].
    split; [intro F; now elim F|].
    intros [|i] b H; discriminate H. }
  assert (Hs0 : Sorted (fun a b => b <= a) (P0 :: map close (first :: rest))).
  { constructor; [assumption|]. constructor. apply Qle_refl. }
  destruct (loop_fall_inv c0 bs t0 (first :: rest) Hbs P0 st0 Hinv0 Hs0)
    as (st & Hloop & Hinv).
  rewrite Hloop. cbn [bind]. exists (bricks st).
  cbn [map] in Hinv. rewrite last_cons_default in Hinv. fold P0 P1 in Hinv.
  destruct Hinv as (c & t & Hc & Ht & Ec & Et & Hlo & Hhi & Hle & Hbr).
  split; [reflexivity|]. split; [|exact Hbr].
  destruct (bricks st) as [|b0 bs0] eqn:Eb.
  - cbn [length] in *. change (inject_Z (Z.of_nat 0)) with 0 in Ec.
    assert (Hq : (c0 - P1) / bs < 1) by (apply Qlt_shift_div_r; lra).
    pose proof (Qfloor_le ((c0 - P1) / bs)) as F.
    assert (Hz : inject_Z (Qfloor ((c0 - P1) / bs)) < inject_Z 1)
      by (change (inject_Z 1) with 1; lra).
    rewrite <- Zlt_Qlt in Hz. lia.
  - assert (Hp : P1 <= c) by (apply Hle; discriminate).
    set (k := Z.of_nat (length (b0 :: bs0))) in *.
    rewrite (floor_div_unique (c0 - P1) bs k Hbs); [unfold k; lia | lra | lra].
Qed.

End RenkoMore.

(** ** More on the Point-and-Figure columns *)

Module PFMore.
Import PF PFNotions PFFacts.

(** What one turn can do to the column list. *)
Lemma step_shape (cp bs rv : num) (cols : list PFColumn) (i : nat)
    (hi lo : num) (cols' : list PFColumn) :
  step cp bs rv cols i hi lo = Returns cols' ->
  (cols = [] /\ cols' = [mkColumn X [floor (div cp bs)] i]) \/
  (cols <> [] /\
   (cols' = cols \/
    (exists bx, cols' = push_boxes cols bx) \/
    (exists t bx, cols' = cols ++ [mkColumn t bx i]))).
Proof.
  unfold step. destruct (rev cols) as [|cur before] eqn:Er.
  - intro H.
    apply (f_equal (@rev PFColumn)) in Er. rewrite rev_involutive in Er.
    cbn [rev] in Er. subst cols. cbn [app] in H. inversion H. now left.
  - intro H. right. split.
    { intro F. subst cols. discriminate Er. }
    destruct (type cur).
    + destruct (gt _ _).
      * destruct (range_up _ _) as [bx| |]; cbn [bind] in H; try discriminate H.
        inversion H. right. left. eauto.
      * destruct (ge _ _).
        -- destruct (range_down _ _) as [bx| |]; cbn [bind] in H;
             try discriminate H.
           inversion H. right. right. eauto.
        -- inversion H. now left.
    + destruct (lt _ _).
      * destruct (range_down _ _) as [bx| |]; cbn [bind] in H; try discriminate H.
        inversion H. right. left. eauto.
      * destruct (ge _ _).
        -- destruct (range_up _ _) as [bx| |]; cbn [bind] in H;
             try discriminate H.
           inversion H. right. right. eauto.
        -- inversion H. now left.
Qed.

Lemma push_boxes_heads (cols : list PFColumn) (bx : list num) :
  cols <> [] ->
  map startIndex (push_boxes cols bx) = map startIndex cols /\
  map type (push_boxes cols bx) = map type cols /\
  length (push_boxes cols bx) = length cols /\
  forall c0 rest b,
    cols = c0 :: rest -> hd_error (boxes c0) = Some b ->
    exists c0' rest',
      push_boxes cols bx = c0' :: rest' /\ type c0' = type c0 /\
      startIndex c0' = startIndex c0 /\ hd_error (boxes c0') = Some b.
Proof.
  intro Hne. destruct (exists_last Hne) as (before & cur & ->).
  rewrite push_boxes_snoc. rewrite !map_app, !length_app. cbn [map length].
  repeat split.
  intros c0 rest b E Hb. destruct before as [|b0 before'].
  - cbn [app] in *. inversion E; subst. eexists _, _.
    split; [reflexivity|]. cbn [type startIndex boxes]. repeat split.
    destruct (boxes c0) as [|x xs]; [discriminate Hb | exact Hb].
  - cbn [app] in *. inversion E; subst. eexists _, _.
    split; [reflexivity|]. auto.
Qed.

(** The facts about the column list that every turn keeps. *)
Lemma loop_structure (cp bs rv : num) (rest : list PriceBar) :
  forall (cols : list PFColumn) (i : nat) (cols' : list PFColumn)
         (c0 : PFColumn) (tl0 : list PFColumn) (b : num),
    loop cp bs rv cols i rest = Returns cols' ->
    cols = c0 :: tl0 -> hd_error (boxes c0) = Some b ->
    StronglySorted Nat.lt (map startIndex cols) ->
    Forall (fun c => (startIndex c < i)%nat) cols ->
    (length cols <= i)%nat ->
    (exists c0' tl0',
       cols' = c0' :: tl0' /\ type c0' = type c0 /\
       startIndex c0' = startIndex c0 /\ hd_error (boxes c0') = Some b) /\
    StronglySorted Nat.lt (map startIndex cols') /\
    Forall (fun c => (startIndex c < i + length rest)%nat) cols' /\
    (length cols' <= i + length rest)%nat.
Proof.
  induction rest as [|d rest IH];
    intros cols i cols' c0 tl0 b Hloop Ecols Hb Hs Hall Hlen; cbn [loop] in Hloop.
  - inversion Hloop; subst cols'. cbn [length]. rewrite Nat.add_0_r.
    split; [exists c0, tl0; auto|].
    split; [assumption|]. split; assumption.
  - destruct (step cp bs rv cols i (Fin (high d)) (Fin (low d)))
      as [cols1| |] eqn:Es; cbn [bind] in Hloop; try discriminate Hloop.
    assert (Hne : cols <> []) by (rewrite Ecols; discriminate).
    destruct (step_shape _ _ _ _ _ _ _ _ Es) as [[F _] | [_ Hshape]];
      [contradiction|].
    assert (Hstep :
      (exists c1 tl1, cols1 = c1 :: tl1 /\ type c1 = type c0 /\
                      startIndex c1 = startIndex c0 /\
                      hd_error (boxes c1) = Some b) /\
      StronglySorted Nat.lt (map startIndex cols1) /\
      Forall (fun c => (startIndex c < S i)%nat) cols1 /\
      (length cols1 <= S i)%nat).
    { assert (Hall' : Forall (fun c => (startIndex c < S i)%nat) cols).
      { eapply Forall_impl; [|exact Hall]. cbv beta. intros; lia. }
      destruct Hshape as [-> | [(bx & ->) | (t & bx & ->)]].
      - split; [exists c0, tl0; auto|].
        split; [assumption|]. split; [assumption | lia].
      - destruct (push_boxes_heads cols bx Hne) as (E1 & E2 & E3 & E4).
        split; [now apply (E4 c0 tl0 b)|]. rewrite E1, E3. split; [assumption|].
        split; [|lia].
        apply Forall_forall. intros c Hc.
        assert (Hin : In (startIndex c) (map startIndex (push_boxes cols bx)))
          by now apply in_map.
        rewrite E1 in Hin. apply in_map_iff in Hin.
        destruct Hin as (c' & Ec' & Hc').
        rewrite Forall_forall in Hall'. rewrite <- Ec'. now apply Hall'.
      - split.
        + rewrite Ecols. cbn [app]. exists c0, (tl0 ++ [mkColumn t bx i]). auto.
        + rewrite map_app, length_app. cbn [map length startIndex].
          split; [|split; [|lia]].
          * apply sorted_app; [assumption | repeat constructor|].
            intros a x Ha [<- | []]. apply in_map_iff in Ha.
            destruct Ha as (c & <- & Hc).
            rewrite Forall_forall in Hall. now apply Hall.
          * apply Forall_app. split; [assumption|].
            constructor; [cbn; lia | constructor]. }
    destruct Hstep as ((c1 & tl1 & E1 & Ht1 & Hi1 & Hb1) & Hs1 & Hall1 & Hlen1).
    destruct (IH cols1 (S i) cols' c1 tl1 b Hloop E1 Hb1 Hs1 Hall1 Hlen1)
      as ((c' & tl' & E' & Ht' & Hi' & Hb') & Hs' & Hall' & Hlen').
    cbn [length]. replace (i + S (length rest))%nat with (S i + length rest)%nat by lia.
    split; [|split; [assumption|]; split; assumption].
    exists c', tl'. repeat split; congruence.
Qed.

(** X13.  Whenever the builder returns on a series that is not empty,
    whatever the box size and the reversal amount: the first column is
    an X column that starts at bar 0 with the box of the first close,
    the start indexes of the columns ascend strictly and are indexes of
    bars, and there are at most as many columns as bars. *)
Theorem X13_point_figure_column_structure :
  forall (first : PriceBar) (rest : list PriceBar)
         (boxSize reversalAmount : Q) (columns : list PFColumn),
    calculatePointFigure (first :: rest) boxSize reversalAmount
      = Returns columns ->
    (exists c0 others,
       columns = c0 :: others /\ type c0 = X /\ startIndex c0 = 0%nat /\
       hd_error (boxes c0)
       = Some (floor (div (Fin (close first)) (Fin boxSize)))) /\
    StronglySorted Nat.lt (map startIndex columns) /\
    Forall (fun c => (startIndex c < length (first :: rest))%nat) columns /\
    (length columns <= length (first :: rest))%nat.
Proof.
  intros first rest bs rv columns H.
  unfold calculatePointFigure in H. cbn [loop] in H.
  unfold step at 1 in H. cbn [rev app bind] in H.
  set (c0 := mkColumn X [floor (div (Fin (close first)) (Fin bs))] 0) in H.
  destruct (loop_structure _ _ _ rest [c0] 1 columns c0 []
              (floor (div (Fin (close first)) (Fin bs))) H)
    as ((c' & tl' & E' & Ht' & Hi' & Hb') & Hs' & Hall' & Hlen');
    try reflexivity.
  - cbn [map]. repeat constructor.
  - constructor; [unfold c0; cbn [startIndex]; lia | constructor].
  - split; [exists c', tl'; auto|].
    split; [assumption|]. split; [|cbn [length] in *; lia].
    cbn [length] in *. exact Hall'.
Qed.

Lemma X13_witness :
  let first := mkBar 1000 100 100 100 100 1 in
  let rest := [mkBar 2000 101 125 101 120 1; mkBar 3000 96 96 70 75 1] in
  let columns :=
    [mkColumn X [Fin 10; Fin 11; Fin 12] 0;
     mkColumn O [Fin 11; Fin 10; Fin 9; Fin 8; Fin 7] 2] in
  (exists c0 others,
     columns = c0 :: others /\ type c0 = X /\ startIndex c0 = 0%nat /\
     hd_error (boxes c0) = Some (floor (div (Fin (close first)) (Fin 10)))) /\
  StronglySorted Nat.lt (map startIndex columns) /\
  Forall (fun c => (startIndex c < length (first :: rest))%nat) columns /\
  (length columns <= length (first :: rest))%nat.
Proof.
  intros first rest columns.
  apply (X13_point_figure_column_structure first rest 10 3 columns).
  reflexivity.
Defined.

(** *** Consecutive boxes *)

Lemma q_up_run (n : nat) : forall a, q_up n a = q_run 1 n a.
Proof. induction n as [|n IH]; intro a; cbn; [reflexivity | now rewrite IH]. Qed.

Lemma q_down_run (n : nat) : forall a, q_down n a = q_run (-1) n a.
Proof.
  induction n as [|n IH]; intro a; cbn [q_down q_run]; [reflexivity|].
  rewrite IH. reflexivity.
Qed.

Lemma unit_steps_run (d : Q) (n : nat) : forall a, unit_steps d (q_run d n a).
Proof.
  induction n as [|n IH]; intro a; cbn [q_run unit_steps]; [exact I|].
  destruct n as [|n]; cbn [q_run]; [exact I|].
  split; [reflexivity|]. apply (IH (a + d)).
Qed.

Lemma integral_plus (q d : Q) : integral q -> integral d -> integral (q + d).
Proof.
  intros (z & Hz) (w & Hw). exists (z + w)%Z.
  rewrite inject_Z_plus, Hz, Hw. reflexivity.
Qed.

Lemma integral_run (d : Q) (n : nat) :
  integral d -> forall a, integral a -> Forall integral (q_run d n a).
Proof.
  intro Hd. induction n as [|n IH]; intros a Ha; cbn [q_run]; constructor;
    [assumption|].
  apply IH. now apply integral_plus.
Qed.

Lemma integral_direction (t : PFType) : integral (direction t).
Proof. destruct t; [exists 1%Z | exists (-1)%Z]; reflexivity. Qed.

Lemma integral_opp (q : Q) : integral q -> integral (- q).
Proof. intros (z & Hz). exists (- z)%Z. rewrite inject_Z_opp, Hz. reflexivity. Qed.

Lemma unit_steps_app (d : Q) (qs : list Q) :
  forall n, qs <> [] -> unit_steps d qs ->
  unit_steps d (qs ++ q_run d n (last qs 0 + d)).
Proof.
  induction qs as [|a qs IH]; intros n Hne Hs; [contradiction|].
  destruct qs as [|b qs].
  - cbn [app last]. apply (unit_steps_run d (S n) a).
  - cbn [unit_steps] in Hs. destruct Hs as [Hab Hs].
    change (last (a :: b :: qs) 0) with (last (b :: qs) 0).
    cbn [app unit_steps]. split; [assumption|].
    apply (IH n); [discriminate | assumption].
Qed.

Lemma lastBox_of_map (c : PFColumn) (qs : list Q) :
  boxes c = map Fin qs ->
  (qs = [] /\ lastBoxOf c = NaN) \/
  (qs <> [] /\ lastBoxOf c = Fin (last qs 0)).
Proof.
  intro Eb. unfold lastBoxOf. rewrite Eb.
  destruct (list_eq_dec_nil qs) as [-> | Hne]; [now left|].
  right. split; [assumption|]. now apply last_map.
Qed.

(** One turn when a column is open, with the boxes it pushes. *)
Lemma step_snoc_boxes (cp bs rv : Q) (before : list PFColumn) (cur : PFColumn)
    (i : nat) (hi lo : Q) (qs : list Q) :
  0 < bs -> boxes cur = map Fin qs ->
  exists cols',
    step (Fin cp) (Fin bs) (Fin rv) (before ++ [cur]) i (Fin hi) (Fin lo)
    = Returns cols' /\
    (cols' = before ++ [cur] \/
     (exists n,
        qs <> [] /\
        cols' = before ++
          [mkColumn (type cur)
             (boxes cur ++
              map Fin (q_run (direction (type cur)) n
                         (last qs 0 + direction (type cur))))
             (startIndex cur)]) \/
     (exists n t,
        qs <> [] /\ t <> type cur /\
        cols' = before ++
          [cur;
           mkColumn t
             (map Fin (q_run (direction t) n
                         (last qs 0 - direction (type cur))))
             i])).
Proof.
  intros Hbs Eb.
  unfold step. rewrite rev_app_distr. cbn [rev app].
  rewrite !div_fin by lra. cbn [floor].
  set (h := Qfloor (hi / bs)). set (l := Qfloor (lo / bs)).
  destruct (lastBox_of_map cur qs Eb) as [[-> Hn] | [Hne Hq]].
  - rewrite Hn. eexists. destruct (type cur); cbn; split; try reflexivity;
      now left.
  - rewrite Hq. set (q := last qs 0). destruct (type cur) eqn:Ht.
    + cbn [gt lt add sub neg mul ge le direction].
      destruct (Qltb q (inject_Z h)).
      * unfold range_up. destruct (Qle_bool (q + 1) (inject_Z h)).
        -- cbn [bind]. rewrite push_boxes_snoc, Ht, count_up_map, q_up_run.
           eexists. split; [reflexivity|]. right. left. eauto.
        -- cbn [bind]. rewrite push_boxes_snoc, Ht.
           eexists. split; [reflexivity|]. right. left. exists 0%nat.
           split; [assumption | reflexivity].
      * destruct (Qle_bool (bs * rv) (q * bs + - lo)).
        -- unfold range_down. destruct (Qle_bool (inject_Z l) (q + - (1))).
           ++ cbn [bind]. rewrite <- app_assoc, count_down_map, q_down_run.
              eexists. split; [reflexivity|]. right. right.
              eexists _, O. split; [assumption|]. split; [discriminate|].
              reflexivity.
           ++ cbn [bind]. rewrite <- app_assoc.
              eexists. split; [reflexivity|]. right. right.
              exists 0%nat, O. split; [assumption|]. split; [discriminate|].
              reflexivity.
        -- eexists. split; [reflexivity|]. now left.
    + cbn [gt lt add sub neg mul ge le direction].
      destruct (Qltb (inject_Z l) q).
      * unfold range_down. destruct (Qle_bool (inject_Z l) (q + - (1))).
        -- cbn [bind]. rewrite push_boxes_snoc, Ht, count_down_map, q_down_run.
           eexists. split; [reflexivity|]. right. left. eauto.
        -- cbn [bind]. rewrite push_boxes_snoc, Ht.
           eexists. split; [reflexivity|]. right. left. exists 0%nat.
           split; [assumption | reflexivity].
      * destruct (Qle_bool (bs * rv) (hi + - (q * bs))).
        -- unfold range_up. destruct (Qle_bool (q + 1) (inject_Z h)).
           ++ cbn [bind]. rewrite <- app_assoc, count_up_map, q_up_run.
              eexists. split; [reflexivity|]. right. right.
              eexists _, X. split; [assumption|]. split; [discriminate|].
              reflexivity.
           ++ cbn [bind]. rewrite <- app_assoc.
              eexists. split; [reflexivity|]. right. right.
              exists 0%nat, X. split; [assumption|]. split; [discriminate|].
              reflexivity.
        -- eexists. split; [reflexivity|]. now left.
Qed.

Lemma cols_steps_replace_last (before : list PFColumn) (cur cur' : PFColumn) :
  cols_steps (before ++ [cur]) -> col_steps cur' ->
  (forall b, hd_error (boxes cur') = Some b -> hd_error (boxes cur) = Some b) ->
  cols_steps (before ++ [cur']).
Proof.
  intros H Hok Hhd. induction before as [|p before IH].
  - cbn in *. tauto.
  - destruct before as [|p2 before].
    + cbn [app cols_steps] in *. destruct H as (Hp & Hj & _).
      split; [assumption|]. split; [|tauto].
      intros b Hb. apply Hj. now apply Hhd.
    + cbn [app cols_steps] in *. destruct H as (Hp & Hj & Hrest).
      split; [assumption|]. split; [assumption|]. now apply IH.
Qed.

Lemma cols_steps_open (before : list PFColumn) (cur new : PFColumn) :
  cols_steps (before ++ [cur]) -> col_steps new -> joined cur new ->
  cols_steps (before ++ [cur; new]).
Proof.
  intros H Hok Hj. induction before as [|p before IH].
  - cbn in *. tauto.
  - destruct before as [|p2 before].
    + cbn [app cols_steps] in *. destruct H as (Hp & Hj' & Hc & _).
      tauto.
    + cbn [app cols_steps] in *. destruct H as (Hp & Hj' & Hrest).
      split; [assumption|]. split; [assumption|]. now apply IH.
Qed.

Lemma cols_steps_last (before : list PFColumn) (cur : PFColumn) :
  cols_steps (before ++ [cur]) -> col_steps cur.
Proof.
  induction before as [|p before IH]; cbn [app cols_steps]; [tauto|].
  intros (_ & _ & H). now apply IH.
Qed.

Lemma cols_steps_nth (cols : list PFColumn) :
  cols_steps cols ->
  Forall col_steps cols /\
  forall i c1 c2,
    nth_error cols i = Some c1 -> nth_error cols (S i) = Some c2 ->
    joined c1 c2.
Proof.
  induction cols as [|c cols IH]; intro H.
  - split; [constructor | intros [|i] c1 c2 F; discriminate F].
  - cbn [cols_steps] in H. destruct H as (Hc & Hj & Hrest).
    destruct (IH Hrest) as [Hall Hnth]. split; [now constructor|].
    intros [|i] c1 c2 H1 H2; cbn in H1, H2.
    + inversion H1; subst. destruct cols as [|c2' cols]; [discriminate H2|].
      cbn in H2. inversion H2; subst. exact Hj.
    + eapply Hnth; eauto.
Qed.

Lemma step_snoc_steps (cp bs rv : Q) (before : list PFColumn) (cur : PFColumn)
    (i : nat) (d : PriceBar) :
  0 < bs -> cols_steps (before ++ [cur]) ->
  exists cols',
    step (Fin cp) (Fin bs) (Fin rv) (before ++ [cur]) i
         (Fin (high d)) (Fin (low d)) = Returns cols' /\
    cols_steps cols' /\ cols' <> [].
Proof.
  intros Hbs Hinv.
  pose proof (cols_steps_last _ _ Hinv) as (qs & Eb & Hint & Hsteps).
  destruct (step_snoc_boxes cp bs rv before cur i (high d) (low d) qs Hbs Eb)
    as (cols' & E & Hshape).
  exists cols'. split; [assumption|].
  assert (Hlast : qs <> [] -> integral (last qs 0)).
  { intro Hne. rewrite Forall_forall in Hint. apply Hint. now apply last_in. }
  destruct Hshape as [-> | [(n & Hne & ->) | (n & t & Hne & Ht & ->)]].
  - split; [assumption|]. intro F. apply app_eq_nil in F.
    destruct F as [_ F]. discriminate F.
  - split; [|intro F; apply app_eq_nil in F; destruct F as [_ F]; discriminate F].
    apply (cols_steps_replace_last before cur); [assumption| |].
    + exists (qs ++ q_run (direction (type cur)) n
                      (last qs 0 + direction (type cur))).
      cbn [boxes type]. rewrite Eb, map_app. split; [reflexivity|]. split.
      * apply Forall_app. split; [assumption|].
        apply integral_run; [apply integral_direction|].
        apply integral_plus; [auto | apply integral_direction].
      * now apply unit_steps_app.
    + intros b. cbn [boxes]. rewrite Eb.
      destruct qs as [|q0 qs']; [contradiction|]. cbn. auto.
  - split; [|intro F; apply app_eq_nil in F; destruct F as [_ F]; discriminate F].
    apply cols_steps_open; [assumption| |].
    + eexists. cbn [boxes type]. split; [reflexivity|]. split.
      * apply integral_run; [apply integral_direction|].
        apply integral_plus; [auto|].
        apply integral_opp. apply integral_direction.
      * apply unit_steps_run.
    + intros b Hb. cbn [boxes] in Hb.
      exists (last qs 0), (last qs 0 - direction (type cur)).
      split.
      * destruct (lastBox_of_map cur qs Eb) as [[F _] | [_ Hq]];
          [contradiction | exact Hq].
      * split; [|reflexivity].
        destruct n as [|n]; cbn in Hb; [discriminate Hb|].
        inversion Hb. reflexivity.
Qed.

Lemma loop_steps (cp bs rv : Q) (rest : list PriceBar) :
  0 < bs ->
  forall (cols : list PFColumn) (i : nat),
    cols_steps cols -> cols <> [] ->
    exists cols',
      loop (Fin cp) (Fin bs) (Fin rv) cols i rest = Returns cols' /\
      cols_steps cols'.
Proof.
  intro Hbs. induction rest as [|d rest IH]; intros cols i Hinv Hne;
    cbn [loop].
  - eauto.
  - destruct (exists_last Hne) as (before & cur & ->).
    destruct (step_snoc_steps cp bs rv before cur i d Hbs Hinv)
      as (cols1 & -> & Hinv1 & Hne1).
    cbn [bind]. now apply IH.
Qed.

(** X14.  With a positive box size the builder returns, whatever the
    reversal amount, and in its columns the boxes are whole numbers
    that go up by one in an X column and down by one in an O column.
    A column that follows another and has a box starts one box below
    the last box of an X column, one box above the last box of an O
    column. *)
Theorem X14_point_figure_boxes_are_consecutive :
  forall (priceData : list PriceBar) (boxSize reversalAmount : Q),
    0 < boxSize ->
    exists columns,
      calculatePointFigure priceData boxSize reversalAmount = Returns columns /\
      Forall col_steps columns /\
      forall i c1 c2,
        nth_error columns i = Some c1 -> nth_error columns (S i) = Some c2 ->
        joined c1 c2.
Proof.
  intros priceData bs rv Hbs.
  destruct priceData as [|first rest].
  - exists []. split; [reflexivity|]. split; [constructor|].
    intros [|i] c1 c2 F; discriminate F.
  - unfold calculatePointFigure. cbn [loop].
    unfold step at 1. cbn [rev app bind].
    rewrite div_fin by lra. cbn [floor].
    destruct (loop_steps (close first) bs rv rest Hbs
                [mkColumn X [Fin (inject_Z (Qfloor (close first / bs)))] 0] 1)
      as (cols & -> & Hinv).
    + cbn [cols_steps]. split; [|tauto].
      exists [inject_Z (Qfloor (close first / bs))]. cbn [boxes type map].
      split; [reflexivity|]. split; [|exact I].
      constructor; [|constructor]. eexists. reflexivity.
    + discriminate.
    + exists cols. split; [reflexivity|]. now apply cols_steps_nth.
Qed.

Lemma X14_witness :
  let priceData :=
    [mkBar 1000 100 100 100 100 1; mkBar 2000 101 125 101 120 1;
     mkBar 3000 96 96 70 75 1; mkBar 4000 80 105 80 100 1] in
  exists columns,
    calculatePointFigure priceData 10 3 = Returns columns /\
    Forall col_steps columns /\
    forall i c1 c2,
      nth_error columns i = Some c1 -> nth_error columns (S i) = Some c2 ->
      joined c1 c2.
Proof.
  intro priceData.
  apply (X14_point_figure_boxes_are_consecutive priceData 10 3).
  reflexivity.
Defined.

End PFMore.

(** ** More on the indicator engine *)

Module IndicatorsMore.
Import Indicators IndicatorNotions.

Lemma fold_add_fin (w : list Q) :
  forall a, exists s,
    fold_left add (map Fin w) (Fin a) = Fin s /\ s == a + Qsum w.
Proof.
  induction w as [|x w IH]; intro a; cbn [map fold_left].
  - exists a. split; [reflexivity|]. unfold Qsum. cbn. ring.
  - cbn [add]. destruct (IH (a + x)) as (s & -> & Hs).
    exists s. split; [reflexivity|]. rewrite Hs. unfold Qsum. cbn. ring.
Qed.

Lemma Qsum_bounds (lo hi : Q) (w : list Q) :
  (forall x, In x w -> lo <= x /\ x <= hi) ->
  inject_Z (Z.of_nat (length w)) * lo <= Qsum w /\
  Qsum w <= inject_Z (Z.of_nat (length w)) * hi.
Proof.
  induction w as [|x w IH]; intro H.
  - unfold Qsum. cbn. change (inject_Z 0) with 0. lra.
  - destruct (H x (or_introl eq_refl)) as [Hlo Hhi].
    destruct IH as [I1 I2]; [intros; apply H; now right|].
    cbn [length]. rewrite RenkoFacts.inject_Z_of_nat_S.
    unfold Qsum in *. cbn [fold_right]. nra.
Qed.

Lemma slice_trailing (closes : list Q) (period : Z) (idx : nat) :
  (1 <= period)%Z -> (period - 1 <= Z.of_nat idx)%Z ->
  (idx < length closes)%nat ->
  slice (map Fin closes) (Z.of_nat idx - period + 1) (Z.of_nat idx + 1)
  = map Fin (trailing period idx closes) /\
  length (trailing period idx closes) = Z.to_nat period.
Proof.
  intros Hp Hi Hlen. unfold slice, slice_bound, trailing.
  rewrite length_map.
  destruct (Z.of_nat idx - period + 1 <? 0)%Z eqn:E1;
    [apply Z.ltb_lt in E1; lia|].
  destruct (Z.of_nat idx + 1 <? 0)%Z eqn:E2; [apply Z.ltb_lt in E2; lia|].
  rewrite !Z.min_l by lia.
  replace (Z.to_nat (Z.of_nat idx + 1 - (Z.of_nat idx - period + 1)))
    with (Z.to_nat period) by lia.
  replace (Z.to_nat (Z.of_nat idx - period + 1))
    with (idx + 1 - Z.to_nat period)%nat by lia.
  rewrite skipn_map, firstn_map. split; [reflexivity|].
  rewrite length_firstn, length_skipn. lia.
Qed.

Lemma nth_calculateSMA (prices : list num) (period : Z) (idx : nat)
    (d : option num) :
  (idx < length prices)%nat ->
  nth idx (calculateSMA prices period) d =
  if (Z.of_nat idx <? period - 1)%Z then None
  else Some (div (sum (slice prices (Z.of_nat idx - period + 1)
                                    (Z.of_nat idx + 1)))
                 (of_Z period)).
Proof.
  intro H. unfold calculateSMA.
  now rewrite (nth_mapi _ _ _ NaN d H).
Qed.

(** The entry of the SMA array at an index with a full window. *)
Lemma sma_defined (closes : list Q) (period : Z) (idx : nat) :
  (1 <= period)%Z -> (period - 1 <= Z.of_nat idx)%Z ->
  (idx < length closes)%nat ->
  exists v,
    nth idx (calculateSMA (map Fin closes) period) None = Some (Fin v) /\
    v * inject_Z period == Qsum (trailing period idx closes) /\
    Qmin_list (trailing period idx closes) <= v /\
    v <= Qmax_list (trailing period idx closes).
Proof.
  intros Hp Hi Hlen.
  rewrite nth_calculateSMA by (now rewrite length_map).
  destruct (Z.of_nat idx <? period - 1)%Z eqn:E; [apply Z.ltb_lt in E; lia|].
  destruct (slice_trailing closes period idx Hp Hi Hlen) as [-> Hw].
  set (w := trailing period idx closes) in *.
  unfold sum. destruct (fold_add_fin w 0) as (s & -> & Hs).
  assert (Hpq : 0 < inject_Z period).
  { change 0 with (inject_Z 0). rewrite <- Zlt_Qlt. lia. }
  rewrite of_Z_div by lia.
  exists (s / inject_Z period). split; [reflexivity|].
  assert (Hs' : s == Qsum w) by (rewrite Hs; ring).
  split; [rewrite <- Hs'; field; lra|].
  destruct (Qsum_bounds (Qmin_list w) (Qmax_list w) w) as [B1 B2].
  { intros x Hx. split; [now apply VWAPFacts.Qmin_list_le
                        | now apply VWAPFacts.Qmax_list_ge]. }
  rewrite Hw, Z2Nat.id in B1, B2 by lia.
  split.
  - apply Qle_shift_div_l; [assumption|]. rewrite Hs'. lra.
  - apply Qle_shift_div_r; [assumption|]. rewrite Hs'. lra.
Qed.

(** In exact arithmetic, for a period of at least one bar the SMA
    array is [null] at the indexes below [period - 1]; from there on
    its entry is the
    arithmetic mean of the [period] closes that end at the index, and
    it lies between the least and the greatest of them. *)
Lemma exact_sma_is_the_mean_of_the_trailing_window :
  forall (closes : list Q) (period : Z) (idx : nat),
    (1 <= period)%Z -> (idx < length closes)%nat ->
    let sma := calculateSMA (map Fin closes) period in
    let w := trailing period idx closes in
    ((Z.of_nat idx < period - 1)%Z -> nth idx sma (Some NaN) = None) /\
    ((period - 1 <= Z.of_nat idx)%Z ->
       length w = Z.to_nat period /\
       exists v,
         nth idx sma None = Some (Fin v) /\
         v * inject_Z period == Qsum w /\
         Qmin_list w <= v /\ v <= Qmax_list w).
Proof.
  intros closes period idx Hp Hlen sma w. split.
  - intro H. unfold sma.
    rewrite nth_calculateSMA by (now rewrite length_map).
    destruct (Z.of_nat idx <? period - 1)%Z eqn:E; [reflexivity|].
    apply Z.ltb_ge in E. lia.
  - intro H. split.
    + now apply slice_trailing.
    + now apply sma_defined.
Qed.

Lemma ema_from_fin (k : Q) (rest : list Q) :
  forall prev,
    ema_from (Fin k) (Fin prev) (map Fin rest) = map Fin (ema_q k prev rest).
Proof.
  induction rest as [|x rest IH]; intro prev; [reflexivity|].
  cbn [map ema_from ema_q]. rewrite <- IH. reflexivity.
Qed.

Lemma length_ema_q (k : Q) (rest : list Q) :
  forall prev, length (ema_q k prev rest) = length rest.
Proof.
  induction rest as [|x rest IH]; intro prev; [reflexivity|].
  cbn [ema_q length]. now rewrite IH.
Qed.

(** A weighted mean of two numbers of an interval stays in it. *)
Lemma blend_bounds (lo hi k x prev : Q) :
  0 <= k -> k <= 1 -> lo <= x -> x <= hi -> lo <= prev -> prev <= hi ->
  lo <= x * k + prev * (1 - k) /\ x * k + prev * (1 - k) <= hi.
Proof. intros. split; nra. Qed.

Lemma ema_q_bounded (lo hi k : Q) :
  0 <= k -> k <= 1 ->
  forall (rest : list Q) (prev : Q) (i : nat),
    (i <= length rest)%nat ->
    lo <= prev -> prev <= hi ->
    (forall x, In x (firstn i rest) -> lo <= x /\ x <= hi) ->
    lo <= nth i (prev :: ema_q k prev rest) 0 /\
    nth i (prev :: ema_q k prev rest) 0 <= hi.
Proof.
  intros Hk0 Hk1. induction rest as [|x rest IH]; intros prev i Hi Hlo Hhi Hw.
  - cbn [length] in Hi. replace i with 0%nat by lia. cbn. now split.
  - destruct i as [|i]; [cbn; now split|].
    cbn [ema_q]. change (nth (S i) (prev :: ?l) 0) with (nth i l 0).
    cbn [length] in Hi.
    destruct (Hw x) as [X1 X2]; [cbn [firstn]; now left|].
    destruct (blend_bounds lo hi k x prev) as [B1 B2]; try assumption.
    apply IH; [lia|assumption|assumption|].
    intros y Hy. apply Hw. cbn [firstn]. now right.
Qed.

Lemma smoothing_factor (period : Z) : (1 <= period)%Z ->
  exists k,
    div (Fin 2) (add (of_Z period) (Fin 1)) = Fin k /\ 0 <= k /\ k <= 1.
Proof.
  intro Hp. unfold of_Z. cbn [add].
  assert (H : 1 <= inject_Z period).
  { change 1 with (inject_Z 1). rewrite <- Zle_Qle. lia. }
  rewrite div_fin by lra.
  exists (2 / (inject_Z period + 1)). split; [reflexivity|]. split.
  - apply Qle_shift_div_l; lra.
  - apply Qle_shift_div_r; lra.
Qed.

(** [calculateEMA] on finite data, with the factor it derives. *)
Lemma calculateEMA_values (q0 : Q) (rest : list Q) (period : Z) :
  (1 <= period)%Z ->
  exists k,
    0 <= k /\ k <= 1 /\
    calculateEMA (map Fin (q0 :: rest)) period
    = map Fin (q0 :: ema_q k q0 rest).
Proof.
  intro Hp. destruct (smoothing_factor period Hp) as (k & Ek & K0 & K1).
  exists k. split; [assumption|]. split; [assumption|].
  unfold calculateEMA. rewrite Ek.
  cbn [map nth tl]. now rewrite ema_from_fin.
Qed.

(** An array all of whose entries are finite is the image of a list
    of rationals. *)
Lemma finite_entries (P : Q -> Prop) (l : list num) :
  (forall i, (i < length l)%nat -> exists q, nth i l NaN = Fin q /\ P q) ->
  exists qs, l = map Fin qs /\ Forall P qs.
Proof.
  induction l as [|x l IH]; intro H.
  - exists []. now split.
  - destruct (H 0%nat) as (q & Eq & Pq); [cbn; lia|]. cbn in Eq. subst x.
    destruct IH as (qs & -> & F).
    { intros i Hi. apply (H (S i)). cbn. lia. }
    exists (q :: qs). split; [reflexivity|]. now constructor.
Qed.

Lemma firstn_In {A} (n : nat) (l : list A) (x : A) :
  In x (firstn n l) -> In x l.
Proof.
  intro H. rewrite <- (firstn_skipn n l). apply in_or_app. now left.
Qed.

(** The EMA of data of an interval is finite and stays in it. *)
Lemma ema_within (lo hi : Q) (closes : list Q) (period : Z) :
  (1 <= period)%Z -> closes <> [] ->
  Forall (fun c => lo <= c /\ c <= hi) closes ->
  exists es,
    calculateEMA (map Fin closes) period = map Fin es /\
    length es = length closes /\
    Forall (fun e => lo <= e /\ e <= hi) es.
Proof.
  intros Hp Hne F. destruct closes as [|q0 rest]; [congruence|].
  destruct (calculateEMA_values q0 rest period Hp) as (k & K0 & K1 & ->).
  exists (q0 :: ema_q k q0 rest). split; [reflexivity|]. split.
  - cbn [length]. now rewrite length_ema_q.
  - apply Forall_forall. intros e He.
    destruct (In_nth _ _ 0 He) as (i & Hi & <-).
    cbn [length] in Hi. rewrite length_ema_q in Hi.
    rewrite Forall_forall in F.
    apply ema_q_bounded; try assumption.
    + lia.
    + apply (F q0). now left.
    + apply (F q0). now left.
    + intros x Hx. apply F. right. now apply (firstn_In i).
Qed.

Lemma get_num_nth (arr : list num) (i : nat) :
  get_num arr (Z.of_nat i) = nth i arr NaN.
Proof.
  unfold get_num.
  destruct (Z.of_nat i <? 0)%Z eqn:E; [apply Z.ltb_lt in E; lia|].
  now rewrite Nat2Z.id.
Qed.

Lemma nth_map_Fin (qs : list Q) (i : nat) : (i < length qs)%nat ->
  nth i (map Fin qs) NaN = Fin (nth i qs 0).
Proof.
  intro H. rewrite (nth_indep _ NaN (Fin 0)) by (now rewrite length_map).
  apply map_nth.
Qed.

(** In exact arithmetic, for a period of at least one bar the EMA
    array has one entry per element of its data, starts at the first
    element, and
    every entry is finite and lies between the least and the greatest
    of the elements up to its index. *)
Lemma exact_ema_starts_at_first_and_stays_in_range :
  forall (closes : list Q) (period : Z) (i : nat),
    (1 <= period)%Z -> (i < length closes)%nat ->
    let ema := calculateEMA (map Fin closes) period in
    length ema = length closes /\
    nth 0 ema NaN = Fin (nth 0 closes 0) /\
    exists v,
      nth i ema NaN = Fin v /\
      Qmin_list (firstn (S i) closes) <= v /\
      v <= Qmax_list (firstn (S i) closes).
Proof.
  intros closes period i Hp Hi ema.
  destruct closes as [|q0 rest]; [cbn in Hi; lia|].
  destruct (calculateEMA_values q0 rest period Hp) as (k & K0 & K1 & E).
  unfold ema. rewrite E. split.
  - rewrite length_map. cbn [length]. now rewrite length_ema_q.
  - split; [reflexivity|].
    exists (nth i (q0 :: ema_q k q0 rest) 0). split.
    + apply nth_map_Fin. cbn [length] in *. rewrite length_ema_q. lia.
    + cbn [length] in Hi.
      apply ema_q_bounded; try assumption.
      * lia.
      * apply VWAPFacts.Qmin_list_le. cbn [firstn]. now left.
      * apply VWAPFacts.Qmax_list_ge. cbn [firstn]. now left.
      * intros x Hx. split.
        -- apply VWAPFacts.Qmin_list_le. cbn [firstn]. now right.
        -- apply VWAPFacts.Qmax_list_ge. cbn [firstn]. now right.
Qed.

(** The MACD line of closes of an interval: finite entries, each at
    most the width of the interval away from zero. *)
Lemma macd_within (lo hi : Q) (closes : list Q) :
  closes <> [] ->
  Forall (fun c => lo <= c /\ c <= hi) closes ->
  exists ms,
    macdLine (map Fin closes) = map Fin ms /\
    length ms = length closes /\
    Forall (fun m => lo - hi <= m /\ m <= hi - lo) ms.
Proof.
  intros Hne F.
  destruct (ema_within lo hi closes 12 ltac:(lia) Hne F) as (e12 & E12 & L12 & F12).
  destruct (ema_within lo hi closes 26 ltac:(lia) Hne F) as (e26 & E26 & L26 & F26).
  destruct (finite_entries (fun m => lo - hi <= m /\ m <= hi - lo)
              (macdLine (map Fin closes))) as (ms & E & Fm).
  - intros i Hi. unfold macdLine, ema12, ema26 in *.
    rewrite length_mapi, E12, length_map in Hi.
    rewrite E12, E26.
    rewrite (nth_mapi _ _ _ NaN NaN) by (now rewrite length_map).
    rewrite get_num_nth, !nth_map_Fin by lia.
    cbn [sub neg add].
    exists (nth i e12 0 + - nth i e26 0). split; [reflexivity|].
    rewrite Forall_forall in F12, F26.
    assert (A : lo <= nth i e12 0 /\ nth i e12 0 <= hi)
      by (apply F12, nth_In; lia).
    assert (B : lo <= nth i e26 0 /\ nth i e26 0 <= hi)
      by (apply F26, nth_In; lia).
    lra.
  - exists ms. split; [assumption|]. split; [|assumption].
    apply (f_equal (@length num)) in E.
    rewrite length_map in E. rewrite <- E.
    unfold macdLine, ema12. now rewrite length_mapi, E12, length_map.
Qed.

(** In exact arithmetic, when every close of the window lies in an
    interval of width [w], each entry of the MACD line and of the
    signal line is a
    finite number of absolute value at most [w]; on a flat series both
    lines are zero throughout. *)
Lemma exact_macd_and_signal_bounded_by_the_spread :
  forall (closes : list Q) (lo hi : Q) (i : nat),
    Forall (fun c => lo <= c /\ c <= hi) closes ->
    (i < length closes)%nat ->
    exists m s,
      get_num (macdLine (map Fin closes)) (Z.of_nat i) = Fin m /\
      get_num (signalLine (map Fin closes)) (Z.of_nat i) = Fin s /\
      Qabs m <= hi - lo /\ Qabs s <= hi - lo.
Proof.
  intros closes lo hi i F Hi.
  assert (Hne : closes <> []) by (intros ->; cbn in Hi; lia).
  destruct (macd_within lo hi closes Hne F) as (ms & Em & Lm & Fm).
  assert (Hms : ms <> []) by (intros ->; cbn in Lm; lia).
  destruct (ema_within (lo - hi) (hi - lo) ms 9 ltac:(lia) Hms Fm)
    as (ss & Es & Ls & Fs).
  exists (nth i ms 0), (nth i ss 0).
  unfold signalLine. rewrite Em, Es, !get_num_nth, !nth_map_Fin by lia.
  split; [reflexivity|]. split; [reflexivity|].
  rewrite Forall_forall in Fm, Fs.
  assert (A : lo - hi <= nth i ms 0 /\ nth i ms 0 <= hi - lo)
    by (apply Fm, nth_In; lia).
  assert (B : lo - hi <= nth i ss 0 /\ nth i ss 0 <= hi - lo)
    by (apply Fs, nth_In; lia).
  split; apply Qabs_Qle_condition; split; lra.
Qed.

(** One turn of the RSI loop adds the rise or the fall of its day. *)
Lemma rsi_turn_sums (closes : list Q) (a : nat) (g l : Q) :
  (1 <= a)%nat -> (a < length closes)%nat ->
  let d := nth a closes 0 - nth (a - 1) closes 0 in
  exists g1 l1,
    rsi_turn (map Fin closes) (Fin g, Fin l) (Z.of_nat a) = (Fin g1, Fin l1) /\
    g1 == g + Qmax d 0 /\ l1 == l + Qmax (- d) 0.
Proof.
  intros Ha Hlen d. unfold rsi_turn.
  rewrite !RSIFacts.get_num_prices by lia.
  rewrite Nat2Z.id.
  replace (Z.to_nat (Z.of_nat a - 1)) with (a - 1)%nat by lia.
  cbn [sub neg add]. fold (Qminus (nth a closes 0) (nth (a - 1) closes 0)).
  fold d. unfold gt, lt.
  destruct (Qltb 0 d) eqn:E.
  - apply Qltb_true in E. exists (g + d), l. split; [reflexivity|].
    rewrite (Q.max_l d 0) by lra. rewrite (Q.max_r (- d) 0) by lra.
    split; ring.
  - apply Qltb_false in E. exists g, (l + - d). split; [reflexivity|].
    rewrite (Q.max_r d 0) by lra. rewrite (Q.max_l (- d) 0) by lra.
    split; ring.
Qed.

Lemma rsi_fold_sums (closes : list Q) (n : nat) :
  forall (a : nat) (g l : Q),
    (1 <= a)%nat -> (a + n <= length closes)%nat ->
    exists g' l',
      fold_left (rsi_turn (map Fin closes)) (z_seq (Z.of_nat a) n)
                (Fin g, Fin l) = (Fin g', Fin l') /\
      g' == g + gain_sum (changes closes a n) /\
      l' == l + loss_sum (changes closes a n).
Proof.
  induction n as [|n IH]; intros a g l Ha Hend.
  - exists g, l. split; [reflexivity|].
    unfold gain_sum, loss_sum, changes, Qsum. cbn. split; ring.
  - cbn [z_seq fold_left].
    destruct (rsi_turn_sums closes a g l Ha) as (g1 & l1 & -> & G1 & L1);
      [lia|].
    replace (Z.of_nat a + 1)%Z with (Z.of_nat (S a)) by lia.
    destruct (IH (S a) g1 l1) as (g' & l' & -> & G' & L'); [lia|lia|].
    exists g', l'. split; [reflexivity|].
    unfold gain_sum, loss_sum, changes, Qsum in *.
    cbn [seq map fold_right]. rewrite G', L', G1, L1. split; ring.
Qed.

Lemma loss_sum_nonneg (ds : list Q) : 0 <= loss_sum ds.
Proof.
  unfold loss_sum, Qsum. induction ds as [|d ds IH]; cbn [map fold_right].
  - lra.
  - pose proof (Q.le_max_r (- d) 0). lra.
Qed.

Lemma gain_sum_nonneg (ds : list Q) : 0 <= gain_sum ds.
Proof.
  unfold gain_sum, Qsum. induction ds as [|d ds IH]; cbn [map fold_right].
  - lra.
  - pose proof (Q.le_max_r d 0). lra.
Qed.

(** The RSI entry at an index [i >= period] in exact arithmetic.
    With [G] the sum of the rises and [L] the sum of the falls over
    the [period] day-to-day changes that end at [i]: when there is a
    fall, the entry is [100 * G / (G + L)]; when there is none, the
    divisor [avgLoss || 1] is 1 and the entry is
    [100 * G / (period + G)], which is below 100 and is 0 on a flat
    window. *)
Lemma exact_rsi_closed_form :
  forall (closes : list Q) (period i : nat),
    (1 <= period)%nat -> (period <= i)%nat -> (i < length closes)%nat ->
    let ds := changes closes (i - period + 1) period in
    let G := gain_sum ds in
    let L := loss_sum ds in
    exists r,
      nth i (calculateRSI (map Fin closes) (Z.of_nat period)) None
      = Some (Fin r) /\
      (0 < L -> r * (G + L) == 100 * G) /\
      (L == 0 -> r * (inject_Z (Z.of_nat period) + G) == 100 * G /\ r < 100).
Proof.
  intros closes period i Hp Hi Hlen ds G L.
  rewrite RSIFacts.nth_calculateRSI by assumption.
  unfold rsi_at.
  destruct (Z.of_nat i <? Z.of_nat period)%Z eqn:E;
    [apply Z.ltb_lt in E; lia|].
  replace (Z.of_nat i - Z.of_nat period + 1)%Z
    with (Z.of_nat (i - period + 1)) by lia.
  rewrite Nat2Z.id.
  destruct (rsi_fold_sums closes period (i - period + 1) 0 0)
    as (g & l & -> & Hg & Hl); [lia|lia|].
  fold ds in Hg, Hl. fold G in Hg. fold L in Hl.
  assert (HG : g == G) by (rewrite Hg; ring).
  assert (HL : l == L) by (rewrite Hl; ring).
  pose proof (gain_sum_nonneg ds) as G0. fold G in G0.
  pose proof (loss_sum_nonneg ds) as L0. fold L in L0.
  set (p := inject_Z (Z.of_nat period)).
  assert (Hpq : 0 < p).
  { unfold p. change 0 with (inject_Z 0). rewrite <- Zlt_Qlt. lia. }
  rewrite !of_Z_div by lia. fold p.
  unfold or_else, truthy.
  destruct (Qeq_bool (l / p) 0) eqn:Ez; cbn [negb].
  - apply Qeq_bool_iff in Ez.
    assert (Hl0 : l == 0).
    { assert (X : l == (l / p) * p) by (field; lra). rewrite X, Ez. ring. }
    rewrite div_fin by lra. cbn [add].
    assert (Hd : 0 < 1 + g / p / 1).
    { assert (0 <= g / p) by (apply Qle_shift_div_l; lra).
      assert (g / p / 1 == g / p) by (field; lra). lra. }
    rewrite div_fin by lra. cbn [sub neg add].
    eexists. split; [reflexivity|]. split.
    + intro HLpos. lra.
    + intros _. split.
      * rewrite <- HG. field. split; [lra|].
        intro F. assert (0 <= g) by lra. nra.
      * assert (0 < 100 / (1 + g / p / 1)) by (apply Qlt_shift_div_l; lra).
        lra.
  - assert (Hnz : ~ l / p == 0).
    { intro F. apply Qeq_bool_iff in F. congruence. }
    assert (Hlpos : 0 < l).
    { assert (0 <= l) by lra.
      destruct (Qlt_le_dec 0 l) as [|Hle]; [assumption|].
      exfalso. apply Hnz. assert (l == 0) by lra.
      assert (X : l / p == l * / p) by reflexivity. rewrite X.
      rewrite H0. ring. }
    assert (Hlp : 0 < l / p) by (apply Qlt_shift_div_l; lra).
    rewrite div_fin by lra. cbn [add].
    assert (Hrs : 0 <= g / p / (l / p)).
    { apply Qle_shift_div_l; [assumption|].
      assert (0 <= g / p) by (apply Qle_shift_div_l; lra). lra. }
    rewrite div_fin by lra. cbn [sub neg add].
    eexists. split; [reflexivity|]. split.
    + intros _. rewrite <- HG, <- HL. field.
      assert (0 <= g) by lra.
      split; [lra|]. split; lra.
    + intro HL0. lra.
Qed.

(** The variance loop of [calculateStdDev] on finite data. *)
Lemma fold_sq_dev (m : Q) (w : list Q) :
  forall a, exists s,
    fold_left (fun s val => add s (square (sub val (Fin m))))
              (map Fin w) (Fin a) = Fin s /\
    s == a + sq_dev m w.
Proof.
  induction w as [|x w IH]; intro a; cbn [map fold_left].
  - exists a. split; [reflexivity|]. unfold sq_dev, Qsum. cbn. ring.
  - cbn [sub neg add square mul].
    destruct (IH (a + (x + - m) * (x + - m))) as (s & -> & Hs).
    exists s. split; [reflexivity|]. rewrite Hs.
    unfold sq_dev, Qsum. cbn [map fold_right]. ring.
Qed.

Lemma sq_dev_nonneg (m : Q) (w : list Q) : 0 <= sq_dev m w.
Proof.
  unfold sq_dev, Qsum. induction w as [|x w IH]; cbn [map fold_right].
  - lra.
  - set (t := x - m). assert (0 <= t * t) by nra. lra.
Qed.

(** X19.  The Bollinger bands of a row, for a square root that is a
    non-negative number on non-negative numbers.  Below index 19 the
    20-bar SMA and both bands are [null].  From index 19 on the SMA is
    a number [m]; when [m] is not zero the bands are [m + 2 sd] and
    [m - 2 sd], where [sd >= 0] is the root of the mean squared
    deviation of the last 20 closes from [m]; when [m] is exactly
    zero the test [sma20[idx]] fails and both bands are [null]. *)
Theorem X19_bollinger_bands_around_the_sma :
  forall (Math_sqrt : num -> num) (closes : list Q) (d : PriceBar)
         (idx : nat),
    (forall q, 0 <= q -> exists r, Math_sqrt (Fin q) = Fin r /\ 0 <= r) ->
    (idx < length closes)%nat ->
    let r := row Math_sqrt (map Fin closes) d idx in
    match sma20 r with
    | None =>
        (idx < 19)%nat /\ upperBand r = None /\ lowerBand r = None
    | Some m =>
        (19 <= idx)%nat /\
        exists mq, m = Fin mq /\
          (mq == 0 -> upperBand r = None /\ lowerBand r = None) /\
          (~ mq == 0 ->
             exists var sd,
               var * 20 == sq_dev mq (trailing 20 idx closes) /\
               Math_sqrt (Fin var) = Fin sd /\ 0 <= sd /\
               upperBand r = Some (Fin (mq + 2 * sd)) /\
               lowerBand r = Some (Fin (mq - 2 * sd)))
    end.
Proof.
  intros Math_sqrt closes d idx Hsqrt Hlen r.
  unfold r, row. cbn [sma20 upperBand lowerBand]. unfold get_opt.
  destruct (Nat.lt_ge_cases idx 19) as [Hlt | Hge].
  - rewrite nth_calculateSMA by (now rewrite length_map).
    destruct (Z.of_nat idx <? 20 - 1)%Z eqn:E;
      [|apply Z.ltb_ge in E; lia].
    split; [assumption|]. now split.
  - destruct (sma_defined closes 20 idx) as (v & Ev & _); [lia|lia|assumption|].
    rewrite Ev. split; [assumption|].
    exists v. split; [reflexivity|]. unfold truthy. split.
    + intro Hz. apply Qeq_bool_iff in Hz. rewrite Hz. now split.
    + intro Hnz. rewrite (Qeq_bool_false _ _ Hnz). cbn [negb].
      unfold calculateStdDev, get_opt. rewrite Ev.
      destruct (Z.of_nat idx <? 20 - 1)%Z eqn:E;
        [apply Z.ltb_lt in E; lia|].
      destruct (slice_trailing closes 20 idx) as [-> _]; [lia|lia|assumption|].
      unfold or_else, truthy. rewrite (Qeq_bool_false _ _ Hnz). cbn [negb].
      destruct (fold_sq_dev v (trailing 20 idx closes) 0) as (s & -> & Hs).
      rewrite of_Z_div by lia.
      pose proof (sq_dev_nonneg v (trailing 20 idx closes)) as Hn.
      assert (Hvar : 0 <= s / inject_Z 20).
      { apply Qle_shift_div_l; [reflexivity|]. lra. }
      destruct (Hsqrt _ Hvar) as (sd & Esd & Hsd).
      exists (s / inject_Z 20), sd.
      split.
      { rewrite <- (Qplus_0_l (sq_dev v _)), <- Hs.
        change (inject_Z 20) with 20. field. }
      split; [assumption|]. split; [assumption|].
      rewrite Esd. split; reflexivity.
Qed.

Lemma X19_witness :
  let closes :=
    [10; 12; 11; 13; 12; 14; 13; 15; 14; 16;
     15; 17; 16; 18; 17; 19; 18; 20; 19; 21] in
  let r := row abs (map Fin closes) (mkBar 20000 20 22 18 21 5) 19 in
  match sma20 r with
  | None => (19 < 19)%nat /\ upperBand r = None /\ lowerBand r = None
  | Some m =>
      (19 <= 19)%nat /\
      exists mq, m = Fin mq /\
        (mq == 0 -> upperBand r = None /\ lowerBand r = None) /\
        (~ mq == 0 ->
           exists var sd,
             var * 20 == sq_dev mq (trailing 20 19 closes) /\
             abs (Fin var) = Fin sd /\ 0 <= sd /\
             upperBand r = Some (Fin (mq + 2 * sd)) /\
             lowerBand r = Some (Fin (mq - 2 * sd)))
  end.
Proof.
  intro closes.
  apply (X19_bollinger_bands_around_the_sma abs closes
           (mkBar 20000 20 22 18 21 5) 19).
  - intros q Hq. exists (Qabs q). split; [reflexivity | apply Qabs_nonneg].
  - simpl. lia.
Defined.

End IndicatorsMore.

(** ** More on the VWAP pass *)

Module VWAPMore.
Import VWAP VWAPNotions.

Section WithSqrt.

Variable Math_sqrt : num -> num.

Lemma nth_snoc_old {A} (l : list A) (x d : A) (i : nat) :
  (i < length l)%nat -> nth i (l ++ [x]) d = nth i l d.
Proof. intro H. now apply app_nth1. Qed.

Lemma nth_snoc_new {A} (l : list A) (x d : A) :
  nth (length l) (l ++ [x]) d = x.
Proof. rewrite app_nth2 by lia. now rewrite Nat.sub_diag. Qed.

Hypothesis sqrt_nonneg :
  forall q, 0 <= q -> exists r, Math_sqrt (Fin q) = Fin r /\ 0 <= r.

Lemma step_banded (done : list PriceBar) (a : acc) (d : PriceBar) :
  banded done a -> 0 < volume d ->
  banded (done ++ [d]) (step Math_sqrt a d).
Proof.
  intros ((pv & cv & sq & Epv & Ecv & Esq & Hcv & Hsq) & Lv & Lu & Ll & Hpts)
         Hvol.
  assert (H3 : ~ 3 == 0) by (intro F; discriminate F).
  assert (H1000 : ~ 1000 == 0) by (intro F; discriminate F).
  unfold step. rewrite Epv, Ecv, Esq.
  cbn [add]. rewrite (div_fin _ 3 H3). cbn [mul add].
  rewrite (div_fin _ (cv + volume d)) by lra.
  cbn [sub neg add square mul].
  rewrite (div_fin _ (cv + volume d)) by lra.
  unfold of_Z. rewrite (div_fin _ 1000 H1000).
  set (tp := (high d + low d + close d) / 3).
  set (v := (pv + tp * volume d) / (cv + volume d)).
  set (sq' := sq + (tp + - v) * (tp + - v) * volume d).
  assert (Hsq' : 0 <= sq').
  { unfold sq'. set (t := tp + - v). assert (0 <= t * t) by nra. nra. }
  assert (Hvar : 0 <= sq' / (cv + volume d)).
  { apply Qle_shift_div_l; lra. }
  destruct (sqrt_nonneg _ Hvar) as (sd & -> & Hsd).
  cbn [mul add neg].
  split; [|split; [|split; [|split]]].
  - exists (pv + tp * volume d), (cv + volume d), sq'.
    cbn [cumulativePV cumulativeVolume cumulativeSquaredDiff].
    split; [reflexivity|]. split; [reflexivity|]. split; [reflexivity|].
    split; lra.
  - cbn [out vwap]. rewrite !length_app. cbn [length]. lia.
  - cbn [out upperBand]. rewrite !length_app. cbn [length]. lia.
  - cbn [out lowerBand]. rewrite !length_app. cbn [length]. lia.
  - intros i Hi. rewrite length_app in Hi. cbn [length] in Hi.
    cbn [out vwap upperBand lowerBand].
    destruct (Nat.eq_dec i (length done)) as [-> | Hne].
    + rewrite nth_snoc_new.
      rewrite <- Lv at 1. rewrite nth_snoc_new.
      rewrite <- Lu at 1. rewrite nth_snoc_new.
      rewrite <- Ll at 1. rewrite nth_snoc_new.
      unfold band_point. cbn [time value].
      split; [reflexivity|]. split; [reflexivity|]. split; [reflexivity|].
      exists v, sd. split; [reflexivity|]. split; [assumption|].
      split; reflexivity.
    + rewrite !nth_snoc_old by lia. apply Hpts. lia.
Qed.

Lemma fold_banded (bars : list PriceBar) :
  forall (done : list PriceBar) (a : acc),
    banded done a -> (forall d, In d bars -> 0 < volume d) ->
    banded (done ++ bars) (fold_left (step Math_sqrt) bars a).
Proof.
  induction bars as [|d rest IH]; intros done a Hb Hvol.
  - cbn [fold_left]. now rewrite app_nil_r.
  - cbn [fold_left].
    replace (done ++ d :: rest) with ((done ++ [d]) ++ rest)
      by (now rewrite <- app_assoc).
    apply IH.
    + apply step_banded; [assumption|]. apply Hvol. now left.
    + intros d' Hd'. apply Hvol. now right.
Qed.

End WithSqrt.

(** X20.  For bars of positive volume and a square root that is a
    non-negative number on non-negative numbers, the three lines of
    the VWAP result have one point per bar; the points of a bar share
    the time [date / 1000], and its band values are [vwap + 2 sd] and
    [vwap - 2 sd] for a finite [sd >= 0]: the bands are finite,
    symmetric around the average and never cross it. *)
Theorem X20_vwap_bands_are_symmetric_around_the_average :
  forall (Math_sqrt : num -> num) (priceData : list PriceBar) (i : nat),
    (forall q, 0 <= q -> exists r, Math_sqrt (Fin q) = Fin r /\ 0 <= r) ->
    (forall d, In d priceData -> 0 < volume d) ->
    (i < length priceData)%nat ->
    let result := calculateVWAP Math_sqrt priceData in
    length (upperBand result) = length priceData /\
    length (lowerBand result) = length priceData /\
    band_point (nth i priceData no_bar)
               (nth i (vwap result) no_line)
               (nth i (upperBand result) no_line)
               (nth i (lowerBand result) no_line).
Proof.
  intros Math_sqrt priceData i Hsqrt Hvol Hi result.
  assert (B : banded priceData
                (fold_left (step Math_sqrt) priceData
                   (mkAcc (Fin 0) (Fin 0) (Fin 0) (mkResult [] [] [])))).
  { apply (fold_banded Math_sqrt Hsqrt priceData []); [|assumption].
    split; [|split; [|split; [|split]]]; try reflexivity.
    - exists 0, 0, 0. cbn. repeat (split; [reflexivity|]). split; lra.
    - intros j Hj. cbn in Hj. lia. }
  destruct B as (_ & _ & Lu & Ll & Hpts).
  split; [exact Lu|]. split; [exact Ll|]. now apply Hpts.
Qed.

Lemma X20_witness :
  let priceData :=
    [mkBar 1000 100 102 98 100 5; mkBar 2000 100 111 100 110 7] in
  let result := calculateVWAP abs priceData in
  length (upperBand result) = length priceData /\
  length (lowerBand result) = length priceData /\
  band_point (nth 1 priceData no_bar)
             (nth 1 (vwap result) no_line)
             (nth 1 (upperBand result) no_line)
             (nth 1 (lowerBand result) no_line).
Proof.
  intro priceData.
  apply (X20_vwap_bands_are_symmetric_around_the_average abs priceData 1).
  - intros q Hq. exists (Qabs q). split; [reflexivity | apply Qabs_nonneg].
  - intros d [<- | [<- | []]]; reflexivity.
  - simpl. lia.
Defined.

Section Poisoned.

Variable Math_sqrt : num -> num.
Hypothesis sqrt_NaN : Math_sqrt NaN = NaN.

Lemma add_NaN_r (x : num) : add x NaN = NaN.
Proof. now destruct x. Qed.

Lemma step_poisoned (n : nat) (a : acc) (d : PriceBar) :
  poisoned n a -> poisoned (S n) (step Math_sqrt a d).
Proof.
  intros (Esq & Lu & Ll & Fu & Fl & p & ps & Ev & Ep).
  unfold step. rewrite Esq.
  change (add NaN ?x) with NaN. change (div NaN ?x) with NaN.
  rewrite sqrt_NaN. change (mul (Fin 2) NaN) with NaN.
  unfold sub. change (neg NaN) with NaN. rewrite !add_NaN_r.
  unfold poisoned.
  cbn [cumulativeSquaredDiff out vwap upperBand lowerBand].
  split; [reflexivity|].
  split; [rewrite length_app; cbn [length]; lia|].
  split; [rewrite length_app; cbn [length]; lia|].
  split; [apply Forall_app; split; [assumption|now repeat constructor]|].
  split; [apply Forall_app; split; [assumption|now repeat constructor]|].
  rewrite Ev. eexists p, _. split; [reflexivity | assumption].
Qed.

Lemma fold_poisoned (bars : list PriceBar) :
  forall (n : nat) (a : acc),
    poisoned n a ->
    poisoned (n + length bars) (fold_left (step Math_sqrt) bars a).
Proof.
  induction bars as [|d rest IH]; intros n a Hp.
  - cbn [fold_left length]. now rewrite Nat.add_0_r.
  - cbn [fold_left length].
    replace (n + S (length rest))%nat with (S n + length rest)%nat by lia.
    apply IH. now apply step_poisoned.
Qed.

Lemma zero_volume_quotient (t v : Q) :
  v == 0 ->
  div (add (Fin 0) (mul (Fin t) (Fin v))) (add (Fin 0) (Fin v)) = NaN.
Proof.
  intro Hv. cbn [mul add]. rewrite div_fin_zero by lra.
  unfold inf_of_sign.
  assert (Ez : Qeq_bool (0 + t * v) 0 = true).
  { apply Qeq_bool_iff. rewrite Hv. ring. }
  now rewrite Ez.
Qed.

Lemma first_step_poisons (d : PriceBar) :
  volume d == 0 ->
  poisoned 1 (step Math_sqrt
                (mkAcc (Fin 0) (Fin 0) (Fin 0) (mkResult [] [] [])) d).
Proof.
  intro Hv.
  assert (H3 : ~ 3 == 0) by (intro F; discriminate F).
  unfold step. cbn [cumulativePV cumulativeVolume cumulativeSquaredDiff out
                    vwap upperBand lowerBand].
  change (add (add (Fin (high d)) (Fin (low d))) (Fin (close d)))
    with (Fin (high d + low d + close d)).
  rewrite (div_fin _ 3 H3).
  rewrite (zero_volume_quotient _ _ Hv).
  unfold sub. change (neg NaN) with NaN. rewrite !add_NaN_r.
  change (square NaN) with NaN. change (mul NaN (Fin (volume d))) with NaN.
  rewrite ?add_NaN_r.
  change (div NaN (add (Fin 0) (Fin (volume d)))) with NaN.
  rewrite sqrt_NaN. change (mul (Fin 2) NaN) with NaN.
  change (neg NaN) with NaN. change (add NaN NaN) with NaN.
  unfold poisoned.
  cbn [cumulativeSquaredDiff out vwap upperBand lowerBand app length].
  split; [reflexivity|]. split; [reflexivity|]. split; [reflexivity|].
  split; [now repeat constructor|]. split; [now repeat constructor|].
  eexists _, _. split; reflexivity.
Qed.

End Poisoned.

(** X21.  A first bar of volume zero makes the first VWAP value
    [0 / 0], which is [NaN]; the squared difference from it is [NaN]
    and stays in the running sum, so when [Math.sqrt] maps [NaN] to
    [NaN] every value of both bands is [NaN] for the whole series,
    whatever the later bars are. *)
Theorem X21_vwap_zero_volume_first_bar_voids_the_bands :
  forall (Math_sqrt : num -> num) (first : PriceBar) (rest : list PriceBar)
         (i : nat),
    Math_sqrt NaN = NaN ->
    volume first == 0 ->
    (i <= length rest)%nat ->
    let result := calculateVWAP Math_sqrt (first :: rest) in
    let zero := mkLine (Fin 0) (Fin 0) in
    value (nth 0 (vwap result) zero) = NaN /\
    value (nth i (upperBand result) zero) = NaN /\
    value (nth i (lowerBand result) zero) = NaN.
Proof.
  intros Math_sqrt first rest i Hsqrt Hv Hi result zero.
  pose proof (fold_poisoned Math_sqrt Hsqrt rest 1 _
                (first_step_poisons Math_sqrt Hsqrt first Hv)) as P.
  change (fold_left (step Math_sqrt) rest
            (step Math_sqrt
               (mkAcc (Fin 0) (Fin 0) (Fin 0) (mkResult [] [] [])) first))
    with (fold_left (step Math_sqrt) (first :: rest)
            (mkAcc (Fin 0) (Fin 0) (Fin 0) (mkResult [] [] []))) in P.
  destruct P as (_ & Lu & Ll & Fu & Fl & p & ps & Ev & Ep).
  fold (calculateVWAP Math_sqrt (first :: rest)) in Lu, Ll, Fu, Fl, Ev.
  fold result in Lu, Ll, Fu, Fl, Ev.
  rewrite Forall_forall in Fu, Fl.
  split; [rewrite Ev; exact Ep|]. split.
  - apply Fu, nth_In. lia.
  - apply Fl, nth_In. lia.
Qed.

Lemma X21_witness :
  let result :=
    calculateVWAP abs
      [mkBar 1000 100 102 98 100 0; mkBar 2000 100 111 100 110 7] in
  let zero := mkLine (Fin 0) (Fin 0) in
  value (nth 0 (vwap result) zero) = NaN /\
  value (nth 1 (upperBand result) zero) = NaN /\
  value (nth 1 (lowerBand result) zero) = NaN.
Proof.
  apply (X21_vwap_zero_volume_first_bar_voids_the_bands abs
           (mkBar 1000 100 102 98 100 0) [mkBar 2000 100 111 100 110 7] 1).
  - reflexivity.
  - reflexivity.
  - simpl. lia.
Defined.

End VWAPMore.

(** ** More on the volume profile *)

Module VolumeProfileMore.
Import VolumeProfile VolumeProfileFacts.

Lemma map_Fin_inj (l1 : list Q) :
  forall l2, map Fin l1 = map Fin l2 -> l1 = l2.
Proof.
  induction l1 as [|x l1 IH]; intros [|y l2] H; cbn in H;
    try discriminate; [reflexivity|].
  injection H as -> H. f_equal. now apply IH.
Qed.

Lemma add_volume_nonneg (vbins : list Bin) :
  forall (k : nat) (v : Q) (vs : list Q) (vbins' : list Bin),
    map volume vbins = map Fin vs -> Forall (Qle 0) vs -> 0 <= v ->
    add_volume vbins k (Fin v) = Some vbins' ->
    exists vs', map volume vbins' = map Fin vs' /\ Forall (Qle 0) vs'.
Proof.
  induction vbins as [|b rest IH]; intros k v vs vbins' Hm Hn Hv E.
  - discriminate E.
  - destruct vs as [|x vs]; [discriminate Hm|].
    cbn [map] in Hm. injection Hm as Hb Hrest.
    inversion Hn as [|? ? Hx Hvs]; subst.
    destruct k as [|k]; cbn [add_volume] in E.
    + injection E as <-. exists (x + v :: vs). split.
      * cbn [map volume]. rewrite Hb, Hrest. reflexivity.
      * constructor; [lra | assumption].
    + destruct (add_volume rest k (Fin v)) as [rest'|] eqn:Er;
        [|discriminate E].
      injection E as <-.
      destruct (IH k v vs rest' Hrest Hvs Hv Er) as (vs' & Hm' & Hn').
      exists (x :: vs'). split.
      * cbn [map]. now rewrite Hb, Hm'.
      * now constructor.
Qed.

Lemma accumulate_nonneg (minPrice binSize : num) (bins : Z)
    (vbins vbins' : list Bin) (vs : list Q) (d : PriceBar) :
  map volume vbins = map Fin vs -> Forall (Qle 0) vs ->
  0 <= Bar.volume d ->
  accumulate minPrice binSize bins vbins d = Returns vbins' ->
  exists vs', map volume vbins' = map Fin vs' /\ Forall (Qle 0) vs'.
Proof.
  intros Hm Hn Hv. unfold accumulate.
  destruct (_ && _).
  - destruct (as_index _) as [k|]; [|discriminate].
    destruct (add_volume vbins k (Fin (Bar.volume d))) as [vb|] eqn:E;
      [|discriminate].
    intro R. injection R as <-.
    now apply (add_volume_nonneg vbins k (Bar.volume d) vs vb).
  - intro R. injection R as <-. now exists vs.
Qed.

Lemma accumulate_all_nonneg (minPrice binSize : num) (bins : Z)
    (priceData : list PriceBar) :
  forall (vbins vbins' : list Bin) (vs : list Q),
    map volume vbins = map Fin vs -> Forall (Qle 0) vs ->
    (forall d, In d priceData -> 0 <= Bar.volume d) ->
    accumulate_all minPrice binSize bins vbins priceData = Returns vbins' ->
    exists vs', map volume vbins' = map Fin vs' /\ Forall (Qle 0) vs'.
Proof.
  induction priceData as [|d rest IH]; intros vbins vbins' vs Hm Hn Hv E.
  - cbn [accumulate_all] in E. injection E as <-. now exists vs.
  - cbn [accumulate_all] in E.
    destruct (accumulate minPrice binSize bins vbins d) as [vb| |] eqn:Ea;
      cbn [bind] in E; try discriminate E.
    destruct (accumulate_nonneg minPrice binSize bins vbins vb vs d Hm Hn)
      as (vs1 & Hm1 & Hn1); [apply Hv; now left | exact Ea |].
    apply (IH vb vbins' vs1 Hm1 Hn1); [|assumption].
    intros d' Hd'. apply Hv. now right.
Qed.

Lemma Forall_repeat_0 (n : nat) : Forall (Qle 0) (repeat 0 n).
Proof. induction n; cbn [repeat]; constructor; [lra | assumption]. Qed.

Lemma binVolumes_nonneg (priceData : list PriceBar) (bins : Z)
    (vbins : list Bin) :
  (forall d, In d priceData -> 0 <= Bar.volume d) ->
  binVolumes priceData bins = Returns vbins ->
  exists vs, map volume vbins = map Fin vs /\ Forall (Qle 0) vs.
Proof.
  intros Hv E. unfold binVolumes in E.
  eapply accumulate_all_nonneg;
    [apply createBins_volumes | apply Forall_repeat_0 | exact Hv | exact E].
Qed.

Lemma Qsum_nonneg (l : list Q) : Forall (Qle 0) l -> 0 <= Qsum l.
Proof.
  unfold Qsum. induction 1; cbn [fold_right]; lra.
Qed.

Lemma Qsum_pos (l : list Q) (x : Q) :
  Forall (Qle 0) l -> In x l -> 0 < x -> 0 < Qsum l.
Proof.
  unfold Qsum. induction 1 as [|y l Hy Hl IH]; intros Hin Hx.
  - destruct Hin.
  - cbn [fold_right]. pose proof (Qsum_nonneg l Hl) as Hs. unfold Qsum in Hs.
    destruct Hin as [-> | Hin]; [lra|].
    specialize (IH Hin Hx). lra.
Qed.

(** The scan for the point of control, on bins of finite volume:
    [pre] holds the volumes already seen, [best] the position of the
    first greatest among them. *)
Lemma poc_from_spec (rest : list Bin) :
  forall (rvs pre : list Q) (best : nat) (bv : Q),
    map volume rest = map Fin rvs ->
    (best < length pre)%nat -> nth best pre 0 = bv ->
    (forall j, (j < length pre)%nat -> nth j pre 0 <= bv) ->
    (forall j, (j < best)%nat -> nth j pre 0 < bv) ->
    let r := poc_from best (Fin bv) (length pre) rest in
    let all := pre ++ rvs in
    (r < length all)%nat /\
    (forall j, (j < length all)%nat -> nth j all 0 <= nth r all 0) /\
    (forall j, (j < r)%nat -> nth j all 0 < nth r all 0).
Proof.
  induction rest as [|b rest IH]; intros rvs pre best bv Hm Hb Hbv Hle Hlt.
  - destruct rvs; [|discriminate Hm]. cbn [poc_from]. cbv zeta.
    rewrite app_nil_r, Hbv. auto.
  - destruct rvs as [|v rvs]; [discriminate Hm|].
    cbn [map] in Hm. injection Hm as Hvb Hrest.
    cbn [poc_from]. rewrite Hvb. unfold gt, lt.
    assert (Hlen : length (pre ++ [v]) = S (length pre))
      by (rewrite length_app; cbn [length]; lia).
    assert (Happ : (pre ++ [v]) ++ rvs = pre ++ v :: rvs)
      by (now rewrite <- app_assoc).
    destruct (Qltb bv v) eqn:E.
    + apply Qltb_true in E.
      pose proof (IH rvs (pre ++ [v]) (length pre) v Hrest) as H.
      rewrite Hlen, Happ in H. apply H.
      * lia.
      * rewrite app_nth2 by lia. now rewrite Nat.sub_diag.
      * intros j Hj.
        destruct (Nat.eq_dec j (length pre)) as [-> | Hne].
        -- rewrite app_nth2 by lia. rewrite Nat.sub_diag. cbn. lra.
        -- rewrite app_nth1 by lia.
           assert (nth j pre 0 <= bv) by (apply Hle; lia). lra.
      * intros j Hj. rewrite app_nth1 by lia.
        assert (nth j pre 0 <= bv) by (apply Hle; lia). lra.
    + apply Qltb_false in E.
      pose proof (IH rvs (pre ++ [v]) best bv Hrest) as H.
      rewrite Hlen, Happ in H. apply H.
      * lia.
      * now rewrite app_nth1 by lia.
      * intros j Hj.
        destruct (Nat.eq_dec j (length pre)) as [-> | Hne].
        -- rewrite app_nth2 by lia. rewrite Nat.sub_diag. cbn. lra.
        -- rewrite app_nth1 by lia. apply Hle. lia.
      * intros j Hj. rewrite app_nth1 by lia. now apply Hlt.
Qed.

Lemma pocIndex_spec (vbins : list Bin) (vs : list Q) :
  map volume vbins = map Fin vs -> vs <> [] ->
  exists poc,
    pocIndex vbins = Returns poc /\
    (poc < length vs)%nat /\
    (forall j, (j < length vs)%nat -> nth j vs 0 <= nth poc vs 0) /\
    (forall j, (j < poc)%nat -> nth j vs 0 < nth poc vs 0).
Proof.
  intros Hm Hne. destruct vs as [|v0 vs]; [congruence|].
  destruct vbins as [|b rest]; [discriminate Hm|].
  cbn [map] in Hm. injection Hm as Hb Hrest.
  cbn [pocIndex]. rewrite Hb. eexists. split; [reflexivity|].
  apply (poc_from_spec rest vs [v0] 0 v0 Hrest).
  - cbn. lia.
  - reflexivity.
  - intros j Hj. cbn [length] in Hj. replace j with 0%nat by lia. cbn. lra.
  - intros j Hj. lia.
Qed.

(** What [drawVolumeProfile] computes on a series whose closes are
    not all equal and whose volumes are not all zero. *)
Lemma draw_moving_series (priceData : list PriceBar) (bins : Z)
    (d1 d2 dv : PriceBar) :
  (1 <= bins)%Z -> In d1 priceData -> In d2 priceData ->
  close d1 < close d2 ->
  (forall d, In d priceData -> 0 <= Bar.volume d) ->
  In dv priceData -> 0 < Bar.volume dv ->
  exists vbins vs M poc,
    map volume vbins = map Fin vs /\
    length vs = Z.to_nat bins /\
    Forall (Qle 0) vs /\
    Qsum vs == Qsum (map Bar.volume priceData) /\
    0 < M /\
    (forall j, (j < length vs)%nat -> nth j vs 0 <= M) /\
    (poc < length vs)%nat /\
    nth poc vs 0 == M /\
    (forall j, (j < poc)%nat -> nth j vs 0 < M) /\
    drawVolumeProfile priceData bins =
    Returns (mkProfile vbins (Fin M)
               (map (fun v => Fin (v / M * (200 - 60))) vs)
               (Fin (400 - (inject_Z (Z.of_nat poc) + 1)
                           * (400 / inject_Z bins)
                     + 400 / inject_Z bins / 2))).
Proof.
  intros Hbins H1 H2 Hlt Hvol Hdv Hpos.
  destruct (volume_conserved_when_closes_differ priceData bins d1 d2
              Hbins H1 H2 Hlt) as (vbins & vs & E & Lb & Hm & Hsum).
  destruct (binVolumes_nonneg priceData bins vbins Hvol E)
    as (vs2 & Hm2 & Hnn).
  assert (vs2 = vs) by (apply map_Fin_inj; congruence). subst vs2.
  assert (Lvs : length vs = Z.to_nat bins).
  { rewrite <- Lb, <- (length_map volume vbins), Hm. now rewrite length_map. }
  assert (Hne : vs <> []) by (intros ->; cbn in Lvs; lia).
  destruct (pocIndex_spec vbins vs Hm Hne) as (poc & Ep & Pl & Pmax & Pfirst).
  assert (Hmax : exists M, max_list (map volume vbins) = Fin M /\
                           Forall (fun x => x <= M) vs /\ In M vs).
  { rewrite Hm. destruct vs as [|v0 vs']; [congruence|].
    cbn [map]. apply max_list_fin. }
  destruct Hmax as (M & EM & FM & IM).
  rewrite Forall_forall in FM.
  assert (Htot : 0 < Qsum vs).
  { rewrite Hsum. apply (Qsum_pos _ (Bar.volume dv)).
    - apply Forall_forall. intros x Hx. apply in_map_iff in Hx.
      destruct Hx as (d & <- & Hd). now apply Hvol.
    - now apply in_map.
    - assumption. }
  assert (HM : 0 < M).
  { destruct (IndicatorsMore.Qsum_bounds 0 M vs) as [_ B].
    - intros x Hx. rewrite Forall_forall in Hnn. split; [now apply Hnn|].
      now apply FM.
    - assert (0 <= inject_Z (Z.of_nat (length vs))).
      { change 0 with (inject_Z 0). rewrite <- Zle_Qle. lia. }
      destruct (Qlt_le_dec 0 M) as [|Hle]; [assumption|]. nra. }
  assert (HpM : nth poc vs 0 == M).
  { apply Qle_antisym.
    - apply FM, nth_In. lia.
    - destruct (In_nth _ _ 0 IM) as (j & Hj & <-). now apply Pmax. }
  exists vbins, vs, M, poc.
  split; [assumption|]. split; [assumption|]. split; [assumption|].
  split; [assumption|]. split; [assumption|].
  split; [intros j Hj; apply FM, nth_In; assumption|].
  split; [assumption|]. split; [assumption|].
  split; [intros j Hj; rewrite <- HpM; now apply Pfirst|].
  unfold drawVolumeProfile. rewrite E. cbn [bind]. rewrite Ep. cbn [bind].
  rewrite EM. unfold canvas_height, canvas_width, of_nat.
  rewrite of_Z_div by lia.
  assert (H2q : ~ 2 == 0) by (intro F; discriminate F).
  rewrite (div_fin _ 2 H2q).
  cbn [add sub neg mul].
  do 2 f_equal.
  rewrite <- (map_map volume
                (fun x => mul (div x (Fin M)) (Fin (200 + - 60)))), Hm, map_map.
  apply map_ext. intro v. rewrite div_fin by lra. reflexivity.
Qed.

(** X22.  On a series with two different closes, no negative volume
    and some positive volume, and with at least one bin, the profile
    is drawn: there are [bins] bins, each with a finite non-negative
    volume, and together they hold the whole volume of the series;
    the scaling maximum is positive and is the volume of a bin, and
    every bar width is a number between 0 and 140. *)
Theorem X22_volume_profile_accounts_for_all_volume :
  forall (priceData : list PriceBar) (bins : Z) (d1 d2 dv : PriceBar),
    (1 <= bins)%Z -> In d1 priceData -> In d2 priceData ->
    close d1 < close d2 ->
    (forall d, In d priceData -> 0 <= Bar.volume d) ->
    In dv priceData -> 0 < Bar.volume dv ->
    exists p vs M ws,
      drawVolumeProfile priceData bins = Returns p /\
      map volume (volumeBins p) = map Fin vs /\
      length vs = Z.to_nat bins /\
      Forall (Qle 0) vs /\
      Qsum vs == Qsum (map Bar.volume priceData) /\
      maxVolume p = Fin M /\ 0 < M /\
      Exists (fun v => v == M) vs /\
      barWidths p = map Fin ws /\
      length ws = Z.to_nat bins /\
      Forall (fun w => 0 <= w /\ w <= 140) ws.
Proof.
  intros priceData bins d1 d2 dv Hbins H1 H2 Hlt Hvol Hdv Hpos.
  destruct (draw_moving_series priceData bins d1 d2 dv
              Hbins H1 H2 Hlt Hvol Hdv Hpos)
    as (vbins & vs & M & poc & Hm & Lvs & Hnn & Hsum & HM & Hle & Pl & HpM
        & _ & E).
  eexists _, vs, M, (map (fun v => v / M * (200 - 60)) vs).
  split; [exact E|]. cbn [volumeBins maxVolume barWidths].
  split; [assumption|]. split; [assumption|]. split; [assumption|].
  split; [assumption|]. split; [reflexivity|]. split; [assumption|].
  split; [apply Exists_exists; exists (nth poc vs 0);
          split; [apply nth_In; assumption | assumption]|].
  split; [now rewrite map_map|]. split; [now rewrite length_map|].
  apply Forall_forall. intros w Hw. apply in_map_iff in Hw.
  destruct Hw as (v & <- & Hv).
  rewrite Forall_forall in Hnn. pose proof (Hnn v Hv) as V0.
  destruct (In_nth _ _ 0 Hv) as (j & Hj & Ej).
  pose proof (Hle j Hj) as V1. rewrite Ej in V1.
  assert (Q0 : 0 <= v / M) by (apply Qle_shift_div_l; lra).
  assert (Q1 : v / M <= 1) by (apply Qle_shift_div_r; lra).
  split; lra.
Qed.

Lemma X22_witness :
  exists p vs M ws,
    drawVolumeProfile
      [mkBar 1000 100 102 98 100 5; mkBar 2000 100 111 100 110 7] 2
    = Returns p /\
    map volume (volumeBins p) = map Fin vs /\
    length vs = Z.to_nat 2 /\
    Forall (Qle 0) vs /\
    Qsum vs ==
    Qsum (map Bar.volume
            [mkBar 1000 100 102 98 100 5; mkBar 2000 100 111 100 110 7]) /\
    maxVolume p = Fin M /\ 0 < M /\
    Exists (fun v => v == M) vs /\
    barWidths p = map Fin ws /\
    length ws = Z.to_nat 2 /\
    Forall (fun w => 0 <= w /\ w <= 140) ws.
Proof.
  apply (X22_volume_profile_accounts_for_all_volume
           [mkBar 1000 100 102 98 100 5; mkBar 2000 100 111 100 110 7] 2
           (mkBar 1000 100 102 98 100 5) (mkBar 2000 100 111 100 110 7)
           (mkBar 1000 100 102 98 100 5)).
  - lia.
  - simpl. now left.
  - simpl. right. now left.
  - reflexivity.
  - intros d [<- | [<- | []]]; discriminate.
  - simpl. now left.
  - reflexivity.
Defined.

(** X23.  Under the same conditions the point of control is the first
    bin of greatest volume: its volume is the scaling maximum and
    every bin before it holds strictly less.  The line drawn for it
    lies at [400 - (poc + 1) * barHeight + barHeight / 2] with
    [barHeight = 400 / bins], strictly inside the canvas. *)
Theorem X23_point_of_control_is_first_bin_of_greatest_volume :
  forall (priceData : list PriceBar) (bins : Z) (d1 d2 dv : PriceBar),
    (1 <= bins)%Z -> In d1 priceData -> In d2 priceData ->
    close d1 < close d2 ->
    (forall d, In d priceData -> 0 <= Bar.volume d) ->
    In dv priceData -> 0 < Bar.volume dv ->
    exists p vs M poc y,
      drawVolumeProfile priceData bins = Returns p /\
      map volume (volumeBins p) = map Fin vs /\
      maxVolume p = Fin M /\
      pocIndex (volumeBins p) = Returns poc /\
      (Z.of_nat poc < bins)%Z /\
      nth poc vs 0 == M /\
      (forall j, (j < length vs)%nat -> nth j vs 0 <= M) /\
      (forall j, (j < poc)%nat -> nth j vs 0 < M) /\
      pocY p = Fin y /\
      y == 400 - (inject_Z (Z.of_nat poc) + 1) * (400 / inject_Z bins)
           + 400 / inject_Z bins / 2 /\
      0 < y /\ y < 400.
Proof.
  intros priceData bins d1 d2 dv Hbins H1 H2 Hlt Hvol Hdv Hpos.
  destruct (draw_moving_series priceData bins d1 d2 dv
              Hbins H1 H2 Hlt Hvol Hdv Hpos)
    as (vbins & vs & M & poc & Hm & Lvs & Hnn & Hsum & HM & Hle & Pl & HpM
        & Pfirst & E).
  destruct (pocIndex_spec vbins vs Hm) as (poc' & Ep & Pl' & Pmax' & Pfirst');
    [intros ->; cbn in Pl; lia|].
  assert (poc' = poc).
  { destruct (Nat.lt_trichotomy poc' poc) as [L | [Eq | L]]; [|assumption|].
    - exfalso. pose proof (Pfirst poc' L). pose proof (Pmax' poc Pl). lra.
    - exfalso. pose proof (Pfirst' poc L).
      pose proof (Hle poc' Pl'). lra. }
  subst poc'.
  eexists _, vs, M, poc, _.
  split; [exact E|]. cbn [volumeBins maxVolume pocY].
  split; [assumption|]. split; [reflexivity|]. split; [assumption|].
  split; [lia|]. split; [assumption|]. split; [assumption|].
  split; [assumption|]. split; [reflexivity|].
  assert (Hb : 0 < inject_Z bins).
  { change 0 with (inject_Z 0). rewrite <- Zlt_Qlt. lia. }
  assert (Hp0 : 0 <= inject_Z (Z.of_nat poc)).
  { change 0 with (inject_Z 0). rewrite <- Zle_Qle. lia. }
  assert (Hp1 : inject_Z (Z.of_nat poc) + 1 <= inject_Z bins).
  { change 1 with (inject_Z 1). rewrite <- inject_Z_plus, <- Zle_Qle. lia. }
  set (h := 400 / inject_Z bins).
  assert (Hh : 0 < h) by (apply Qlt_shift_div_l; lra).
  assert (Hhb : h * inject_Z bins == 400) by (unfold h; field; lra).
  set (q := inject_Z (Z.of_nat poc)) in *.
  assert (Hy : 400 - (q + 1) * h + h / 2 == 400 - (q + (1 # 2)) * h)
    by field.
  split; [reflexivity|]. rewrite Hy.
  assert (Hqh : (q + 1) * h <= 400) by nra.
  split; nra.
Qed.

Lemma X23_witness :
  exists p vs M poc y,
    drawVolumeProfile
      [mkBar 1000 100 102 98 100 5; mkBar 2000 100 111 100 110 7] 2
    = Returns p /\
    map volume (volumeBins p) = map Fin vs /\
    maxVolume p = Fin M /\
    pocIndex (volumeBins p) = Returns poc /\
    (Z.of_nat poc < 2)%Z /\
    nth poc vs 0 == M /\
    (forall j, (j < length vs)%nat -> nth j vs 0 <= M) /\
    (forall j, (j < poc)%nat -> nth j vs 0 < M) /\
    pocY p = Fin y /\
    y == 400 - (inject_Z (Z.of_nat poc) + 1) * (400 / inject_Z 2)
         + 400 / inject_Z 2 / 2 /\
    0 < y /\ y < 400.
Proof.
  apply (X23_point_of_control_is_first_bin_of_greatest_volume
           [mkBar 1000 100 102 98 100 5; mkBar 2000 100 111 100 110 7] 2
           (mkBar 1000 100 102 98 100 5) (mkBar 2000 100 111 100 110 7)
           (mkBar 2000 100 111 100 110 7)).
  - lia.
  - simpl. now left.
  - simpl. right. now left.
  - reflexivity.
  - intros d [<- | [<- | []]]; discriminate.
  - simpl. right. now left.
  - reflexivity.
Defined.

End VolumeProfileMore.

(** ** The chart grid and the effects of the charts *)

Module GridFacts.
Import Grid.

Lemma ChartType_eqb_eq (a b : ChartType) : ChartType_eqb a b = true <-> a = b.
Proof. destruct a, b; cbn; split; intro H; congruence. Qed.

Lemma ChartType_eqb_sym (a b : ChartType) :
  ChartType_eqb a b = ChartType_eqb b a.
Proof. now destruct a, b. Qed.

Lemma isActive_In (l : list ChartType) (c : ChartType) :
  isActive l c = true <-> In c l.
Proof.
  unfold isActive. rewrite existsb_exists. split.
  - intros (x & Hx & E). apply ChartType_eqb_eq in E. now subst.
  - intro H. exists c. split; [assumption|]. now apply ChartType_eqb_eq.
Qed.

Lemma isActive_app (l1 l2 : list ChartType) (c : ChartType) :
  isActive (l1 ++ l2) c = isActive l1 c || isActive l2 c.
Proof. apply existsb_app. Qed.

Lemma isActive_filter_out (l : list ChartType) (c t : ChartType) :
  isActive (filter (fun x => negb (ChartType_eqb x t)) l) c
  = isActive l c && negb (ChartType_eqb c t).
Proof.
  unfold isActive. induction l as [|x l IH]; [reflexivity|].
  cbn [filter existsb].
  destruct (ChartType_eqb x t) eqn:Ext; cbn [negb existsb]; rewrite IH.
  - apply ChartType_eqb_eq in Ext. subst x.
    now destruct (ChartType_eqb c t), (existsb (ChartType_eqb c) l).
  - destruct (ChartType_eqb c x) eqn:Ecx.
    + apply ChartType_eqb_eq in Ecx. subst x. rewrite Ext.
      now destruct (existsb (ChartType_eqb c) l).
    + reflexivity.
Qed.

(** One click flips the clicked chart and leaves the others. *)
Lemma toggleChart_isActive (l : list ChartType) (t c : ChartType) :
  isActive (toggleChart l t) c = xorb (isActive l c) (ChartType_eqb c t).
Proof.
  unfold toggleChart. fold (isActive l t).
  destruct (isActive l t) eqn:Et.
  - rewrite isActive_filter_out.
    destruct (ChartType_eqb c t) eqn:Ec.
    + apply ChartType_eqb_eq in Ec. subst c. rewrite Et. reflexivity.
    + cbn. now rewrite andb_true_r, xorb_false_r.
  - rewrite isActive_app. cbn [isActive existsb]. rewrite orb_false_r.
    destruct (ChartType_eqb c t) eqn:Ec.
    + apply ChartType_eqb_eq in Ec. subst c. rewrite Et. reflexivity.
    + now rewrite orb_false_r, xorb_false_r.
Qed.

Lemma toggleChart_NoDup (l : list ChartType) (t : ChartType) :
  NoDup l -> NoDup (toggleChart l t).
Proof.
  intro H. unfold toggleChart. fold (isActive l t).
  destruct (isActive l t) eqn:Et.
  - now apply NoDup_filter.
  - apply NoDup_app; [assumption | repeat constructor; intros [] |].
    intros x Hx [<- | []]. apply isActive_In in Hx. congruence.
Qed.

Lemma presses_from (presses : list ChartType) :
  forall (l : list ChartType) (c : ChartType),
    NoDup l ->
    NoDup (fold_left toggleChart presses l) /\
    isActive (fold_left toggleChart presses l) c
    = xorb (isActive l c) (Nat.odd (pressCount c presses)).
Proof.
  induction presses as [|t presses IH]; intros l c Hl.
  - cbn [fold_left]. split; [assumption|].
    cbn. now rewrite xorb_false_r.
  - cbn [fold_left].
    destruct (IH (toggleChart l t) c (toggleChart_NoDup l t Hl)) as [N E].
    split; [assumption|]. rewrite E, toggleChart_isActive.
    unfold pressCount. cbn [filter].
    destruct (ChartType_eqb c t); cbn [length].
    + rewrite Nat.odd_succ, <- Nat.negb_odd.
      now destruct (isActive l c), (Nat.odd _).
    + now rewrite xorb_false_r.
Qed.

(** X24.  Whatever buttons are clicked, in whatever order, the list of
    active charts never holds a chart twice, so it has at most five
    entries, and a chart is active exactly when it was clicked an odd
    number of times, if it is not one of the two charts shown at the
    start, or an even number of times, if it is. *)
Theorem X24_active_charts_follow_the_parity_of_clicks :
  forall (presses : list ChartType) (c : ChartType),
    let active := afterPresses presses in
    NoDup active /\
    (length active <= 5)%nat /\
    (In c active <->
     xorb (isActive initialCharts c) (Nat.odd (pressCount c presses)) = true).
Proof.
  intros presses c active.
  assert (H0 : NoDup initialCharts).
  { unfold initialCharts. repeat constructor; cbn; intuition discriminate. }
  destruct (presses_from presses initialCharts c H0) as [N E].
  fold (afterPresses presses) in N, E. fold active in N, E.
  split; [assumption|]. split.
  - apply (NoDup_incl_length (l' := [renko; heikinashi; pointfigure;
                                     volumeprofile; vwap]) N).
    intros x _. destruct x; cbn; tauto.
  - rewrite <- E. symmetry. apply isActive_In.
Qed.

Lemma closes_flat_or_not (l : list PriceBar) :
  l <> [] ->
  (exists c, Forall (fun d => close d == c) l) \/
  (exists d1 d2, In d1 l /\ In d2 l /\ close d1 < close d2).
Proof.
  induction l as [|x l IH]; intro Hne; [congruence|].
  destruct l as [|y l].
  - left. exists (close x). constructor; [reflexivity | constructor].
  - destruct IH as [(c & F) | (d1 & d2 & I1 & I2 & L)]; [discriminate | |].
    + inversion F as [|? ? Hy _]; subst.
      destruct (Q_dec (close x) c) as [[Lt | Gt] | Eq].
      * right. exists x, y. split; [now left|]. split; [right; now left|].
        rewrite Hy. exact Lt.
      * right. exists y, x. split; [right; now left|]. split; [now left|].
        rewrite Hy. exact Gt.
      * left. exists c. now constructor.
    + right. exists d1, d2. split; [now right|]. split; [now right | exact L].
Qed.

(** With at least one bin, a series with a bar is always drawn. *)
Lemma drawVolumeProfile_returns (priceData : list PriceBar) (bins : Z) :
  (1 <= bins)%Z -> priceData <> [] ->
  exists p,
    VolumeProfile.drawVolumeProfile priceData bins = Returns p /\
    length (VolumeProfile.volumeBins p) = Z.to_nat bins /\
    length (VolumeProfile.barWidths p) = Z.to_nat bins.
Proof.
  intros Hb Hne.
  assert (H : exists vbins,
             VolumeProfile.binVolumes priceData bins = Returns vbins /\
             length vbins = Z.to_nat bins).
  { destruct (closes_flat_or_not priceData Hne)
      as [(c & F) | (d1 & d2 & I1 & I2 & L)].
    - destruct (VolumeProfileFacts.flat_series_counts_nothing
                  priceData bins c Hne F Hb) as (vbins & E & Len & _).
      now exists vbins.
    - destruct (VolumeProfileFacts.volume_conserved_when_closes_differ
                  priceData bins d1 d2 Hb I1 I2 L)
        as (vbins & vs & E & Len & _).
      now exists vbins. }
  destruct H as (vbins & E & Len).
  unfold VolumeProfile.drawVolumeProfile. rewrite E. cbn [bind].
  destruct vbins as [|b rest]; [cbn in Len; lia|].
  cbn [VolumeProfile.pocIndex bind].
  eexists. split; [reflexivity|].
  cbn [VolumeProfile.volumeBins VolumeProfile.barWidths].
  rewrite length_map. now split.
Qed.

(** X25.  The effect of the volume-profile chart with at least one
    bin (the grid asks for 30): without data nothing is computed;
    with data the candles are one per cleaned bar and the profile is
    always drawn, with [numBins] bins and bar widths: reading a bin
    never fails, flat series included. *)
Theorem X25_volume_profile_effect_always_draws :
  forall (data : list PriceBar) (numBins : Z),
    (1 <= numBins)%Z ->
    match ChartEffect.volumeProfileChart data numBins with
    | None => data = []
    | Some (candles, drawn) =>
        data <> [] /\
        length candles = length (sortAndDeduplicateData data) /\
        exists p,
          drawn = Returns p /\
          length (VolumeProfile.volumeBins p) = Z.to_nat numBins /\
          length (VolumeProfile.barWidths p) = Z.to_nat numBins
    end.
Proof.
  intros data nb Hb. unfold ChartEffect.volumeProfileChart.
  destruct data as [|d0 ds]; [reflexivity|].
  rewrite NormalizerMore.cleanData_sortAndDeduplicateData.
  split; [discriminate|]. split.
  - unfold ChartEffect.candleData. apply length_map.
  - apply drawVolumeProfile_returns; [assumption|].
    apply NormalizerFacts.sortAndDeduplicateData_nonempty. discriminate.
Qed.

Lemma X25_witness :
  match
    ChartEffect.volumeProfileChart
      [mkBar 2000 100 111 100 110 7; mkBar 1000 100 102 98 100 5] numBins
  with
  | None =>
      [mkBar 2000 100 111 100 110 7; mkBar 1000 100 102 98 100 5] = []
  | Some (candles, drawn) =>
      [mkBar 2000 100 111 100 110 7; mkBar 1000 100 102 98 100 5] <> [] /\
      length candles =
      length (sortAndDeduplicateData
                [mkBar 2000 100 111 100 110 7; mkBar 1000 100 102 98 100 5]) /\
      exists p,
        drawn = Returns p /\
        length (VolumeProfile.volumeBins p) = Z.to_nat numBins /\
        length (VolumeProfile.barWidths p) = Z.to_nat numBins
  end.
Proof.
  apply (X25_volume_profile_effect_always_draws
           [mkBar 2000 100 111 100 110 7; mkBar 1000 100 102 98 100 5]
           numBins).
  unfold numBins. lia.
Defined.

Lemma vwap_times (Math_sqrt : num -> num) (bars : list PriceBar) :
  forall a : VWAP.acc,
    let r := VWAP.out (fold_left (VWAP.step Math_sqrt) bars a) in
    map VWAP.time (VWAP.vwap r)
    = map VWAP.time (VWAP.vwap (VWAP.out a)) ++ map ChartEffect.seconds bars /\
    map VWAP.time (VWAP.upperBand r)
    = map VWAP.time (VWAP.upperBand (VWAP.out a))
      ++ map ChartEffect.seconds bars /\
    map VWAP.time (VWAP.lowerBand r)
    = map VWAP.time (VWAP.lowerBand (VWAP.out a))
      ++ map ChartEffect.seconds bars.
Proof.
  induction bars as [|d rest IH]; intro a.
  - cbn [fold_left map]. now rewrite !app_nil_r.
  - cbn [fold_left]. destruct (IH (VWAP.step Math_sqrt a d)) as (E1 & E2 & E3).
    cbv zeta. rewrite E1, E2, E3.
    assert (S1 : map VWAP.time (VWAP.vwap (VWAP.out (VWAP.step Math_sqrt a d)))
                 = map VWAP.time (VWAP.vwap (VWAP.out a))
                   ++ [ChartEffect.seconds d]).
    { unfold VWAP.step. cbv zeta. cbn [VWAP.out VWAP.vwap].
      now rewrite map_app. }
    assert (S2 : map VWAP.time
                   (VWAP.upperBand (VWAP.out (VWAP.step Math_sqrt a d)))
                 = map VWAP.time (VWAP.upperBand (VWAP.out a))
                   ++ [ChartEffect.seconds d]).
    { unfold VWAP.step. cbv zeta. cbn [VWAP.out VWAP.upperBand].
      now rewrite map_app. }
    assert (S3 : map VWAP.time
                   (VWAP.lowerBand (VWAP.out (VWAP.step Math_sqrt a d)))
                 = map VWAP.time (VWAP.lowerBand (VWAP.out a))
                   ++ [ChartEffect.seconds d]).
    { unfold VWAP.step. cbv zeta. cbn [VWAP.out VWAP.lowerBand].
      now rewrite map_app. }
    rewrite S1, S2, S3, <- !app_assoc. cbn [map app].
    split; [reflexivity|]. split; reflexivity.
Qed.

Lemma ascending_seconds (l : list PriceBar) :
  StronglySorted Z.lt (map date l) ->
  StronglySorted Qlt (map (fun d => inject_Z (date d) / 1000) l).
Proof.
  induction l as [|x l IH]; intro H; cbn [map] in *; [constructor|].
  inversion H as [|? ? Hs Hall]; subst.
  constructor; [now apply IH|].
  rewrite Forall_forall in *. intros q Hq.
  apply in_map_iff in Hq. destruct Hq as (d & <- & Hd).
  assert (L : (date x < date d)%Z) by (apply Hall; now apply in_map).
  apply Qmult_lt_r; [reflexivity|]. now rewrite <- Zlt_Qlt.
Qed.

(** X26.  The effect of the VWAP chart: without data nothing is
    computed; with data the candles and the points of the three lines
    are one per cleaned bar and carry the same times, the bar's date
    in seconds, and these times ascend strictly, as the chart library
    requires of a series. *)
Theorem X26_vwap_effect_series_share_ascending_times :
  forall (Math_sqrt : num -> num) (data : list PriceBar),
    match ChartEffect.vwapChart Math_sqrt data with
    | None => data = []
    | Some (candles, result) =>
        data <> [] /\
        exists ts,
          ts = map (fun d => inject_Z (date d) / 1000)
                   (sortAndDeduplicateData data) /\
          StronglySorted Qlt ts /\
          map Candle.time candles = map Fin ts /\
          map VWAP.time (VWAP.vwap result) = map Fin ts /\
          map VWAP.time (VWAP.upperBand result) = map Fin ts /\
          map VWAP.time (VWAP.lowerBand result) = map Fin ts
    end.
Proof.
  intros Math_sqrt data. unfold ChartEffect.vwapChart.
  destruct data as [|d0 ds]; [reflexivity|].
  rewrite NormalizerMore.cleanData_sortAndDeduplicateData.
  set (clean := sortAndDeduplicateData (d0 :: ds)).
  split; [discriminate|].
  exists (map (fun d => inject_Z (date d) / 1000) clean).
  split; [reflexivity|]. split.
  - apply ascending_seconds.
    apply (NormalizerFacts.sortAndDeduplicateData_spec (d0 :: ds)).
  - assert (Hsec : map ChartEffect.seconds clean
                   = map Fin (map (fun d => inject_Z (date d) / 1000) clean)).
    { rewrite map_map. apply map_ext. intro d.
      apply NormalizerMore.seconds_fin. }
    split.
    + unfold ChartEffect.candleData. rewrite map_map. exact Hsec.
    + unfold VWAP.calculateVWAP.
      destruct (vwap_times Math_sqrt clean
                  (VWAP.mkAcc (Fin 0) (Fin 0) (Fin 0)
                     (VWAP.mkResult [] [] []))) as (E1 & E2 & E3).
      cbv zeta in E1, E2, E3. rewrite E1, E2, E3. cbn [VWAP.out
        VWAP.vwap VWAP.upperBand VWAP.lowerBand map app].
      now rewrite Hsec.
Qed.

End GridFacts.

(** ** The Renko builder in doubles *)

Module RenkoDFacts.
Import Double DoubleFacts.

Lemma fadd_fin (a b : Q) : fadd (Fin a) (Fin b) = Fin (round64 (a + b)).
Proof. reflexivity. Qed.

Lemma fsub_fin (a b : Q) : fsub (Fin a) (Fin b) = Fin (round64 (a - b)).
Proof. reflexivity. Qed.

Lemma fmul_fin (a b : Q) : fmul (Fin a) (Fin b) = Fin (round64 (a * b)).
Proof. reflexivity. Qed.

Lemma fdiv_fin (a b : Q) : ~ b == 0 ->
  fdiv (Fin a) (Fin b) = Fin (round64 (a / b)).
Proof. intro H. unfold fdiv. now rewrite div_fin. Qed.

Lemma round64_fixed_mul_1 (b : Q) : round64 b == b -> round64 (1 * b) == b.
Proof.
  intro H. rewrite (round64_proper (1 * b) b) by ring. exact H.
Qed.

Lemma round64_fixed_mul_m1 (b : Q) : round64 b == b -> round64 (-1 * b) == - b.
Proof.
  intro H. rewrite (round64_proper (-1 * b) (- b)) by ring.
  now rewrite round64_opp, H.
Qed.

(** *** Every series: the bricks are chained and one rounding away
    from uniform *)

Lemma emit_shape (n : nat) :
  forall (j : nat) (dir B : Q) (bt : num) (c : Q) (acc : list Candle.t),
    dir = 1 \/ dir = -1 -> round64 B == B ->
    exists c' new,
      RenkoD.emit n j (Fin dir) (Fin B) bt (Fin c) acc = (Fin c', acc ++ new) /\
      length new = n /\
      Forall (RenkoD.rounded_brick B) new /\
      Renko.linked (Fin c) new /\
      Renko.end_price (Fin c) new = Fin c'.
Proof.
  induction n as [|n IH]; intros j dir B bt c acc Hdir HB.
  - exists c, []. cbn. rewrite app_nil_r. repeat split. constructor.
  - cbn [RenkoD.emit]. rewrite fmul_fin, fadd_fin.
    set (c1 := round64 (c + round64 (dir * B))).
    destruct (IH (S j) dir B bt c1
                (acc ++ [Candle.mk (fadd bt (of_nat j)) (Fin c)
                           (max (Fin c) (Fin c1)) (min (Fin c) (Fin c1))
                           (Fin c1)]) Hdir HB)
      as (c' & new & E & Hlen & Hall & Hlink & Hend).
    exists c', (Candle.mk (fadd bt (of_nat j)) (Fin c)
                  (max (Fin c) (Fin c1)) (min (Fin c) (Fin c1)) (Fin c1)
                :: new).
    split; [rewrite E, <- app_assoc; reflexivity|].
    split; [cbn [length]; now rewrite Hlen|].
    split; [|cbn [Renko.linked Renko.end_price Candle.open Candle.close];
             auto].
    constructor; [|assumption].
    destruct (RenkoFacts.max_fin c c1) as (h & Eh & Hh).
    destruct (RenkoFacts.min_fin c c1) as (l & El & Hl).
    exists c, c1, h, l.
    cbn [Candle.open Candle.close Candle.high Candle.low].
    split; [reflexivity|]. split; [reflexivity|].
    split; [assumption|]. split; [assumption|].
    split; [|split; assumption].
    unfold c1. destruct Hdir as [-> | ->].
    + left. apply round64_compat. rewrite (round64_fixed_mul_1 B HB). reflexivity.
    + right. apply round64_compat. rewrite (round64_fixed_mul_m1 B HB). ring.
Qed.

Lemma rounded_nearly_unit (B : Q) (b : Candle.t) :
  0 < B -> RenkoD.rounded_brick B b -> RenkoD.nearly_unit_brick B b.
Proof.
  intros HB (o & c & h & l & Eo & Ec & _ & _ & Hc & _).
  exists o, c. split; [assumption|]. split; [assumption|].
  pose proof u_small as [U0 U1].
  pose proof (Qabs_nonneg o) as Ho.
  assert (T1 : Qabs (o + B) <= Qabs o + B).
  { apply Qabs_Qle_condition. pose proof (Qle_Qabs o).
    pose proof (Qle_Qabs (- o)). rewrite Qabs_opp in H0. split; lra. }
  assert (T2 : Qabs (o - B) <= Qabs o + B).
  { apply Qabs_Qle_condition. pose proof (Qle_Qabs o).
    pose proof (Qle_Qabs (- o)). rewrite Qabs_opp in H0. split; lra. }
  destruct Hc as [Hc | Hc].
  - pose proof (round64_error (o + B)) as Er. rewrite <- Hc in Er.
    fold u in Er. apply Qabs_Qle_condition in Er. destruct Er as [E1 E2].
    assert (S1 : Qabs (o + B) * u <= (Qabs o + B) * u) by nra.
    apply Qabs_Qle_condition.
    destruct (Qabs_case (c - o)
                (fun a => - ((Qabs o + B) * u) <= a - B /\
                          a - B <= (Qabs o + B) * u)) as [L R].
    + intro H. split; lra.
    + intro H. split; lra.
    + split; assumption.
  - pose proof (round64_error (o - B)) as Er. rewrite <- Hc in Er.
    fold u in Er. apply Qabs_Qle_condition in Er. destruct Er as [E1 E2].
    assert (S1 : Qabs (o - B) * u <= (Qabs o + B) * u) by nra.
    apply Qabs_Qle_condition.
    destruct (Qabs_case (c - o)
                (fun a => - ((Qabs o + B) * u) <= a - B /\
                          a - B <= (Qabs o + B) * u)) as [L R].
    + intro H. split; lra.
    + intro H. split; lra.
    + split; assumption.
Qed.

Lemma step_chain (B : Q) (start : num) (st : Renko.state) (p : Q) :
  0 < B -> round64 B == B -> RenkoD.chain_inv B start st ->
  exists st',
    RenkoD.step (Fin B) st (Fin p) = Returns st' /\
    RenkoD.chain_inv B start st' /\
    exists more, Renko.bricks st' = Renko.bricks st ++ more.
Proof.
  intros HB HBr ((c & Hc) & Hall & Hlink & Hend).
  destruct st as [cur bt l]. cbn in Hc, Hall, Hlink, Hend. subst cur.
  unfold RenkoD.step.
  cbn [Renko.currentBrickPrice Renko.brickTime Renko.bricks].
  rewrite fsub_fin. cbn [abs]. rewrite fdiv_fin by lra. cbn [floor gt lt].
  set (d := round64 (p - c)).
  set (n := Qfloor (round64 (Qabs d / B))).
  destruct (Qltb 0 (inject_Z n)).
  - cbn [turns bind]. rewrite Qceiling_Z.
    assert (Hdir : exists dir, (if Qltb 0 d then Fin 1 else Fin (-1)) = Fin dir
                               /\ (dir = 1 \/ dir = -1)).
    { destruct (Qltb 0 d); eexists; split; try reflexivity; auto. }
    destruct Hdir as (dir & -> & Hdir).
    destruct (emit_shape (Z.to_nat n) 0 dir B bt c l Hdir HBr)
      as (c' & new & -> & _ & Hnew & Hl & He).
    eexists. split; [reflexivity|]. split; [|exists new; reflexivity].
    rewrite <- Hend in Hl.
    destruct (RenkoFacts.linked_app l start new Hlink Hl) as [A1 A2].
    unfold RenkoD.chain_inv.
    cbn [Renko.currentBrickPrice Renko.bricks].
    split; [now exists c'|]. split; [apply Forall_app; now split|].
    split; [assumption|]. rewrite A2, Hend. exact He.
  - exists (Renko.mkState (Fin c) bt l). split; [reflexivity|].
    split; [|exists []; now rewrite app_nil_r].
    unfold RenkoD.chain_inv. cbn. split; [now exists c|]. auto.
Qed.

Lemma loop_chain (B : Q) (start : num) (data : list PriceBar) :
  0 < B -> round64 B == B ->
  forall st, RenkoD.chain_inv B start st ->
  exists st',
    RenkoD.loop (Fin B) st data = Returns st' /\
    RenkoD.chain_inv B start st' /\
    exists more, Renko.bricks st' = Renko.bricks st ++ more.
Proof.
  intros HB HBr. induction data as [|d rest IH]; intros st Hinv;
    cbn [RenkoD.loop].
  - exists st. split; [reflexivity|]. split; [assumption|].
    exists []. now rewrite app_nil_r.
  - unfold dbl.
    destruct (step_chain B start st (round64 (close d)) HB HBr Hinv)
      as (st1 & -> & Hinv1 & (m1 & E1)).
    cbn [bind]. destruct (IH st1 Hinv1) as (st' & E & Hinv' & (m2 & E2)).
    exists st'. split; [assumption|]. split; [assumption|].
    exists (m1 ++ m2). now rewrite E2, E1, app_assoc.
Qed.


(** The run on a cleaned series that is not empty. *)
Lemma run_chain (B : Q) (first : PriceBar) (rest : list PriceBar) :
  0 < B -> round64 B == B ->
  exists c0 st,
    RenkoD.init (Fin B) (first :: rest) =
      Returns (Renko.mkState (Fin c0)
                 (fdiv (dbl (inject_Z (date first))) (Fin 1000)) []) /\
    RenkoD.loop (Fin B)
      (Renko.mkState (Fin c0)
         (fdiv (dbl (inject_Z (date first))) (Fin 1000)) [])
      (first :: rest) = Returns st /\
    RenkoD.run (Fin B) (first :: rest) = Returns (Renko.bricks st) /\
    RenkoD.chain_inv B (Fin c0) st.
Proof.
  intros HB HBr.
  assert (Hinit : exists c0,
             RenkoD.init (Fin B) (first :: rest) =
             Returns (Renko.mkState (Fin c0)
                        (fdiv (dbl (inject_Z (date first))) (Fin 1000)) [])).
  { cbn [RenkoD.init]. unfold dbl at 1. rewrite fdiv_fin by lra.
    cbn [floor]. rewrite fmul_fin. eexists. reflexivity. }
  destruct Hinit as (c0 & Hinit).
  destruct (loop_chain B (Fin c0) (first :: rest) HB HBr
              (Renko.mkState (Fin c0)
                 (fdiv (dbl (inject_Z (date first))) (Fin 1000)) []))
    as (st & Hloop & Hinv & _).
  { unfold RenkoD.chain_inv. cbn. split; [now exists c0|]. auto. }
  exists c0, st. split; [assumption|]. split; [assumption|].
  split; [|assumption].
  unfold RenkoD.run. rewrite Hinit. cbn [bind]. rewrite Hloop. reflexivity.
Qed.

(** *** Whole numbers: the doubles are exact *)

Lemma same_num_refl_fin (a b : Q) : a == b -> same_num (Fin a) (Fin b).
Proof. intro H. exact H. Qed.

Lemma max_same (a a' b b' : Q) :
  a == a' -> b == b' -> same_num (max (Fin a) (Fin b)) (max (Fin a') (Fin b')).
Proof.
  intros Ha Hb. unfold max, le.
  assert (E : Qle_bool a b = Qle_bool a' b').
  { destruct (Qle_bool a b) eqn:E1; destruct (Qle_bool a' b') eqn:E2;
      try reflexivity.
    - apply Qle_bool_iff in E1. apply Qle_bool_false in E2. lra.
    - apply Qle_bool_iff in E2. apply Qle_bool_false in E1. lra. }
  rewrite E. destruct (Qle_bool a' b'); assumption.
Qed.

Lemma min_same (a a' b b' : Q) :
  a == a' -> b == b' -> same_num (min (Fin a) (Fin b)) (min (Fin a') (Fin b')).
Proof.
  intros Ha Hb. unfold min, le.
  assert (E : Qle_bool a b = Qle_bool a' b').
  { destruct (Qle_bool a b) eqn:E1; destruct (Qle_bool a' b') eqn:E2;
      try reflexivity.
    - apply Qle_bool_iff in E1. apply Qle_bool_false in E2. lra.
    - apply Qle_bool_iff in E2. apply Qle_bool_false in E1. lra. }
  rewrite E. destruct (Qle_bool a' b'); assumption.
Qed.

Lemma Qltb_compat (a a' b b' : Q) : a == a' -> b == b' -> Qltb a b = Qltb a' b'.
Proof.
  intros Ha Hb.
  destruct (Qltb a b) eqn:E1; destruct (Qltb a' b') eqn:E2; try reflexivity.
  - apply Qltb_true in E1. apply Qltb_false in E2. lra.
  - apply Qltb_true in E2. apply Qltb_false in E1. lra.
Qed.

Lemma round64_whole (x : Q) (z : Z) :
  x == inject_Z z -> (Z.abs z <= 2 ^ 53)%Z -> round64 x == inject_Z z.
Proof.
  intros E H. rewrite (round64_proper x (inject_Z z) E). now apply round64_Z.
Qed.

(** The inner loop, in doubles and in exact arithmetic, from the
    whole price [k] with the whole brick size [B]. *)
Lemma emit_sim (n : nat) :
  forall (j : nat) (dir B k : Z) (bd be : Q) (btd bte : num) (cd ce : Q)
         (accd acce : list Candle.t),
    (dir = 1 \/ dir = -1)%Z -> (0 < B <= 2 ^ 52)%Z ->
    bd == inject_Z B -> be == inject_Z B ->
    cd == inject_Z k -> ce == inject_Z k ->
    (forall i, (i <= n)%nat ->
       (Z.abs (k + dir * Z.of_nat i * B) <= 2 ^ 53)%Z) ->
    Forall2 RenkoD.same_prices accd acce ->
    exists cd' ce' accd' acce',
      RenkoD.emit n j (Fin (inject_Z dir)) (Fin bd) btd (Fin cd) accd
      = (Fin cd', accd') /\
      Renko.emit n j (Fin (inject_Z dir)) (Fin be) bte (Fin ce) acce
      = (Fin ce', acce') /\
      cd' == inject_Z (k + dir * Z.of_nat n * B) /\
      ce' == inject_Z (k + dir * Z.of_nat n * B) /\
      Forall2 RenkoD.same_prices accd' acce'.
Proof.
  induction n as [|n IH];
    intros j dir B k bd be btd bte cd ce accd acce Hdir HB Ebd Ebe Ecd Ece
           Hbound Hacc.
  - exists cd, ce, accd, acce. cbn [RenkoD.emit Renko.emit].
    replace (k + dir * Z.of_nat 0 * B)%Z with k by lia. auto.
  - cbn [RenkoD.emit Renko.emit]. rewrite fmul_fin, fadd_fin.
    cbn [mul add].
    set (cd1 := round64 (cd + round64 (inject_Z dir * bd))).
    set (ce1 := ce + inject_Z dir * be).
    assert (Hstep : (Z.abs (k + dir * B) <= 2 ^ 53)%Z).
    { specialize (Hbound 1%nat ltac:(lia)).
      replace (k + dir * Z.of_nat 1 * B)%Z with (k + dir * B)%Z in Hbound by lia.
      exact Hbound. }
    assert (Hm : round64 (inject_Z dir * bd) == inject_Z (dir * B)).
    { apply round64_whole; [rewrite Ebd, inject_Z_mult; reflexivity|].
      destruct Hdir as [-> | ->]; lia. }
    assert (E1d : cd1 == inject_Z (k + dir * B)).
    { unfold cd1. apply round64_whole; [|assumption].
      rewrite Hm, Ecd, inject_Z_plus. reflexivity. }
    assert (E1e : ce1 == inject_Z (k + dir * B)).
    { unfold ce1. rewrite Ece, Ebe, inject_Z_plus, inject_Z_mult. reflexivity. }
    destruct (IH (S j) dir B (k + dir * B)%Z bd be btd bte cd1 ce1
                (accd ++ [Candle.mk (fadd btd (of_nat j)) (Fin cd)
                            (max (Fin cd) (Fin cd1)) (min (Fin cd) (Fin cd1))
                            (Fin cd1)])
                (acce ++ [Candle.mk (add bte (of_nat j)) (Fin ce)
                            (max (Fin ce) (Fin ce1)) (min (Fin ce) (Fin ce1))
                            (Fin ce1)])
                Hdir HB Ebd Ebe E1d E1e)
      as (cd' & ce' & accd' & acce' & Ed & Ee & Hd & He & Hacc').
    + intros i Hi. specialize (Hbound (S i) ltac:(lia)).
      replace (k + dir * B + dir * Z.of_nat i * B)%Z
        with (k + dir * Z.of_nat (S i) * B)%Z by lia.
      exact Hbound.
    + apply Forall2_app; [assumption|]. constructor; [|constructor].
      unfold RenkoD.same_prices.
      cbn [Candle.open Candle.high Candle.low Candle.close].
      assert (Ecc : cd == ce) by (rewrite Ecd, Ece; reflexivity).
      assert (Ec1 : cd1 == ce1) by (rewrite E1d, E1e; reflexivity).
      split; [exact Ecc|]. split; [now apply max_same|].
      split; [now apply min_same | exact Ec1].
    + exists cd', ce', accd', acce'.
      split; [exact Ed|]. split; [exact Ee|].
      replace (k + dir * Z.of_nat (S n) * B)%Z
        with (k + dir * B + dir * Z.of_nat n * B)%Z by lia.
      auto.
Qed.

(** The floor of a quotient of whole numbers, in whole numbers. *)
Lemma floor_whole_div (x : Q) (a b : Z) :
  (0 < b)%Z -> x == inject_Z a / inject_Z b ->
  (Qfloor x * b <= a < (Qfloor x + 1) * b)%Z.
Proof.
  intros Hb E.
  assert (Hbq : 0 < inject_Z b).
  { change 0 with (inject_Z 0). now rewrite <- Zlt_Qlt. }
  pose proof (Qfloor_le x) as L. pose proof (Qlt_floor x) as U.
  assert (Xb : x * inject_Z b == inject_Z a) by (rewrite E; field; lra).
  split.
  - rewrite Zle_Qle, inject_Z_mult. nra.
  - rewrite Zlt_Qlt, inject_Z_mult. nra.
Qed.

Lemma Qabs_inject_Z (a : Z) : Qabs (inject_Z a) == inject_Z (Z.abs a).
Proof. reflexivity. Qed.

Lemma direction_fin (b : bool) :
  (if b then Fin 1 else Fin (-1)) = Fin (inject_Z (if b then 1 else -1)%Z).
Proof. now destruct b. Qed.

(** One turn of the outer loop, in doubles and in exact arithmetic. *)
Lemma step_sim (B k z : Z) (bd be pd pe : Q) (sd se : Renko.state) :
  (0 < B <= 2 ^ 51)%Z -> (Z.abs k <= 2 ^ 52)%Z -> (Z.abs z <= 2 ^ 51)%Z ->
  bd == inject_Z B -> be == inject_Z B ->
  pd == inject_Z z -> pe == inject_Z z ->
  RenkoD.same_state k sd se ->
  exists sd' se' k',
    RenkoD.step (Fin bd) sd (Fin pd) = Returns sd' /\
    Renko.step (Fin be) se (Fin pe) = Returns se' /\
    RenkoD.same_state k' sd' se' /\ (Z.abs k' <= 2 ^ 52)%Z.
Proof.
  intros HB Hk Hz Ebd Ebe Epd Epe
         ((cd & Hcd & Ecd) & (ce & Hce & Ece) & (td & Htd) & (te & Hte) & Hbr).
  destruct sd as [curd btd ld]. destruct se as [cure bte le].
  cbn [Renko.currentBrickPrice Renko.brickTime Renko.bricks] in *.
  subst curd cure btd bte.
  assert (HBq : 0 < inject_Z B).
  { change 0 with (inject_Z 0). rewrite <- Zlt_Qlt. lia. }
  unfold RenkoD.step, Renko.step.
  cbn [Renko.currentBrickPrice Renko.brickTime Renko.bricks].
  rewrite fsub_fin. cbn [sub neg add abs].
  rewrite fdiv_fin by lra. rewrite div_fin by lra. cbn [floor gt lt].
  set (dd := round64 (pd - cd)). set (de := pe + - ce).
  assert (Edd : dd == inject_Z (z - k)).
  { unfold dd. apply round64_whole; [|lia].
    rewrite Epd, Ecd. unfold Z.sub. rewrite inject_Z_plus, inject_Z_opp.
    reflexivity. }
  assert (Ede : de == inject_Z (z - k)).
  { unfold de. rewrite Epe, Ece. unfold Z.sub.
    rewrite inject_Z_plus, inject_Z_opp. reflexivity. }
  assert (Exd : Qabs dd / bd == inject_Z (Z.abs (z - k)) / inject_Z B).
  { rewrite Edd, Ebd, Qabs_inject_Z. reflexivity. }
  assert (Exe : Qabs de / be == inject_Z (Z.abs (z - k)) / inject_Z B).
  { rewrite Ede, Ebe, Qabs_inject_Z. reflexivity. }
  rewrite (floor_round_div (Qabs dd / bd) (Z.abs (z - k)) B) by (lia || exact Exd).
  assert (En : Qfloor (Qabs dd / bd) = Qfloor (Qabs de / be)).
  { apply Qfloor_comp. now rewrite Exd, Exe. }
  rewrite En. set (n := Qfloor (Qabs de / be)).
  pose proof (floor_whole_div (Qabs de / be) (Z.abs (z - k)) B ltac:(lia) Exe)
    as Hn. fold n in Hn.
  destruct (Qltb 0 (inject_Z n)) eqn:Epos.
  - apply Qltb_true in Epos.
    assert (Hnpos : (0 < n)%Z).
    { change 0 with (inject_Z 0) in Epos. now rewrite <- Zlt_Qlt in Epos. }
    cbn [turns bind]. rewrite !Qceiling_Z.
    rewrite (Qltb_compat 0 0 dd de) by (reflexivity || (rewrite Edd, Ede; reflexivity)).
    rewrite !direction_fin.
    set (dir := (if Qltb 0 de then 1 else -1)%Z).
    assert (Hsign : (dir = 1 /\ 0 < z - k)%Z \/ (dir = -1 /\ z - k <= 0)%Z).
    { unfold dir. destruct (Qltb 0 de) eqn:Es.
      - left. apply Qltb_true in Es. rewrite Ede in Es.
        change 0 with (inject_Z 0) in Es. rewrite <- Zlt_Qlt in Es. auto.
      - right. apply Qltb_false in Es. rewrite Ede in Es.
        change 0 with (inject_Z 0) in Es. rewrite <- Zle_Qle in Es. auto. }
    assert (Hdir : (dir = 1 \/ dir = -1)%Z) by (destruct Hsign as [[? _]|[? _]]; auto).
    assert (Hbetween : forall i, (0 <= i <= n)%Z ->
                         (Z.abs (k + dir * i * B) <= 2 ^ 52)%Z).
    { intros i Hi. assert (i * B <= n * B)%Z by nia.
      destruct Hsign as [[-> Hs] | [-> Hs]]; lia. }
    destruct (emit_sim (Z.to_nat n) 0 dir B k bd be (Fin td) (Fin te) cd ce ld le)
      as (cd' & ce' & accd' & acce' & Ed & Ee & Hd & He & Hacc);
      try assumption; try lia.
    { intros i Hi. specialize (Hbetween (Z.of_nat i) ltac:(lia)). lia. }
    rewrite Ed, Ee. rewrite Z2Nat.id in Hd, He by lia.
    eexists _, _, (k + dir * n * B)%Z.
    split; [reflexivity|]. split; [reflexivity|]. split.
    + unfold RenkoD.same_state.
      cbn [Renko.currentBrickPrice Renko.brickTime Renko.bricks].
      split; [now exists cd'|]. split; [now exists ce'|].
      rewrite fadd_fin. cbn [add].
      split; [eexists; reflexivity|]. split; [eexists; reflexivity|].
      assumption.
    + apply Hbetween. lia.
  - exists (Renko.mkState (Fin cd) (Fin td) ld),
           (Renko.mkState (Fin ce) (Fin te) le), k.
    split; [reflexivity|]. split; [reflexivity|]. split; [|assumption].
    unfold RenkoD.same_state.
    cbn [Renko.currentBrickPrice Renko.brickTime Renko.bricks].
    split; [now exists cd|]. split; [now exists ce|].
    split; [now exists td|]. split; [now exists te|]. assumption.
Qed.

Lemma loop_sim (B : Z) (bd be : Q) (data : list PriceBar) :
  (0 < B <= 2 ^ 51)%Z -> bd == inject_Z B -> be == inject_Z B ->
  Forall (fun d => whole (close d)) data ->
  forall (k : Z) (sd se : Renko.state),
    (Z.abs k <= 2 ^ 52)%Z -> RenkoD.same_state k sd se ->
    exists sd' se' k',
      RenkoD.loop (Fin bd) sd data = Returns sd' /\
      Renko.loop (Fin be) se data = Returns se' /\
      RenkoD.same_state k' sd' se'.
Proof.
  intros HB Ebd Ebe. induction data as [|d rest IH]; intros Hw k sd se Hk Hs.
  - exists sd, se, k. cbn. auto.
  - inversion Hw as [|? ? (z & Ez & Hz) Hw']; subst.
    cbn [RenkoD.loop Renko.loop]. unfold dbl.
    destruct (step_sim B k z bd be (round64 (close d)) (close d) sd se)
      as (sd1 & se1 & k1 & -> & -> & Hs1 & Hk1); try assumption.
    { apply round64_whole; [assumption | lia]. }
    cbn [bind]. now apply (IH Hw' k1).
Qed.

(** On whole closes and a whole brick size the builder in doubles and
    the builder in exact arithmetic return bricks of the same
    prices. *)
Lemma calculateRenkoBricks_sim (priceData : list PriceBar) (brickSize : Q) :
  0 < brickSize -> whole brickSize ->
  Forall (fun d => whole (close d)) priceData ->
  exists bricksD bricksE,
    RenkoD.calculateRenkoBricks priceData brickSize = Returns bricksD /\
    Renko.calculateRenkoBricks priceData brickSize = Returns bricksE /\
    Forall2 RenkoD.same_prices bricksD bricksE.
Proof.
  intros Hbs (B & EB & HB) Hw.
  unfold RenkoD.calculateRenkoBricks, Renko.calculateRenkoBricks.
  destruct priceData as [|d0 ds]; [exists [], []; auto|].
  assert (HBpos : (0 < B)%Z).
  { rewrite EB in Hbs. change 0 with (inject_Z 0) in Hbs.
    now rewrite <- Zlt_Qlt in Hbs. }
  assert (HBq : 0 < inject_Z B) by (now rewrite <- EB).
  assert (Hne : sortAndDeduplicateData (d0 :: ds) <> [])
    by (apply NormalizerFacts.sortAndDeduplicateData_nonempty; discriminate).
  assert (Hwc : Forall (fun d => whole (close d))
                  (sortAndDeduplicateData (d0 :: ds))).
  { destruct (NormalizerFacts.sortAndDeduplicateData_spec (d0 :: ds))
      as (_ & Sub & _).
    rewrite Forall_forall in *. intros d Hd. apply Hw, Sub, Hd. }
  destruct (sortAndDeduplicateData (d0 :: ds)) as [|first rest];
    [contradiction|].
  inversion Hwc as [|? ? (z0 & Ez0 & Hz0) _]; subst.
  assert (Ebd : round64 brickSize == inject_Z B)
    by (apply round64_whole; [assumption | lia]).
  assert (Ep0 : round64 (close first) == inject_Z z0)
    by (apply round64_whole; [assumption | lia]).
  unfold RenkoD.run, Renko.run, dbl.
  cbn [RenkoD.init Renko.init]. unfold dbl, of_Z.
  rewrite (fdiv_fin (round64 (close first))) by lra.
  rewrite (div_fin (close first)) by lra.
  rewrite fdiv_fin by (intro F; discriminate F).
  rewrite div_fin by (intro F; discriminate F).
  cbn [floor]. rewrite fmul_fin. cbn [mul bind].
  assert (Ex : round64 (close first) / round64 brickSize
               == inject_Z z0 / inject_Z B) by (now rewrite Ep0, Ebd).
  assert (Ex' : close first / brickSize == inject_Z z0 / inject_Z B)
    by (now rewrite Ez0, EB).
  rewrite (floor_round_div _ z0 B) by (lia || exact Ex).
  assert (En : Qfloor (round64 (close first) / round64 brickSize)
               = Qfloor (close first / brickSize))
    by (apply Qfloor_comp; now rewrite Ex, Ex').
  rewrite En. set (n0 := Qfloor (close first / brickSize)).
  pose proof (floor_whole_div _ z0 B HBpos Ex') as Hn0. fold n0 in Hn0.
  assert (Hk0 : (Z.abs (n0 * B) <= 2 ^ 52)%Z) by lia.
  destruct (loop_sim B (round64 brickSize) brickSize (first :: rest)
              ltac:(lia) Ebd EB Hwc (n0 * B)%Z
              (Renko.mkState (Fin (round64 (inject_Z n0 * round64 brickSize)))
                 (Fin (round64 (round64 (inject_Z (date first)) / 1000))) [])
              (Renko.mkState (Fin (inject_Z n0 * brickSize))
                 (Fin (inject_Z (date first) / 1000)) [])
              Hk0)
    as (sd' & se' & k' & -> & -> & Hs').
  { unfold RenkoD.same_state.
    cbn [Renko.currentBrickPrice Renko.brickTime Renko.bricks].
    split.
    - eexists. split; [reflexivity|].
      apply round64_whole; [|lia]. rewrite Ebd, inject_Z_mult. reflexivity.
    - split.
      + eexists. split; [reflexivity|]. rewrite EB, inject_Z_mult. reflexivity.
      + split; [eexists; reflexivity|]. split; [eexists; reflexivity|].
        constructor. }
  cbn [bind]. exists (Renko.bricks sd'), (Renko.bricks se').
  split; [reflexivity|]. split; [reflexivity|]. apply Hs'.
Qed.

(** *** From the exact bricks to the bricks in doubles *)

Lemma Forall2_nth_error {A B} (R : A -> B -> Prop) (l : list A) :
  forall (l' : list B) (i : nat) (a : A),
    Forall2 R l l' -> nth_error l i = Some a ->
    exists a', nth_error l' i = Some a' /\ R a a'.
Proof.
  induction l as [|x l IH]; intros l' i a H Hn.
  - destruct i; discriminate Hn.
  - inversion H as [|? y ? l2 Hxy Hrest]; subst.
    destruct i as [|i]; cbn in Hn |- *.
    + injection Hn as <-. now exists y.
    + now apply IH.
Qed.

Lemma same_num_fin_r (x : num) (q : Q) :
  same_num x (Fin q) -> exists q', x = Fin q' /\ q' == q.
Proof. destruct x; cbn; intro H; try contradiction. now exists q0. Qed.

Lemma same_prices_unit (bs : Q) (bd be : Candle.t) :
  RenkoD.same_prices bd be -> Renko.unit_brick bs be -> Renko.unit_brick bs bd.
Proof.
  intros (So & Sh & Sl & Sc) (o & c & h & l & Eo & Ec & Eh & El & Habs & Hh & Hl).
  rewrite Eo in So. rewrite Ec in Sc. rewrite Eh in Sh. rewrite El in Sl.
  destruct (same_num_fin_r _ _ So) as (o' & Eo' & Ho').
  destruct (same_num_fin_r _ _ Sc) as (c' & Ec' & Hc').
  destruct (same_num_fin_r _ _ Sh) as (h' & Eh' & Hh').
  destruct (same_num_fin_r _ _ Sl) as (l' & El' & Hl').
  exists o', c', h', l'. repeat (split; [assumption|]).
  rewrite Ho', Hc', Hh', Hl'. auto.
Qed.


Lemma same_prices_down (c0 bs t0 : Q) (i : nat) (bd be : Candle.t) :
  RenkoD.same_prices bd be -> RenkoNotions.down_brick_at c0 bs t0 i be ->
  RenkoD.down_brick c0 bs i bd.
Proof.
  intros (So & _ & _ & Sc) (o & c & t & Eo & Ec & _ & Ho & Hc & _).
  rewrite Eo in So. rewrite Ec in Sc.
  destruct (same_num_fin_r _ _ So) as (o' & Eo' & Ho').
  destruct (same_num_fin_r _ _ Sc) as (c' & Ec' & Hc').
  exists o', c'. split; [assumption|]. split; [assumption|].
  rewrite Ho', Hc'. auto.
Qed.

Lemma end_price_sim (ld : list Candle.t) :
  forall (le : list Candle.t) (sd se : num),
    Forall2 RenkoD.same_prices ld le -> same_num sd se ->
    same_num (Renko.end_price sd ld) (Renko.end_price se le).
Proof.
  induction ld as [|b ld IH]; intros le sd se H Hs;
    inversion H as [|? b' ? le' Hb Hrest]; subst; cbn [Renko.end_price].
  - assumption.
  - apply IH; [assumption|]. apply Hb.
Qed.



(** C9, as amended.  For every series and every positive brick size
    the builder in doubles returns a brick list in which each brick
    opens at the close of the brick before it, has
    [high = max(open, close)] and [low = min(open, close)], and closes
    at the double nearest to its open plus or minus the brick size as
    a double, [B]: its height [|close - open|] differs from [B] by at
    most [2^-53 (|open| + B)].  When the closes and the brick size are
    whole numbers of magnitude up to [2^51], every height is exactly
    the brick size. *)
Theorem C9_renko_bricks_chained_and_uniform_up_to_rounding :
  forall (priceData : list PriceBar) (brickSize : Q),
    0 < brickSize ->
    let B := round64 brickSize in
    exists bricks,
      RenkoD.calculateRenkoBricks priceData brickSize = Returns bricks /\
      Forall (RenkoD.rounded_brick B) bricks /\
      Forall (RenkoD.nearly_unit_brick B) bricks /\
      (forall i b1 b2,
         nth_error bricks i = Some b1 ->
         nth_error bricks (S i) = Some b2 ->
         Candle.open b2 = Candle.close b1) /\
      (whole brickSize ->
       Forall (fun d => whole (close d)) priceData ->
       Forall (Renko.unit_brick brickSize) bricks).
Proof.
  intros priceData bs Hbs B.
  assert (HB : 0 < B) by (now apply round64_pos).
  assert (HBr : round64 B == B) by apply round64_idem.
  assert (Hgen : exists bricks,
             RenkoD.calculateRenkoBricks priceData bs = Returns bricks /\
             Forall (RenkoD.rounded_brick B) bricks /\
             forall i b1 b2,
               nth_error bricks i = Some b1 ->
               nth_error bricks (S i) = Some b2 ->
               Candle.open b2 = Candle.close b1).
  { unfold RenkoD.calculateRenkoBricks. destruct priceData as [|d0 rest].
    - exists []. split; [reflexivity|]. split; [constructor|].
      intros [|i] b1 b2 H; discriminate H.
    - assert (Hne : sortAndDeduplicateData (d0 :: rest) <> [])
        by (apply NormalizerFacts.sortAndDeduplicateData_nonempty;
            discriminate).
      destruct (sortAndDeduplicateData (d0 :: rest)) as [|first cleanRest];
        [contradiction|].
      destruct (run_chain B first cleanRest HB HBr)
        as (c0 & st & _ & _ & Hrun & (_ & Hall & Hlink & _)).
      exists (Renko.bricks st). split; [exact Hrun|]. split; [assumption|].
      intros i b1 b2. now apply RenkoFacts.linked_nth with (start := Fin c0). }
  destruct Hgen as (bricks & E & Hall & Hlink).
  exists bricks. split; [assumption|]. split; [assumption|].
  split; [|split; [assumption|]].
  - apply Forall_forall. intros b Hb. rewrite Forall_forall in Hall.
    apply rounded_nearly_unit; [assumption | now apply Hall].
  - intros Hw Hwc.
    destruct (calculateRenkoBricks_sim priceData bs Hbs Hw Hwc)
      as (bd & be & Ed & Ee & Hsim).
    rewrite E in Ed. injection Ed as <-.
    destruct (RenkoFacts.exact_bricks_uniform_and_chained priceData bs Hbs)
      as (be' & Ee' & Hunit & _).
    rewrite Ee in Ee'. injection Ee' as <-.
    rewrite Forall_forall in Hunit. apply Forall_forall. intros b Hb.
    destruct (In_nth_error _ _ Hb) as (i & Hi).
    destruct (Forall2_nth_error _ _ _ _ _ Hsim Hi) as (b' & Hi' & Hs).
    apply (same_prices_unit bs b b' Hs). apply Hunit.
    eapply nth_error_In; eassumption.
Qed.

(** C9 as stated fails: the closes 1.0, 1.1, 1.3 with brick size 0.1
    give two bricks, the second from 1.1 to 1.2000000000000002; its
    height is neither 0.1 nor the double nearest to 0.1. *)
Lemma C9_counterexample_fractional_brick_size :
  exists bricks b o c,
    RenkoD.calculateRenkoBricks
      [mkBar 1000 1 1 1 1 5; mkBar 2000 (11 # 10) (11 # 10) (11 # 10) (11 # 10) 5;
       mkBar 3000 (13 # 10) (13 # 10) (13 # 10) (13 # 10) 5] (1 # 10)
    = Returns bricks /\
    nth_error bricks 1 = Some b /\
    Candle.open b = Fin o /\ Candle.close b = Fin c /\
    ~ Qabs (c - o) == 1 # 10 /\
    ~ Qabs (c - o) == round64 (1 # 10) /\
    ~ Renko.unit_brick (1 # 10) b.
Proof.
  remember (RenkoD.calculateRenkoBricks _ _) as r eqn:E.
  vm_compute in E. subst r.
  eexists _, _, _, _. split; [reflexivity|]. split; [reflexivity|].
  split; [reflexivity|]. split; [reflexivity|].
  split; [intro H; vm_compute in H; discriminate H|].
  split; [intro H; vm_compute in H; discriminate H|].
  intros (o & c & h & l & Eo & Ec & _ & _ & Habs & _).
  cbn [Candle.open Candle.close] in Eo, Ec.
  injection Eo as <-. injection Ec as <-.
  vm_compute in Habs. discriminate Habs.
Qed.

(** C9 at the five closes 100, 105, 112, 108, 120 and brick size 10,
    whole numbers. *)
Lemma C9_witness :
  let priceData :=
    [mkBar 1000 100 100 100 100 1; mkBar 2000 105 105 105 105 1;
     mkBar 3000 112 112 112 112 1; mkBar 4000 108 108 108 108 1;
     mkBar 5000 120 120 120 120 1] in
  exists bricks,
    RenkoD.calculateRenkoBricks priceData 10 = Returns bricks /\
    Forall (RenkoD.rounded_brick (round64 10)) bricks /\
    Forall (RenkoD.nearly_unit_brick (round64 10)) bricks /\
    (forall i b1 b2,
       nth_error bricks i = Some b1 ->
       nth_error bricks (S i) = Some b2 ->
       Candle.open b2 = Candle.close b1) /\
    Forall (Renko.unit_brick 10) bricks.
Proof.
  intro priceData.
  destruct (C9_renko_bricks_chained_and_uniform_up_to_rounding priceData 10
              eq_refl) as (bricks & E & R & N & L & W).
  exists bricks. split; [exact E|]. split; [exact R|]. split; [exact N|].
  split; [exact L|]. apply W.
  - exists 10%Z. split; [reflexivity | apply Z.leb_le; reflexivity].
  - repeat constructor;
      (eexists; split; [reflexivity | apply Z.leb_le; reflexivity]).
Defined.

(** The bricks in doubles and the exact bricks of one whole-number
    series. *)
Lemma whole_bricks (priceData : list PriceBar) (bs : Q)
    (bricksE : list Candle.t) :
  0 < bs -> whole bs -> Forall (fun d => whole (close d)) priceData ->
  Renko.calculateRenkoBricks priceData bs = Returns bricksE ->
  exists bricksD,
    RenkoD.calculateRenkoBricks priceData bs = Returns bricksD /\
    Forall2 RenkoD.same_prices bricksD bricksE.
Proof.
  intros Hbs Hw Hwc E.
  destruct (calculateRenkoBricks_sim priceData bs Hbs Hw Hwc)
    as (bd & be & Ed & Ee & Hsim).
  rewrite E in Ee. injection Ee as <-. now exists bd.
Qed.




(** X10.  For whole closes and a whole positive brick size the bricks
    in doubles follow the price to within one brick: the close of the
    last brick (the floored first close when there is no brick)
    differs from the last close of the cleaned series by less than the
    brick size. *)
Theorem X10_renko_whole_numbers_end_within_one_brick :
  forall (priceData : list PriceBar) (brickSize : Q)
         (first : PriceBar) (rest : list PriceBar),
    0 < brickSize -> whole brickSize ->
    Forall (fun d => whole (close d)) priceData ->
    sortAndDeduplicateData priceData = first :: rest ->
    let flooredStart :=
      inject_Z (Qfloor (close first / brickSize)) * brickSize in
    let lastClose := last (map close rest) (close first) in
    exists bricks e,
      RenkoD.calculateRenkoBricks priceData brickSize = Returns bricks /\
      Renko.end_price (Fin flooredStart) bricks = Fin e /\
      Qabs (lastClose - e) < brickSize.
Proof.
  intros priceData bs first rest Hbs Hw Hwc Hclean c0 P1.
  destruct (RenkoMore.exact_ends_within_one_brick priceData bs first rest
              Hbs Hclean) as (be & e & Ee & Hend & Habs).
  fold c0 in Hend. fold P1 in Habs.
  destruct (whole_bricks priceData bs be Hbs Hw Hwc Ee) as (bd & Ed & Hsim).
  pose proof (end_price_sim bd be (Fin c0) (Fin c0) Hsim (Qeq_refl c0)) as Hs.
  rewrite Hend in Hs.
  destruct (same_num_fin_r _ _ Hs) as (e' & He' & Hee).
  exists bd, e'. split; [exact Ed|]. split; [exact He'|]. now rewrite Hee.
Qed.

Lemma X10_witness :
  let first := mkBar 1000 103 103 103 103 1 in
  let rest := [mkBar 2000 131 131 131 131 1; mkBar 3000 96 96 96 96 1] in
  let flooredStart := inject_Z (Qfloor (close first / 10)) * 10 in
  let lastClose := last (map close rest) (close first) in
  exists bricks e,
    RenkoD.calculateRenkoBricks (first :: rest) 10 = Returns bricks /\
    Renko.end_price (Fin flooredStart) bricks = Fin e /\
    Qabs (lastClose - e) < 10.
Proof.
  intros first rest.
  apply (X10_renko_whole_numbers_end_within_one_brick (first :: rest) 10
           first rest).
  - reflexivity.
  - exists 10%Z. split; [reflexivity | apply Z.leb_le; reflexivity].
  - repeat constructor;
      (eexists; split; [reflexivity | apply Z.leb_le; reflexivity]).
  - reflexivity.
Defined.

(** X11.  For whole closes and a whole positive brick size the
    builder in doubles returns no brick exactly when every close of
    the cleaned series is less than one brick away from the floored
    first close; the series of the first bar alone gives no brick. *)
Theorem X11_renko_whole_numbers_no_brick_iff_closes_stay_within_one_brick :
  forall (priceData : list PriceBar) (brickSize : Q)
         (first : PriceBar) (rest : list PriceBar),
    0 < brickSize -> whole brickSize ->
    Forall (fun d => whole (close d)) priceData ->
    sortAndDeduplicateData priceData = first :: rest ->
    let flooredStart :=
      inject_Z (Qfloor (close first / brickSize)) * brickSize in
    (RenkoD.calculateRenkoBricks priceData brickSize = Returns [] <->
     Forall (fun d => Qabs (close d - flooredStart) < brickSize)
            (first :: rest)) /\
    RenkoD.calculateRenkoBricks [first] brickSize = Returns [].
Proof.
  intros priceData bs first rest Hbs Hw Hwc Hclean c0.
  destruct (RenkoMore.exact_no_brick_iff priceData bs first rest Hbs Hclean)
    as [Hiff _]. fold c0 in Hiff.
  destruct (calculateRenkoBricks_sim priceData bs Hbs Hw Hwc)
    as (bd & be & Ed & Ee & Hsim).
  assert (Hfirst : whole (close first)).
  { destruct (NormalizerFacts.sortAndDeduplicateData_spec priceData)
      as (_ & Sub & _).
    rewrite Forall_forall in Hwc. apply Hwc, Sub. rewrite Hclean. now left. }
  split.
  - rewrite <- Hiff, Ed, Ee. split; intro H; injection H as ->;
      inversion Hsim; reflexivity.
  - assert (Hc1 : sortAndDeduplicateData [first] = [first]) by reflexivity.
    destruct (RenkoMore.exact_no_brick_iff [first] bs first [] Hbs Hc1)
      as [_ Hone].
    destruct (whole_bricks [first] bs [] Hbs Hw) as (bd1 & Ed1 & Hsim1).
    + constructor; [assumption | constructor].
    + now apply Hone.
    + inversion Hsim1; subst. exact Ed1.
Qed.

Lemma X11_witness :
  let first := mkBar 1000 103 103 103 103 1 in
  let rest := [mkBar 2000 109 109 109 109 1; mkBar 3000 95 95 95 95 1] in
  let flooredStart := inject_Z (Qfloor (close first / 10)) * 10 in
  (RenkoD.calculateRenkoBricks (first :: rest) 10 = Returns [] <->
   Forall (fun d => Qabs (close d - flooredStart) < 10) (first :: rest)) /\
  RenkoD.calculateRenkoBricks [first] 10 = Returns [].
Proof.
  intros first rest.
  apply (X11_renko_whole_numbers_no_brick_iff_closes_stay_within_one_brick
           (first :: rest) 10 first rest).
  - reflexivity.
  - exists 10%Z. split; [reflexivity | apply Z.leb_le; reflexivity].
  - repeat constructor;
      (eexists; split; [reflexivity | apply Z.leb_le; reflexivity]).
  - reflexivity.
Defined.

(** X12.  Let the closes and the brick size be whole numbers, the
    brick size positive, and let the cleaned series have
    non-increasing closes, from [P0] to [P1].  Then in doubles every
    brick is a down-brick, brick number [i] opens [i] bricks below the
    floored first close, and there are
    [floor((floor(P0/brickSize)*brickSize - P1)/brickSize)] bricks,
    none when that is negative: the fall is counted from the floored
    first close, not from [P0]. *)
Theorem X12_renko_falling_series_of_whole_numbers :
  forall (priceData : list PriceBar) (brickSize : Q)
         (first : PriceBar) (rest : list PriceBar),
    0 < brickSize -> whole brickSize ->
    Forall (fun d => whole (close d)) priceData ->
    sortAndDeduplicateData priceData = first :: rest ->
    Sorted (fun a b => b <= a) (map close (first :: rest)) ->
    let P0 := close first in
    let P1 := last (map close rest) P0 in
    let flooredStart := inject_Z (Qfloor (P0 / brickSize)) * brickSize in
    exists bricks,
      RenkoD.calculateRenkoBricks priceData brickSize = Returns bricks /\
      length bricks =
        Z.to_nat (Qfloor ((flooredStart - P1) / brickSize)) /\
      forall i b, nth_error bricks i = Some b ->
        RenkoD.down_brick flooredStart brickSize i b.
Proof.
  intros priceData bs first rest Hbs Hw Hwc Hclean Hs P0 P1 c0.
  destruct (RenkoMore.exact_falling_series priceData bs first rest
              Hbs Hclean Hs) as (be & Ee & Hlen & Hdown).
  fold P0 P1 c0 in Hlen, Hdown.
  destruct (whole_bricks priceData bs be Hbs Hw Hwc Ee) as (bd & Ed & Hsim).
  exists bd. split; [exact Ed|]. split.
  - rewrite (Forall2_length Hsim). exact Hlen.
  - intros i b Hi.
    destruct (Forall2_nth_error _ _ _ _ _ Hsim Hi) as (b' & Hi' & Hsame).
    eapply same_prices_down; [exact Hsame | apply Hdown, Hi'].
Qed.

Lemma X12_witness :
  let first := mkBar 1000 127 127 127 127 1 in
  let rest := [mkBar 2000 118 118 118 118 1; mkBar 3000 96 96 96 96 1] in
  let P0 := close first in
  let P1 := last (map close rest) P0 in
  let flooredStart := inject_Z (Qfloor (P0 / 10)) * 10 in
  exists bricks,
    RenkoD.calculateRenkoBricks (first :: rest) 10 = Returns bricks /\
    length bricks = Z.to_nat (Qfloor ((flooredStart - P1) / 10)) /\
    forall i b, nth_error bricks i = Some b ->
      RenkoD.down_brick flooredStart 10 i b.
Proof.
  intros first rest.
  apply (X12_renko_falling_series_of_whole_numbers (first :: rest) 10
           first rest).
  - reflexivity.
  - exists 10%Z. split; [reflexivity | apply Z.leb_le; reflexivity].
  - repeat constructor;
      (eexists; split; [reflexivity | apply Z.leb_le; reflexivity]).
  - reflexivity.
  - repeat constructor; unfold Qle; simpl; lia.
Defined.

End RenkoDFacts.

(** ** VWAP in doubles *)

Module VWAPDFacts.
Import Double DoubleFacts VWAP VWAPFacts RenkoDFacts.

Lemma qpow_pos (a : Q) (n : nat) : 0 < a -> 0 < qpow a n.
Proof.
  intro Ha. induction n as [|n IH]; cbn [qpow]; [reflexivity | nra].
Qed.

Lemma qpow_ge_1 (a : Q) (n : nat) : 1 <= a -> 1 <= qpow a n.
Proof.
  intro Ha. induction n as [|n IH]; cbn [qpow]; [lra | nra].
Qed.

Lemma qpow_le_1 (a : Q) (n : nat) : 0 < a -> a <= 1 -> qpow a n <= 1.
Proof.
  intros H0 H1. induction n as [|n IH]; cbn [qpow]; [lra|].
  pose proof (qpow_pos a n H0). nra.
Qed.

Lemma qpow_add (a : Q) (n m : nat) : qpow a (n + m) == qpow a n * qpow a m.
Proof.
  induction n as [|n IH]; cbn [qpow Nat.add]; [ring | rewrite IH; ring].
Qed.

Lemma qpow_div (a b : Q) (n : nat) : 0 < b ->
  qpow (a / b) n == qpow a n / qpow b n.
Proof.
  intro Hb. induction n as [|n IH]; cbn [qpow]; [reflexivity|].
  pose proof (qpow_pos b n Hb). rewrite IH. field. lra.
Qed.

Lemma qpow_mono (a : Q) (n m : nat) : 1 <= a -> (n <= m)%nat ->
  qpow a n <= qpow a m.
Proof.
  intros Ha H. replace m with (n + (m - n))%nat by lia. rewrite qpow_add.
  pose proof (qpow_ge_1 a (m - n) Ha). pose proof (qpow_pos a n ltac:(lra)).
  nra.
Qed.

Lemma qpow_anti (a : Q) (n m : nat) : 0 < a -> a <= 1 -> (n <= m)%nat ->
  qpow a m <= qpow a n.
Proof.
  intros H0 H1 H. replace m with (n + (m - n))%nat by lia. rewrite qpow_add.
  pose proof (qpow_le_1 a (m - n) H0 H1). pose proof (qpow_pos a n H0).
  pose proof (qpow_pos a (m - n) H0). nra.
Qed.

Lemma mul_shrink (x b : Q) : 0 <= x -> b <= 1 -> x * b <= x.
Proof. intros. nra. Qed.

Lemma mul_grow (x a : Q) : 0 <= x -> 1 <= a -> x <= x * a.
Proof. intros. nra. Qed.

Lemma mul3_nonneg (x y z : Q) : 0 <= x -> 0 <= y -> 0 <= z -> 0 <= x * y * z.
Proof.
  intros. apply Qmult_le_0_compat; [apply Qmult_le_0_compat|]; assumption.
Qed.

(** One rounded accumulation of a weighted sum between two bounds. *)
Lemma weighted_step (A B lo hi t S v al be P pv P' : Q) :
  0 < B -> B <= 1 -> 1 <= A ->
  0 < lo -> lo <= t -> t <= hi -> 0 <= S -> 0 < v ->
  1 <= al -> 0 < be -> be <= 1 ->
  lo * S * be <= P -> P <= hi * S * al ->
  t * v * B <= pv -> pv <= t * v * A ->
  (P + pv) * B <= P' -> P' <= (P + pv) * A ->
  lo * (S + v) * (be * (B * B)) <= P' /\ P' <= hi * (S + v) * (al * (A * A)).
Proof.
  intros HB0 HB1 HA Hlo Ht1 Ht2 HS Hv Hal Hbe0 Hbe1 HP1 HP2 Hpv1 Hpv2 HP'1 HP'2.
  assert (Hhi : 0 < hi) by lra.
  split.
  - apply Qle_trans with ((P + pv) * B); [|assumption].
    apply Qle_trans with ((lo * S * be + lo * v * B) * B).
    + assert (E : lo * (S + v) * (be * (B * B))
                  == (lo * S * be) * B * B + (lo * v * B) * B * be) by ring.
      rewrite E.
      assert (X1 : (lo * S * be) * B * B <= (lo * S * be) * B).
      { apply mul_shrink; [|assumption].
        apply mul3_nonneg; [|lra..].
        apply Qmult_le_0_compat; lra. }
      assert (X2 : (lo * v * B) * B * be <= (lo * v * B) * B).
      { apply mul_shrink; [|assumption].
        apply Qmult_le_0_compat; [|lra]. apply mul3_nonneg; lra. }
      lra.
    + apply Qmult_le_compat_r; [|lra].
      assert (lo * v * B <= t * v * B).
      { apply Qmult_le_compat_r; [|lra]. apply Qmult_le_compat_r; lra. }
      lra.
  - apply Qle_trans with ((P + pv) * A); [assumption|].
    apply Qle_trans with ((hi * S * al + hi * v * A) * A).
    + apply Qmult_le_compat_r; [|lra].
      assert (t * v * A <= hi * v * A).
      { apply Qmult_le_compat_r; [|lra]. apply Qmult_le_compat_r; lra. }
      lra.
    + assert (E : hi * (S + v) * (al * (A * A))
                  == (hi * S * al) * A * A + (hi * v * A) * A * al) by ring.
      rewrite E.
      assert (X1 : (hi * S * al) * A <= (hi * S * al) * A * A).
      { apply mul_grow; [|assumption].
        apply mul3_nonneg; [|lra..].
        apply Qmult_le_0_compat; lra. }
      assert (X2 : (hi * v * A) * A <= (hi * v * A) * A * al).
      { apply mul_grow; [|assumption].
        apply Qmult_le_0_compat; [|lra]. apply mul3_nonneg; lra. }
      lra.
Qed.

Lemma div_le_num (x y z : Q) : 0 < z -> x <= y -> x / z <= y / z.
Proof.
  intros Hz H. apply Qle_shift_div_l; [assumption|].
  assert (E : x / z * z == x) by (field; lra). lra.
Qed.

Lemma div_le_den (x y z : Q) : 0 <= x -> 0 < y -> y <= z -> x / z <= x / y.
Proof.
  intros Hx Hy H.
  assert (Hz : 0 < z) by lra.
  apply Qle_shift_div_l; [assumption|].
  assert (0 <= x / z) by (apply Qle_shift_div_l; lra).
  assert (E : x / z * z == x) by (field; lra).
  nra.
Qed.

(** The quotient of two rounded sums: a bound on each gives a bound on
    the rounded quotient. *)
Lemma quotient_bounds (A B lo hi S P V al be ak bk val : Q) :
  0 < B -> B <= 1 -> 1 <= A -> 0 < lo -> lo <= hi -> 0 < S ->
  0 < al -> 0 < be -> 0 < ak -> 0 < bk ->
  lo * S * be <= P -> P <= hi * S * al ->
  S * bk <= V -> V <= S * ak ->
  P / V * B <= val -> val <= P / V * A ->
  lo * (be * B / ak) <= val /\ val <= hi * (al * A / bk).
Proof.
  intros HB0 HB1 HA Hlo Hhi HS Hal Hbe Hak Hbk HP1 HP2 HV1 HV2 Hv1 Hv2.
  assert (HV : 0 < V) by nra.
  assert (HP : 0 <= P).
  { apply Qle_trans with (lo * S * be); [|assumption].
    apply mul3_nonneg; lra. }
  split.
  - apply Qle_trans with (P / V * B); [|assumption].
    assert (E : lo * (be * B / ak) == (lo * S * be) / (S * ak) * B)
      by (field; lra).
    rewrite E. apply Qmult_le_compat_r; [|lra].
    apply Qle_trans with (P / (S * ak)).
    + apply div_le_num; [nra | assumption].
    + apply div_le_den; [assumption | assumption | assumption].
  - apply Qle_trans with (P / V * A); [assumption|].
    assert (E : hi * (al * A / bk) == (hi * S * al) / (S * bk) * A)
      by (field; lra).
    rewrite E. apply Qmult_le_compat_r; [|lra].
    apply Qle_trans with (P / (S * bk)).
    + apply div_le_den; [assumption | nra | assumption].
    + apply div_le_num; [nra | assumption].
Qed.

Lemma one_minus_u : 0 < 1 - u /\ 1 - u <= 1 /\ 1 <= 1 + u.
Proof. pose proof u_small. lra. Qed.

Lemma slack_quotient (n : nat) :
  slack n == qpow (1 + u) n / qpow (1 - u) n.
Proof. unfold slack. apply qpow_div. apply one_minus_u. Qed.

Lemma slack_pos (n : nat) : 0 < slack n.
Proof.
  unfold slack. apply qpow_pos. destruct one_minus_u as (H1 & H2 & H3).
  apply Qlt_shift_div_l; lra.
Qed.

Lemma qpow_double_S (a : Q) (k : nat) :
  qpow a (2 * S k) == qpow a (2 * k) * (a * a).
Proof.
  replace (2 * S k)%nat with (S (S (2 * k))) by lia. cbn [qpow]. ring.
Qed.

(** [2k+3] roundings cover the quotient after [k+1] bars. *)
Lemma slack_covers (k : nat) :
  let A := 1 + u in
  let B := 1 - u in
  qpow A (2 * S k) * A / qpow B (S k) <= slack (2 * k + 3) /\
  1 <= qpow B (2 * S k) * B / qpow A (S k) * slack (2 * k + 3).
Proof.
  intros A B. destruct one_minus_u as (HB0 & HB1 & HA).
  fold A in HA. fold B in HB0, HB1.
  rewrite slack_quotient. fold A B.
  assert (EA : qpow A (2 * k + 3) == qpow A (2 * S k) * A).
  { replace (2 * k + 3)%nat with (S (2 * S k)) by lia. cbn [qpow]. ring. }
  assert (EB : qpow B (2 * k + 3) == qpow B (2 * S k) * B).
  { replace (2 * k + 3)%nat with (S (2 * S k)) by lia. cbn [qpow]. ring. }
  pose proof (qpow_pos A (2 * S k) ltac:(lra)) as PA.
  pose proof (qpow_pos B (2 * S k) HB0) as PB.
  pose proof (qpow_pos A (S k) ltac:(lra)) as PA1.
  pose proof (qpow_pos B (S k) HB0) as PB1.
  pose proof (qpow_pos B (2 * k + 3) HB0) as PB3.
  pose proof (qpow_pos A (2 * k + 3) ltac:(lra)) as PA3.
  split.
  - rewrite EA. apply div_le_den.
    + nra.
    + assumption.
    + apply qpow_anti; [assumption | assumption | lia].
  - rewrite <- EB.
    assert (E : qpow B (2 * k + 3) / qpow A (S k)
                * (qpow A (2 * k + 3) / qpow B (2 * k + 3))
                == qpow A (2 * k + 3) / qpow A (S k)) by (field; lra).
    rewrite E. apply Qle_shift_div_l; [assumption|].
    rewrite Qmult_1_l. apply qpow_mono; [assumption | lia].
Qed.

(** The sum of the weights after one more rounded addition. *)
Lemma volume_step (A B S v ak bk V V' : Q) :
  0 < B -> B <= 1 -> 1 <= A -> 0 <= S -> 0 < v ->
  0 < bk -> bk <= 1 -> 1 <= ak ->
  S * bk <= V -> V <= S * ak ->
  (V + v) * B <= V' -> V' <= (V + v) * A ->
  (S + v) * (B * bk) <= V' /\ V' <= (S + v) * (A * ak).
Proof.
  intros HB0 HB1 HA HS Hv Hbk0 Hbk1 Hak H1 H2 H3 H4. split.
  - apply Qle_trans with ((V + v) * B); [|assumption].
    assert (E : (S + v) * (B * bk) == (S * bk + v * bk) * B) by ring.
    rewrite E. apply Qmult_le_compat_r; [|lra].
    pose proof (mul_shrink v bk ltac:(lra) Hbk1). lra.
  - apply Qle_trans with ((V + v) * A); [assumption|].
    assert (E : (S + v) * (A * ak) == (S * ak + v * ak) * A) by ring.
    rewrite E. apply Qmult_le_compat_r; [|lra].
    pose proof (mul_grow v ak ltac:(lra) Hak). lra.
Qed.

Lemma length_vwap_valuesD (bars : list PriceBar) (pv cv : Q) :
  length (VWAPD.vwap_values pv cv bars) = length bars.
Proof.
  revert pv cv. induction bars as [|d rest IH]; intros; simpl; [reflexivity|].
  now rewrite IH.
Qed.

(** A rounded weighted average of positive prices between [lo] and [hi]
    leaves the interval by no more than the slack of its roundings. *)
Lemma vwap_values_near (lo hi : Q) (bars : list PriceBar) :
  forall (i k : nat) (pv cv S : Q),
    0 < lo -> 0 <= S ->
    lo * S * qpow (1 - u) (2 * k) <= pv ->
    pv <= hi * S * qpow (1 + u) (2 * k) ->
    S * qpow (1 - u) k <= cv -> cv <= S * qpow (1 + u) k ->
    (forall d, In d bars -> 0 < volume d) ->
    (i < length bars)%nat ->
    (forall d, In d (firstn (Datatypes.S i) bars) ->
       lo <= VWAPD.typicalPrice d /\ VWAPD.typicalPrice d <= hi) ->
    lo <= nth i (VWAPD.vwap_values pv cv bars) 0 * slack (2 * (k + i) + 3) /\
    nth i (VWAPD.vwap_values pv cv bars) 0 <= hi * slack (2 * (k + i) + 3).
Proof.
  destruct one_minus_u as (HB0 & HB1 & HA).
  set (A := 1 + u) in *. set (B := 1 - u) in *.
  induction bars as [|d rest IH];
    intros i k pv cv S Hlo HS HP1 HP2 HV1 HV2 Hvol Hi Htp.
  - simpl in Hi. lia.
  - assert (Hd : 0 < volume d) by (apply Hvol; now left).
    assert (Ht : lo <= VWAPD.typicalPrice d /\ VWAPD.typicalPrice d <= hi)
      by (apply Htp; now left).
    cbn [VWAPD.vwap_values].
    set (t := VWAPD.typicalPrice d) in *.
    set (v := round64 (volume d)).
    assert (Hv : 0 < v) by (apply round64_pos; assumption).
    set (w := round64 (t * v)).
    set (pv' := round64 (pv + w)).
    set (cv' := round64 (cv + v)).
    pose proof (qpow_pos A (2 * k) ltac:(lra)) as PA.
    pose proof (qpow_pos B (2 * k) HB0) as PB.
    pose proof (qpow_ge_1 A (2 * k) HA) as GA.
    pose proof (qpow_le_1 B (2 * k) HB0 HB1) as LB.
    pose proof (qpow_pos A k ltac:(lra)) as PAk.
    pose proof (qpow_pos B k HB0) as PBk.
    pose proof (qpow_ge_1 A k HA) as GAk.
    pose proof (qpow_le_1 B k HB0 HB1) as LBk.
    assert (Htv : 0 <= t * v) by (apply Qmult_le_0_compat; lra).
    destruct (round64_between (t * v) Htv) as [W1 W2].
    fold w A B in W1, W2.
    assert (Hw : 0 <= w) by (apply round64_nonneg; assumption).
    assert (Hpv : 0 <= pv).
    { apply Qle_trans with (lo * S * qpow B (2 * k)); [|assumption].
      apply mul3_nonneg; lra. }
    assert (Hcv : 0 <= cv).
    { apply Qle_trans with (S * qpow B k); [|assumption].
      apply Qmult_le_0_compat; lra. }
    destruct (round64_between (pv + w) ltac:(lra)) as [P1 P2].
    fold pv' A B in P1, P2.
    destruct (round64_between (cv + v) ltac:(lra)) as [V1 V2].
    fold cv' A B in V1, V2.
    destruct (weighted_step A B lo hi t S v (qpow A (2 * k)) (qpow B (2 * k))
                pv w pv') as [P1' P2']; try assumption; try lra.
    destruct (volume_step A B S v (qpow A k) (qpow B k) cv cv')
      as [V1' V2']; try assumption; try lra.
    rewrite <- qpow_double_S in P1', P2'.
    change (B * qpow B k) with (qpow B (Datatypes.S k)) in V1'.
    change (A * qpow A k) with (qpow A (Datatypes.S k)) in V2'.
    destruct i as [|i]; cbn [nth].
    + replace (k + 0)%nat with k by lia.
      assert (HS' : 0 < S + v) by lra.
      assert (Hcv' : 0 < cv').
      { apply Qlt_le_trans with ((S + v) * qpow B (Datatypes.S k));
          [|assumption].
        pose proof (qpow_pos B (Datatypes.S k) HB0). nra. }
      assert (Hpv' : 0 <= pv') by (apply round64_nonneg; lra).
      assert (Hq : 0 <= pv' / cv') by (apply Qle_shift_div_l; lra).
      destruct (round64_between (pv' / cv') Hq) as [R1 R2].
      fold A B in R1, R2.
      destruct (quotient_bounds A B lo hi (S + v) pv' cv'
                  (qpow A (2 * Datatypes.S k)) (qpow B (2 * Datatypes.S k))
                  (qpow A (Datatypes.S k)) (qpow B (Datatypes.S k))
                  (round64 (pv' / cv'))) as [Q1 Q2];
        try assumption; try lra;
        try (apply qpow_pos; lra).
      destruct (slack_covers k) as [C1 C2]. fold A B in C1, C2.
      pose proof (slack_pos (2 * k + 3)) as SP.
      split.
      * apply Qle_trans with
          (lo * (qpow B (2 * Datatypes.S k) * B / qpow A (Datatypes.S k))
           * slack (2 * k + 3)).
        -- rewrite <- Qmult_assoc. apply mul_grow; [lra | assumption].
        -- apply Qmult_le_compat_r; [assumption | lra].
      * apply Qle_trans with
          (hi * (qpow A (2 * Datatypes.S k) * A / qpow B (Datatypes.S k)));
          [assumption|].
        rewrite (Qmult_comm hi), (Qmult_comm hi (slack _)).
        apply Qmult_le_compat_r; [assumption | lra].
    + replace (2 * (k + Datatypes.S i) + 3)%nat
        with (2 * (Datatypes.S k + i) + 3)%nat by lia.
      apply (IH i (Datatypes.S k) pv' cv' (S + v)); try assumption; try lra.
      * intros; apply Hvol; now right.
      * simpl in Hi. lia.
      * intros d' Hd'. apply Htp. now right.
Qed.

Lemma fold_Qmin_pos (l : list Q) :
  forall x, 0 < x -> (forall y, In y l -> 0 < y) -> 0 < fold_left Qmin l x.
Proof.
  induction l as [|z l IH]; intros x Hx H; simpl; [assumption|].
  apply IH; [|intros; apply H; now right].
  apply Q.min_glb_lt; [assumption | apply H; now left].
Qed.

Lemma Qmin_list_pos (l : list Q) :
  l <> [] -> (forall y, In y l -> 0 < y) -> 0 < Qmin_list l.
Proof.
  destruct l as [|x rest]; [congruence|]. intros _ H. simpl.
  apply fold_Qmin_pos; [apply H; now left | intros; apply H; now right].
Qed.

Section WithSqrt.

Variable Math_sqrt : num -> num.

Lemma typicalPrice_fin (d : PriceBar) :
  fdiv (fadd (fadd (dbl (high d)) (dbl (low d))) (dbl (close d))) (Fin 3)
  = Fin (VWAPD.typicalPrice d).
Proof.
  assert (H3 : ~ 3 == 0) by (intro F; discriminate F).
  unfold VWAPD.typicalPrice, dbl. rewrite !fadd_fin, (fdiv_fin _ 3 H3).
  reflexivity.
Qed.

Lemma stepD_values (a : acc) (d : PriceBar) (pv cv : Q) :
  cumulativePV a = Fin pv -> cumulativeVolume a = Fin cv ->
  0 <= cv -> 0 < volume d ->
  let a' := VWAPD.step Math_sqrt a d in
  let v := round64 (volume d) in
  let pv' := round64 (pv + round64 (VWAPD.typicalPrice d * v)) in
  let cv' := round64 (cv + v) in
  cumulativePV a' = Fin pv' /\ cumulativeVolume a' = Fin cv' /\ 0 <= cv' /\
  map value (vwap (out a')) =
  map value (vwap (out a)) ++ [Fin (round64 (pv' / cv'))].
Proof.
  intros Hpv Hcv Hc Hv a' v pv' cv'.
  assert (Hv' : 0 < v) by (apply round64_pos; assumption).
  assert (Hcv' : 0 < cv') by (apply round64_pos; lra).
  assert (E1 : cumulativePV a' = Fin pv').
  { unfold a', VWAPD.step. cbn [cumulativePV].
    rewrite typicalPrice_fin, Hpv. unfold dbl.
    rewrite fmul_fin, fadd_fin. reflexivity. }
  assert (E2 : cumulativeVolume a' = Fin cv').
  { unfold a', VWAPD.step. cbn [cumulativeVolume].
    rewrite Hcv. unfold dbl. rewrite fadd_fin. reflexivity. }
  split; [exact E1|]. split; [exact E2|]. split; [lra|].
  unfold a', VWAPD.step. cbn [out vwap].
  rewrite map_app. cbn [map value].
  rewrite typicalPrice_fin, Hpv, Hcv. unfold dbl.
  rewrite fmul_fin, !fadd_fin. fold v. fold pv' cv'.
  rewrite fdiv_fin by lra. reflexivity.
Qed.

Lemma foldD_values (bars : list PriceBar) :
  forall (a : acc) (pv cv : Q),
    cumulativePV a = Fin pv -> cumulativeVolume a = Fin cv ->
    0 <= cv -> (forall d, In d bars -> 0 < volume d) ->
    map value (vwap (out (fold_left (VWAPD.step Math_sqrt) bars a))) =
    map value (vwap (out a)) ++ map Fin (VWAPD.vwap_values pv cv bars).
Proof.
  induction bars as [|d rest IH]; intros a pv cv Hpv Hcv Hc Hvol.
  - simpl. now rewrite app_nil_r.
  - assert (Hd : 0 < volume d) by (apply Hvol; now left).
    destruct (stepD_values a d pv cv Hpv Hcv Hc Hd) as (E1 & E2 & E0 & E3).
    cbn [fold_left VWAPD.vwap_values].
    rewrite (IH _ _ _ E1 E2 E0); [| intros; apply Hvol; now right].
    rewrite E3, <- app_assoc. reflexivity.
Qed.

Lemma calculateVWAPD_values (bars : list PriceBar) :
  (forall d, In d bars -> 0 < volume d) ->
  map value (vwap (VWAPD.calculateVWAP Math_sqrt bars)) =
  map Fin (VWAPD.vwap_values 0 0 bars).
Proof.
  intro H. unfold VWAPD.calculateVWAP.
  rewrite (foldD_values bars _ 0 0); try reflexivity; try lra; assumption.
Qed.

End WithSqrt.

(** C8, as amended.  In doubles, for a series whose volumes and
    typical prices are all strictly positive, every VWAP value is a
    number, and it leaves the interval between the least and the
    greatest typical price [(high + low + close) / 3] of the bars up to
    and including its own by no more than the rounding of its
    operations: at index [i] by the factor
    [((1 + u) / (1 - u))^(2i + 3)], with [u = 2^-53]. *)
Theorem C8_vwap_within_typical_prices_up_to_rounding :
  forall (Math_sqrt : num -> num) (priceData : list PriceBar) (i : nat),
    (forall d, In d priceData -> 0 < volume d) ->
    (forall d, In d priceData -> 0 < VWAPD.typicalPrice d) ->
    (i < length priceData)%nat ->
    let tps := map VWAPD.typicalPrice (firstn (S i) priceData) in
    let result := VWAPD.calculateVWAP Math_sqrt priceData in
    length (vwap result) = length priceData /\
    exists v,
      value (nth i (vwap result) (mkLine NaN NaN)) = Fin v /\
      Qmin_list tps <= v * slack (2 * i + 3) /\
      v <= Qmax_list tps * slack (2 * i + 3).
Proof.
  intros Math_sqrt priceData i Hvol Hpos Hi tps result.
  pose proof (calculateVWAPD_values Math_sqrt priceData Hvol) as E.
  fold result in E.
  split.
  - rewrite <- (length_map value), E, length_map. apply length_vwap_valuesD.
  - exists (nth i (VWAPD.vwap_values 0 0 priceData) 0). split.
    + rewrite <- (map_nth value), E.
      change (value (mkLine NaN NaN)) with NaN.
      rewrite (nth_indep _ NaN (Fin 0))
        by (rewrite length_map, length_vwap_valuesD; lia).
      apply map_nth.
    + assert (Hne : tps <> []).
      { unfold tps. destruct priceData; [simpl in Hi; lia | discriminate]. }
      assert (Hlo : 0 < Qmin_list tps).
      { apply Qmin_list_pos; [assumption|].
        intros y Hy. unfold tps in Hy. apply in_map_iff in Hy.
        destruct Hy as (d & <- & Hd). apply Hpos.
        apply (IndicatorsMore.firstn_In _ _ _ Hd). }
      apply (vwap_values_near (Qmin_list tps) (Qmax_list tps) priceData
               i 0 0 0 0); try assumption; cbn [qpow Nat.mul]; try lra.
      intros d Hd. split.
      * apply Qmin_list_le. unfold tps. now apply in_map.
      * apply Qmax_list_ge. unfold tps. now apply in_map.
Qed.

(** C8 as stated fails: two bars at 100.06 with volumes 3 and 7 have
    the typical price 100.06 both, and the second VWAP value is
    100.06000000000002, above the greatest typical price. *)
Lemma C8_counterexample_rounded_average :
  let priceData :=
    [mkBar 1000 (10006 # 100) (10006 # 100) (10006 # 100) (10006 # 100) 3;
     mkBar 2000 (10006 # 100) (10006 # 100) (10006 # 100) (10006 # 100) 7] in
  let tps := map VWAPD.typicalPrice (firstn 2 priceData) in
  let result := VWAPD.calculateVWAP (fun x => x) priceData in
  (forall d, In d priceData -> 0 < volume d) /\
  tps = [round64 (10006 # 100); round64 (10006 # 100)] /\
  exists v,
    value (nth 1 (vwap result) (mkLine NaN NaN)) = Fin v /\
    Qmax_list tps < v /\
    ~ (Qmin_list tps <= v /\ v <= Qmax_list tps).
Proof.
  intros priceData tps result.
  split; [intros d [<- | [<- | []]]; reflexivity|].
  remember tps as l eqn:El. unfold tps in El. vm_compute in El. subst l.
  remember (value (nth 1 (vwap result) (mkLine NaN NaN))) as r eqn:E.
  unfold result in E. vm_compute in E. subst r.
  split; [vm_compute; reflexivity|].
  eexists. split; [reflexivity|].
  split; [reflexivity|].
  intros [_ H]. apply (Qle_not_lt _ _ H). reflexivity.
Qed.

(** C8 at three bars of positive volume, index 2. *)
Lemma C8_witness :
  let priceData :=
    [mkBar 1000 100 102 98 100 5; mkBar 2000 100 111 100 110 7;
     mkBar 3000 110 112 103 104 2] in
  let tps := map VWAPD.typicalPrice (firstn 3 priceData) in
  let result := VWAPD.calculateVWAP (fun x => x) priceData in
  length (vwap result) = length priceData /\
  exists v,
    value (nth 2 (vwap result) (mkLine NaN NaN)) = Fin v /\
    Qmin_list tps <= v * slack (2 * 2 + 3) /\
    v <= Qmax_list tps * slack (2 * 2 + 3).
Proof.
  intro priceData.
  apply (C8_vwap_within_typical_prices_up_to_rounding (fun x => x) priceData 2).
  - intros d [<- | [<- | [<- | []]]]; reflexivity.
  - intros d [<- | [<- | [<- | []]]]; vm_compute; reflexivity.
  - simpl. lia.
Defined.

End VWAPDFacts.

(** ** The indicator engine in doubles *)

Module IndicatorsDFacts.
Import Double DoubleFacts RenkoDFacts VWAPFacts VWAPDFacts.
Import IndicatorNotions IndicatorsMore IndicatorsD.

(** A value between [lo * (1 - u)^n] and [hi * (1 + u)^n] is within the
    slack of [n] roundings of [lo] and [hi]. *)
Lemma within_slack (n : nat) (lo hi v : Q) :
  0 < lo ->
  lo * qpow (1 - u) n <= v -> v <= hi * qpow (1 + u) n ->
  lo <= v * slack n /\ v <= hi * slack n.
Proof.
  intros Hlo H1 H2. destruct one_minus_u as (HB0 & HB1 & HA).
  pose proof (qpow_pos (1 - u) n HB0) as PB.
  pose proof (qpow_pos (1 + u) n ltac:(lra)) as PA.
  pose proof (qpow_le_1 (1 - u) n HB0 HB1) as LB.
  pose proof (qpow_ge_1 (1 + u) n HA) as GA.
  set (a := qpow (1 + u) n) in *. set (b := qpow (1 - u) n) in *.
  assert (Hv : 0 < v) by nra.
  assert (Hhi : 0 < hi) by nra.
  rewrite slack_quotient. fold a b.
  assert (Ha : a <= a / b).
  { apply Qle_shift_div_l; [assumption|]. nra. }
  split.
  - apply Qle_trans with (lo * b * (a / b)).
    + assert (E : lo * b * (a / b) == lo * a) by (field; lra).
      rewrite E. nra.
    + apply Qmult_le_compat_r; [assumption|]. lra.
  - apply Qle_trans with (hi * a); [assumption|].
    rewrite (Qmult_comm hi), (Qmult_comm hi (a / b)).
    apply Qmult_le_compat_r; [assumption | lra].
Qed.

Lemma round64_1 : round64 1 = 1.
Proof. reflexivity. Qed.

Lemma round64_0 (x : Q) : x == 0 -> round64 x = 0.
Proof. intro H. now rewrite (round64_proper x 0 H). Qed.

(** *** SMA *)

Lemma skipn_In {A} (n : nat) (l : list A) (x : A) :
  In x (skipn n l) -> In x l.
Proof.
  intro H. rewrite <- (firstn_skipn n l). apply in_or_app. now right.
Qed.

Lemma fold_fadd_fin (w : list Q) :
  forall a, fold_left fadd (map Fin w) (Fin a)
            = Fin (fold_left (fun a b => round64 (a + b)) w a).
Proof.
  induction w as [|x w IH]; intro a; [reflexivity|].
  cbn [map fold_left]. rewrite fadd_fin. apply IH.
Qed.

(** One rounded addition to a sum of values between two bounds. *)
Lemma sum_step (A B lo hi x S ak bk a a' : Q) :
  0 < B -> B <= 1 -> 1 <= A -> 0 < lo -> lo <= x -> x <= hi -> 0 <= S ->
  0 < bk -> bk <= 1 -> 1 <= ak ->
  lo * S * bk <= a -> a <= hi * S * ak ->
  (a + x) * B <= a' -> a' <= (a + x) * A ->
  lo * (S + 1) * (B * bk) <= a' /\ a' <= hi * (S + 1) * (A * ak).
Proof.
  intros HB0 HB1 HA Hlo Hx1 Hx2 HS Hbk0 Hbk1 Hak H1 H2 H3 H4. split.
  - apply Qle_trans with ((a + x) * B); [|assumption].
    assert (E : lo * (S + 1) * (B * bk) == (lo * S * bk + lo * bk) * B)
      by ring.
    rewrite E. apply Qmult_le_compat_r; [|lra].
    pose proof (mul_shrink lo bk ltac:(lra) Hbk1). lra.
  - apply Qle_trans with ((a + x) * A); [assumption|].
    assert (E : hi * (S + 1) * (A * ak) == (hi * S * ak + hi * ak) * A)
      by ring.
    rewrite E. apply Qmult_le_compat_r; [|lra].
    pose proof (mul_grow hi ak ltac:(lra) Hak). lra.
Qed.

Lemma rounded_sum_bounds (lo hi : Q) (w : list Q) :
  0 < lo -> (forall x, In x w -> lo <= x /\ x <= hi) ->
  forall (a S : Q) (k : nat),
    0 <= S ->
    lo * S * qpow (1 - u) k <= a -> a <= hi * S * qpow (1 + u) k ->
    let r := fold_left (fun a b => round64 (a + b)) w a in
    let n := (k + length w)%nat in
    let S' := S + inject_Z (Z.of_nat (length w)) in
    lo * S' * qpow (1 - u) n <= r /\ r <= hi * S' * qpow (1 + u) n.
Proof.
  intros Hlo. destruct one_minus_u as (HB0 & HB1 & HA).
  induction w as [|x w IH]; intros Hw a S k HS H1 H2.
  - cbn [fold_left length]. rewrite Nat.add_0_r.
    change (inject_Z (Z.of_nat 0)) with 0. rewrite Qplus_0_r. split; assumption.
  - cbn [fold_left length].
    destruct (Hw x (or_introl eq_refl)) as [Hx1 Hx2].
    assert (Ha : 0 <= a).
    { apply Qle_trans with (lo * S * qpow (1 - u) k); [|assumption].
      apply mul3_nonneg; [lra | assumption |].
      apply Qlt_le_weak, qpow_pos, HB0. }
    destruct (round64_between (a + x) ltac:(lra)) as [R1 R2].
    destruct (sum_step (1 + u) (1 - u) lo hi x S (qpow (1 + u) k)
                (qpow (1 - u) k) a (round64 (a + x))) as [S1 S2];
      try assumption; try lra.
    { apply qpow_pos, HB0. }
    { apply qpow_le_1; assumption. }
    { apply qpow_ge_1; assumption. }
    change ((1 - u) * qpow (1 - u) k) with (qpow (1 - u) (Datatypes.S k)) in S1.
    change ((1 + u) * qpow (1 + u) k) with (qpow (1 + u) (Datatypes.S k)) in S2.
    specialize (IH (fun y Hy => Hw y (or_intror Hy)) (round64 (a + x)) (S + 1)
                  (Datatypes.S k) ltac:(lra) S1 S2).
    cbv zeta in IH.
    replace (k + Datatypes.S (length w))%nat
      with (Datatypes.S k + length w)%nat by lia.
    assert (E : S + inject_Z (Z.of_nat (Datatypes.S (length w)))
                == S + 1 + inject_Z (Z.of_nat (length w))).
    { rewrite Nat2Z.inj_succ. unfold Z.succ. rewrite inject_Z_plus.
      change (inject_Z 1) with 1. ring. }
    rewrite E. exact IH.
Qed.

(** The entry of the SMA array at an index with a full window. *)
Lemma smaD_defined (closes : list Q) (period : Z) (idx : nat) :
  (1 <= period)%Z -> (period - 1 <= Z.of_nat idx)%Z ->
  (idx < length closes)%nat ->
  (forall c, In c closes -> 0 < c) ->
  let w := trailing period idx (map round64 closes) in
  let n := (Z.to_nat period + 1)%nat in
  exists v,
    nth idx (calculateSMA (map dbl closes) period) None = Some (Fin v) /\
    v = round64 (rounded_sum w / inject_Z period) /\
    Qmin_list w <= v * slack n /\ v <= Qmax_list w * slack n.
Proof.
  intros Hp Hi Hlen Hpos w n.
  assert (Emap : map dbl closes = map Fin (map round64 closes))
    by (now rewrite map_map).
  assert (Hlen' : (idx < length (map round64 closes))%nat)
    by (now rewrite length_map).
  unfold calculateSMA.
  rewrite (nth_mapi _ _ _ NaN None) by (now rewrite length_map).
  destruct (Z.of_nat idx <? period - 1)%Z eqn:E; [apply Z.ltb_lt in E; lia|].
  rewrite Emap.
  destruct (slice_trailing (map round64 closes) period idx Hp Hi Hlen')
    as [-> Hw].
  fold w in Hw |- *.
  unfold sum. rewrite fold_fadd_fin. fold (rounded_sum w).
  assert (Hpq : 0 < inject_Z period).
  { change 0 with (inject_Z 0). rewrite <- Zlt_Qlt. lia. }
  unfold of_Z. rewrite fdiv_fin by lra.
  eexists. split; [reflexivity|]. split; [reflexivity|].
  destruct one_minus_u as (HB0 & HB1 & HA).
  assert (Hin : forall x, In x w -> 0 < x).
  { intros x Hx. unfold w, trailing in Hx.
    apply firstn_In in Hx. apply skipn_In in Hx.
    apply in_map_iff in Hx. destruct Hx as (c & <- & Hc).
    apply round64_pos, Hpos, Hc. }
  assert (Hne : w <> []).
  { intro F. rewrite F in Hw. simpl in Hw. lia. }
  assert (Hlo : 0 < Qmin_list w) by (now apply Qmin_list_pos).
  destruct (rounded_sum_bounds (Qmin_list w) (Qmax_list w) w Hlo) with
    (a := 0) (S := 0) (k := 0%nat) as [B1 B2].
  { intros x Hx. split; [now apply Qmin_list_le | now apply Qmax_list_ge]. }
  { lra. }
  { cbn [qpow]. lra. }
  { cbn [qpow]. lra. }
  fold (rounded_sum w) in B1, B2. cbn [Nat.add] in B1, B2.
  rewrite Hw, Z2Nat.id in B1, B2 by lia. rewrite Qplus_0_l in B1, B2.
  set (s := rounded_sum w) in *.
  set (p := inject_Z period) in *.
  set (b := qpow (1 - u) (Z.to_nat period)) in *.
  set (a := qpow (1 + u) (Z.to_nat period)) in *.
  assert (Pb : 0 < b) by (apply qpow_pos, HB0).
  assert (Q1 : Qmin_list w * b <= s / p).
  { apply Qle_shift_div_l; [assumption|]. lra. }
  assert (Q2 : s / p <= Qmax_list w * a).
  { apply Qle_shift_div_r; [assumption|]. lra. }
  assert (Hq : 0 <= s / p) by nra.
  destruct (round64_between (s / p) Hq) as [R1 R2].
  apply within_slack; [assumption | |].
  - unfold n. rewrite Nat.add_comm. cbn [Nat.add qpow]. fold b.
    apply Qle_trans with (s / p * (1 - u)); [|assumption].
    assert (E1 : Qmin_list w * ((1 - u) * b) == Qmin_list w * b * (1 - u))
      by ring.
    rewrite E1. apply Qmult_le_compat_r; lra.
  - unfold n. rewrite Nat.add_comm. cbn [Nat.add qpow]. fold a.
    apply Qle_trans with (s / p * (1 + u)); [assumption|].
    assert (E1 : Qmax_list w * ((1 + u) * a) == Qmax_list w * a * (1 + u))
      by ring.
    rewrite E1. apply Qmult_le_compat_r; lra.
Qed.

(** X15.  In doubles, for a period of at least one bar the SMA array
    is [null] at the indexes below [period - 1]; from there on its entry
    is the sum of the [period] closes that end at the index, added from
    [0] in their order, divided by [period], every operation rounded;
    for positive closes it leaves the interval between the least and the
    greatest of them by no more than the slack of [period + 1]
    roundings. *)
Theorem X15_sma_is_the_rounded_mean_of_the_trailing_window :
  forall (closes : list Q) (period : Z) (idx : nat),
    (1 <= period)%Z -> (idx < length closes)%nat ->
    (forall c, In c closes -> 0 < c) ->
    let sma := calculateSMA (map dbl closes) period in
    let w := trailing period idx (map round64 closes) in
    let n := (Z.to_nat period + 1)%nat in
    ((Z.of_nat idx < period - 1)%Z -> nth idx sma (Some NaN) = None) /\
    ((period - 1 <= Z.of_nat idx)%Z ->
       length w = Z.to_nat period /\
       exists v,
         nth idx sma None = Some (Fin v) /\
         v = round64 (rounded_sum w / inject_Z period) /\
         Qmin_list w <= v * slack n /\ v <= Qmax_list w * slack n).
Proof.
  intros closes period idx Hp Hlen Hpos sma w n. split.
  - intro H. unfold sma, calculateSMA.
    rewrite (nth_mapi _ _ _ NaN (Some NaN)) by (now rewrite length_map).
    destruct (Z.of_nat idx <? period - 1)%Z eqn:E; [reflexivity|].
    apply Z.ltb_ge in E. lia.
  - intro H. split.
    + apply slice_trailing; [assumption | assumption |].
      now rewrite length_map.
    + now apply smaD_defined.
Qed.

(** X15 at the closes 10.1, 20.2, 60.3, 40.4 with period 3, index 3. *)
Lemma X15_witness :
  let closes := [101 # 10; 202 # 10; 603 # 10; 404 # 10] in
  let sma := calculateSMA (map dbl closes) 3 in
  let w := trailing 3 3 (map round64 closes) in
  ((Z.of_nat 3 < 3 - 1)%Z -> nth 3 sma (Some NaN) = None) /\
  (length w = 3%nat /\
   exists v,
     nth 3 sma None = Some (Fin v) /\
     v = round64 (rounded_sum w / 3) /\
     Qmin_list w <= v * slack 4 /\ v <= Qmax_list w * slack 4).
Proof.
  intro closes.
  destruct (X15_sma_is_the_rounded_mean_of_the_trailing_window closes 3 3)
    as [H1 H2].
  - lia.
  - simpl. lia.
  - intros c [<- | [<- | [<- | [<- | []]]]]; reflexivity.
  - split; [exact H1 | apply H2; lia].
Defined.

(** *** EMA *)

Lemma ema_from_values (k : Q) (rest : list Q) :
  forall prev,
    ema_from (Fin k) (Fin prev) (map Fin rest)
    = map Fin (ema_values k prev rest).
Proof.
  induction rest as [|x rest IH]; intro prev; [reflexivity|].
  cbn [map ema_from ema_values].
  rewrite fsub_fin, !fmul_fin, fadd_fin, IH. reflexivity.
Qed.

Lemma length_ema_values (k : Q) (rest : list Q) :
  forall prev, length (ema_values k prev rest) = length rest.
Proof.
  induction rest as [|x rest IH]; intro prev; [reflexivity|].
  cbn [ema_values length]. now rewrite IH.
Qed.

Lemma smoothing_fin (period : Z) : (1 <= period)%Z ->
  fdiv (Fin 2) (fadd (of_Z period) (Fin 1)) = Fin (smoothing period) /\
  0 < smoothing period /\ smoothing period <= 1.
Proof.
  intro Hp. unfold of_Z. rewrite fadd_fin.
  assert (Hq : 2 <= inject_Z period + 1).
  { change 2 with (inject_Z 1 + 1). apply Qplus_le_l. rewrite <- Zle_Qle. lia. }
  assert (H2 : 2 <= round64 (inject_Z period + 1)).
  { change 2 with (round64 2). now apply round64_mono. }
  rewrite fdiv_fin by lra. fold (smoothing period).
  split; [reflexivity|]. unfold smoothing. split.
  - apply round64_pos. apply Qlt_shift_div_l; lra.
  - change 1 with (round64 1) at 2. apply round64_mono.
    apply Qle_shift_div_r; lra.
Qed.

Lemma calculateEMAD_values (data : list Q) (period : Z) :
  (1 <= period)%Z -> data <> [] ->
  calculateEMA (map Fin data) period
  = map Fin (nth 0 data 0
             :: ema_values (smoothing period) (nth 0 data 0) (tl data)).
Proof.
  intros Hp Hne. unfold calculateEMA.
  destruct (smoothing_fin period Hp) as (-> & _).
  destruct data as [|x rest]; [congruence|].
  cbn [map nth tl]. now rewrite ema_from_values.
Qed.

(** One step of the average: three roundings on the way. *)
Lemma ema_step (lo hi x prev k al be : Q) :
  0 < k -> k <= 1 -> 0 < lo -> lo <= x -> x <= hi ->
  1 <= al -> 0 < be -> be <= 1 ->
  lo * be <= prev -> prev <= hi * al ->
  let A := 1 + u in
  let B := 1 - u in
  let e := round64 (round64 (x * k) + round64 (prev * round64 (1 - k))) in
  lo * (be * (B * (B * B))) <= e /\ e <= hi * (al * (A * (A * A))).
Proof.
  intros Hk0 Hk1 Hlo Hx1 Hx2 Hal Hbe0 Hbe1 Hp1 Hp2 A B e.
  destruct one_minus_u as (HB0 & HB1 & HA). fold A in HA. fold B in HB0, HB1.
  assert (Hhi : 0 < hi) by lra.
  assert (Hprev : 0 < prev) by nra.
  destruct (round64_between (1 - k) ltac:(lra)) as [K1 K2]. fold A B in K1, K2.
  set (k1 := round64 (1 - k)) in *.
  assert (Hk1' : 0 <= k1) by (apply round64_nonneg; lra).
  destruct (round64_between (x * k) ltac:(nra)) as [X1 X2]. fold A B in X1, X2.
  set (a1 := round64 (x * k)) in *.
  destruct (round64_between (prev * k1) ltac:(nra)) as [Y1 Y2].
  fold A B in Y1, Y2.
  set (a2 := round64 (prev * k1)) in *.
  assert (Ha1 : 0 <= a1) by (apply round64_nonneg; nra).
  assert (Ha2 : 0 <= a2) by (apply round64_nonneg; nra).
  destruct (round64_between (a1 + a2) ltac:(lra)) as [E1 E2].
  fold A B in E1, E2. fold e in E1, E2.
  split.
  - apply Qle_trans with ((a1 + a2) * B); [|assumption].
    assert (E : lo * (be * (B * (B * B))) == (lo * be * (B * B)) * B) by ring.
    rewrite E. apply Qmult_le_compat_r; [|lra].
    (* a1 >= lo k B >= lo be B^2 k ; a2 >= lo be (1-k) B^2 *)
    assert (L1 : lo * be * (B * B) * k <= a1).
    { apply Qle_trans with (x * k * B); [|assumption].
      assert (F : lo * be * (B * B) * k == (lo * k * B) * (be * B)) by ring.
      rewrite F.
      apply Qle_trans with (lo * k * B).
      - apply mul_shrink; [apply mul3_nonneg; lra | nra].
      - apply Qmult_le_compat_r; [|lra]. apply Qmult_le_compat_r; lra. }
    assert (L2 : lo * be * (B * B) * (1 - k) <= a2).
    { apply Qle_trans with (prev * k1 * B); [|assumption].
      assert (F : lo * be * (B * B) * (1 - k) == (lo * be) * ((1 - k) * B) * B)
        by ring.
      rewrite F. apply Qmult_le_compat_r; [|lra].
      apply Qle_trans with (lo * be * k1).
      - rewrite <- !Qmult_assoc, (Qmult_comm lo), (Qmult_comm lo (be * k1)).
        apply Qmult_le_compat_r; [|lra].
        rewrite (Qmult_comm be), (Qmult_comm be k1).
        apply Qmult_le_compat_r; lra.
      - apply Qmult_le_compat_r; lra. }
    lra.
  - apply Qle_trans with ((a1 + a2) * A); [assumption|].
    assert (E : hi * (al * (A * (A * A))) == (hi * al * (A * A)) * A) by ring.
    rewrite E. apply Qmult_le_compat_r; [|lra].
    assert (U1 : a1 <= hi * al * (A * A) * k).
    { apply Qle_trans with (x * k * A); [assumption|].
      assert (F : hi * al * (A * A) * k == (hi * k * A) * (al * A)) by ring.
      rewrite F.
      apply Qle_trans with (hi * k * A).
      - apply Qmult_le_compat_r; [|lra]. apply Qmult_le_compat_r; lra.
      - apply mul_grow; [apply mul3_nonneg; lra | nra]. }
    assert (U2 : a2 <= hi * al * (A * A) * (1 - k)).
    { apply Qle_trans with (prev * k1 * A); [assumption|].
      assert (F : hi * al * (A * A) * (1 - k) == (hi * al) * ((1 - k) * A) * A)
        by ring.
      rewrite F. apply Qmult_le_compat_r; [|lra].
      apply Qle_trans with (hi * al * k1).
      - apply Qmult_le_compat_r; lra.
      - rewrite <- !Qmult_assoc, (Qmult_comm hi), (Qmult_comm hi (al * _)).
        apply Qmult_le_compat_r; [|lra].
        rewrite (Qmult_comm al), (Qmult_comm al (_ * _)).
        apply Qmult_le_compat_r; lra. }
    lra.
Qed.

Lemma qpow_triple_S (a : Q) (j : nat) :
  qpow a (3 * S j) == qpow a (3 * j) * (a * (a * a)).
Proof.
  replace (3 * S j)%nat with (S (S (S (3 * j)))) by lia. cbn [qpow]. ring.
Qed.

Lemma ema_values_near (lo hi k : Q) (rest : list Q) :
  0 < k -> k <= 1 -> 0 < lo ->
  forall (i j : nat) (prev : Q),
    lo * qpow (1 - u) (3 * j) <= prev -> prev <= hi * qpow (1 + u) (3 * j) ->
    (i < length rest)%nat ->
    (forall x, In x (firstn (S i) rest) -> lo <= x /\ x <= hi) ->
    lo * qpow (1 - u) (3 * (j + S i))
      <= nth i (ema_values k prev rest) 0 /\
    nth i (ema_values k prev rest) 0
      <= hi * qpow (1 + u) (3 * (j + S i)).
Proof.
  intros Hk0 Hk1 Hlo. destruct one_minus_u as (HB0 & HB1 & HA).
  induction rest as [|x rest IH]; intros i j prev P1 P2 Hi Hw.
  - simpl in Hi. lia.
  - destruct (Hw x (or_introl eq_refl)) as [Hx1 Hx2].
    destruct (ema_step lo hi x prev k (qpow (1 + u) (3 * j))
                (qpow (1 - u) (3 * j))) as [E1 E2]; try assumption.
    { apply qpow_ge_1, HA. }
    { apply qpow_pos, HB0. }
    { apply qpow_le_1; assumption. }
    rewrite <- qpow_triple_S in E1, E2.
    cbn [ema_values].
    destruct i as [|i]; cbn [nth].
    + replace (j + 1)%nat with (S j) by lia. split; assumption.
    + replace (j + S (S i))%nat with (S j + S i)%nat by lia.
      apply IH; try assumption.
      * simpl in Hi. lia.
      * intros y Hy. apply Hw. now right.
Qed.

(** The entries of the EMA array of positive data. *)
Lemma emaD_near :
  forall (closes : list Q) (period : Z) (i : nat),
    (1 <= period)%Z -> (i < length closes)%nat ->
    (forall c, In c closes -> 0 < c) ->
    let ema := calculateEMA (map dbl closes) period in
    let ds := map round64 closes in
    length ema = length closes /\
    nth 0 ema NaN = Fin (nth 0 ds 0) /\
    exists v,
      nth i ema NaN = Fin v /\
      Qmin_list (firstn (S i) ds) <= v * slack (3 * i) /\
      v <= Qmax_list (firstn (S i) ds) * slack (3 * i).
Proof.
  intros closes period i Hp Hi Hpos ema ds.
  assert (Emap : map dbl closes = map Fin ds)
    by (unfold ds; now rewrite map_map).
  assert (Hlen : length ds = length closes) by (unfold ds; apply length_map).
  assert (Hne : ds <> []).
  { intro F. rewrite F in Hlen. simpl in Hlen. lia. }
  assert (Hds : forall x, In x ds -> 0 < x).
  { intros x Hx. unfold ds in Hx. apply in_map_iff in Hx.
    destruct Hx as (c & <- & Hc). apply round64_pos, Hpos, Hc. }
  unfold ema. rewrite Emap, (calculateEMAD_values ds period Hp Hne).
  destruct (smoothing_fin period Hp) as (_ & Hk0 & Hk1).
  set (k := smoothing period) in *.
  destruct ds as [|d0 rest] eqn:Eds; [congruence|].
  cbn [nth tl map length]. rewrite length_map, length_ema_values.
  split; [simpl in Hlen; lia|]. split; [reflexivity|].
  set (w := firstn (S i) (d0 :: rest)).
  assert (Hw : forall x, In x w -> Qmin_list w <= x /\ x <= Qmax_list w).
  { intros x Hx. split; [now apply Qmin_list_le | now apply Qmax_list_ge]. }
  assert (Hlo : 0 < Qmin_list w).
  { apply Qmin_list_pos; [unfold w; discriminate|].
    intros y Hy. apply Hds. now apply (firstn_In (S i)). }
  assert (H0 : In d0 w) by (unfold w; cbn [firstn]; now left).
  destruct i as [|i].
  - exists d0. split; [reflexivity|].
    change (slack (3 * 0)) with 1.
    destruct (Hw d0 H0). lra.
  - exists (nth i (ema_values k d0 rest) 0). split.
    + cbn [nth]. apply nth_map_Fin. rewrite length_ema_values.
      simpl in Hlen. lia.
    + destruct (ema_values_near (Qmin_list w) (Qmax_list w) k rest
                  Hk0 Hk1 Hlo i 0 d0) as [N1 N2].
      * change (3 * 0)%nat with 0%nat. cbn [qpow]. destruct (Hw d0 H0). lra.
      * change (3 * 0)%nat with 0%nat. cbn [qpow]. destruct (Hw d0 H0). lra.
      * simpl in Hlen. lia.
      * intros x Hx. apply Hw. unfold w. right. exact Hx.
      * apply within_slack; assumption.
Qed.

(** X16.  In doubles, for a period of at least one bar the EMA array
    has one entry per element of its data and starts at the first
    element; for positive data every entry is a finite number, and the
    entry at index [i] leaves the interval between the least and the
    greatest of the elements up to [i] by no more than the slack of
    [3i] roundings. *)
Theorem X16_ema_starts_at_first_and_stays_near_the_range :
  forall (closes : list Q) (period : Z) (i : nat),
    (1 <= period)%Z -> (i < length closes)%nat ->
    (forall c, In c closes -> 0 < c) ->
    let ema := calculateEMA (map dbl closes) period in
    let ds := map round64 closes in
    length ema = length closes /\
    nth 0 ema NaN = Fin (nth 0 ds 0) /\
    exists v,
      nth i ema NaN = Fin v /\
      Qmin_list (firstn (S i) ds) <= v * slack (3 * i) /\
      v <= Qmax_list (firstn (S i) ds) * slack (3 * i).
Proof. exact emaD_near. Qed.

(** X16 at the closes 0.9, 0.9, 0.9 with period 12, index 2. *)
Lemma X16_witness :
  let closes := [9 # 10; 9 # 10; 9 # 10] in
  let ema := calculateEMA (map dbl closes) 12 in
  let ds := map round64 closes in
  length ema = length closes /\
  nth 0 ema NaN = Fin (nth 0 ds 0) /\
  exists v,
    nth 2 ema NaN = Fin v /\
    Qmin_list (firstn 3 ds) <= v * slack (3 * 2) /\
    v <= Qmax_list (firstn 3 ds) * slack (3 * 2).
Proof.
  intro closes.
  apply (X16_ema_starts_at_first_and_stays_near_the_range closes 12 2).
  - lia.
  - simpl. lia.
  - intros c [<- | [<- | [<- | []]]]; reflexivity.
Defined.

(** *** MACD *)

Lemma calculateEMA_fin (data : list Q) (period : Z) :
  (1 <= period)%Z -> data <> [] ->
  exists vs,
    calculateEMA (map Fin data) period = map Fin vs /\
    length vs = length data /\ nth 0 vs 0 = nth 0 data 0.
Proof.
  intros Hp Hne. rewrite (calculateEMAD_values data period Hp Hne).
  eexists. split; [reflexivity|]. split; [|reflexivity].
  destruct data as [|x rest]; [congruence|].
  cbn [tl length]. now rewrite length_ema_values.
Qed.

Lemma mapi_from_fsub (xs ys : list Q) :
  forall k pre,
    length pre = k -> length xs = length ys ->
    mapi_from k (fun val idx => fsub val (get_num (map Fin (pre ++ ys))
                                            (Z.of_nat idx)))
      (map Fin xs)
    = map Fin (map (fun xy => round64 (fst xy - snd xy)) (combine xs ys)).
Proof.
  revert ys. induction xs as [|x xs IH]; intros ys k pre Hk Hlen.
  - reflexivity.
  - destruct ys as [|y ys]; [discriminate|].
    cbn [map mapi_from combine fst snd].
    rewrite get_num_nth, <- Hk.
    rewrite nth_map_Fin by (rewrite length_app; simpl; lia).
    rewrite app_nth2, Nat.sub_diag by lia. cbn [nth].
    rewrite fsub_fin. f_equal.
    replace (pre ++ y :: ys) with ((pre ++ [y]) ++ ys)
      by (now rewrite <- app_assoc).
    apply IH; [rewrite length_app; simpl; lia | simpl in Hlen; lia].
Qed.

Lemma macdLine_fin (closes : list Q) :
  closes <> [] ->
  exists e12 e26,
    ema12 (map dbl closes) = map Fin e12 /\
    ema26 (map dbl closes) = map Fin e26 /\
    length e12 = length closes /\ length e26 = length closes /\
    nth 0 e12 0 = nth 0 e26 0 /\
    macdLine (map dbl closes)
    = map Fin (map (fun xy => round64 (fst xy - snd xy)) (combine e12 e26)).
Proof.
  intro Hne.
  assert (Emap : map dbl closes = map Fin (map round64 closes))
    by (now rewrite map_map).
  assert (Hne' : map round64 closes <> [])
    by (destruct closes; [congruence | discriminate]).
  destruct (calculateEMA_fin (map round64 closes) 12 ltac:(lia) Hne')
    as (e12 & E12 & L12 & F12).
  destruct (calculateEMA_fin (map round64 closes) 26 ltac:(lia) Hne')
    as (e26 & E26 & L26 & F26).
  rewrite length_map in L12, L26.
  exists e12, e26. unfold macdLine, ema12, ema26. rewrite Emap, E12, E26.
  repeat split; try assumption; try congruence.
  unfold mapi. apply (mapi_from_fsub e12 e26 0 []); [reflexivity | lia].
Qed.

Lemma nth_combine_map {A B C} (f : A * B -> C) (xs : list A) (ys : list B)
    (i : nat) (da : A) (db : B) (dc : C) :
  (i < length xs)%nat -> length xs = length ys ->
  nth i (map f (combine xs ys)) dc = f (nth i xs da, nth i ys db).
Proof.
  revert ys i. induction xs as [|x xs IH]; intros ys i Hi Hlen.
  - simpl in Hi. lia.
  - destruct ys as [|y ys]; [discriminate|].
    destruct i as [|i]; [reflexivity|].
    cbn [combine map nth]. apply IH; simpl in *; lia.
Qed.

Lemma Qabs_round64 (d : Q) : Qabs (round64 d) <= Qabs d * (1 + u).
Proof.
  pose proof (round64_error d) as H. fold u in H.
  pose proof (Qabs_triangle (round64 d - d) d) as T.
  assert (E : round64 d - d + d == round64 d) by ring.
  rewrite E in T. lra.
Qed.

(** X17.  In doubles, the MACD line and the signal line have one
    finite entry per close, and both start at [0]; the entry of the
    MACD line is the rounded difference of the two averages, and for
    positive closes its absolute value is at most the spread of the
    closes up to its index, widened by the slack of [3i] roundings on
    either side and rounded once more. *)
Theorem X17_macd_starts_at_zero_and_stays_near_the_spread :
  forall (closes : list Q) (i : nat),
    (i < length closes)%nat ->
    (forall c, In c closes -> 0 < c) ->
    let prices := map dbl closes in
    let ds := map round64 closes in
    let lo := Qmin_list (firstn (S i) ds) in
    let hi := Qmax_list (firstn (S i) ds) in
    length (macdLine prices) = length closes /\
    length (signalLine prices) = length closes /\
    nth 0 (macdLine prices) NaN = Fin 0 /\
    nth 0 (signalLine prices) NaN = Fin 0 /\
    exists e12 e26 m s,
      nth i (ema12 prices) NaN = Fin e12 /\
      nth i (ema26 prices) NaN = Fin e26 /\
      nth i (macdLine prices) NaN = Fin m /\
      nth i (signalLine prices) NaN = Fin s /\
      m = round64 (e12 - e26) /\
      Qabs m <= (hi * slack (3 * i) - lo / slack (3 * i)) * (1 + u).
Proof.
  intros closes i Hi Hpos prices ds lo hi.
  assert (Hne : closes <> []) by (intro F; rewrite F in Hi; simpl in Hi; lia).
  destruct (macdLine_fin closes Hne) as (e12 & e26 & E12 & E26 & L12 & L26
                                         & F0 & EM).
  fold prices in E12, E26, EM.
  set (ms := map (fun xy => round64 (fst xy - snd xy)) (combine e12 e26)) in *.
  assert (Lms : length ms = length closes).
  { unfold ms. rewrite length_map, length_combine. lia. }
  assert (Hms : ms <> []) by (intro F; rewrite F in Lms; simpl in Lms; lia).
  destruct (calculateEMA_fin ms 9 ltac:(lia) Hms) as (ss & ES & LS & FS).
  assert (M0 : nth 0 ms 0 = 0).
  { unfold ms.
    rewrite (nth_combine_map _ e12 e26 0 0 0 0) by lia.
    cbn [fst snd]. rewrite F0. apply round64_0. ring. }
  unfold signalLine. rewrite EM, ES, !length_map, LS, Lms.
  split; [reflexivity|]. split; [reflexivity|].
  split; [rewrite nth_map_Fin by lia; now rewrite M0|].
  split; [rewrite nth_map_Fin by lia; now rewrite FS, M0|].
  exists (nth i e12 0), (nth i e26 0), (nth i ms 0), (nth i ss 0).
  rewrite E12, E26, !nth_map_Fin by lia.
  split; [reflexivity|]. split; [reflexivity|].
  split; [reflexivity|]. split; [reflexivity|].
  assert (Em : nth i ms 0 = round64 (nth i e12 0 - nth i e26 0)).
  { unfold ms. now rewrite (nth_combine_map _ e12 e26 i 0 0 0) by lia. }
  split; [exact Em|].
  destruct (emaD_near closes 12 i ltac:(lia) Hi Hpos)
    as (_ & _ & v12 & V12 & A1 & A2).
  destruct (emaD_near closes 26 i ltac:(lia) Hi Hpos)
    as (_ & _ & v26 & V26 & B1 & B2).
  fold prices in V12, V26.
  fold (ema12 prices) in V12. fold (ema26 prices) in V26.
  rewrite E12, nth_map_Fin in V12 by lia.
  rewrite E26, nth_map_Fin in V26 by lia.
  injection V12 as <-. injection V26 as <-.
  fold ds lo hi in A1, A2, B1, B2.
  pose proof (slack_pos (3 * i)) as SP.
  set (sl := slack (3 * i)) in *.
  assert (C1 : lo / sl <= nth i e12 0) by (apply Qle_shift_div_r; assumption).
  assert (C2 : lo / sl <= nth i e26 0) by (apply Qle_shift_div_r; assumption).
  rewrite Em.
  apply Qle_trans with (Qabs (nth i e12 0 - nth i e26 0) * (1 + u));
    [apply Qabs_round64|].
  pose proof u_small.
  apply Qmult_le_compat_r; [|lra].
  apply Qabs_Qle_condition. split; lra.
Qed.

(** X17 at the closes 0.9, 0.9, 0.9, index 2. *)
Lemma X17_witness :
  let closes := [9 # 10; 9 # 10; 9 # 10] in
  let prices := map dbl closes in
  let ds := map round64 closes in
  let lo := Qmin_list (firstn 3 ds) in
  let hi := Qmax_list (firstn 3 ds) in
  length (macdLine prices) = length closes /\
  length (signalLine prices) = length closes /\
  nth 0 (macdLine prices) NaN = Fin 0 /\
  nth 0 (signalLine prices) NaN = Fin 0 /\
  exists e12 e26 m s,
    nth 2 (ema12 prices) NaN = Fin e12 /\
    nth 2 (ema26 prices) NaN = Fin e26 /\
    nth 2 (macdLine prices) NaN = Fin m /\
    nth 2 (signalLine prices) NaN = Fin s /\
    m = round64 (e12 - e26) /\
    Qabs m <= (hi * slack (3 * 2) - lo / slack (3 * 2)) * (1 + u).
Proof.
  intro closes.
  apply (X17_macd_starts_at_zero_and_stays_near_the_spread closes 2).
  - simpl. lia.
  - intros c [<- | [<- | [<- | []]]]; reflexivity.
Defined.

(** *** RSI *)

Lemma get_num_fin (ds : list Q) (j : Z) :
  (0 <= j < Z.of_nat (length ds))%Z ->
  get_num (map Fin ds) j = Fin (nth (Z.to_nat j) ds 0).
Proof.
  intro H. unfold get_num.
  destruct (j <? 0)%Z eqn:E; [apply Z.ltb_lt in E; lia|].
  apply nth_map_Fin. lia.
Qed.

(** The sums of the rises and of the falls stay finite and are not
    negative; without a change they stay at zero. *)
Lemma rsi_fold (ds : list Q) :
  forall (n : nat) (from : Z) (g l : Q),
    (1 <= from)%Z -> (from + Z.of_nat n <= Z.of_nat (length ds))%Z ->
    0 <= g -> 0 <= l ->
    exists g' l',
      fold_left (rsi_turn (map Fin ds)) (z_seq from n) (Fin g, Fin l)
      = (Fin g', Fin l') /\
      0 <= g' /\ 0 <= l' /\
      ((forall j, (from <= j < from + Z.of_nat n)%Z ->
          nth (Z.to_nat j) ds 0 == nth (Z.to_nat (j - 1)) ds 0) ->
       g == 0 -> l == 0 -> g' == 0 /\ l' == 0).
Proof.
  induction n as [|n IH]; intros from g l Hf Hn Hg Hl.
  - exists g, l. cbn [z_seq fold_left]. repeat split; assumption.
  - cbn [z_seq fold_left]. unfold rsi_turn at 2.
    rewrite !get_num_fin by lia. rewrite fsub_fin.
    set (c := round64 (nth (Z.to_nat from) ds 0
                       - nth (Z.to_nat (from - 1)) ds 0)).
    cbn [gt lt].
    destruct (Qltb 0 c) eqn:E.
    + apply Qltb_true in E. rewrite fadd_fin.
      destruct (IH (from + 1)%Z (round64 (g + c)) l)
        as (g' & l' & F & G1 & L1 & Z1);
        [lia | lia | apply round64_nonneg; lra | assumption |].
      exists g', l'. split; [exact F|]. split; [assumption|].
      split; [assumption|].
      intros Hflat Hg0 Hl0. exfalso.
      assert (Hc : c == 0).
      { unfold c. apply round64_zero. rewrite (Hflat from) by lia. ring. }
      lra.
    + apply Qltb_false in E. rewrite fsub_fin.
      destruct (IH (from + 1)%Z g (round64 (l - c)))
        as (g' & l' & F & G1 & L1 & Z1);
        [lia | lia | assumption | apply round64_nonneg; lra |].
      exists g', l'. split; [exact F|]. split; [assumption|].
      split; [assumption|].
      intros Hflat Hg0 Hl0. apply Z1; [|assumption|].
      * intros j Hj. apply Hflat. lia.
      * assert (Hc : c == 0).
        { unfold c. apply round64_zero. rewrite (Hflat from) by lia. ring. }
        apply round64_zero. lra.
Qed.

Lemma round64_100 : round64 100 = 100.
Proof. reflexivity. Qed.

(** The last lines of [calculateRSI] on sums that are not negative. *)
Lemma rsi_value (g l : Q) (period : Z) :
  (1 <= period)%Z -> 0 <= g -> 0 <= l ->
  let avgGain := fdiv (Fin g) (of_Z period) in
  let avgLoss := fdiv (Fin l) (of_Z period) in
  let rs := fdiv avgGain (or_else avgLoss (Fin 1)) in
  exists r,
    fsub (Fin 100) (fdiv (Fin 100) (fadd (Fin 1) rs)) = Fin r /\
    0 <= r /\ r <= 100 /\ (g == 0 -> l == 0 -> r == 0).
Proof.
  intros Hp Hg Hl avgGain avgLoss rs.
  assert (Hpq : 0 < inject_Z period).
  { change 0 with (inject_Z 0). rewrite <- Zlt_Qlt. lia. }
  unfold rs, avgGain, avgLoss, of_Z. rewrite !fdiv_fin by lra.
  set (ag := round64 (g / inject_Z period)).
  set (al := round64 (l / inject_Z period)).
  assert (Hag : 0 <= ag).
  { apply round64_nonneg. apply Qle_shift_div_l; lra. }
  assert (Hal : 0 <= al).
  { apply round64_nonneg. apply Qle_shift_div_l; lra. }
  assert (Hden : exists den,
             or_else (Fin al) (Fin 1) = Fin den /\ 0 < den /\
             (al == 0 -> den = 1)).
  { unfold or_else, truthy. destruct (Qeq_bool al 0) eqn:E; cbn [negb].
    - exists 1. repeat split; reflexivity || lra.
    - exists al. apply Qeq_bool_neq in E. split; [reflexivity|].
      split; [lra|]. intro F. contradiction. }
  destruct Hden as (den & -> & Hd & Hd0).
  rewrite fdiv_fin by lra. rewrite fadd_fin.
  set (q := round64 (ag / den)).
  assert (Hq : 0 <= q).
  { apply round64_nonneg. apply Qle_shift_div_l; lra. }
  set (t := round64 (1 + q)).
  assert (Ht : 1 <= t).
  { unfold t. rewrite <- round64_1 at 1. apply round64_mono. lra. }
  rewrite fdiv_fin by lra. rewrite fsub_fin.
  set (h := round64 (100 / t)).
  assert (Hh0 : 0 <= h).
  { apply round64_nonneg. apply Qle_shift_div_l; lra. }
  assert (Hh1 : h <= 100).
  { unfold h. rewrite <- round64_100 at 2. apply round64_mono.
    apply Qle_shift_div_r; lra. }
  eexists. split; [reflexivity|]. split; [|split].
  - apply round64_nonneg. lra.
  - rewrite <- round64_100 at 2. apply round64_mono. lra.
  - intros Hg0 Hl0.
    assert (Eag : ag == 0).
    { unfold ag. apply round64_zero. rewrite Hg0. field. lra. }
    assert (Eal : al == 0).
    { unfold al. apply round64_zero. rewrite Hl0. field. lra. }
    rewrite (Hd0 Eal) in *.
    assert (Eq : q == 0).
    { unfold q. apply round64_zero. rewrite Eag. reflexivity. }
    assert (Et : t == 1).
    { unfold t. rewrite (round64_compat (1 + q) 1) by lra. reflexivity. }
    assert (Eh : h == 100).
    { unfold h. rewrite (round64_compat (100 / t) 100).
      - reflexivity.
      - rewrite Et. reflexivity. }
    apply round64_zero. lra.
Qed.

(** X18.  In doubles, for a period of at least one bar the RSI array
    has one entry per close; it is [null] below index [period], and
    from there on a finite number between 0 and 100, which is 0 when
    the closes of the window do not change. *)
Theorem X18_rsi_in_doubles_between_0_and_100 :
  forall (closes : list Q) (period : Z) (i : nat),
    (1 <= period)%Z -> (i < length closes)%nat ->
    let rsi := calculateRSI (map dbl closes) period in
    length rsi = length closes /\
    ((Z.of_nat i < period)%Z -> nth i rsi (Some NaN) = None) /\
    ((period <= Z.of_nat i)%Z ->
       exists r,
         nth i rsi None = Some (Fin r) /\ 0 <= r /\ r <= 100 /\
         ((forall j, (i - Z.to_nat period <= j <= i)%nat ->
             nth j closes 0 == nth i closes 0) -> r == 0)).
Proof.
  intros closes period i Hp Hi rsi.
  assert (Emap : map dbl closes = map Fin (map round64 closes))
    by (now rewrite map_map).
  assert (Hnth : forall d, nth i rsi d = rsi_at (map dbl closes) period i).
  { intro d. unfold rsi, calculateRSI. rewrite length_map.
    rewrite (nth_indep _ d (rsi_at (map dbl closes) period 0))
      by (now rewrite length_map, length_seq).
    rewrite map_nth, seq_nth by assumption. reflexivity. }
  split.
  { unfold rsi, calculateRSI. now rewrite length_map, length_seq, length_map. }
  split.
  - intro H. rewrite Hnth. unfold rsi_at.
    destruct (Z.of_nat i <? period)%Z eqn:E; [reflexivity|].
    apply Z.ltb_ge in E. lia.
  - intro H. rewrite Hnth. unfold rsi_at.
    destruct (Z.of_nat i <? period)%Z eqn:E; [apply Z.ltb_lt in E; lia|].
    rewrite Emap.
    destruct (rsi_fold (map round64 closes) (Z.to_nat period)
                (Z.of_nat i - period + 1) 0 0)
      as (g & l & -> & Hg & Hl & Hz);
      [lia | rewrite length_map; lia | lra | lra |].
    destruct (rsi_value g l period Hp Hg Hl) as (r & Er & R0 & R1 & Rz).
    cbv zeta in Er. exists r. rewrite Er.
    split; [reflexivity|]. split; [assumption|]. split; [assumption|].
    intro Hflat.
    destruct Hz as [G0 L0]; [|reflexivity|reflexivity|now apply Rz].
    intros j Hj.
    assert (J1 : (Z.to_nat j < length closes)%nat) by lia.
    assert (J2 : (Z.to_nat (j - 1) < length closes)%nat) by lia.
    rewrite (nth_indep _ 0 (round64 0)) by (now rewrite length_map).
    rewrite (nth_indep _ 0 (round64 0) (n := Z.to_nat (j - 1)))
      by (now rewrite length_map).
    rewrite !map_nth.
    apply round64_compat.
    rewrite (Hflat (Z.to_nat j)) by lia.
    rewrite (Hflat (Z.to_nat (j - 1))) by lia. reflexivity.
Qed.

(** X18 at the closes 1, 1, 3, 2 with period 3, index 3. *)
Lemma X18_witness :
  let closes := [1; 1; 3; 2] in
  let rsi := calculateRSI (map dbl closes) 3 in
  length rsi = length closes /\
  ((Z.of_nat 3 < 3)%Z -> nth 3 rsi (Some NaN) = None) /\
  (exists r,
     nth 3 rsi None = Some (Fin r) /\ 0 <= r /\ r <= 100 /\
     ((forall j, (3 - Z.to_nat 3 <= j <= 3)%nat ->
         nth j closes 0 == nth 3 closes 0) -> r == 0)).
Proof.
  intro closes.
  destruct (X18_rsi_in_doubles_between_0_and_100 closes 3 3) as (H1 & H2 & H3).
  - lia.
  - simpl. lia.
  - split; [exact H1|]. split; [exact H2|]. apply H3. lia.
Defined.

End IndicatorsDFacts.
